(** * Vertex-cache optimisation of triangle index buffers

    A shallow embedding of the two triangle reorderers of the mesh
    optimiser (the greedy, score driven [meshopt_optimizeVertexCache] and
    the FIFO, vertex driven [meshopt_optimizeVertexCacheFifo]) together
    with the adjacency builder and the scoring tables they share, followed
    by the properties of the specification that were checked against them.

    Conventions of the embedding:
    - [unsigned int] values are integers of [Z] kept in [0, 2^32); every
      arithmetic operation that the source performs on [unsigned int]
      is followed by [u32], its wrap-around.  [size_t] counters that only
      run up to a buffer length are plain [Z].
    - buffers are lists, read with [rd] and written with [wr]; an access
      outside the buffer (undefined behaviour in the source) reads the
      default element and writes nothing.
    - [float] is IEEE binary32, computed with the reference operations of
      [SpecFloat] at precision 24 and maximal exponent 128.
    - [while] loops take fuel; a run that exhausts it yields [None]. *)

From Stdlib Require Import ZArith Lia SpecFloat.
From stdpp Require Import base list numbers gmap.

Local Open Scope Z_scope.

(** ** Machine integers and buffers *)

Definition UINT_MAX : Z := 4294967295.

Definition u32 (z : Z) : Z := z mod 4294967296.

(** Conversion [unsigned int -> int] (two's complement). *)
Definition int_of_u32 (z : Z) : Z :=
  if z <? 2147483648 then z else z - 4294967296.

Definition rd {A} `{Inhabited A} (l : list A) (i : Z) : A := l !!! Z.to_nat i.

Definition wr {A} (l : list A) (i : Z) (x : A) : list A := <[Z.to_nat i := x]> l.

(** [for (size_t i = 0; i < n; ++i) s = body i s]: the state after [n]
    rounds is the body applied at [n-1] to the state after [n-1] rounds. *)
Fixpoint for_loop {S : Type} (n : nat) (body : Z → S → S) (s : S) : S :=
  match n with
  | O => s
  | S n' => body (Z.of_nat n') (for_loop n' body s)
  end.

(** ** Binary32 scores *)

Definition float : Type := spec_float.

Definition prec32 : Z := 24.
Definition emax32 : Z := 128.

Definition fadd : float → float → float := SFadd prec32 emax32.
Definition fsub : float → float → float := SFsub prec32 emax32.
Definition flt : float → float → bool := SFltb.
Definition fle : float → float → bool := SFleb.

Definition fzero : float := S754_zero false.

#[global] Instance float_inhabited : Inhabited float := populate fzero.

Definition float_of_Z (n : Z) : float := binary_normalize prec32 emax32 n 0 false.

(** The literal [0.ddd f]: the binary32 number nearest to [n / 1000]. *)
Definition milli (n : Z) : float :=
  SFdiv prec32 emax32 (float_of_Z n) (float_of_Z 1000).

(** ** Scoring model *)

Definition max_cache_size : Z := 16.
Definition max_valence : Z := 8.

Definition vertex_score_table_cache : list float :=
  [ fzero;
    milli 792; milli 767; milli 764; milli 956; milli 827; milli 751;
    milli 820; milli 864; milli 738; milli 788; milli 642; milli 646;
    milli 165; milli 654; milli 545; milli 284 ].

Definition vertex_score_table_live : list float :=
  [ fzero;
    milli 994; milli 721; milli 479; milli 423; milli 174; milli 80;
    milli 249; milli 56 ].

Definition vertexScore (cache_position : Z) (live_triangles : Z) : float :=
  let live_triangles_clamped :=
    if live_triangles <? max_valence then live_triangles else max_valence in
  fadd (rd vertex_score_table_cache (1 + cache_position))
       (rd vertex_score_table_live live_triangles_clamped).

(** ** Adjacency builder *)

Record Adjacency : Type := mkAdjacency {
  triangle_counts : list Z;
  offsets : list Z;
  data : list Z
}.

(** The constructor only allocates; the buffers are zero filled here. *)
Definition Adjacency_new (index_count vertex_count : Z) : Adjacency :=
  mkAdjacency (replicate (Z.to_nat vertex_count) 0)
              (replicate (Z.to_nat vertex_count) 0)
              (replicate (Z.to_nat index_count) 0).

(** [counts[indices[i]]++] for every index. *)
Definition fill_counts (indices : list Z) (index_count vertex_count : Z)
    (counts : list Z) : list Z :=
  let counts := for_loop (Z.to_nat vertex_count) (λ i c, wr c i 0) counts in
  for_loop (Z.to_nat index_count)
    (λ i c, wr c (rd indices i) (u32 (rd c (rd indices i) + 1))) counts.

(** Prefix sums of the counts; the second component is [offset]. *)
Definition fill_offsets (vertex_count : Z) (counts offs : list Z) : list Z * Z :=
  for_loop (Z.to_nat vertex_count)
    (λ i '(o, offset), (wr o i offset, u32 (offset + rd counts i)))
    (offs, 0).

(** [data[offsets[v]++] = unsigned(i)] *)
Definition scatter (v i : Z) (od : list Z * list Z) : list Z * list Z :=
  let '(o, d) := od in
  (wr o v (u32 (rd o v + 1)), wr d (rd o v) (u32 i)).

Definition fill_data (indices : list Z) (face_count : Z)
    (od : list Z * list Z) : list Z * list Z :=
  for_loop (Z.to_nat face_count)
    (λ i od,
       let a := rd indices (i * 3 + 0) in
       let b := rd indices (i * 3 + 1) in
       let c := rd indices (i * 3 + 2) in
       scatter c i (scatter b i (scatter a i od)))
    od.

Definition fix_offsets (vertex_count : Z) (counts offs : list Z) : list Z :=
  for_loop (Z.to_nat vertex_count)
    (λ i o, wr o i (u32 (rd o i - rd counts i))) offs.

Definition buildAdjacency (adjacency : Adjacency) (indices : list Z)
    (index_count vertex_count : Z) : Adjacency :=
  let face_count := index_count / 3 in
  let counts :=
    fill_counts indices index_count vertex_count (triangle_counts adjacency) in
  let '(offs, _) := fill_offsets vertex_count counts (offsets adjacency) in
  let '(offs, dat) := fill_data indices face_count (offs, data adjacency) in
  let offs := fix_offsets vertex_count counts offs in
  mkAdjacency counts offs dat.

(** ** Greedy reorderer: [meshopt_optimizeVertexCache] *)

Definition cache_size : Z := 16.

(** Length of each half of [cache_holder]. *)
Definition cache_slots : Z := max_cache_size + 3.

(** Lines 250-269: the new cache list is written into [cache_new], then the
    two halves of [cache_holder] swap roles.  The result is the new
    [cache], the new [cache_new], [cache_count] and [cache_write]. *)
Definition cache_update (cache cache_new : list Z) (cache_count : Z)
    (a b c : Z) : list Z * list Z * Z * Z :=
  let cache_write := 0 in
  let cache_new := wr cache_new cache_write a in
  let cache_write := cache_write + 1 in
  let cache_new := wr cache_new cache_write b in
  let cache_write := cache_write + 1 in
  let cache_new := wr cache_new cache_write c in
  let cache_write := cache_write + 1 in
  let '(cache_new, cache_write) :=
    for_loop (Z.to_nat cache_count)
      (λ i '(cn, cw),
         let index := rd cache i in
         if negb (index =? a) && negb (index =? b) && negb (index =? c)
         then (wr cn cw index, cw + 1)
         else (cn, cw))
      (cache_new, cache_write) in
  (cache_new, cache,
   (if cache_write >? cache_size then cache_size else cache_write),
   cache_write).

(** Lines 285-295: scan the neighbours of [index] for [current_triangle];
    on the first hit overwrite it with the last neighbour, shrink the list
    and stop.  [n] rounds remain, [i] is the loop counter. *)
Fixpoint remove_scan (n : nat) (i : Z) (adjacency : Adjacency)
    (index current_triangle : Z) : Adjacency :=
  match n with
  | O => adjacency
  | S n' =>
      let off := rd (offsets adjacency) index in
      let neighbours_size := rd (triangle_counts adjacency) index in
      let tri := rd (data adjacency) (off + i) in
      if tri =? current_triangle then
        mkAdjacency
          (wr (triangle_counts adjacency) index
              (u32 (rd (triangle_counts adjacency) index - 1)))
          (offsets adjacency)
          (wr (data adjacency) (off + i)
              (rd (data adjacency) (off + (neighbours_size - 1))))
      else remove_scan n' (i + 1) adjacency index current_triangle
  end.

Definition remove_triangle (adjacency : Adjacency) (index current_triangle : Z)
    : Adjacency :=
  remove_scan (Z.to_nat (rd (triangle_counts adjacency) index)) 0
    adjacency index current_triangle.

(** Lines 278-296. *)
Definition remove_emitted (adjacency : Adjacency) (indices : list Z)
    (current_triangle : Z) : Adjacency :=
  for_loop 3
    (λ k adj, remove_triangle adj (rd indices (current_triangle * 3 + k))
                current_triangle)
    adjacency.

(** The values threaded through the score sweep of lines 298-334:
    [vertex_scores], [triangle_scores], [best_triangle], [best_score]. *)
Definition sweep_acc : Type := list float * list float * Z * float.

(** Lines 320-332, one neighbour triangle. *)
Definition sweep_triangle (tri : Z) (score_diff : float) (acc : sweep_acc)
    : sweep_acc :=
  let '(vs, ts, best_triangle, best_score) := acc in
  let tri_score := fadd (rd ts tri) score_diff in
  if flt best_score tri_score
  then (vs, wr ts tri tri_score, tri, tri_score)
  else (vs, wr ts tri tri_score, best_triangle, best_score).

(** Lines 304-333, one entry of the cache list. *)
Definition sweep_vertex (adjacency : Adjacency) (live_triangles cache : list Z)
    (i : Z) (acc : sweep_acc) : sweep_acc :=
  let '(vs, ts, best_triangle, best_score) := acc in
  let index := rd cache i in
  let cache_position := if i >=? cache_size then -1 else i in
  let score := vertexScore cache_position (rd live_triangles index) in
  let score_diff := fsub score (rd vs index) in
  let vs := wr vs index score in
  let neighbours_begin := rd (offsets adjacency) index in
  for_loop (Z.to_nat (rd (triangle_counts adjacency) index))
    (λ k acc, sweep_triangle (rd (data adjacency) (neighbours_begin + k))
                score_diff acc)
    (vs, ts, best_triangle, best_score).

Definition sweep (adjacency : Adjacency) (live_triangles cache : list Z)
    (cache_write : Z) (vs ts : list float) : sweep_acc :=
  for_loop (Z.to_nat cache_write) (sweep_vertex adjacency live_triangles cache)
    (vs, ts, UINT_MAX, fzero).

(** [getNextTriangleDeadEnd]: the result and the advanced cursor. *)
Fixpoint getNextTriangleDeadEnd (fuel : nat) (input_cursor : Z)
    (emitted_flags : list bool) (face_count : Z) : option (Z * Z) :=
  if input_cursor <? face_count then
    if negb (rd emitted_flags input_cursor) then Some (input_cursor, input_cursor)
    else
      match fuel with
      | O => None
      | S fuel' =>
          getNextTriangleDeadEnd fuel' (u32 (input_cursor + 1)) emitted_flags
            face_count
      end
  else Some (UINT_MAX, input_cursor).

(** The local variables of [meshopt_optimizeVertexCache] that live across
    iterations of its main loop. *)
Record vc_state : Type := mkVc {
  vc_adjacency : Adjacency;
  vc_live_triangles : list Z;
  vc_emitted_flags : list bool;
  vc_vertex_scores : list float;
  vc_triangle_scores : list float;
  vc_cache : list Z;
  vc_cache_new : list Z;
  vc_cache_count : Z;
  vc_current_triangle : Z;
  vc_input_cursor : Z;
  vc_output_triangle : Z;
  vc_destination : list Z
}.

(** [live_triangles[v]--] *)
Definition decr (l : list Z) (v : Z) : list Z := wr l v (u32 (rd l v - 1)).

(** First half of an iteration of the main loop, lines 234-296: emit the
    current triangle, update the cache list, the live counts and the
    adjacency lists.  The second component is [cache_write]. *)
Definition vc_emit (indices : list Z) (st : vc_state) : vc_state * Z :=
  let current_triangle := vc_current_triangle st in
  let a := rd indices (current_triangle * 3 + 0) in
  let b := rd indices (current_triangle * 3 + 1) in
  let c := rd indices (current_triangle * 3 + 2) in
  (* output indices *)
  let output_triangle := vc_output_triangle st in
  let destination := wr (vc_destination st) (output_triangle * 3 + 0) a in
  let destination := wr destination (output_triangle * 3 + 1) b in
  let destination := wr destination (output_triangle * 3 + 2) c in
  let output_triangle := u32 (output_triangle + 1) in
  (* update emitted flags *)
  let emitted_flags := wr (vc_emitted_flags st) current_triangle true in
  let triangle_scores := wr (vc_triangle_scores st) current_triangle fzero in
  (* new triangle, old triangles *)
  let '(cache, cache_new, cache_count, cache_write) :=
    cache_update (vc_cache st) (vc_cache_new st) (vc_cache_count st) a b c in
  (* update live triangle counts *)
  let live_triangles := decr (decr (decr (vc_live_triangles st) a) b) c in
  (* remove emitted triangle from adjacency data *)
  let adjacency := remove_emitted (vc_adjacency st) indices current_triangle in
  (mkVc adjacency live_triangles emitted_flags (vc_vertex_scores st)
     triangle_scores cache cache_new cache_count current_triangle
     (vc_input_cursor st) output_triangle destination,
   cache_write).

(** One iteration of the main loop, lines 234-342. *)
Definition vc_step (fuel : nat) (indices : list Z) (face_count : Z)
    (st : vc_state) : option vc_state :=
  let '(st, cache_write) := vc_emit indices st in
  (* update cache positions, vertex scores and triangle scores *)
  let '(vertex_scores, triangle_scores, best_triangle, best_score) :=
    sweep (vc_adjacency st) (vc_live_triangles st) (vc_cache st) cache_write
      (vc_vertex_scores st) (vc_triangle_scores st) in
  (* step through input triangles in order if we hit a dead-end *)
  '(current_triangle, input_cursor) ←
    (if best_triangle =? UINT_MAX
     then getNextTriangleDeadEnd fuel (vc_input_cursor st)
            (vc_emitted_flags st) face_count
     else Some (best_triangle, vc_input_cursor st));
  Some (mkVc (vc_adjacency st) (vc_live_triangles st) (vc_emitted_flags st)
          vertex_scores triangle_scores (vc_cache st) (vc_cache_new st)
          (vc_cache_count st) current_triangle input_cursor
          (vc_output_triangle st) (vc_destination st)).

(** [while (current_triangle != ~0u)] *)
Fixpoint vc_loop (fuel n : nat) (indices : list Z) (face_count : Z)
    (st : vc_state) : option vc_state :=
  if vc_current_triangle st =? UINT_MAX then Some st
  else
    match n with
    | O => None
    | S n' =>
        st' ← vc_step fuel indices face_count st;
        vc_loop fuel n' indices face_count st'
    end.

(** The state at the head of the main loop after [n] complete iterations,
    when the loop runs that long. *)
Fixpoint vc_iterate (fuel n : nat) (indices : list Z) (face_count : Z)
    (st : vc_state) : option vc_state :=
  match n with
  | O => Some st
  | S n' =>
      st' ← vc_iterate fuel n' indices face_count st;
      if vc_current_triangle st' =? UINT_MAX then None
      else vc_step fuel indices face_count st'
  end.

(** Lines 185-230: the state on entry to the main loop. *)
Definition vc_init (destination indices : list Z)
    (index_count vertex_count : Z) : vc_state :=
  let face_count := index_count / 3 in
  (* build adjacency information *)
  let adjacency :=
    buildAdjacency (Adjacency_new index_count vertex_count) indices
      index_count vertex_count in
  (* live triangle counts *)
  let live_triangles := triangle_counts adjacency in
  (* emitted flags *)
  let emitted_flags := replicate (Z.to_nat face_count) false in
  (* compute initial vertex scores *)
  let vertex_scores :=
    for_loop (Z.to_nat vertex_count)
      (λ i vs, wr vs i (vertexScore (-1) (rd live_triangles i)))
      (replicate (Z.to_nat vertex_count) fzero) in
  (* compute triangle scores *)
  let triangle_scores :=
    for_loop (Z.to_nat face_count)
      (λ i ts,
         let a := rd indices (i * 3 + 0) in
         let b := rd indices (i * 3 + 1) in
         let c := rd indices (i * 3 + 2) in
         wr ts i (fadd (fadd (rd vertex_scores a) (rd vertex_scores b))
                       (rd vertex_scores c)))
      (replicate (Z.to_nat face_count) fzero) in
  let cache := replicate (Z.to_nat cache_slots) 0 in
  let cache_new := replicate (Z.to_nat cache_slots) 0 in
  mkVc adjacency live_triangles emitted_flags vertex_scores triangle_scores
    cache cache_new 0 0 1 0 destination.

(** The body of [meshopt_optimizeVertexCache] once [indices] and
    [destination] are known to be different buffers: the final contents
    of [destination]. *)
Definition optimizeVertexCache_run (fuel : nat) (destination indices : list Z)
    (index_count vertex_count : Z) : option (list Z) :=
  let face_count := index_count / 3 in
  st ← vc_loop fuel fuel indices face_count
         (vc_init destination indices index_count vertex_count);
  Some (vc_destination st).

(** ** Memory: buffers named by their base pointer *)

Abbreviation ptr := nat (only parsing).
Abbreviation memory := (gmap ptr (list Z)).

Definition buffer (m : memory) (p : ptr) : list Z := default [] (m !! p).

(** [meshopt_optimizeVertexCache(destination, indices, index_count,
    vertex_count)].  Two pointers are the same buffer or disjoint ones.
    When they are the same, the loop reads the private copy
    [indices_copy]; otherwise it reads the caller's buffer, which no write
    to [destination] can change. *)
Definition meshopt_optimizeVertexCache (fuel : nat) (m : memory)
    (destination indices : ptr) (index_count vertex_count : Z)
    : option memory :=
  (* guard for empty meshes *)
  if (index_count =? 0) || (vertex_count =? 0) then Some m
  else
    (* support in-place optimization *)
    let indices_data :=
      if decide (destination = indices)
      then take (Z.to_nat index_count) (buffer m indices)
      else buffer m indices in
    out ← optimizeVertexCache_run fuel (buffer m destination) indices_data
            index_count vertex_count;
    Some (<[destination := out]> m).

(** ** FIFO reorderer: [meshopt_optimizeVertexCacheFifo] *)

(** [getNextVertexNeighbour] over the candidates
    [dead_end[next_candidates_begin .. next_candidates_end)]. *)
Definition neighbour_priority (live_triangles cache_timestamps : list Z)
    (timestamp cache_size vertex : Z) : Z :=
  (* will it be in cache after fanning? *)
  if u32 (2 * rd live_triangles vertex + timestamp - rd cache_timestamps vertex)
       <=? cache_size
  then int_of_u32 (u32 (timestamp - rd cache_timestamps vertex))
  else 0.

Definition getNextVertexNeighbour (dead_end : list Z)
    (next_candidates_begin next_candidates_end : Z)
    (live_triangles cache_timestamps : list Z) (timestamp cache_size : Z) : Z :=
  fst
    (for_loop (Z.to_nat (next_candidates_end - next_candidates_begin))
       (λ k '(best_candidate, best_priority),
          let vertex := rd dead_end (next_candidates_begin + k) in
          (* otherwise we don't need to process it *)
          if rd live_triangles vertex >? 0 then
            let priority :=
              neighbour_priority live_triangles cache_timestamps timestamp
                cache_size vertex in
            if priority >? best_priority then (vertex, priority)
            else (best_candidate, best_priority)
          else (best_candidate, best_priority))
       (UINT_MAX, -1)).

(** First loop of [getNextVertexDeadEnd]: pop the dead-end stack.  The
    result is the vertex found, if any, and the new stack top. *)
Fixpoint pop_dead_end (fuel : nat) (dead_end : list Z) (dead_end_top : Z)
    (live_triangles : list Z) : option (option Z * Z) :=
  if dead_end_top =? 0 then Some (None, dead_end_top)
  else
    match fuel with
    | O => None
    | S fuel' =>
        let dead_end_top := u32 (dead_end_top - 1) in
        let vertex := rd dead_end dead_end_top in
        if rd live_triangles vertex >? 0 then Some (Some vertex, dead_end_top)
        else pop_dead_end fuel' dead_end dead_end_top live_triangles
    end.

(** Second loop of [getNextVertexDeadEnd]: input order. *)
Fixpoint scan_input_order (fuel : nat) (input_cursor : Z)
    (live_triangles : list Z) (vertex_count : Z) : option (Z * Z) :=
  if input_cursor <? vertex_count then
    if rd live_triangles input_cursor >? 0 then Some (input_cursor, input_cursor)
    else
      match fuel with
      | O => None
      | S fuel' =>
          scan_input_order fuel' (u32 (input_cursor + 1)) live_triangles
            vertex_count
      end
  else Some (UINT_MAX, input_cursor).

(** The result, the new [dead_end_top] and the new [input_cursor]. *)
Definition getNextVertexDeadEnd (fuel : nat) (dead_end : list Z)
    (dead_end_top input_cursor : Z) (live_triangles : list Z)
    (vertex_count : Z) : option (Z * Z * Z) :=
  '(found, dead_end_top) ← pop_dead_end fuel dead_end dead_end_top live_triangles;
  match found with
  | Some vertex => Some (vertex, dead_end_top, input_cursor)
  | None =>
      '(vertex, input_cursor) ←
        scan_input_order fuel input_cursor live_triangles vertex_count;
      Some (vertex, dead_end_top, input_cursor)
  end.

Record ff_state : Type := mkFf {
  ff_live_triangles : list Z;
  ff_cache_timestamps : list Z;
  ff_dead_end : list Z;
  ff_dead_end_top : Z;
  ff_emitted_flags : list bool;
  ff_current_vertex : Z;
  ff_timestamp : Z;
  ff_input_cursor : Z;
  ff_output_triangle : Z;
  ff_destination : list Z
}.

(** [if (timestamp - cache_timestamps[v] > cache_size)
       cache_timestamps[v] = timestamp++;] *)
Definition cache_touch (cache_size v : Z) (ct : list Z * Z) : list Z * Z :=
  let '(cache_timestamps, timestamp) := ct in
  if u32 (timestamp - rd cache_timestamps v) >? cache_size
  then (wr cache_timestamps v timestamp, u32 (timestamp + 1))
  else (cache_timestamps, timestamp).

(** Lines 409-445: one neighbour triangle of the current vertex. *)
Definition ff_emit (indices : list Z) (cache_size triangle : Z) (st : ff_state)
    : ff_state :=
  if negb (rd (ff_emitted_flags st) triangle) then
    let a := rd indices (triangle * 3 + 0) in
    let b := rd indices (triangle * 3 + 1) in
    let c := rd indices (triangle * 3 + 2) in
    (* output indices *)
    let output_triangle := ff_output_triangle st in
    let destination := wr (ff_destination st) (output_triangle * 3 + 0) a in
    let destination := wr destination (output_triangle * 3 + 1) b in
    let destination := wr destination (output_triangle * 3 + 2) c in
    let output_triangle := u32 (output_triangle + 1) in
    (* update dead-end stack *)
    let dead_end_top := ff_dead_end_top st in
    let dead_end := wr (ff_dead_end st) (dead_end_top + 0) a in
    let dead_end := wr dead_end (dead_end_top + 1) b in
    let dead_end := wr dead_end (dead_end_top + 2) c in
    let dead_end_top := u32 (dead_end_top + 3) in
    (* update live triangle counts *)
    let live_triangles := decr (decr (decr (ff_live_triangles st) a) b) c in
    (* update cache info *)
    let '(cache_timestamps, timestamp) :=
      cache_touch cache_size c
        (cache_touch cache_size b
           (cache_touch cache_size a (ff_cache_timestamps st, ff_timestamp st))) in
    (* update emitted flags *)
    let emitted_flags := wr (ff_emitted_flags st) triangle true in
    mkFf live_triangles cache_timestamps dead_end dead_end_top emitted_flags
      (ff_current_vertex st) timestamp (ff_input_cursor st) output_triangle
      destination
  else st.

(** One iteration of the main loop, lines 401-457. *)
Definition ff_step (fuel : nat) (adjacency : Adjacency) (indices : list Z)
    (vertex_count cache_size : Z) (st : ff_state) : option ff_state :=
  let current_vertex := ff_current_vertex st in
  let next_candidates_begin := ff_dead_end_top st in
  (* emit all vertex neighbours *)
  let neighbours_begin := rd (offsets adjacency) current_vertex in
  let st :=
    for_loop (Z.to_nat (rd (triangle_counts adjacency) current_vertex))
      (λ k st, ff_emit indices cache_size
                 (rd (data adjacency) (neighbours_begin + k)) st)
      st in
  (* next candidates are the ones we pushed to dead-end stack just now *)
  let next_candidates_end := ff_dead_end_top st in
  (* get next vertex *)
  let current_vertex :=
    getNextVertexNeighbour (ff_dead_end st) next_candidates_begin
      next_candidates_end (ff_live_triangles st) (ff_cache_timestamps st)
      (ff_timestamp st) cache_size in
  '(current_vertex, dead_end_top, input_cursor) ←
    (if current_vertex =? UINT_MAX
     then getNextVertexDeadEnd fuel (ff_dead_end st) (ff_dead_end_top st)
            (ff_input_cursor st) (ff_live_triangles st) vertex_count
     else Some (current_vertex, ff_dead_end_top st, ff_input_cursor st));
  Some (mkFf (ff_live_triangles st) (ff_cache_timestamps st) (ff_dead_end st)
          dead_end_top (ff_emitted_flags st) current_vertex (ff_timestamp st)
          input_cursor (ff_output_triangle st) (ff_destination st)).

(** [while (current_vertex != ~0u)] *)
Fixpoint ff_loop (fuel n : nat) (adjacency : Adjacency) (indices : list Z)
    (vertex_count cache_size : Z) (st : ff_state) : option ff_state :=
  if ff_current_vertex st =? UINT_MAX then Some st
  else
    match n with
    | O => None
    | S n' =>
        st' ← ff_step fuel adjacency indices vertex_count cache_size st;
        ff_loop fuel n' adjacency indices vertex_count cache_size st'
    end.

(** Lines 376-397: the state on entry to the main loop. *)
Definition ff_init (adjacency : Adjacency) (destination : list Z)
    (index_count vertex_count cache_size : Z) : ff_state :=
  let face_count := index_count / 3 in
  mkFf (triangle_counts adjacency)
    (replicate (Z.to_nat vertex_count) 0)
    (replicate (Z.to_nat index_count) 0) 0
    (replicate (Z.to_nat face_count) false)
    0 (u32 (cache_size + 1)) 1 0 destination.

Definition optimizeVertexCacheFifo_run (fuel : nat)
    (destination indices : list Z) (index_count vertex_count cache_size : Z)
    : option (list Z) :=
  let adjacency :=
    buildAdjacency (Adjacency_new index_count vertex_count) indices
      index_count vertex_count in
  st ← ff_loop fuel fuel adjacency indices vertex_count cache_size
         (ff_init adjacency destination index_count vertex_count cache_size);
  Some (ff_destination st).

Definition meshopt_optimizeVertexCacheFifo (fuel : nat) (m : memory)
    (destination indices : ptr) (index_count vertex_count cache_size : Z)
    : option memory :=
  (* guard for empty meshes *)
  if (index_count =? 0) || (vertex_count =? 0) then Some m
  else
    (* support in-place optimization *)
    let indices_data :=
      if decide (destination = indices)
      then take (Z.to_nat index_count) (buffer m indices)
      else buffer m indices in
    out ← optimizeVertexCacheFifo_run fuel (buffer m destination) indices_data
            index_count vertex_count cache_size;
    Some (<[destination := out]> m).

(** * Buffers, loops and counting *)

Lemma u32_small z : 0 ≤ z < 4294967296 → u32 z = z.
Proof. intros Hz. unfold u32. apply Z.mod_small. exact Hz. Qed.

Section Buffers.
Context {A : Type} `{Inhabited A}.
Implicit Types (l : list A) (i j : Z) (x : A).

Lemma length_wr l i x : length (wr l i x) = length l.
Proof. unfold wr. apply length_insert. Qed.

Lemma rd_wr_eq l i x : 0 ≤ i < Z.of_nat (length l) → rd (wr l i x) i = x.
Proof.
  intros Hi. unfold rd, wr. apply list_lookup_total_insert_eq. lia.
Qed.

Lemma rd_wr_ne l i j x : 0 ≤ i → 0 ≤ j → i ≠ j → rd (wr l i x) j = rd l j.
Proof.
  intros Hi Hj Hne. unfold rd, wr. apply list_lookup_total_insert_ne. lia.
Qed.

Lemma rd_replicate n x i : 0 ≤ i < Z.of_nat n → rd (replicate n x) i = x.
Proof. intros Hi. unfold rd. apply lookup_total_replicate_2. lia. Qed.

Lemma rd_take l n i : 0 ≤ i < Z.of_nat n → rd (take n l) i = rd l i.
Proof. intros Hi. unfold rd. apply lookup_total_take_lt. lia. Qed.
End Buffers.

Lemma for_loop_ind {S : Type} (P : nat → S → Prop) (n : nat)
    (body : Z → S → S) (s : S) :
  P O s →
  (∀ i s', (i < n)%nat → P i s' → P (Datatypes.S i) (body (Z.of_nat i) s')) →
  P n (for_loop n body s).
Proof.
  intros H0 Hstep. induction n as [|n IH]; simpl.
  - exact H0.
  - apply Hstep; [lia|]. apply IH. intros i s' Hi. apply Hstep. lia.
Qed.

Lemma for_loop_ext {S : Type} (n : nat) (f g : Z → S → S) (s : S) :
  (∀ i s', 0 ≤ i < Z.of_nat n → f i s' = g i s') →
  for_loop n f s = for_loop n g s.
Proof.
  intros Hfg. induction n as [|n IH]; simpl; [reflexivity|].
  rewrite IH by (intros; apply Hfg; lia). apply Hfg. lia.
Qed.

(** Number of occurrences of [x] in [l]. *)
Fixpoint occ (x : Z) (l : list Z) : nat :=
  match l with
  | [] => O
  | y :: l' => ((if (y =? x)%Z then 1 else 0) + occ x l')%nat
  end.

Lemma occ_app x l1 l2 : occ x (l1 ++ l2) = (occ x l1 + occ x l2)%nat.
Proof. induction l1 as [|y l1 IH]; simpl; [reflexivity|]. rewrite IH. lia. Qed.

Lemma occ_zero_not_in x l : occ x l = O ↔ x ∉ l.
Proof.
  induction l as [|y l IH]; simpl.
  - split; [intros _; apply not_elem_of_nil|reflexivity].
  - rewrite not_elem_of_cons. destruct (Z.eqb_spec y x) as [->|Hne].
    + split; [discriminate|intros [Hx _]; contradiction].
    + simpl. rewrite IH. split; [intros Hx; split; [congruence|exact Hx]|tauto].
Qed.

Lemma occ_pos_in x l : (0 < occ x l)%nat ↔ x ∈ l.
Proof.
  destruct (decide (x ∈ l)) as [Hin|Hnin].
  - split; [intros _; exact Hin|]. intros _.
    destruct (occ x l) eqn:E; [|lia]. apply occ_zero_not_in in E. contradiction.
  - split; [|contradiction]. apply occ_zero_not_in in Hnin. lia.
Qed.

Lemma occ_Permutation x l1 l2 : l1 ≡ₚ l2 → occ x l1 = occ x l2.
Proof.
  induction 1; simpl; try lia.
Qed.

(** The part of a buffer that starts at [o] and has [n] elements. *)
Definition slice (l : list Z) (o n : Z) : list Z :=
  take (Z.to_nat n) (drop (Z.to_nat o) l).

Lemma length_slice l o n :
  0 ≤ o → 0 ≤ n → o + n ≤ Z.of_nat (length l) →
  length (slice l o n) = Z.to_nat n.
Proof.
  intros Ho Hn Hlen. unfold slice. rewrite length_take, length_drop. lia.
Qed.

Lemma rd_slice l o n k : 0 ≤ o → 0 ≤ k < n → rd (slice l o n) k = rd l (o + k).
Proof.
  intros Ho Hk. unfold rd, slice.
  rewrite lookup_total_take_lt by lia. rewrite lookup_total_drop.
  f_equal. lia.
Qed.

Lemma slice_wr_out l o n p x :
  0 ≤ o → 0 ≤ n → 0 ≤ p → p < o ∨ o + n ≤ p →
  slice (wr l p x) o n = slice l o n.
Proof.
  intros Ho Hn Hp Hout. unfold slice, wr. destruct Hout as [Hlt|Hge].
  - rewrite drop_insert_lt by lia. reflexivity.
  - rewrite drop_insert_ge by lia. rewrite take_insert_ge by lia. reflexivity.
Qed.

Lemma slice_wr_in l o n p x :
  0 ≤ o → 0 ≤ n → o ≤ p < o + n →
  slice (wr l p x) o n = wr (slice l o n) (p - o) x.
Proof.
  intros Ho Hn Hp. unfold slice, wr.
  rewrite drop_insert_ge by lia. rewrite take_insert_lt by lia.
  f_equal. lia.
Qed.

Lemma slice_snoc l o n :
  0 ≤ o → 0 ≤ n → o + n < Z.of_nat (length l) →
  slice l o (n + 1) = slice l o n ++ [rd l (o + n)].
Proof.
  intros Ho Hn Hlen. unfold slice, rd.
  replace (Z.to_nat (n + 1)) with (Datatypes.S (Z.to_nat n)) by lia.
  apply take_S_r. rewrite lookup_drop.
  replace (Z.to_nat o + Z.to_nat n)%nat with (Z.to_nat (o + n)) by lia.
  apply list_lookup_lookup_total_lt. lia.
Qed.

Lemma slice_nil l o : slice l o 0 = [].
Proof. reflexivity. Qed.

(** * The adjacency builder *)

(** The three indices of triangle [t]. *)
Definition corners (indices : list Z) (t : Z) : list Z :=
  [rd indices (t * 3 + 0); rd indices (t * 3 + 1); rd indices (t * 3 + 2)].

(** How many of the first [j] indices are [v]. *)
Fixpoint uses (indices : list Z) (v : Z) (j : nat) : nat :=
  match j with
  | O => O
  | S j' =>
      (uses indices v j' + if (rd indices (Z.of_nat j') =? v)%Z then 1 else 0)%nat
  end.

(** The triangles of those indices, in input order. *)
Fixpoint fan (indices : list Z) (v : Z) (j : nat) : list Z :=
  match j with
  | O => []
  | S j' =>
      fan indices v j' ++
      (if rd indices (Z.of_nat j') =? v then [Z.of_nat j' / 3] else [])
  end.

Fixpoint zsum_upto (f : Z → Z) (n : nat) : Z :=
  match n with
  | O => 0
  | S n' => zsum_upto f n' + f (Z.of_nat n')
  end.

(** Sum of the first [v] entries of a buffer. *)
Definition psum (counts : list Z) (v : Z) : Z := zsum_upto (rd counts) (Z.to_nat v).

(** What the source requires of its arguments.  The bound on
    [index_count] keeps triangle numbers and offsets inside
    [unsigned int], where the source stores them. *)
Record valid_mesh (indices : list Z) (index_count vertex_count : Z) : Prop := {
  vm_triples : index_count mod 3 = 0;
  vm_pos : 0 ≤ index_count;
  vm_vpos : 0 ≤ vertex_count;
  vm_u32 : index_count < 4294967296;
  vm_length : index_count ≤ Z.of_nat (length indices);
  vm_range : ∀ i, 0 ≤ i < index_count → 0 ≤ rd indices i < vertex_count
}.

Lemma length_fan indices v j : length (fan indices v j) = uses indices v j.
Proof.
  induction j as [|j IH]; simpl; [reflexivity|].
  rewrite length_app, IH. destruct (_ =? _); simpl; lia.
Qed.

Lemma uses_le indices v j : (uses indices v j ≤ j)%nat.
Proof. induction j as [|j IH]; simpl; [lia|]. destruct (_ =? _); lia. Qed.

Lemma uses_mono indices v j k : (j ≤ k)%nat → (uses indices v j ≤ uses indices v k)%nat.
Proof. induction 1; simpl; [lia|]. destruct (_ =? _); lia. Qed.

Lemma uses_lt indices v j k :
  (j < k)%nat → rd indices (Z.of_nat j) = v →
  (uses indices v j < uses indices v k)%nat.
Proof.
  intros Hjk Hv.
  assert (uses indices v (S j) = S (uses indices v j)) as HS.
  { simpl. rewrite Hv, Z.eqb_refl. lia. }
  pose proof (uses_mono indices v (S j) k ltac:(lia)). lia.
Qed.

Lemma zsum_upto_ext f g n :
  (∀ v, 0 ≤ v < Z.of_nat n → f v = g v) → zsum_upto f n = zsum_upto g n.
Proof.
  intros Hfg. induction n as [|n IH]; simpl; [reflexivity|].
  rewrite IH by (intros; apply Hfg; lia). rewrite Hfg by lia. reflexivity.
Qed.

Lemma zsum_upto_add f g n :
  zsum_upto (λ v, f v + g v) n = zsum_upto f n + zsum_upto g n.
Proof. induction n as [|n IH]; simpl; lia. Qed.

Lemma zsum_upto_nonneg f n :
  (∀ v, 0 ≤ v < Z.of_nat n → 0 ≤ f v) → 0 ≤ zsum_upto f n.
Proof.
  intros Hf. induction n as [|n IH]; simpl; [lia|].
  pose proof (Hf (Z.of_nat n) ltac:(lia)) as Hn.
  assert (0 ≤ zsum_upto f n) by (apply IH; intros; apply Hf; lia). lia.
Qed.

Lemma zsum_upto_mono f n m :
  (∀ v, 0 ≤ v < Z.of_nat m → 0 ≤ f v) → (n ≤ m)%nat →
  zsum_upto f n ≤ zsum_upto f m.
Proof.
  intros Hf. induction 1 as [|m Hle IH]; simpl; [lia|].
  pose proof (Hf (Z.of_nat m) ltac:(lia)) as Hm.
  assert (zsum_upto f n ≤ zsum_upto f m) by (apply IH; intros; apply Hf; lia).
  lia.
Qed.

Lemma zsum_upto_indicator x n :
  zsum_upto (λ v, if x =? v then 1 else 0) n =
  if decide (0 ≤ x < Z.of_nat n) then 1 else 0.
Proof.
  induction n as [|n IH]; simpl.
  - destruct (decide _); [lia|reflexivity].
  - rewrite IH. destruct (Z.eqb_spec x (Z.of_nat n));
      repeat destruct (decide _); lia.
Qed.

Lemma uses_total indices V j :
  (∀ p, 0 ≤ p < Z.of_nat j → 0 ≤ rd indices p < Z.of_nat V) →
  zsum_upto (λ v, Z.of_nat (uses indices v j)) V = Z.of_nat j.
Proof.
  intros Hrange. induction j as [|j IH].
  - clear Hrange. simpl. induction V as [|V IHV]; simpl; lia.
  - rewrite (zsum_upto_ext _
      (λ v, Z.of_nat (uses indices v j) +
            (if rd indices (Z.of_nat j) =? v then 1 else 0))).
    + rewrite zsum_upto_add, IH by (intros; apply Hrange; lia).
      rewrite zsum_upto_indicator.
      specialize (Hrange (Z.of_nat j) ltac:(lia)).
      destruct (decide _); lia.
    + intros v _. simpl. destruct (_ =? _); lia.
Qed.

Lemma fill_counts_spec indices index_count vertex_count counts :
  valid_mesh indices index_count vertex_count →
  Z.of_nat (length counts) = vertex_count →
  let c := fill_counts indices index_count vertex_count counts in
  length c = length counts ∧
  ∀ v, 0 ≤ v < vertex_count →
    rd c v = Z.of_nat (uses indices v (Z.to_nat index_count)).
Proof.
  intros Hvalid Hlen. unfold fill_counts.
  set (zeroed := for_loop (Z.to_nat vertex_count) _ counts).
  assert (length zeroed = length counts ∧
          ∀ v, 0 ≤ v < vertex_count → rd zeroed v = 0) as [Hzlen Hz].
  { subst zeroed.
    enough (length (for_loop (Z.to_nat vertex_count) (λ i c, wr c i 0) counts)
              = length counts ∧
            ∀ v, 0 ≤ v < Z.of_nat (Z.to_nat vertex_count) →
              rd (for_loop (Z.to_nat vertex_count) (λ i c, wr c i 0) counts) v = 0)
      as [? Hres].
    { split; [assumption|]. intros v Hv. apply Hres. lia. }
    apply (for_loop_ind (λ n c, length c = length counts ∧
             ∀ v, 0 ≤ v < Z.of_nat n → rd c v = 0)).
    - split; [reflexivity|]. intros v Hv. lia.
    - intros i c Hi [Hc Hcz]. rewrite length_wr. split; [assumption|].
      intros v Hv. destruct (decide (v = Z.of_nat i)) as [->|Hne].
      + apply rd_wr_eq. lia.
      + rewrite rd_wr_ne by lia. apply Hcz. lia. }
  cbn zeta.
  apply (for_loop_ind (λ j c, length c = length counts ∧
           ∀ v, 0 ≤ v < vertex_count → rd c v = Z.of_nat (uses indices v j))).
  - split; [assumption|]. intros v Hv. simpl. apply Hz, Hv.
  - intros j c Hj [Hc Hcu]. rewrite length_wr. split; [assumption|].
    pose proof (vm_range _ _ _ Hvalid (Z.of_nat j) ltac:(lia)) as Hw.
    pose proof (vm_u32 _ _ _ Hvalid) as Hsmall.
    intros v Hv. cbn [uses].
    destruct (Z.eqb_spec (rd indices (Z.of_nat j)) v) as [->|Hne].
    + rewrite rd_wr_eq by lia. rewrite Hcu by lia.
      pose proof (uses_le indices v j).
      rewrite u32_small by lia. lia.
    + rewrite rd_wr_ne by lia. rewrite Hcu by lia. lia.
Qed.

Lemma fill_offsets_spec vertex_count counts offs :
  Z.of_nat (length offs) = vertex_count →
  (∀ v, 0 ≤ v < vertex_count → 0 ≤ rd counts v) →
  psum counts vertex_count < 4294967296 →
  length (fill_offsets vertex_count counts offs).1 = length offs ∧
  (fill_offsets vertex_count counts offs).2 = psum counts vertex_count ∧
  ∀ v, 0 ≤ v < vertex_count →
    rd (fill_offsets vertex_count counts offs).1 v = psum counts v.
Proof.
  intros Hlen Hnonneg Hsmall. unfold fill_offsets, psum in *.
  enough (length (for_loop (Z.to_nat vertex_count)
            (λ i '(o, offset), (wr o i offset, u32 (offset + rd counts i)))
            (offs, 0)).1 = length offs ∧
          (for_loop (Z.to_nat vertex_count)
            (λ i '(o, offset), (wr o i offset, u32 (offset + rd counts i)))
            (offs, 0)).2 = zsum_upto (rd counts) (Z.to_nat vertex_count) ∧
          ∀ v, 0 ≤ v < Z.of_nat (Z.to_nat vertex_count) →
            rd (for_loop (Z.to_nat vertex_count)
                  (λ i '(o, offset), (wr o i offset, u32 (offset + rd counts i)))
                  (offs, 0)).1 v = zsum_upto (rd counts) (Z.to_nat v))
    as (? & ? & Hres).
  { split; [assumption|]. split; [assumption|]. intros v Hv. apply Hres. lia. }
  apply (for_loop_ind (λ i s, length s.1 = length offs ∧
           s.2 = zsum_upto (rd counts) i ∧
           ∀ v, 0 ≤ v < Z.of_nat i → rd s.1 v = zsum_upto (rd counts) (Z.to_nat v))).
  - simpl. split; [reflexivity|]. split; [reflexivity|]. intros v Hv. lia.
  - intros i [o offset] Hi (Ho & Hoff & Hpre). cbn [fst snd] in *.
    rewrite length_wr. split; [assumption|]. subst offset.
    assert (0 ≤ zsum_upto (rd counts) i) as Hlo.
    { apply zsum_upto_nonneg. intros v Hv. apply Hnonneg. lia. }
    assert (zsum_upto (rd counts) (S i)
            ≤ zsum_upto (rd counts) (Z.to_nat vertex_count)) as Hhi.
    { apply zsum_upto_mono; [|lia]. intros v Hv. apply Hnonneg. lia. }
    cbn [zsum_upto] in *.
    pose proof (Hnonneg (Z.of_nat i) ltac:(lia)) as Hci.
    split.
    + apply u32_small. lia.
    + intros v Hv. destruct (decide (v = Z.of_nat i)) as [->|Hne].
      * rewrite rd_wr_eq by lia. rewrite Nat2Z.id. reflexivity.
      * rewrite rd_wr_ne by lia. apply Hpre. lia.
Qed.

(** Every vertex owns the range [base v, base v + cap v) of a buffer of
    length [n], and the ranges follow each other in vertex order. *)
Definition tiled (base cap : Z → Z) (vertex_count n : Z) : Prop :=
  ∀ v, 0 ≤ v < vertex_count →
    0 ≤ base v ∧ 0 ≤ cap v ∧ base v + cap v ≤ n ∧
    ∀ u, 0 ≤ u < v → base u + cap u ≤ base v.

Lemma tiled_disjoint base cap vertex_count n u v :
  tiled base cap vertex_count n →
  0 ≤ u < vertex_count → 0 ≤ v < vertex_count → u ≠ v →
  base u + cap u ≤ base v ∨ base v + cap v ≤ base u.
Proof.
  intros Ht Hu Hv Hne. destruct (Z.lt_total u v) as [Hlt|[Heq|Hgt]].
  - left. apply (Ht v Hv). lia.
  - contradiction.
  - right. apply (Ht u Hu). lia.
Qed.

(** State of the scatter pass once the first [j] indices are placed. *)
Definition scatter_inv (indices : list Z) (base : Z → Z) (vertex_count n : Z)
    (j : nat) (od : list Z * list Z) : Prop :=
  Z.of_nat (length od.1) = vertex_count ∧
  Z.of_nat (length od.2) = n ∧
  ∀ v, 0 ≤ v < vertex_count →
    rd od.1 v = base v + Z.of_nat (uses indices v j) ∧
    slice od.2 (base v) (Z.of_nat (uses indices v j)) = fan indices v j.

Lemma scatter_step indices base vertex_count n N j v i od :
  tiled base (λ v, Z.of_nat (uses indices v N)) vertex_count n →
  n < 4294967296 → Z.of_nat N ≤ n → (j < N)%nat →
  rd indices (Z.of_nat j) = v → 0 ≤ v < vertex_count →
  i = Z.of_nat j / 3 →
  scatter_inv indices base vertex_count n j od →
  scatter_inv indices base vertex_count n (S j) (scatter v i od).
Proof.
  intros Htiled Hn HN Hj Hv Hvr Hi (Holen & Hdlen & Hinv). destruct od as [o d].
  cbn [fst snd] in *. unfold scatter.
  destruct (Hinv v Hvr) as [Hov Hsv].
  destruct (Htiled v Hvr) as (Hb0 & _ & Hbn & _).
  pose proof (uses_lt indices v j N Hj Hv) as Hlt.
  assert (0 ≤ i < 4294967296) as Hi32.
  { subst i. split; [apply Z.div_pos; lia|].
    apply Z.div_lt_upper_bound; lia. }
  unfold scatter_inv. cbn [fst snd]. rewrite !length_wr.
  split; [assumption|]. split; [assumption|].
  intros w Hw. cbn [uses fan]. rewrite Hv.
  destruct (Z.eqb_spec v w) as [<-|Hne].
  - rewrite rd_wr_eq by lia. rewrite Hov. split.
    + rewrite u32_small by lia. lia.
    + replace (Z.of_nat (uses indices v j + 1)) with
        (Z.of_nat (uses indices v j) + 1) by lia.
      rewrite slice_snoc by (rewrite ?length_wr; lia).
      rewrite slice_wr_out by lia. rewrite rd_wr_eq by lia.
      rewrite Hsv, u32_small by lia. rewrite Hi. reflexivity.
  - destruct (Hinv w Hw) as [How Hsw].
    rewrite rd_wr_ne by lia. rewrite Nat.add_0_r, app_nil_r.
    split; [assumption|]. rewrite Hov.
    rewrite slice_wr_out; [assumption|apply (Htiled w Hw)|lia|lia|].
    destruct (tiled_disjoint _ _ _ _ w v Htiled Hw Hvr ltac:(congruence))
      as [Hd|Hd]; cbn beta in Hd.
    + right. pose proof (uses_mono indices w j N ltac:(lia)). lia.
    + left. lia.
Qed.

Lemma valid_mesh_faces indices index_count vertex_count :
  valid_mesh indices index_count vertex_count →
  index_count = 3 * (index_count / 3) ∧ 0 ≤ index_count / 3.
Proof.
  intros Hvalid. pose proof (vm_triples _ _ _ Hvalid) as Hmod.
  pose proof (vm_pos _ _ _ Hvalid) as Hpos.
  pose proof (Z.div_mod index_count 3 ltac:(lia)) as Hdm.
  rewrite Hmod in Hdm. split; [lia|]. apply Z.div_pos; lia.
Qed.

Lemma fill_data_spec indices base vertex_count index_count od :
  valid_mesh indices index_count vertex_count →
  tiled base (λ v, Z.of_nat (uses indices v (Z.to_nat index_count)))
    vertex_count index_count →
  scatter_inv indices base vertex_count index_count 0 od →
  scatter_inv indices base vertex_count index_count (Z.to_nat index_count)
    (fill_data indices (index_count / 3) od).
Proof.
  intros Hvalid Htiled Hinit. unfold fill_data.
  destruct (valid_mesh_faces _ _ _ Hvalid) as [Hic HF].
  pose proof (vm_u32 _ _ _ Hvalid) as Hsmall.
  assert (Z.to_nat index_count = 3 * Z.to_nat (index_count / 3))%nat as HN
    by lia.
  rewrite HN.
  apply (for_loop_ind (λ i s,
           scatter_inv indices base vertex_count index_count (3 * i) s)).
  - exact Hinit.
  - intros i s Hi Hs.
    replace (3 * S i)%nat with (S (S (S (3 * i)))) by lia.
    assert (∀ k, 0 ≤ k < 3 →
              rd indices (Z.of_nat i * 3 + k) = rd indices (Z.of_nat (3 * i) + k) ∧
              0 ≤ rd indices (Z.of_nat (3 * i) + k) < vertex_count) as Hk.
    { intros k Hk. replace (Z.of_nat i * 3 + k) with (Z.of_nat (3 * i) + k) by lia.
      split; [reflexivity|]. apply (vm_range _ _ _ Hvalid). lia. }
    destruct (Hk 0 ltac:(lia)) as [-> Ha].
    destruct (Hk 1 ltac:(lia)) as [-> Hb].
    destruct (Hk 2 ltac:(lia)) as [-> Hc]. clear Hk.
    eapply (scatter_step _ _ _ _ (Z.to_nat index_count));
      [exact Htiled|lia|lia|lia|f_equal; lia|
       exact Hc|apply (Z.div_unique _ 3 _ 2); lia|].
    eapply (scatter_step _ _ _ _ (Z.to_nat index_count));
      [exact Htiled|lia|lia|lia|f_equal; lia|
       exact Hb|apply (Z.div_unique _ 3 _ 1); lia|].
    eapply (scatter_step _ _ _ _ (Z.to_nat index_count));
      [exact Htiled|lia|lia|lia|f_equal; lia|
       exact Ha|apply (Z.div_unique _ 3 _ 0); lia|].
    exact Hs.
Qed.

Lemma fix_offsets_spec vertex_count counts offs base :
  Z.of_nat (length offs) = vertex_count →
  (∀ v, 0 ≤ v < vertex_count → rd offs v = base v + rd counts v) →
  (∀ v, 0 ≤ v < vertex_count → 0 ≤ base v < 4294967296) →
  length (fix_offsets vertex_count counts offs) = length offs ∧
  ∀ v, 0 ≤ v < vertex_count → rd (fix_offsets vertex_count counts offs) v = base v.
Proof.
  intros Hlen Hoffs Hbase. unfold fix_offsets.
  enough (length (for_loop (Z.to_nat vertex_count)
            (λ i o, wr o i (u32 (rd o i - rd counts i))) offs) = length offs ∧
          ∀ v, 0 ≤ v < vertex_count →
            rd (for_loop (Z.to_nat vertex_count)
                  (λ i o, wr o i (u32 (rd o i - rd counts i))) offs) v =
            if v <? Z.of_nat (Z.to_nat vertex_count) then base v
            else base v + rd counts v) as [? Hres].
  { split; [assumption|]. intros v Hv. rewrite Hres by assumption.
    destruct (Z.ltb_spec v (Z.of_nat (Z.to_nat vertex_count))); [reflexivity|lia]. }
  apply (for_loop_ind (λ i o, length o = length offs ∧
           ∀ v, 0 ≤ v < vertex_count →
             rd o v = if v <? Z.of_nat i then base v
                      else base v + rd counts v)).
  - split; [reflexivity|]. intros v Hv. rewrite Hoffs by assumption.
    destruct (Z.ltb_spec v (Z.of_nat 0)); [lia|reflexivity].
  - intros i o Hi [Ho Hinv]. rewrite length_wr. split; [assumption|].
    intros v Hv. destruct (decide (v = Z.of_nat i)) as [->|Hne].
    + rewrite rd_wr_eq by lia. rewrite Hinv by lia.
      destruct (Z.ltb_spec (Z.of_nat i) (Z.of_nat i)); [lia|].
      destruct (Z.ltb_spec (Z.of_nat i) (Z.of_nat (S i))); [|lia].
      rewrite u32_small; [lia|]. specialize (Hbase (Z.of_nat i) ltac:(lia)). lia.
    + rewrite rd_wr_ne by lia. rewrite Hinv by lia.
      destruct (Z.ltb_spec v (Z.of_nat i)), (Z.ltb_spec v (Z.of_nat (S i)));
        lia.
Qed.

(** The adjacency list of vertex [v]. *)
Definition neighbours (adjacency : Adjacency) (v : Z) : list Z :=
  slice (data adjacency) (rd (offsets adjacency) v)
    (rd (triangle_counts adjacency) v).

Record adjacency_built (indices : list Z) (index_count vertex_count : Z)
    (adj : Adjacency) : Prop := {
  ab_counts_length : Z.of_nat (length (triangle_counts adj)) = vertex_count;
  ab_offsets_length : Z.of_nat (length (offsets adj)) = vertex_count;
  ab_data_length : Z.of_nat (length (data adj)) = index_count;
  ab_counts : ∀ v, 0 ≤ v < vertex_count →
    rd (triangle_counts adj) v = Z.of_nat (uses indices v (Z.to_nat index_count));
  ab_offsets : ∀ v, 0 ≤ v < vertex_count →
    rd (offsets adj) v = psum (triangle_counts adj) v;
  ab_total : psum (triangle_counts adj) vertex_count = index_count;
  ab_neighbours : ∀ v, 0 ≤ v < vertex_count →
    neighbours adj v = fan indices v (Z.to_nat index_count)
}.

Lemma psum_succ counts v : 0 ≤ v → psum counts (v + 1) = psum counts v + rd counts v.
Proof.
  intros Hv. unfold psum.
  replace (Z.to_nat (v + 1)) with (S (Z.to_nat v)) by lia.
  cbn [zsum_upto]. rewrite Z2Nat.id by lia. reflexivity.
Qed.

Lemma psum_mono counts u v n :
  (∀ w, 0 ≤ w < n → 0 ≤ rd counts w) → 0 ≤ u ≤ v → v ≤ n →
  psum counts u ≤ psum counts v.
Proof.
  intros Hnonneg Huv Hvn. unfold psum. apply zsum_upto_mono; [|lia].
  intros w Hw. apply Hnonneg. lia.
Qed.

Lemma psum_tiled counts vertex_count n :
  (∀ w, 0 ≤ w < vertex_count → 0 ≤ rd counts w) →
  psum counts vertex_count = n →
  tiled (psum counts) (rd counts) vertex_count n.
Proof.
  intros Hnonneg Htotal v Hv.
  pose proof (psum_mono counts 0 v vertex_count Hnonneg ltac:(lia) ltac:(lia)) as H0.
  pose proof (psum_mono counts (v + 1) vertex_count vertex_count Hnonneg
                ltac:(lia) ltac:(lia)) as H1.
  rewrite psum_succ in H1 by lia. change (psum counts 0) with 0 in H0.
  split; [assumption|]. split; [apply Hnonneg, Hv|]. split; [lia|].
  intros u Hu.
  pose proof (psum_mono counts (u + 1) v vertex_count Hnonneg
                ltac:(lia) ltac:(lia)) as H2.
  rewrite psum_succ in H2 by lia. exact H2.
Qed.

Lemma tiled_ext base cap cap' vertex_count n :
  (∀ v, 0 ≤ v < vertex_count → cap v = cap' v) →
  tiled base cap vertex_count n → tiled base cap' vertex_count n.
Proof.
  intros Hext Ht v Hv. destruct (Ht v Hv) as (H1 & H2 & H3 & H4).
  rewrite <- Hext by assumption. repeat split; try assumption.
  intros u Hu. rewrite <- Hext by lia. apply H4, Hu.
Qed.

Lemma buildAdjacency_spec indices index_count vertex_count :
  valid_mesh indices index_count vertex_count →
  adjacency_built indices index_count vertex_count
    (buildAdjacency (Adjacency_new index_count vertex_count) indices
       index_count vertex_count).
Proof.
  intros Hvalid. unfold buildAdjacency, Adjacency_new.
  cbn [triangle_counts offsets data].
  pose proof (vm_pos _ _ _ Hvalid) as Hpos.
  pose proof (vm_vpos _ _ _ Hvalid) as Hvpos.
  pose proof (vm_u32 _ _ _ Hvalid) as Hsmall.
  set (c := fill_counts _ _ _ _).
  destruct (fill_counts_spec indices index_count vertex_count
              (replicate (Z.to_nat vertex_count) 0) Hvalid) as [Hclen Hc].
  { rewrite length_replicate. lia. }
  fold c in Hclen, Hc. rewrite length_replicate in Hclen.
  assert (∀ w, 0 ≤ w < vertex_count → 0 ≤ rd c w) as Hnonneg.
  { intros w Hw. rewrite Hc by assumption. lia. }
  assert (psum c vertex_count = index_count) as Htotal.
  { unfold psum.
    rewrite (zsum_upto_ext _
      (λ v, Z.of_nat (uses indices v (Z.to_nat index_count)))).
    - rewrite uses_total; [lia|]. intros p Hp.
      pose proof (vm_range _ _ _ Hvalid p ltac:(lia)). lia.
    - intros v Hv. apply Hc. lia. }
  pose proof (psum_tiled c vertex_count index_count Hnonneg Htotal) as Htiled.
  destruct (fill_offsets_spec vertex_count c (replicate (Z.to_nat vertex_count) 0))
    as (Holen & _ & Ho); [rewrite length_replicate; lia|assumption|lia|].
  destruct (fill_offsets _ _ _) as [o1 offset]. cbn [fst snd] in Holen, Ho.
  rewrite length_replicate in Holen.
  assert (scatter_inv indices (psum c) vertex_count index_count
            (Z.to_nat index_count)
            (fill_data indices (index_count / 3)
               (o1, replicate (Z.to_nat index_count) 0))) as Hscat.
  { apply fill_data_spec; [assumption| |].
    - eapply tiled_ext; [|exact Htiled]. intros v Hv. apply Hc, Hv.
    - split; [cbn; lia|]. split; [cbn; rewrite length_replicate; lia|].
      intros v Hv. cbn [fst snd uses fan]. rewrite Ho by assumption.
      split; [lia|reflexivity]. }
  destruct (fill_data _ _ _) as [o2 d2].
  destruct Hscat as (Ho2len & Hd2len & Hscat). cbn [fst snd] in *.
  destruct (fix_offsets_spec vertex_count c o2 (psum c)) as [Hflen Hf].
  { assumption. }
  { intros v Hv. rewrite Hc by assumption. apply (Hscat v Hv). }
  { intros v Hv. destruct (Htiled v Hv) as (? & ? & ? & _). lia. }
  constructor; cbn [triangle_counts offsets data].
  - lia.
  - lia.
  - assumption.
  - assumption.
  - assumption.
  - assumption.
  - intros v Hv. unfold neighbours. cbn [triangle_counts offsets data].
    rewrite Hf, Hc by assumption. apply (Hscat v Hv).
Qed.

(** Each triangle is listed with a vertex as often as it references it. *)
Lemma occ_fan indices v F t :
  occ t (fan indices v (3 * F)) =
  if (0 <=? t) && (t <? Z.of_nat F) then occ v (corners indices t) else O.
Proof.
  induction F as [|F IH].
  - cbn [Nat.mul fan occ].
    destruct (Z.leb_spec 0 t), (Z.ltb_spec t (Z.of_nat 0)); try reflexivity. lia.
  - replace (3 * S F)%nat with (S (S (S (3 * F)))) by lia. cbn [fan].
    rewrite !occ_app, IH. clear IH.
    replace (Z.of_nat (S (S (3 * F))) / 3) with (Z.of_nat F)
      by (apply (Z.div_unique _ 3 _ 2); lia).
    replace (Z.of_nat (S (3 * F)) / 3) with (Z.of_nat F)
      by (apply (Z.div_unique _ 3 _ 1); lia).
    replace (Z.of_nat (3 * F) / 3) with (Z.of_nat F)
      by (apply (Z.div_unique _ 3 _ 0); lia).
    replace (Z.of_nat (S (S (3 * F)))) with (Z.of_nat F * 3 + 2) by lia.
    replace (Z.of_nat (S (3 * F))) with (Z.of_nat F * 3 + 1) by lia.
    replace (Z.of_nat (3 * F)) with (Z.of_nat F * 3 + 0) by lia.
    destruct (decide (t = Z.of_nat F)) as [->|Hne].
    + replace ((0 <=? Z.of_nat F) && (Z.of_nat F <? Z.of_nat F)) with false
        by (symmetry; apply andb_false_iff; right; apply Z.ltb_ge; lia).
      replace ((0 <=? Z.of_nat F) && (Z.of_nat F <? Z.of_nat (S F))) with true
        by (symmetry; apply andb_true_iff; split;
            [apply Z.leb_le|apply Z.ltb_lt]; lia).
      unfold corners. cbn [occ].
      destruct (rd indices (Z.of_nat F * 3 + 0) =? v),
               (rd indices (Z.of_nat F * 3 + 1) =? v),
               (rd indices (Z.of_nat F * 3 + 2) =? v);
        cbn [occ]; rewrite ?Z.eqb_refl; reflexivity.
    + replace ((0 <=? t) && (t <? Z.of_nat (S F)))
        with ((0 <=? t) && (t <? Z.of_nat F)).
      2:{ f_equal. destruct (Z.ltb_spec t (Z.of_nat F)),
            (Z.ltb_spec t (Z.of_nat (S F))); try reflexivity; lia. }
      assert ((Z.of_nat F =? t) = false) as Hf by (apply Z.eqb_neq; congruence).
      destruct (rd indices (Z.of_nat F * 3 + 0) =? v),
               (rd indices (Z.of_nat F * 3 + 1) =? v),
               (rd indices (Z.of_nat F * 3 + 2) =? v);
        cbn [occ]; rewrite ?Hf; lia.
Qed.

Lemma fan_range indices v j t : t ∈ fan indices v j → 0 ≤ t ∧ t * 3 < Z.of_nat j.
Proof.
  induction j as [|j IH]; cbn [fan].
  - intros Hin. apply elem_of_nil in Hin. contradiction.
  - rewrite elem_of_app. intros [Hin|Hin].
    + specialize (IH Hin). lia.
    + destruct (_ =? _); [|apply elem_of_nil in Hin; contradiction].
      apply list_elem_of_singleton in Hin. subst t.
      pose proof (Z.div_mod (Z.of_nat j) 3 ltac:(lia)).
      pose proof (Z.mod_pos_bound (Z.of_nat j) 3 ltac:(lia)).
      split; [apply Z.div_pos; lia|lia].
Qed.

(** * The simulated cache of the greedy reorderer *)

(** The entries of the old cache that survive next to [a], [b], [c]. *)
Definition survivors (a b c : Z) (old : list Z) : list Z :=
  filter (λ x, x ≠ a ∧ x ≠ b ∧ x ≠ c) old.

Lemma survivors_snoc a b c old x :
  survivors a b c (old ++ [x]) =
  survivors a b c old ++
  (if negb (x =? a) && negb (x =? b) && negb (x =? c) then [x] else []).
Proof.
  unfold survivors. rewrite filter_app. f_equal.
  rewrite filter_cons, filter_nil.
  destruct (Z.eqb_spec x a), (Z.eqb_spec x b), (Z.eqb_spec x c);
    cbn [negb andb]; destruct (decide _) as [Hd|Hd]; try reflexivity;
    try (exfalso; tauto).
Qed.

Lemma length_survivors a b c old : (length (survivors a b c old) ≤ length old)%nat.
Proof. apply length_filter. Qed.

Lemma cache_update_spec cache cache_new cache_count a b c :
  0 ≤ cache_count ≤ cache_size →
  cache_count ≤ Z.of_nat (length cache) →
  Z.of_nat (length cache_new) = cache_slots →
  let new := a :: b :: c :: survivors a b c (take (Z.to_nat cache_count) cache) in
  ∃ cache',
    cache_update cache cache_new cache_count a b c =
      (cache', cache,
       (if Z.of_nat (length new) >? cache_size then cache_size
        else Z.of_nat (length new)),
       Z.of_nat (length new)) ∧
    length cache' = length cache_new ∧
    take (length new) cache' = new.
Proof.
  intros Hcount Hlen Hnew new. unfold cache_update.
  set (cn0 := wr (wr (wr cache_new 0 a) (0 + 1) b) (0 + 1 + 1) c).
  assert (length cn0 = length cache_new) as Hcn0
    by (subst cn0; rewrite !length_wr; reflexivity).
  assert (take 3 cn0 = [a; b; c]) as Htake0.
  { subst cn0. unfold cache_slots, max_cache_size in Hnew.
    destruct cache_new as [|x0 [|x1 [|x2 rest]]]; cbn in Hnew; try lia.
    reflexivity. }
  set (body := λ (i : Z) '(cn, cw),
         if negb (rd cache i =? a) && negb (rd cache i =? b) &&
            negb (rd cache i =? c)
         then (wr cn cw (rd cache i), cw + 1) else (cn, cw)).
  assert (∀ n, (n ≤ Z.to_nat cache_count)%nat →
            let r := for_loop n body (cn0, 0 + 1 + 1 + 1) in
            let l := a :: b :: c :: survivors a b c (take n cache) in
            length r.1 = length cache_new ∧ r.2 = Z.of_nat (length l) ∧
            take (length l) r.1 = l) as Hloop.
  { induction n as [|n IH]; intros Hn.
    - cbn. rewrite Hcn0. auto.
    - specialize (IH ltac:(lia)). cbn [for_loop].
      destruct (for_loop n body (cn0, 0 + 1 + 1 + 1)) as [cn cw].
      cbn [fst snd] in *. destruct IH as (IH1 & IH2 & IH3).
      assert (take (S n) cache = take n cache ++ [rd cache (Z.of_nat n)]) as HS.
      { apply take_S_r. unfold rd. rewrite Nat2Z.id.
        apply list_lookup_lookup_total_lt. lia. }
      rewrite HS, survivors_snoc. unfold body. cbn beta iota.
      pose proof (length_survivors a b c (take n cache)) as Hsl.
      rewrite length_take in Hsl. cbn [length] in IH2, IH3.
      destruct (negb _ && negb _ && negb _); cbn [fst snd].
      + rewrite length_wr. split; [assumption|].
        cbn [length]. rewrite !length_app. cbn [length].
        split; [lia|].
        replace (S (S (S (length (survivors a b c (take n cache)) + 1))))
          with (S (S (S (S (length (survivors a b c (take n cache))))))) by lia.
        erewrite take_S_r.
        * unfold wr. rewrite take_insert_ge by lia. rewrite IH3.
          cbn [app]. reflexivity.
        * unfold wr. rewrite IH2. rewrite Nat2Z.id.
          apply list_lookup_insert_eq. unfold cache_slots, max_cache_size,
            cache_size in *. lia.
      + rewrite app_nil_r. auto. }
  specialize (Hloop (Z.to_nat cache_count) ltac:(lia)).
  cbn zeta in Hloop. fold body.
  destruct (for_loop (Z.to_nat cache_count) body (cn0, 0 + 1 + 1 + 1)) as [cn cw].
  cbn [fst snd] in Hloop. destruct Hloop as (H1 & H2 & H3).
  exists cn. subst cw. auto.
Qed.

(** * Adjacency lists during the greedy loop *)

(** [cap v] is the room reserved for vertex [v]; [m v t] says how often
    triangle [t] is listed with [v]. *)
Record adj_ok (vertex_count n : Z) (cap : Z → Z) (m : Z → Z → nat)
    (adj : Adjacency) : Prop := {
  ao_counts_length : Z.of_nat (length (triangle_counts adj)) = vertex_count;
  ao_offsets_length : Z.of_nat (length (offsets adj)) = vertex_count;
  ao_data_length : Z.of_nat (length (data adj)) = n;
  ao_tiled : tiled (rd (offsets adj)) cap vertex_count n;
  ao_counts : ∀ v, 0 ≤ v < vertex_count →
    0 ≤ rd (triangle_counts adj) v ≤ cap v;
  ao_content : ∀ v t, 0 ≤ v < vertex_count → occ t (neighbours adj v) = m v t
}.

Lemma adj_ok_ext vertex_count n cap m m' adj :
  (∀ v t, 0 ≤ v < vertex_count → m v t = m' v t) →
  adj_ok vertex_count n cap m adj → adj_ok vertex_count n cap m' adj.
Proof.
  intros Hext [H1 H2 H3 H4 H5 H6]. constructor; try assumption.
  intros v t Hv. rewrite <- Hext by assumption. apply H6, Hv.
Qed.

Lemma length_neighbours vertex_count n cap m adj v :
  adj_ok vertex_count n cap m adj → 0 ≤ v < vertex_count →
  length (neighbours adj v) = Z.to_nat (rd (triangle_counts adj) v).
Proof.
  intros Hok Hv. unfold neighbours.
  destruct (ao_tiled _ _ _ _ _ Hok v Hv) as (H0 & _ & Hn & _).
  pose proof (ao_counts _ _ _ _ _ Hok v Hv).
  pose proof (ao_data_length _ _ _ _ _ Hok).
  apply length_slice; lia.
Qed.

Lemma occ_insert t i y (l : list Z) :
  (i < length l)%nat →
  (occ t (<[i:=y]> l) + (if (l !!! i =? t)%Z then 1 else 0) =
   occ t l + (if (y =? t)%Z then 1 else 0))%nat.
Proof.
  revert i. induction l as [|x l IH]; intros i Hi; cbn [length] in Hi; [lia|].
  destruct i as [|i]; cbn [occ].
  - change ((x :: l) !!! O) with x.
    change (<[O:=y]> (x :: l)) with (y :: l). cbn [occ]. lia.
  - change ((x :: l) !!! S i) with (l !!! i).
    change (<[S i:=y]> (x :: l)) with (x :: <[i:=y]> l). cbn [occ].
    specialize (IH i ltac:(lia)). lia.
Qed.

Lemma occ_take_last t k (l : list Z) :
  length l = S k →
  occ t l = (occ t (take k l) + (if (l !!! k =? t)%Z then 1 else 0))%nat.
Proof.
  intros Hlen.
  assert (l = take k l ++ [l !!! k]) as Hl.
  { rewrite <- take_S_r by (apply list_lookup_lookup_total_lt; lia).
    symmetry. apply take_ge. lia. }
  rewrite Hl at 1. rewrite occ_app. cbn [occ]. lia.
Qed.

(** Overwriting one occurrence of [x] with the last element and dropping
    the last element removes exactly that occurrence. *)
Lemma swap_remove_occ t x i k (l : list Z) :
  length l = S k → (i ≤ k)%nat → l !!! i = x →
  (occ t (take k (<[i:=l !!! k]> l)) + (if (x =? t)%Z then 1 else 0) =
   occ t l)%nat.
Proof.
  intros Hlen Hi Hx.
  pose proof (occ_insert t i (l !!! k) l ltac:(lia)) as Hins.
  pose proof (occ_take_last t k (<[i:=l !!! k]> l)) as Hlast.
  rewrite length_insert in Hlast. specialize (Hlast Hlen).
  assert (<[i:=l !!! k]> l !!! k = l !!! k) as Hk.
  { destruct (decide (i = k)) as [->|Hne].
    - apply list_lookup_total_insert_eq. lia.
    - apply list_lookup_total_insert_ne. exact Hne. }
  rewrite Hk in Hlast. rewrite Hx in Hins. lia.
Qed.

Lemma slice_shrink l o n :
  0 < n → slice l o (n - 1) = take (Z.to_nat (n - 1)) (slice l o n).
Proof.
  intros Hn. unfold slice. rewrite take_take. f_equal. lia.
Qed.

(** The multiplicities after one listing of [cur] with [index] is gone. *)
Definition without (m : Z → Z → nat) (index cur : Z) (v t : Z) : nat :=
  if (v =? index) && (t =? cur) then pred (m v t) else m v t.

Lemma remove_scan_spec vertex_count N cap m index cur :
  N < 4294967296 → 0 ≤ index < vertex_count →
  ∀ n i adj,
    adj_ok vertex_count N cap m adj →
    Z.of_nat n = rd (triangle_counts adj) index - i → 0 ≤ i →
    (∀ k, 0 ≤ k < i → rd (neighbours adj index) k ≠ cur) →
    cur ∈ neighbours adj index →
    adj_ok vertex_count N cap (without m index cur)
      (remove_scan n i adj index cur).
Proof.
  intros HN Hindex. induction n as [|n IH]; intros i adj Hok Hn Hi Hbefore Hin.
  - exfalso. apply list_elem_of_lookup in Hin as [k Hk].
    pose proof (lookup_lt_Some _ _ _ Hk) as Hklen.
    rewrite (length_neighbours _ _ _ _ _ _ Hok Hindex) in Hklen.
    apply (Hbefore (Z.of_nat k)); [lia|]. unfold rd. rewrite Nat2Z.id.
    apply list_lookup_total_correct, Hk.
  - cbn [remove_scan].
    set (off := rd (offsets adj) index) in *.
    set (size := rd (triangle_counts adj) index) in *.
    destruct (ao_tiled _ _ _ _ _ Hok index Hindex) as (Hoff0 & _ & HoffN & _).
    pose proof (ao_counts _ _ _ _ _ Hok index Hindex) as Hsize.
    pose proof (ao_data_length _ _ _ _ _ Hok) as Hdlen.
    fold off in Hoff0, HoffN. fold size in Hsize.
    assert (rd (data adj) (off + i) = rd (neighbours adj index) i) as Hrd.
    { unfold neighbours. fold off size. rewrite rd_slice by lia. reflexivity. }
    destruct (Z.eqb_spec (rd (data adj) (off + i)) cur) as [Hhit|Hmiss].
    + destruct Hok as [H1 H2 H3 H4 H5 H6].
      constructor; cbn [triangle_counts offsets data];
        rewrite ?length_wr; try assumption.
      * intros v Hv. destruct (decide (v = index)) as [->|Hne].
        -- rewrite rd_wr_eq by lia. fold size. rewrite u32_small by lia. lia.
        -- rewrite rd_wr_ne by lia. apply H5, Hv.
      * intros v t Hv. unfold neighbours, without.
        cbn [triangle_counts offsets data].
        destruct (Z.eqb_spec v index) as [->|Hne].
        -- rewrite rd_wr_eq by lia. fold off size.
           rewrite u32_small by lia.
           rewrite <- (H6 index t Hindex). unfold neighbours. fold off size.
           pose proof (swap_remove_occ t cur (Z.to_nat i) (Z.to_nat (size - 1))
                         (slice (data adj) off size)) as Hswap.
           rewrite length_slice in Hswap by lia.
           specialize (Hswap ltac:(lia) ltac:(lia)).
           rewrite slice_shrink by lia.
           rewrite slice_wr_in by lia.
           replace (off + i - off) with i by lia.
           unfold wr.
           assert (slice (data adj) off size !!! Z.to_nat (size - 1)
                   = rd (data adj) (off + (size - 1))) as Hlastv.
           { change (slice (data adj) off size !!! Z.to_nat (size - 1))
               with (rd (slice (data adj) off size) (size - 1)).
             apply rd_slice; lia. }
           rewrite Hlastv in Hswap.
           assert (slice (data adj) off size !!! Z.to_nat i = cur) as Hcur.
           { change (slice (data adj) off size !!! Z.to_nat i)
               with (rd (slice (data adj) off size) i).
             rewrite rd_slice by lia. exact Hhit. }
           specialize (Hswap Hcur).
           destruct (Z.eqb_spec t cur) as [->|Hnt].
           ++ rewrite Z.eqb_refl in Hswap. cbn [andb]. lia.
           ++ destruct (Z.eqb_spec cur t); [congruence|].
              rewrite andb_false_r. lia.
        -- rewrite rd_wr_ne by lia. cbn [andb].
           rewrite <- (H6 v t Hv). unfold neighbours. f_equal.
           destruct (H4 v Hv) as (Hv0 & _ & _ & _).
           pose proof (H5 v Hv) as Hvc.
           apply slice_wr_out; try lia.
           destruct (tiled_disjoint _ _ _ _ v index H4 Hv Hindex Hne) as [Hd|Hd].
           ++ right. fold off. lia.
           ++ left. fold off in Hd. pose proof (H5 index Hindex). lia.
    + apply IH; try assumption; try lia.
      intros k Hk. destruct (decide (k = i)) as [->|Hki].
      * rewrite <- Hrd. exact Hmiss.
      * apply Hbefore. lia.
Qed.

Lemma remove_triangle_spec vertex_count N cap m index cur adj :
  N < 4294967296 → 0 ≤ index < vertex_count →
  adj_ok vertex_count N cap m adj → (1 ≤ m index cur)%nat →
  adj_ok vertex_count N cap (without m index cur)
    (remove_triangle adj index cur).
Proof.
  intros HN Hindex Hok Hm. unfold remove_triangle.
  pose proof (ao_counts _ _ _ _ _ Hok index Hindex) as Hsize.
  apply (remove_scan_spec vertex_count N cap m index cur HN Hindex);
    try assumption; try lia.
  apply occ_pos_in. rewrite (ao_content _ _ _ _ _ Hok) by assumption. lia.
Qed.

Ltac zeqb_cases :=
  repeat match goal with
         | |- context [(?x =? ?y)%Z] => destruct (Z.eqb_spec x y); try subst
         end.

(** After the three removals the emitted triangle is listed nowhere, and
    the other triangles are listed as before. *)
Lemma remove_emitted_spec vertex_count N cap m indices cur adj :
  N < 4294967296 →
  (∀ v, v ∈ corners indices cur → 0 ≤ v < vertex_count) →
  adj_ok vertex_count N cap m adj →
  (∀ v, m v cur = occ v (corners indices cur)) →
  adj_ok vertex_count N cap (λ v t, if t =? cur then O else m v t)
    (remove_emitted adj indices cur).
Proof.
  intros HN Hrange Hok Hm. unfold remove_emitted. cbn [for_loop].
  change (Z.of_nat 0) with 0. change (Z.of_nat 1) with 1.
  change (Z.of_nat 2) with 2.
  unfold corners in *.
  set (a := rd indices (cur * 3 + 0)) in *.
  set (b := rd indices (cur * 3 + 1)) in *.
  set (c := rd indices (cur * 3 + 2)) in *.
  assert (0 ≤ a < vertex_count) as Ha by (apply Hrange; repeat constructor).
  assert (0 ≤ b < vertex_count) as Hb by (apply Hrange; repeat constructor).
  assert (0 ≤ c < vertex_count) as Hc by (apply Hrange; repeat constructor).
  pose proof (Hm a) as Hma. pose proof (Hm b) as Hmb. pose proof (Hm c) as Hmc.
  cbn [occ] in Hma, Hmb, Hmc. rewrite Z.eqb_refl in Hma, Hmb, Hmc.
  eapply adj_ok_ext; [|apply remove_triangle_spec; [exact HN|exact Hc| |];
    [apply remove_triangle_spec; [exact HN|exact Hb| |];
      [apply remove_triangle_spec; [exact HN|exact Ha|exact Hok|]|]|]].
  - intros v t Hv. unfold without. pose proof (Hm v) as Hmv. cbn [occ] in Hmv.
    destruct (Z.eqb_spec t cur) as [->|Hne].
    + rewrite Hmv. clear -Ha. zeqb_cases; cbn; lia.
    + rewrite !andb_false_r. reflexivity.
  - lia.
  - unfold without. rewrite Hmb, Z.eqb_refl. clear. zeqb_cases; cbn; lia.
  - unfold without. rewrite Hmc, Z.eqb_refl. clear. zeqb_cases; cbn; lia.
Qed.

(** * The fallback scan of the greedy reorderer *)

Lemma getNextTriangleDeadEnd_spec emitted_flags face_count :
  face_count < 4294967296 →
  ∀ fuel input_cursor,
    0 ≤ input_cursor ≤ face_count →
    face_count - input_cursor ≤ Z.of_nat fuel →
    ∃ r cursor',
      getNextTriangleDeadEnd fuel input_cursor emitted_flags face_count
        = Some (r, cursor') ∧
      input_cursor ≤ cursor' ≤ face_count ∧
      (∀ t, input_cursor ≤ t < cursor' → rd emitted_flags t = true) ∧
      ((r = UINT_MAX ∧ cursor' = face_count) ∨
       (r = cursor' ∧ cursor' < face_count ∧ rd emitted_flags cursor' = false)).
Proof.
  intros HF. induction fuel as [|fuel IH]; intros cursor Hc Hfuel.
  - cbn [getNextTriangleDeadEnd].
    destruct (Z.ltb_spec cursor face_count) as [Hlt|Hge]; [lia|].
    exists UINT_MAX, cursor. split; [reflexivity|]. split; [lia|].
    split; [intros; lia|]. left. split; [reflexivity|lia].
  - cbn [getNextTriangleDeadEnd].
    destruct (Z.ltb_spec cursor face_count) as [Hlt|Hge].
    + destruct (rd emitted_flags cursor) eqn:Hem; cbn [negb].
      * rewrite u32_small by lia.
        destruct (IH (cursor + 1) ltac:(lia) ltac:(lia))
          as (r & c' & Hrun & Hc' & Hskip & Hres).
        exists r, c'. split; [exact Hrun|]. split; [lia|].
        split; [|exact Hres]. intros t Ht.
        destruct (decide (t = cursor)) as [->|Hne]; [exact Hem|].
        apply Hskip. lia.
      * exists cursor, cursor. split; [reflexivity|]. split; [lia|].
        split; [intros; lia|]. right. auto.
    + exists UINT_MAX, cursor. split; [reflexivity|]. split; [lia|].
      split; [intros; lia|]. left. split; [reflexivity|lia].
Qed.

(** * The score sweep and what it visits *)

(** An entry of the sweep log: a neighbour triangle and the [tri_score]
    computed for it at that visit. *)
Abbreviation visit := (Z * float)%type.

(** [sweep_triangle] that also appends its visit to a log. *)
Definition sweep_triangle_log (tri : Z) (score_diff : float)
    (al : sweep_acc * list visit) : sweep_acc * list visit :=
  (sweep_triangle tri score_diff al.1,
   al.2 ++ [(tri, fadd (rd al.1.1.1.2 tri) score_diff)]).

Definition sweep_vertex_log (adjacency : Adjacency)
    (live_triangles cache : list Z) (i : Z) (al : sweep_acc * list visit)
    : sweep_acc * list visit :=
  let '(vs, ts, best_triangle, best_score) := al.1 in
  let index := rd cache i in
  let cache_position := if i >=? cache_size then -1 else i in
  let score := vertexScore cache_position (rd live_triangles index) in
  let score_diff := fsub score (rd vs index) in
  let vs := wr vs index score in
  let neighbours_begin := rd (offsets adjacency) index in
  for_loop (Z.to_nat (rd (triangle_counts adjacency) index))
    (λ k al, sweep_triangle_log (rd (data adjacency) (neighbours_begin + k))
               score_diff al)
    ((vs, ts, best_triangle, best_score), al.2).

Definition sweep_log (adjacency : Adjacency) (live_triangles cache : list Z)
    (cache_write : Z) (vs ts : list float) : sweep_acc * list visit :=
  for_loop (Z.to_nat cache_write)
    (sweep_vertex_log adjacency live_triangles cache)
    ((vs, ts, UINT_MAX, fzero), []).

(** The running maximum kept by the sweep: a visit replaces the best one
    so far only when its score is strictly greater. *)
Definition pick_best (init : visit) (log : list visit) : visit :=
  foldl (λ best e, if flt best.2 e.2 then e else best) init log.

(** [0; 1; ...; n-1] *)
Fixpoint zseq (n : nat) : list Z :=
  match n with
  | O => []
  | S n' => zseq n' ++ [Z.of_nat n']
  end.

Lemma for_loop_fst {S L : Type} (n : nat) (f : Z → S → S)
    (g : Z → S * L → S * L) (s : S) (l : L) :
  (∀ i sl, (g i sl).1 = f i sl.1) →
  (for_loop n g (s, l)).1 = for_loop n f s.
Proof.
  intros Hg. induction n as [|n IH]; cbn [for_loop]; [reflexivity|].
  rewrite Hg, IH. reflexivity.
Qed.

Lemma sweep_vertex_log_fst adjacency live cache i al :
  (sweep_vertex_log adjacency live cache i al).1 =
  sweep_vertex adjacency live cache i al.1.
Proof.
  unfold sweep_vertex_log, sweep_vertex.
  destruct al as [[[[vs ts] bt] bs] log]. cbn [fst snd].
  apply for_loop_fst. intros k sl. reflexivity.
Qed.

Lemma sweep_log_fst adjacency live cache cache_write vs ts :
  (sweep_log adjacency live cache cache_write vs ts).1 =
  sweep adjacency live cache cache_write vs ts.
Proof.
  unfold sweep_log, sweep. apply for_loop_fst. intros i sl.
  apply sweep_vertex_log_fst.
Qed.

Lemma pick_best_snoc init log e :
  pick_best init (log ++ [e]) =
  if flt (pick_best init log).2 e.2 then e else pick_best init log.
Proof. unfold pick_best. rewrite foldl_app. reflexivity. Qed.

(** The sweep keeps in [best_triangle], [best_score] the pick of its log. *)
Definition best_logged (al : sweep_acc * list visit) : Prop :=
  (al.1.1.2, al.1.2) = pick_best (UINT_MAX, fzero) al.2.

Lemma sweep_triangle_log_best tri score_diff al :
  best_logged al → best_logged (sweep_triangle_log tri score_diff al).
Proof.
  unfold best_logged, sweep_triangle_log.
  destruct al as [[[[vs ts] bt] bs] log]. cbn [fst snd]. intros Hbest.
  rewrite pick_best_snoc, <- Hbest. unfold sweep_triangle. cbn [fst snd].
  destruct (flt bs _); reflexivity.
Qed.

Lemma sweep_vertex_log_best adjacency live cache i al :
  best_logged al → best_logged (sweep_vertex_log adjacency live cache i al).
Proof.
  intros Hbest. unfold sweep_vertex_log.
  destruct al as [[[[vs ts] bt] bs] log]. cbn [fst snd].
  apply (for_loop_ind (λ _ al', best_logged al')).
  - exact Hbest.
  - intros k al' _ Hal'. apply sweep_triangle_log_best, Hal'.
Qed.

Lemma sweep_log_best adjacency live cache cache_write vs ts :
  best_logged (sweep_log adjacency live cache cache_write vs ts).
Proof.
  unfold sweep_log. apply (for_loop_ind (λ _ al', best_logged al')).
  - reflexivity.
  - intros k al' _ Hal'. apply sweep_vertex_log_best, Hal'.
Qed.

(** The triangles of the log are the adjacency lists of the cache entries,
    one list after the other. *)
Definition listed (adjacency : Adjacency) (index : Z) (n : nat) : list Z :=
  (λ k, rd (data adjacency) (rd (offsets adjacency) index + k)) <$> zseq n.

Lemma sweep_vertex_log_triangles adjacency live cache i al :
  (sweep_vertex_log adjacency live cache i al).2.*1 =
  al.2.*1 ++ listed adjacency (rd cache i)
               (Z.to_nat (rd (triangle_counts adjacency) (rd cache i))).
Proof.
  unfold sweep_vertex_log. destruct al as [[[[vs ts] bt] bs] log].
  cbn [fst snd].
  apply (for_loop_ind (λ n al',
           al'.2.*1 = log.*1 ++ listed adjacency (rd cache i) n)).
  - cbn. rewrite app_nil_r. reflexivity.
  - intros n al' _ Hal'. unfold sweep_triangle_log. cbn [fst snd].
    rewrite fmap_app, Hal'. unfold listed. cbn [zseq].
    rewrite fmap_app, app_assoc. reflexivity.
Qed.

Lemma sweep_log_triangles adjacency live cache cache_write vs ts :
  (sweep_log adjacency live cache cache_write vs ts).2.*1 =
  zseq (Z.to_nat cache_write) ≫=
    (λ i, listed adjacency (rd cache i)
            (Z.to_nat (rd (triangle_counts adjacency) (rd cache i)))).
Proof.
  unfold sweep_log.
  apply (for_loop_ind (λ n al',
           al'.2.*1 = zseq n ≫= (λ i, listed adjacency (rd cache i)
             (Z.to_nat (rd (triangle_counts adjacency) (rd cache i)))))).
  - reflexivity.
  - intros n al' _ Hal'. cbn beta in *.
    rewrite sweep_vertex_log_triangles, Hal'.
    cbn [zseq]. rewrite bind_app. cbn. rewrite app_nil_r. reflexivity.
Qed.

Lemma listed_neighbours vertex_count N cap m adj v :
  adj_ok vertex_count N cap m adj → 0 ≤ v < vertex_count →
  listed adj v (Z.to_nat (rd (triangle_counts adj) v)) = neighbours adj v.
Proof.
  intros Hok Hv. unfold neighbours.
  destruct (ao_tiled _ _ _ _ _ Hok v Hv) as (Hoff & _ & HoffN & _).
  pose proof (ao_counts _ _ _ _ _ Hok v Hv) as Hsize.
  pose proof (ao_data_length _ _ _ _ _ Hok) as Hdlen.
  assert (∀ n, Z.of_nat n ≤ rd (triangle_counts adj) v →
            listed adj v n = slice (data adj) (rd (offsets adj) v) (Z.of_nat n))
    as Hn.
  { induction n as [|n IH]; intros Hle; [reflexivity|].
    unfold listed in *. cbn [zseq]. rewrite fmap_app, IH by lia.
    replace (Z.of_nat (S n)) with (Z.of_nat n + 1) by lia.
    rewrite slice_snoc by lia. reflexivity. }
  rewrite Hn by lia. f_equal. lia.
Qed.

Lemma elem_of_zseq i n : i ∈ zseq n ↔ 0 ≤ i < Z.of_nat n.
Proof.
  induction n as [|n IH]; cbn [zseq].
  - split; [intros Hin; apply elem_of_nil in Hin; contradiction|lia].
  - rewrite elem_of_app, IH, list_elem_of_singleton. lia.
Qed.

(** * Invariant of the greedy loop *)

(** Triangle [t] exists and is not emitted yet. *)
Definition pending (emitted_flags : list bool) (face_count t : Z) : bool :=
  (0 <=? t) && (t <? face_count) && negb (rd emitted_flags t).

(** How often a pending triangle must be listed with vertex [v]. *)
Definition listing (indices : list Z) (emitted_flags : list bool)
    (face_count v t : Z) : nat :=
  if pending emitted_flags face_count t then occ v (corners indices t) else O.

(** [order] is the list of the triangles emitted so far, oldest first. *)
Record vc_core (indices : list Z) (index_count vertex_count : Z)
    (order : list Z) (st : vc_state) : Prop := {
  vi_adj :
    adj_ok vertex_count index_count
      (λ v, Z.of_nat (uses indices v (Z.to_nat index_count)))
      (listing indices (vc_emitted_flags st) (index_count / 3))
      (vc_adjacency st);
  vi_emitted_length :
    Z.of_nat (length (vc_emitted_flags st)) = index_count / 3;
  vi_order_range : ∀ t, t ∈ order → 0 ≤ t < index_count / 3;
  vi_order_nodup : NoDup order;
  vi_emitted : ∀ t, 0 ≤ t < index_count / 3 →
    rd (vc_emitted_flags st) t = true ↔ t ∈ order;
  vi_output : vc_output_triangle st = Z.of_nat (length order);
  vi_destination :
    take (3 * length order) (vc_destination st) = order ≫= corners indices;
  vi_dst_length : index_count ≤ Z.of_nat (length (vc_destination st));
  vi_cache_length : Z.of_nat (length (vc_cache st)) = cache_slots;
  vi_cache_new_length : Z.of_nat (length (vc_cache_new st)) = cache_slots;
  vi_cache_count : 0 ≤ vc_cache_count st ≤ cache_size;
  vi_cache_range : ∀ i, 0 ≤ i < vc_cache_count st →
    0 ≤ rd (vc_cache st) i < vertex_count
}.

Record vc_inv (indices : list Z) (index_count vertex_count : Z)
    (order : list Z) (st : vc_state) : Prop := {
  vi_core : vc_core indices index_count vertex_count order st;
  vi_cursor : 1 ≤ vc_input_cursor st ≤ index_count / 3;
  vi_skipped : ∀ t, 0 ≤ t < vc_input_cursor st →
    rd (vc_emitted_flags st) t = true ∨ t = vc_current_triangle st;
  vi_current :
    (vc_current_triangle st = UINT_MAX ∧
     vc_input_cursor st = index_count / 3) ∨
    (0 ≤ vc_current_triangle st < index_count / 3 ∧
     rd (vc_emitted_flags st) (vc_current_triangle st) = false)
}.

Lemma length_zseq n : length (zseq n) = n.
Proof.
  induction n as [|n IH]; cbn [zseq]; [reflexivity|].
  rewrite length_app, IH. cbn. lia.
Qed.

Lemma NoDup_zseq n : NoDup (zseq n).
Proof.
  induction n as [|n IH]; cbn [zseq]; [constructor|].
  apply NoDup_app. split; [exact IH|]. split; [|apply NoDup_singleton].
  intros x Hx Hx'. apply elem_of_zseq in Hx.
  apply list_elem_of_singleton in Hx'. lia.
Qed.

(** Distinct triangle numbers below [F] are at most [F] many. *)
Lemma nodup_bounded (l : list Z) (F : Z) :
  0 ≤ F → NoDup l → (∀ t, t ∈ l → 0 ≤ t < F) → Z.of_nat (length l) ≤ F.
Proof.
  intros HF Hnd Hrange.
  assert (l ⊆+ zseq (Z.to_nat F)) as Hsub.
  { apply NoDup_submseteq; [exact Hnd|]. intros t Ht.
    apply elem_of_zseq. specialize (Hrange t Ht). lia. }
  apply submseteq_length in Hsub. rewrite length_zseq in Hsub. lia.
Qed.

Lemma take_wr_ge {A} (l : list A) (n : nat) (i : Z) (x : A) :
  Z.of_nat n ≤ i → take n (wr l i x) = take n l.
Proof. intros Hi. unfold wr. apply take_insert_ge. lia. Qed.

Lemma take_wr_snoc {A} (l : list A) (n : nat) (x : A) :
  (n < length l)%nat → take (S n) (wr l (Z.of_nat n) x) = take n l ++ [x].
Proof.
  intros Hn. unfold wr. rewrite Nat2Z.id.
  rewrite (take_S_r _ _ x) by (apply list_lookup_insert_eq; exact Hn).
  rewrite take_insert_ge by lia. reflexivity.
Qed.

(** Writing the triangle number [k] of a buffer extends its first [k]
    triangles by one. *)
Lemma take_wr_triangle (l : list Z) (k : nat) (a b c : Z) :
  (3 * k + 3 ≤ length l)%nat →
  take (3 * S k)
    (wr (wr (wr l (Z.of_nat k * 3 + 0) a) (Z.of_nat k * 3 + 1) b)
        (Z.of_nat k * 3 + 2) c) =
  take (3 * k) l ++ [a; b; c].
Proof.
  intros Hlen.
  replace (3 * S k)%nat with (S (S (S (3 * k)))) by lia.
  replace (Z.of_nat k * 3 + 2) with (Z.of_nat (S (S (3 * k)))) by lia.
  replace (Z.of_nat k * 3 + 1) with (Z.of_nat (S (3 * k))) by lia.
  replace (Z.of_nat k * 3 + 0) with (Z.of_nat (3 * k)) by lia.
  rewrite !take_wr_snoc by (rewrite ?length_wr; lia).
  rewrite <- !app_assoc. reflexivity.
Qed.

Lemma corners_range indices index_count vertex_count t v :
  valid_mesh indices index_count vertex_count →
  0 ≤ t < index_count / 3 → v ∈ corners indices t → 0 ≤ v < vertex_count.
Proof.
  intros Hvalid Ht Hv. destruct (valid_mesh_faces _ _ _ Hvalid) as [Hic _].
  unfold corners in Hv.
  repeat (apply elem_of_cons in Hv as [->|Hv];
          [apply (vm_range _ _ _ Hvalid); lia|]).
  apply elem_of_nil in Hv. contradiction.
Qed.

Lemma pending_wr emitted_flags face_count cur t :
  0 ≤ cur < Z.of_nat (length emitted_flags) →
  pending (wr emitted_flags cur true) face_count t =
  if t =? cur then false else pending emitted_flags face_count t.
Proof.
  intros Hcur. unfold pending.
  destruct (Z.eqb_spec t cur) as [->|Hne].
  - rewrite rd_wr_eq by lia. apply andb_false_r.
  - destruct (Z.leb_spec 0 t); [|reflexivity].
    rewrite rd_wr_ne by lia. reflexivity.
Qed.

Lemma pending_spec emitted_flags face_count t :
  pending emitted_flags face_count t = true ↔
  0 ≤ t < face_count ∧ rd emitted_flags t = false.
Proof.
  unfold pending. rewrite !andb_true_iff, Z.leb_le, Z.ltb_lt, negb_true_iff.
  tauto.
Qed.

Lemma elem_of_take_rd (l : list Z) (n : nat) (x : Z) :
  x ∈ take n l → ∃ j, 0 ≤ j < Z.of_nat n ∧ rd l j = x.
Proof.
  intros Hin. apply list_elem_of_lookup in Hin as [j Hj].
  apply lookup_take_Some in Hj as [Hj Hlt].
  exists (Z.of_nat j). split; [lia|]. unfold rd. rewrite Nat2Z.id.
  apply list_lookup_total_correct, Hj.
Qed.

Lemma vc_emit_spec indices index_count vertex_count order st :
  valid_mesh indices index_count vertex_count →
  vc_inv indices index_count vertex_count order st →
  vc_current_triangle st ≠ UINT_MAX →
  vc_core indices index_count vertex_count
    (order ++ [vc_current_triangle st]) (vc_emit indices st).1 ∧
  vc_input_cursor (vc_emit indices st).1 = vc_input_cursor st ∧
  (∀ t, 0 ≤ t < vc_input_cursor st →
     rd (vc_emitted_flags (vc_emit indices st).1) t = true) ∧
  0 ≤ (vc_emit indices st).2 ≤ cache_slots ∧
  (∀ i, 0 ≤ i < (vc_emit indices st).2 →
     0 ≤ rd (vc_cache (vc_emit indices st).1) i < vertex_count) ∧
  length (vc_destination (vc_emit indices st).1) = length (vc_destination st).
Proof.
  intros Hvalid [Hcore Hcursor Hskipped Hcurrent] Hlive.
  destruct Hcurrent as [[Habs _]|[Hcur Hpend]]; [contradiction|].
  destruct Hcore as [Hadj Helen Horange Hnodup Hem Hout Hdst Hdlen
                       Hclen Hcnlen Hccount Hcrange].
  destruct (valid_mesh_faces _ _ _ Hvalid) as [Hic HF].
  pose proof (vm_u32 _ _ _ Hvalid) as Hsmall.
  set (cur := vc_current_triangle st) in *.
  pose proof (λ v, corners_range _ _ _ cur v Hvalid Hcur) as Hcorners.
  assert (cur ∉ order) as Hfresh.
  { intros Hin. apply Hem in Hin; [congruence|exact Hcur]. }
  assert (NoDup (order ++ [cur])) as Hnodup'.
  { apply NoDup_app. split; [exact Hnodup|]. split; [|apply NoDup_singleton].
    intros x Hx Hx'. apply list_elem_of_singleton in Hx'. subst x. contradiction. }
  assert (∀ t, t ∈ order ++ [cur] → 0 ≤ t < index_count / 3) as Horange'.
  { intros t Ht. apply elem_of_app in Ht as [Ht|Ht]; [apply Horange, Ht|].
    apply list_elem_of_singleton in Ht. subst t. exact Hcur. }
  pose proof (nodup_bounded _ _ HF Hnodup' Horange') as Hcount.
  rewrite length_app in Hcount. cbn [length] in Hcount.
  destruct (cache_update_spec (vc_cache st) (vc_cache_new st)
              (vc_cache_count st) (rd indices (cur * 3 + 0))
              (rd indices (cur * 3 + 1)) (rd indices (cur * 3 + 2)))
    as (cache' & Hupd & Hclen' & Htake); [lia|
      unfold cache_slots, max_cache_size, cache_size in *; lia|assumption|].
  set (new := _ :: _ :: _ :: survivors _ _ _ _) in *.
  assert (Z.of_nat (length new) ≤ cache_slots) as Hnewlen.
  { subst new. cbn [length].
    pose proof (length_survivors (rd indices (cur * 3 + 0))
      (rd indices (cur * 3 + 1)) (rd indices (cur * 3 + 2))
      (take (Z.to_nat (vc_cache_count st)) (vc_cache st))) as Hs.
    rewrite length_take in Hs.
    unfold cache_slots, max_cache_size, cache_size in *. lia. }
  assert (∀ i, 0 ≤ i < Z.of_nat (length new) →
            0 ≤ rd cache' i < vertex_count) as Hnewrange.
  { intros i Hi. rewrite <- (rd_take cache' (length new)) by lia.
    rewrite Htake.
    assert (rd new i ∈ new) as Hin.
    { unfold rd. apply list_elem_of_lookup_total_2. lia. }
    subst new. unfold corners in Hcorners.
    repeat (apply elem_of_cons in Hin as [->|Hin];
            [apply Hcorners; repeat constructor|]).
    apply list_elem_of_filter in Hin as [_ Hin].
    apply elem_of_take_rd in Hin as (j & Hj & <-). apply Hcrange. lia. }
  unfold vc_emit. fold cur. rewrite Hupd. cbn [fst snd].
  split; [|split; [reflexivity|split; [|split; [|split]]]];
    cbn [vc_adjacency vc_emitted_flags vc_output_triangle
      vc_destination vc_cache vc_cache_new vc_cache_count].
  - constructor; cbn [vc_adjacency vc_emitted_flags vc_output_triangle
      vc_destination vc_cache vc_cache_new vc_cache_count].
    + eapply adj_ok_ext;
        [|apply remove_emitted_spec; [exact Hsmall|exact Hcorners|exact Hadj|]].
      * intros v t Hv. unfold listing. rewrite pending_wr by lia.
        destruct (t =? cur); reflexivity.
      * intros v. unfold listing.
        assert (pending (vc_emitted_flags st) (index_count / 3) cur = true)
          as -> by (apply pending_spec; auto).
        reflexivity.
    + rewrite length_wr. exact Helen.
    + exact Horange'.
    + exact Hnodup'.
    + intros t Ht. rewrite elem_of_app, list_elem_of_singleton.
      destruct (decide (t = cur)) as [->|Hne].
      * rewrite rd_wr_eq by lia. tauto.
      * rewrite rd_wr_ne by lia. rewrite Hem by exact Ht. tauto.
    + rewrite Hout, length_app. cbn [length]. rewrite u32_small by lia. lia.
    + rewrite Hout, length_app, bind_app. cbn [length].
      replace (length order + 1)%nat with (S (length order)) by lia.
      rewrite take_wr_triangle by lia. rewrite Hdst. reflexivity.
    + rewrite !length_wr. exact Hdlen.
    + lia.
    + exact Hclen.
    + destruct (Z.gtb_spec (Z.of_nat (length new)) cache_size);
        unfold cache_size in *; lia.
    + intros i Hi. apply Hnewrange.
      destruct (Z.gtb_spec (Z.of_nat (length new)) cache_size); lia.
  - intros t Ht. destruct (decide (t = cur)) as [->|Hne].
    + apply rd_wr_eq. lia.
    + rewrite rd_wr_ne by lia. destruct (Hskipped t Ht); [assumption|contradiction].
  - lia.
  - exact Hnewrange.
  - rewrite !length_wr. reflexivity.
Qed.

Lemma pick_best_elem init log :
  pick_best init log = init ∨ pick_best init log ∈ log.
Proof.
  induction log as [|e log IH] using rev_ind; [left; reflexivity|].
  rewrite pick_best_snoc. destruct (flt _ _).
  - right. apply elem_of_app. right. constructor.
  - destruct IH as [IH|IH]; [left; exact IH|].
    right. apply elem_of_app. left. exact IH.
Qed.

(** Every triangle the sweep visits is listed with a vertex of the cache
    list, hence pending. *)
Lemma sweep_log_pending indices index_count vertex_count order st cache_write
    vs ts t :
  vc_core indices index_count vertex_count order st →
  (∀ i, 0 ≤ i < cache_write → 0 ≤ rd (vc_cache st) i < vertex_count) →
  t ∈ (sweep_log (vc_adjacency st) (vc_live_triangles st) (vc_cache st)
         cache_write vs ts).2.*1 →
  pending (vc_emitted_flags st) (index_count / 3) t = true ∧
  ∃ i, 0 ≤ i < cache_write ∧ t ∈ neighbours (vc_adjacency st) (rd (vc_cache st) i).
Proof.
  intros Hcore Hrange Hin. rewrite sweep_log_triangles in Hin.
  apply list_elem_of_bind in Hin as (i & Hin & Hi).
  apply elem_of_zseq in Hi.
  assert (0 ≤ i < cache_write) as Hi' by lia.
  pose proof (vi_adj _ _ _ _ _ Hcore) as Hadj.
  rewrite (listed_neighbours _ _ _ _ _ _ Hadj (Hrange i Hi')) in Hin.
  split; [|exists i; auto].
  apply occ_pos_in in Hin.
  rewrite (ao_content _ _ _ _ _ Hadj) in Hin by (apply Hrange, Hi').
  unfold listing in Hin. destruct (pending _ _ t); [reflexivity|lia].
Qed.

Lemma sweep_best_pending indices index_count vertex_count order st cache_write
    vs ts :
  vc_core indices index_count vertex_count order st →
  (∀ i, 0 ≤ i < cache_write → 0 ≤ rd (vc_cache st) i < vertex_count) →
  let best := (sweep (vc_adjacency st) (vc_live_triangles st) (vc_cache st)
                 cache_write vs ts).1.2 in
  best = UINT_MAX ∨ pending (vc_emitted_flags st) (index_count / 3) best = true.
Proof.
  intros Hcore Hrange best. subst best. rewrite <- sweep_log_fst.
  pose proof (sweep_log_best (vc_adjacency st) (vc_live_triangles st)
                (vc_cache st) cache_write vs ts) as Hbest.
  unfold best_logged in Hbest.
  destruct (pick_best_elem (UINT_MAX, fzero)
              (sweep_log (vc_adjacency st) (vc_live_triangles st)
                 (vc_cache st) cache_write vs ts).2) as [Hinit|Hin].
  - left. rewrite Hinit in Hbest. congruence.
  - right. rewrite <- Hbest in Hin.
    eapply sweep_log_pending; [exact Hcore|exact Hrange|].
    apply list_elem_of_fmap. eexists. split; [|exact Hin]. reflexivity.
Qed.

Lemma vc_step_spec indices index_count vertex_count order st fuel :
  valid_mesh indices index_count vertex_count →
  vc_inv indices index_count vertex_count order st →
  vc_current_triangle st ≠ UINT_MAX →
  index_count / 3 ≤ Z.of_nat fuel →
  ∃ st',
    vc_step fuel indices (index_count / 3) st = Some st' ∧
    vc_inv indices index_count vertex_count
      (order ++ [vc_current_triangle st]) st' ∧
    length (vc_destination st') = length (vc_destination st).
Proof.
  intros Hvalid Hinv Hlive Hfuel.
  destruct (vc_emit_spec _ _ _ _ _ Hvalid Hinv Hlive)
    as (Hcore & Hcur & Hskip & Hcw & Hcrange & Hdlen).
  pose proof (vi_cursor _ _ _ _ _ Hinv) as Hcursor.
  destruct (valid_mesh_faces _ _ _ Hvalid) as [Hic HF].
  pose proof (vm_u32 _ _ _ Hvalid) as Hsmall.
  unfold vc_step. destruct (vc_emit indices st) as [st1 cw].
  cbn [fst snd] in *.
  pose proof (sweep_best_pending _ _ _ _ _ cw (vc_vertex_scores st1)
                (vc_triangle_scores st1) Hcore Hcrange) as Hbest.
  destruct (sweep _ _ _ _ _ _) as [[[vs ts] best] bs]. cbn [fst snd] in Hbest.
  destruct (Z.eqb_spec best UINT_MAX) as [->|Hne].
  - destruct (getNextTriangleDeadEnd_spec (vc_emitted_flags st1)
                (index_count / 3) ltac:(lia) fuel (vc_input_cursor st1)
                ltac:(lia) ltac:(lia))
      as (r & c' & Hrun & Hc' & Hskipped & Hres).
    rewrite Hrun. cbn. eexists. split; [reflexivity|]. split; [|exact Hdlen].
    constructor; cbn [vc_emitted_flags vc_input_cursor vc_current_triangle].
    + destruct Hcore. constructor; assumption.
    + lia.
    + intros t Ht. destruct (Z.lt_ge_cases t (vc_input_cursor st1)) as [Hlt|Hge].
      * left. apply Hskip. lia.
      * destruct Hres as [[-> Hend]|(-> & Hlt & Hpend)].
        -- left. apply Hskipped. lia.
        -- left. apply Hskipped. lia.
    + destruct Hres as [[-> Hend]|(-> & Hlt & Hpend)]; [left; auto|right].
      split; [lia|exact Hpend].
  - cbn. eexists. split; [reflexivity|]. split; [|exact Hdlen].
    destruct Hbest as [Habs|Hpend]; [contradiction|].
    apply pending_spec in Hpend.
    constructor; cbn [vc_emitted_flags vc_input_cursor vc_current_triangle].
    + destruct Hcore. constructor; assumption.
    + lia.
    + intros t Ht. left. apply Hskip. lia.
    + right. exact Hpend.
Qed.

Lemma tiled_ext_base base base' cap vertex_count n :
  (∀ v, 0 ≤ v < vertex_count → base v = base' v) →
  tiled base cap vertex_count n → tiled base' cap vertex_count n.
Proof.
  intros Hext Ht v Hv. destruct (Ht v Hv) as (H1 & H2 & H3 & H4).
  rewrite <- Hext by assumption. repeat split; try assumption.
  intros u Hu. rewrite <- Hext by lia. apply H4, Hu.
Qed.

(** What [buildAdjacency] returns lists every triangle with each of its
    vertices. *)
Lemma built_adj_ok indices index_count vertex_count adj :
  valid_mesh indices index_count vertex_count →
  adjacency_built indices index_count vertex_count adj →
  adj_ok vertex_count index_count
    (λ v, Z.of_nat (uses indices v (Z.to_nat index_count)))
    (λ v t, if (0 <=? t) && (t <? index_count / 3)
            then occ v (corners indices t) else O)
    adj.
Proof.
  intros Hvalid [H1 H2 H3 H4 H5 H6 H7].
  destruct (valid_mesh_faces _ _ _ Hvalid) as [Hic HF].
  constructor; try assumption.
  - apply (tiled_ext_base (psum (triangle_counts adj)));
      [intros v Hv; symmetry; apply H5, Hv|].
    apply (tiled_ext _ (rd (triangle_counts adj))); [exact H4|].
    apply psum_tiled; [|exact H6]. intros w Hw. rewrite H4 by exact Hw. lia.
  - intros v Hv. rewrite H4 by exact Hv. lia.
  - intros v t Hv. rewrite H7 by exact Hv.
    replace (Z.to_nat index_count) with (3 * Z.to_nat (index_count / 3))%nat
      by lia.
    rewrite occ_fan. rewrite Z2Nat.id by exact HF. reflexivity.
Qed.

Lemma vc_init_inv destination indices index_count vertex_count :
  valid_mesh indices index_count vertex_count →
  0 < index_count →
  index_count ≤ Z.of_nat (length destination) →
  vc_inv indices index_count vertex_count []
    (vc_init destination indices index_count vertex_count).
Proof.
  intros Hvalid Hpos Hdst.
  destruct (valid_mesh_faces _ _ _ Hvalid) as [Hic HF].
  pose proof (built_adj_ok _ _ _ _ Hvalid
                (buildAdjacency_spec _ _ _ Hvalid)) as Hadj.
  unfold vc_init. constructor; [constructor|..];
    cbn [vc_adjacency vc_emitted_flags vc_output_triangle vc_destination
         vc_cache vc_cache_new vc_cache_count vc_input_cursor
         vc_current_triangle].
  - eapply adj_ok_ext; [|exact Hadj]. intros v t Hv. unfold listing, pending.
    destruct (Z.leb_spec 0 t), (Z.ltb_spec t (index_count / 3));
      cbn [andb]; try reflexivity.
    rewrite rd_replicate by lia. reflexivity.
  - rewrite length_replicate. lia.
  - intros t Ht. apply elem_of_nil in Ht. contradiction.
  - constructor.
  - intros t Ht. rewrite rd_replicate by lia.
    split; [discriminate|]. intros Hin. apply elem_of_nil in Hin. contradiction.
  - reflexivity.
  - reflexivity.
  - exact Hdst.
  - rewrite length_replicate. unfold cache_slots, max_cache_size. lia.
  - rewrite length_replicate. unfold cache_slots, max_cache_size. lia.
  - unfold cache_size. lia.
  - intros i Hi. lia.
  - lia.
  - intros t Ht. right. lia.
  - right. split; [lia|]. apply rd_replicate. lia.
Qed.

Lemma vc_loop_spec indices index_count vertex_count fuel :
  valid_mesh indices index_count vertex_count →
  index_count / 3 ≤ Z.of_nat fuel →
  ∀ n order st,
    vc_inv indices index_count vertex_count order st →
    index_count / 3 - Z.of_nat (length order) < Z.of_nat n →
    ∃ st' order',
      vc_loop fuel n indices (index_count / 3) st = Some st' ∧
      vc_inv indices index_count vertex_count order' st' ∧
      vc_current_triangle st' = UINT_MAX ∧
      length (vc_destination st') = length (vc_destination st).
Proof.
  intros Hvalid Hfuel. induction n as [|n IH]; intros order st Hinv Hn.
  - destruct (valid_mesh_faces _ _ _ Hvalid) as [_ HF].
    pose proof (nodup_bounded _ _ HF
                  (vi_order_nodup _ _ _ _ _ (vi_core _ _ _ _ _ Hinv))
                  (vi_order_range _ _ _ _ _ (vi_core _ _ _ _ _ Hinv))).
    lia.
  - cbn [vc_loop]. destruct (Z.eqb_spec (vc_current_triangle st) UINT_MAX)
      as [Hdone|Hlive].
    + exists st, order. auto.
    + destruct (vc_step_spec _ _ _ _ _ fuel Hvalid Hinv Hlive Hfuel)
        as (st1 & Hstep & Hinv1 & Hlen1).
      rewrite Hstep. cbn.
      destruct (IH _ _ Hinv1) as (st' & order' & Hloop & Hinv' & Hend & Hlen').
      { rewrite length_app. cbn [length]. lia. }
      exists st', order'. rewrite Hlen', Hlen1. auto.
Qed.

(** * Triangles of a buffer *)

(** The consecutive index triples of the first [face_count] triangles. *)
Definition triangles (l : list Z) (face_count : Z) : list (list Z) :=
  corners l <$> zseq (Z.to_nat face_count).

Lemma fmap_ext_elem {A B} (f g : A → B) (l : list A) :
  (∀ x, x ∈ l → f x = g x) → f <$> l = g <$> l.
Proof.
  induction l as [|x l IH]; intros Hfg; [reflexivity|].
  cbn. rewrite Hfg by constructor. f_equal. apply IH.
  intros y Hy. apply Hfg. constructor. exact Hy.
Qed.

Lemma length_bind_corners indices order :
  length (order ≫= corners indices) = (3 * length order)%nat.
Proof.
  induction order as [|t order IH]; [reflexivity|].
  cbn. rewrite IH. lia.
Qed.

Lemma corners_app_l (l k : list Z) t :
  0 ≤ t → t * 3 + 2 < Z.of_nat (length l) → corners (l ++ k) t = corners l t.
Proof.
  intros Ht Hlen. unfold corners, rd.
  rewrite !lookup_total_app_l by lia. reflexivity.
Qed.

Lemma corners_app_r (l : list Z) a b c t :
  Z.of_nat (length l) = t * 3 → corners (l ++ [a; b; c]) t = [a; b; c].
Proof.
  intros Hlen. unfold corners, rd.
  rewrite !lookup_total_app_r by lia.
  replace (Z.to_nat (t * 3 + 0) - length l)%nat with 0%nat by lia.
  replace (Z.to_nat (t * 3 + 1) - length l)%nat with 1%nat by lia.
  replace (Z.to_nat (t * 3 + 2) - length l)%nat with 2%nat by lia.
  reflexivity.
Qed.

Lemma corners_take (l : list Z) n t :
  0 ≤ t → t * 3 + 2 < Z.of_nat n → corners (take n l) t = corners l t.
Proof.
  intros Ht Hn. unfold corners. rewrite !rd_take by lia. reflexivity.
Qed.

(** Reading back the triangles of a buffer made of the triangles [order]
    of [indices]. *)
Lemma triangles_bind indices order :
  triangles (order ≫= corners indices) (Z.of_nat (length order)) =
  corners indices <$> order.
Proof.
  unfold triangles. rewrite Nat2Z.id.
  induction order as [|t order IH] using rev_ind; [reflexivity|].
  rewrite length_app, Nat.add_1_r, bind_app, fmap_app. cbn [zseq].
  rewrite fmap_app. f_equal.
  - rewrite <- IH. apply fmap_ext_elem. intros j Hj.
    apply elem_of_zseq in Hj. apply corners_app_l; [lia|].
    rewrite length_bind_corners. lia.
  - change ([t] ≫= corners indices) with (corners indices t ++ []).
    rewrite app_nil_r. cbn [fmap list_fmap]. f_equal.
    refine (corners_app_r _ _ _ _ _ _). rewrite length_bind_corners. lia.
Qed.

Lemma optimizeVertexCache_run_spec destination indices index_count
    vertex_count fuel :
  valid_mesh indices index_count vertex_count →
  0 < index_count →
  index_count ≤ Z.of_nat (length destination) →
  index_count / 3 < Z.of_nat fuel →
  ∃ out order,
    optimizeVertexCache_run fuel destination indices index_count vertex_count
      = Some out ∧
    length out = length destination ∧
    take (Z.to_nat index_count) out = order ≫= corners indices ∧
    order ≡ₚ zseq (Z.to_nat (index_count / 3)).
Proof.
  intros Hvalid Hpos Hdst Hfuel.
  destruct (valid_mesh_faces _ _ _ Hvalid) as [Hic HF].
  pose proof (vc_init_inv _ _ _ _ Hvalid Hpos Hdst) as Hinit.
  destruct (vc_loop_spec _ _ _ fuel Hvalid ltac:(lia) fuel [] _ Hinit)
    as (st & order & Hloop & Hinv & Hend & Hlen); [cbn; lia|].
  unfold optimizeVertexCache_run. rewrite Hloop. cbn.
  exists (vc_destination st), order. split; [reflexivity|].
  split; [exact Hlen|].
  destruct Hinv as [Hcore Hcursor Hskipped Hcurrent].
  pose proof (vm_u32 _ _ _ Hvalid) as Hsmall.
  destruct Hcurrent as [[_ Hcur]|[Hcur _]]; [|unfold UINT_MAX in *; lia].
  assert (order ≡ₚ zseq (Z.to_nat (index_count / 3))) as Hperm.
  { apply NoDup_Permutation.
    - apply (vi_order_nodup _ _ _ _ _ Hcore).
    - apply NoDup_zseq.
    - intros t. rewrite elem_of_zseq. split.
      + intros Ht. apply (vi_order_range _ _ _ _ _ Hcore) in Ht. lia.
      + intros Ht. apply (vi_emitted _ _ _ _ _ Hcore); [lia|].
        destruct (Hskipped t ltac:(lia)) as [Hem|Habs]; [exact Hem|].
        rewrite Hend in Habs. unfold UINT_MAX in Habs.
        pose proof (vm_u32 _ _ _ Hvalid). lia. }
  split; [|exact Hperm].
  rewrite <- (vi_destination _ _ _ _ _ Hcore). f_equal.
  apply Permutation_length in Hperm. rewrite length_zseq in Hperm. lia.
Qed.

(** A buffer whose first triangles are the triangles [order] of [indices],
    [order] being an arrangement of all triangle numbers, holds a
    permutation of the triangles of [indices]. *)
Lemma triangles_permuted indices out order index_count :
  0 ≤ index_count →
  index_count = 3 * (index_count / 3) →
  take (Z.to_nat index_count) out = order ≫= corners indices →
  order ≡ₚ zseq (Z.to_nat (index_count / 3)) →
  triangles out (index_count / 3) ≡ₚ triangles indices (index_count / 3).
Proof.
  intros Hpos Hic Htake Hperm.
  assert (length order = Z.to_nat (index_count / 3)) as Hlen.
  { apply Permutation_length in Hperm. rewrite length_zseq in Hperm. exact Hperm. }
  transitivity (corners indices <$> order).
  - rewrite <- triangles_bind, <- Htake, Hlen.
    rewrite Z2Nat.id by lia. unfold triangles.
    apply Permutation_refl'. apply fmap_ext_elem. intros t Ht.
    apply elem_of_zseq in Ht. symmetry. apply corners_take; lia.
  - unfold triangles. apply fmap_Permutation. exact Hperm.
Qed.

(** * Invariant of the FIFO loop *)

(** Number of pending listings of vertex [v]: what [live_triangles[v]]
    must hold. *)
Definition live_sum (indices : list Z) (emitted_flags : list bool)
    (face_count v : Z) : Z :=
  zsum_upto (λ t, Z.of_nat (listing indices emitted_flags face_count v t))
    (Z.to_nat face_count).

Record ff_core (indices : list Z) (index_count vertex_count : Z)
    (order : list Z) (st : ff_state) : Prop := {
  fi_emitted_length :
    Z.of_nat (length (ff_emitted_flags st)) = index_count / 3;
  fi_order_range : ∀ t, t ∈ order → 0 ≤ t < index_count / 3;
  fi_order_nodup : NoDup order;
  fi_emitted : ∀ t, 0 ≤ t < index_count / 3 →
    rd (ff_emitted_flags st) t = true ↔ t ∈ order;
  fi_output : ff_output_triangle st = Z.of_nat (length order);
  fi_destination :
    take (3 * length order) (ff_destination st) = order ≫= corners indices;
  fi_dst_length : index_count ≤ Z.of_nat (length (ff_destination st));
  fi_live_length : Z.of_nat (length (ff_live_triangles st)) = vertex_count;
  fi_live : ∀ v, 0 ≤ v < vertex_count →
    rd (ff_live_triangles st) v =
    live_sum indices (ff_emitted_flags st) (index_count / 3) v;
  fi_stack_length : Z.of_nat (length (ff_dead_end st)) = index_count;
  fi_stack_top : 0 ≤ ff_dead_end_top st ≤ 3 * Z.of_nat (length order);
  fi_stack_range : ∀ i, 0 ≤ i < ff_dead_end_top st →
    0 ≤ rd (ff_dead_end st) i < vertex_count
}.

Record ff_inv (indices : list Z) (index_count vertex_count : Z)
    (order : list Z) (st : ff_state) : Prop := {
  fi_core : ff_core indices index_count vertex_count order st;
  fi_cursor : 1 ≤ ff_input_cursor st ≤ vertex_count;
  fi_skipped : ∀ v, 0 ≤ v < ff_input_cursor st →
    rd (ff_live_triangles st) v = 0 ∨ v = ff_current_vertex st;
  fi_current :
    (ff_current_vertex st = UINT_MAX ∧ ff_input_cursor st = vertex_count) ∨
    0 ≤ ff_current_vertex st < vertex_count
}.

Lemma zsum_upto_change f g n t :
  0 ≤ t < Z.of_nat n → (∀ u, u ≠ t → g u = f u) →
  zsum_upto g n = zsum_upto f n - f t + g t.
Proof.
  intros Ht Hsame. induction n as [|n IH]; [lia|]. cbn [zsum_upto].
  destruct (decide (t = Z.of_nat n)) as [->|Hne].
  - rewrite (zsum_upto_ext g f) by (intros v Hv; apply Hsame; lia). lia.
  - rewrite IH by lia. rewrite (Hsame (Z.of_nat n)) by congruence. lia.
Qed.

Lemma occ_corners_le indices v t : (occ v (corners indices t) ≤ 3)%nat.
Proof. unfold corners. cbn [occ]. repeat destruct (_ =? _); lia. Qed.

Lemma listing_le indices emitted_flags face_count v t :
  (listing indices emitted_flags face_count v t ≤ 3)%nat.
Proof.
  unfold listing. destruct (pending _ _ _); [apply occ_corners_le|lia].
Qed.

Lemma zsum_upto_le f n c :
  (∀ t, 0 ≤ t < Z.of_nat n → f t ≤ c) → zsum_upto f n ≤ c * Z.of_nat n.
Proof.
  intros Hf. induction n as [|n IH]; cbn [zsum_upto]; [lia|].
  pose proof (Hf (Z.of_nat n) ltac:(lia)).
  assert (zsum_upto f n ≤ c * Z.of_nat n) by (apply IH; intros; apply Hf; lia).
  lia.
Qed.

Lemma live_sum_bounds indices emitted_flags face_count v :
  0 ≤ face_count →
  0 ≤ live_sum indices emitted_flags face_count v ≤ 3 * face_count.
Proof.
  intros HF. unfold live_sum. split.
  - apply zsum_upto_nonneg. intros; lia.
  - replace face_count with (Z.of_nat (Z.to_nat face_count)) at 2 by lia.
    apply zsum_upto_le. intros t _.
    pose proof (listing_le indices emitted_flags face_count v t). lia.
Qed.

Lemma zsum_upto_term_le f n t :
  (∀ u, 0 ≤ u < Z.of_nat n → 0 ≤ f u) → 0 ≤ t < Z.of_nat n →
  f t ≤ zsum_upto f n.
Proof.
  intros Hf Ht. induction n as [|n IH]; [lia|]. cbn [zsum_upto].
  pose proof (Hf (Z.of_nat n) ltac:(lia)).
  assert (0 ≤ zsum_upto f n) by (apply zsum_upto_nonneg; intros; apply Hf; lia).
  destruct (decide (t = Z.of_nat n)) as [->|Hne]; [lia|].
  assert (f t ≤ zsum_upto f n) by (apply IH; [intros; apply Hf; lia|lia]).
  lia.
Qed.

Lemma zsum_upto_zero f n :
  (∀ t, 0 ≤ t < Z.of_nat n → f t = 0) → zsum_upto f n = 0.
Proof.
  intros Hf. induction n as [|n IH]; cbn [zsum_upto]; [reflexivity|].
  rewrite IH by (intros; apply Hf; lia). rewrite Hf by lia. reflexivity.
Qed.

Lemma zsum_upto_pos f n :
  (∀ u, 0 ≤ u < Z.of_nat n → 0 ≤ f u) → 0 < zsum_upto f n →
  ∃ t, 0 ≤ t < Z.of_nat n ∧ 0 < f t.
Proof.
  intros Hf Hpos. induction n as [|n IH]; cbn [zsum_upto] in Hpos; [lia|].
  destruct (Z.lt_ge_cases 0 (f (Z.of_nat n))) as [Hn|Hn].
  - exists (Z.of_nat n). split; [lia|exact Hn].
  - pose proof (Hf (Z.of_nat n) ltac:(lia)).
    destruct IH as (t & Ht & Hft); [intros; apply Hf; lia|lia|].
    exists t. split; [lia|exact Hft].
Qed.

(** Emitting a pending triangle takes its listings off the live counts. *)
Lemma live_sum_emit indices emitted_flags face_count v t :
  0 ≤ t < face_count → face_count = Z.of_nat (length emitted_flags) →
  live_sum indices (wr emitted_flags t true) face_count v =
  live_sum indices emitted_flags face_count v -
  Z.of_nat (listing indices emitted_flags face_count v t).
Proof.
  intros Ht Hlen. unfold live_sum.
  rewrite (zsum_upto_change
             (λ u, Z.of_nat (listing indices emitted_flags face_count v u))
             _ _ t).
  - unfold listing at 3. rewrite pending_wr by lia. rewrite Z.eqb_refl. lia.
  - lia.
  - intros u Hu. unfold listing. rewrite pending_wr by lia.
    destruct (Z.eqb_spec u t); [contradiction|reflexivity].
Qed.

Lemma length_decr l v : length (decr l v) = length l.
Proof. unfold decr. apply length_wr. Qed.

Lemma decr_spec l a v :
  0 ≤ a < Z.of_nat (length l) → 0 ≤ v → 1 ≤ rd l a < 4294967296 →
  rd (decr l a) v = rd l v - (if a =? v then 1 else 0).
Proof.
  intros Ha Hv Hla. unfold decr. destruct (Z.eqb_spec a v) as [->|Hne].
  - rewrite rd_wr_eq by lia. rewrite u32_small by lia. reflexivity.
  - rewrite rd_wr_ne by lia. lia.
Qed.

(** [live_triangles[a]--; live_triangles[b]--; live_triangles[c]--] when
    every count is at least the number of decrements it receives. *)
Lemma decr3_spec l a b c v :
  0 ≤ a < Z.of_nat (length l) → 0 ≤ b < Z.of_nat (length l) →
  0 ≤ c < Z.of_nat (length l) → 0 ≤ v →
  (∀ w, w ∈ [a; b; c] → Z.of_nat (occ w [a; b; c]) ≤ rd l w < 4294967296) →
  rd (decr (decr (decr l a) b) c) v = rd l v - Z.of_nat (occ v [a; b; c]).
Proof.
  intros Ha Hb Hc Hv Hl.
  pose proof (Hl a ltac:(repeat constructor)) as Hla.
  pose proof (Hl b ltac:(repeat constructor)) as Hlb.
  pose proof (Hl c ltac:(repeat constructor)) as Hlc.
  cbn [occ] in *. rewrite !Z.eqb_refl in *.
  assert (rd (decr l a) b = rd l b - (if a =? b then 1 else 0)) as H1b
    by (apply decr_spec; lia).
  assert (rd (decr l a) c = rd l c - (if a =? c then 1 else 0)) as H1c
    by (apply decr_spec; lia).
  assert (rd (decr (decr l a) b) c =
          rd (decr l a) c - (if b =? c then 1 else 0)) as H2c.
  { apply decr_spec; rewrite ?length_decr; try lia.
    rewrite H1b. destruct (Z.eqb_spec a b), (Z.eqb_spec b a); lia. }
  rewrite decr_spec; rewrite ?length_decr; try lia.
  - rewrite decr_spec; rewrite ?length_decr; try lia.
    + rewrite decr_spec by lia.
      destruct (Z.eqb_spec a v), (Z.eqb_spec b v), (Z.eqb_spec c v); lia.
    + rewrite H1b. destruct (Z.eqb_spec a b), (Z.eqb_spec b a); lia.
  - rewrite H2c, H1c.
    destruct (Z.eqb_spec a c), (Z.eqb_spec b c), (Z.eqb_spec c a),
      (Z.eqb_spec c b); lia.
Qed.

Lemma ff_emit_spec indices index_count vertex_count cache_size order st t :
  valid_mesh indices index_count vertex_count →
  ff_core indices index_count vertex_count order st →
  0 ≤ t < index_count / 3 →
  ∃ order',
    ff_core indices index_count vertex_count order'
      (ff_emit indices cache_size t st) ∧
    ((rd (ff_emitted_flags st) t = false ∧ order' = order ++ [t]) ∨
     (rd (ff_emitted_flags st) t = true ∧
      ff_emit indices cache_size t st = st ∧ order' = order)) ∧
    rd (ff_emitted_flags (ff_emit indices cache_size t st)) t = true ∧
    (∀ u, 0 ≤ u → rd (ff_emitted_flags st) u = true →
       rd (ff_emitted_flags (ff_emit indices cache_size t st)) u = true) ∧
    ff_input_cursor (ff_emit indices cache_size t st) = ff_input_cursor st ∧
    ff_current_vertex (ff_emit indices cache_size t st) = ff_current_vertex st ∧
    ff_dead_end_top st ≤ ff_dead_end_top (ff_emit indices cache_size t st) ∧
    length (ff_destination (ff_emit indices cache_size t st)) =
      length (ff_destination st).
Proof.
  intros Hvalid Hcore Ht. unfold ff_emit.
  destruct (rd (ff_emitted_flags st) t) eqn:Hem; cbn [negb].
  { exists order. split; [exact Hcore|]. split; [right; auto|].
    repeat split; auto; lia. }
  destruct (cache_touch _ _ (cache_touch _ _ (cache_touch _ _ _))) as [cts ts].
  destruct Hcore as [Helen Horange Hnodup Hemit Hout Hdst Hdlen Hllen Hlive
                       Hslen Htop Hsrange].
  destruct (valid_mesh_faces _ _ _ Hvalid) as [Hic HF].
  pose proof (vm_u32 _ _ _ Hvalid) as Hsmall.
  pose proof (λ v, corners_range _ _ _ t v Hvalid Ht) as Hcorners.
  assert (t ∉ order) as Hfresh.
  { intros Hin. apply Hemit in Hin; [congruence|exact Ht]. }
  assert (NoDup (order ++ [t])) as Hnodup'.
  { apply NoDup_app. split; [exact Hnodup|]. split; [|apply NoDup_singleton].
    intros x Hx Hx'. apply list_elem_of_singleton in Hx'. subst x. contradiction. }
  assert (∀ u, u ∈ order ++ [t] → 0 ≤ u < index_count / 3) as Horange'.
  { intros u Hu. apply elem_of_app in Hu as [Hu|Hu]; [apply Horange, Hu|].
    apply list_elem_of_singleton in Hu. subst u. exact Ht. }
  pose proof (nodup_bounded _ _ HF Hnodup' Horange') as Hcount.
  rewrite length_app in Hcount. cbn [length] in Hcount.
  unfold corners in Hcorners.
  set (a := rd indices (t * 3 + 0)) in *.
  set (b := rd indices (t * 3 + 1)) in *.
  set (c := rd indices (t * 3 + 2)) in *.
  assert (0 ≤ a < vertex_count) as Ha by (apply Hcorners; repeat constructor).
  assert (0 ≤ b < vertex_count) as Hb by (apply Hcorners; repeat constructor).
  assert (0 ≤ c < vertex_count) as Hc by (apply Hcorners; repeat constructor).
  assert (pending (ff_emitted_flags st) (index_count / 3) t = true) as Hpend
    by (apply pending_spec; auto).
  exists (order ++ [t]).
  cbn [ff_emitted_flags ff_input_cursor ff_current_vertex ff_dead_end_top
       ff_destination].
  split; [|split; [left; auto|split; [apply rd_wr_eq; lia|
    split; [|split; [reflexivity|split; [reflexivity|split]]]]]].
  - constructor; cbn [ff_emitted_flags ff_output_triangle ff_destination
      ff_live_triangles ff_dead_end ff_dead_end_top].
    + rewrite length_wr. exact Helen.
    + exact Horange'.
    + exact Hnodup'.
    + intros u Hu. rewrite elem_of_app, list_elem_of_singleton.
      destruct (decide (u = t)) as [->|Hne].
      * rewrite rd_wr_eq by lia. tauto.
      * rewrite rd_wr_ne by lia. rewrite Hemit by exact Hu. tauto.
    + rewrite Hout, length_app. cbn [length]. rewrite u32_small by lia. lia.
    + rewrite Hout, length_app, bind_app. cbn [length].
      replace (length order + 1)%nat with (S (length order)) by lia.
      rewrite take_wr_triangle by lia. rewrite Hdst. reflexivity.
    + rewrite !length_wr. exact Hdlen.
    + rewrite !length_decr. exact Hllen.
    + intros v Hv. rewrite live_sum_emit by lia.
      unfold listing at 1. rewrite Hpend. rewrite <- Hlive by exact Hv.
      apply decr3_spec; try lia.
      intros w Hw. rewrite Hlive by (apply Hcorners, Hw).
      pose proof (live_sum_bounds indices (ff_emitted_flags st)
                    (index_count / 3) w HF).
      split; [|lia].
      change (occ w [a; b; c]) with (occ w (corners indices t)).
      replace (occ w (corners indices t))
        with (listing indices (ff_emitted_flags st) (index_count / 3) w t)
        by (unfold listing; rewrite Hpend; reflexivity).
      unfold live_sum.
      apply (zsum_upto_term_le
               (λ u, Z.of_nat (listing indices (ff_emitted_flags st)
                                 (index_count / 3) w u))); [intros; lia|lia].
    + rewrite !length_wr. exact Hslen.
    + rewrite length_app. cbn [length]. rewrite u32_small by lia. lia.
    + intros i Hi. rewrite u32_small in Hi by lia.
      destruct (decide (i = ff_dead_end_top st + 2)) as [->|H2];
        [rewrite rd_wr_eq by (rewrite !length_wr; lia); exact Hc|].
      rewrite rd_wr_ne by lia.
      destruct (decide (i = ff_dead_end_top st + 1)) as [->|H1];
        [rewrite rd_wr_eq by (rewrite !length_wr; lia); exact Hb|].
      rewrite rd_wr_ne by lia.
      destruct (decide (i = ff_dead_end_top st + 0)) as [->|H0];
        [rewrite rd_wr_eq by lia; exact Ha|].
      rewrite rd_wr_ne by lia. apply Hsrange. lia.
  - intros u Hu Hemu. destruct (decide (u = t)) as [->|Hne].
    + apply rd_wr_eq. lia.
    + rewrite rd_wr_ne by lia. exact Hemu.
  - rewrite u32_small by lia. lia.
  - rewrite !length_wr. reflexivity.
Qed.

(** * Choosing the next vertex in the FIFO loop *)

Lemma getNextVertexNeighbour_spec dead_end next_begin next_end live cts
    timestamp cache_size :
  let r := getNextVertexNeighbour dead_end next_begin next_end live cts
             timestamp cache_size in
  r = UINT_MAX ∨
  ∃ k, next_begin ≤ k < next_end ∧ r = rd dead_end k ∧ 0 < rd live r.
Proof.
  unfold getNextVertexNeighbour.
  enough (∀ n, (n ≤ Z.to_nat (next_end - next_begin))%nat →
            let r := (for_loop n
              (λ k '(best_candidate, best_priority),
                 if rd live (rd dead_end (next_begin + k)) >? 0
                 then
                   if neighbour_priority live cts timestamp cache_size
                        (rd dead_end (next_begin + k)) >? best_priority
                   then (rd dead_end (next_begin + k),
                         neighbour_priority live cts timestamp cache_size
                           (rd dead_end (next_begin + k)))
                   else (best_candidate, best_priority)
                 else (best_candidate, best_priority))
              (UINT_MAX, -1)).1 in
            r = UINT_MAX ∨
            ∃ k, next_begin ≤ k < next_end ∧ r = rd dead_end k ∧ 0 < rd live r)
    as Hn by (apply Hn; lia).
  induction n as [|n IH]; intros Hle; [left; reflexivity|].
  specialize (IH ltac:(lia)). cbn [for_loop]. cbn zeta in *.
  destruct (for_loop n _ _) as [bc bp]. cbn [fst] in *.
  destruct (Z.gtb_spec (rd live (rd dead_end (next_begin + Z.of_nat n))) 0)
    as [Hlive|Hdead]; [|exact IH].
  destruct (_ >? bp); [|exact IH].
  right. exists (next_begin + Z.of_nat n). cbn [fst]. split; [lia|]. auto.
Qed.

Lemma pop_dead_end_spec dead_end live :
  ∀ fuel dead_end_top,
    0 ≤ dead_end_top ≤ Z.of_nat fuel → dead_end_top < 4294967296 →
    ∃ found top',
      pop_dead_end fuel dead_end dead_end_top live = Some (found, top') ∧
      0 ≤ top' ≤ dead_end_top ∧
      ∀ v, found = Some v →
        top' < dead_end_top ∧ v = rd dead_end top' ∧ 0 < rd live v.
Proof.
  induction fuel as [|fuel IH]; intros top Htop Hsmall.
  - cbn [pop_dead_end]. destruct (Z.eqb_spec top 0); [|lia].
    exists None, top. split; [reflexivity|]. split; [lia|]. discriminate.
  - cbn [pop_dead_end]. destruct (Z.eqb_spec top 0) as [->|Hne].
    + exists None, 0. split; [reflexivity|]. split; [lia|]. discriminate.
    + rewrite u32_small by lia.
      destruct (Z.gtb_spec (rd live (rd dead_end (top - 1))) 0) as [Hlive|Hdead].
      * exists (Some (rd dead_end (top - 1))), (top - 1).
        split; [reflexivity|]. split; [lia|].
        intros v [= <-]. split; [lia|]. auto.
      * destruct (IH (top - 1) ltac:(lia) ltac:(lia))
          as (found & top' & Hrun & Htop' & Hfound).
        exists found, top'. split; [exact Hrun|]. split; [lia|].
        intros v Hv. destruct (Hfound v Hv) as (? & ? & ?). split; [lia|auto].
Qed.

Lemma scan_input_order_spec live vertex_count :
  vertex_count < 4294967296 →
  ∀ fuel input_cursor,
    0 ≤ input_cursor ≤ vertex_count →
    vertex_count - input_cursor ≤ Z.of_nat fuel →
    ∃ r cursor',
      scan_input_order fuel input_cursor live vertex_count = Some (r, cursor') ∧
      input_cursor ≤ cursor' ≤ vertex_count ∧
      (∀ v, input_cursor ≤ v < cursor' → rd live v ≤ 0) ∧
      ((r = UINT_MAX ∧ cursor' = vertex_count) ∨
       (r = cursor' ∧ cursor' < vertex_count ∧ 0 < rd live cursor')).
Proof.
  intros HV. induction fuel as [|fuel IH]; intros cursor Hc Hfuel.
  - cbn [scan_input_order].
    destruct (Z.ltb_spec cursor vertex_count) as [Hlt|Hge]; [lia|].
    exists UINT_MAX, cursor. split; [reflexivity|]. split; [lia|].
    split; [intros; lia|]. left. split; [reflexivity|lia].
  - cbn [scan_input_order].
    destruct (Z.ltb_spec cursor vertex_count) as [Hlt|Hge].
    + destruct (Z.gtb_spec (rd live cursor) 0) as [Hlive|Hdead].
      * exists cursor, cursor. split; [reflexivity|]. split; [lia|].
        split; [intros; lia|]. right. auto.
      * rewrite u32_small by lia.
        destruct (IH (cursor + 1) ltac:(lia) ltac:(lia))
          as (r & c' & Hrun & Hc' & Hskip & Hres).
        exists r, c'. split; [exact Hrun|]. split; [lia|].
        split; [|exact Hres]. intros v Hv.
        destruct (decide (v = cursor)) as [->|Hne]; [exact Hdead|].
        apply Hskip. lia.
    + exists UINT_MAX, cursor. split; [reflexivity|]. split; [lia|].
      split; [intros; lia|]. left. split; [reflexivity|lia].
Qed.

Lemma getNextVertexDeadEnd_spec dead_end live vertex_count fuel dead_end_top
    input_cursor :
  vertex_count < 4294967296 →
  0 ≤ dead_end_top ≤ Z.of_nat fuel → dead_end_top < 4294967296 →
  0 ≤ input_cursor ≤ vertex_count →
  vertex_count - input_cursor ≤ Z.of_nat fuel →
  ∃ r top' cursor',
    getNextVertexDeadEnd fuel dead_end dead_end_top input_cursor live
      vertex_count = Some (r, top', cursor') ∧
    0 ≤ top' ≤ dead_end_top ∧
    input_cursor ≤ cursor' ≤ vertex_count ∧
    (∀ v, input_cursor ≤ v < cursor' → rd live v ≤ 0) ∧
    ((r = UINT_MAX ∧ cursor' = vertex_count) ∨
     (0 < rd live r ∧
      ((r = cursor' ∧ cursor' < vertex_count) ∨
       (r = rd dead_end top' ∧ top' < dead_end_top ∧ cursor' = input_cursor)))).
Proof.
  intros HV Htop Hsmall Hc Hfuel. unfold getNextVertexDeadEnd.
  destruct (pop_dead_end_spec dead_end live fuel dead_end_top Htop Hsmall)
    as (found & top' & Hpop & Htop' & Hfound).
  rewrite Hpop. cbn. destruct found as [v|].
  - destruct (Hfound v eq_refl) as (Hlt & Hv & Hlive).
    exists v, top', input_cursor. split; [reflexivity|]. split; [lia|].
    split; [lia|]. split; [intros; lia|]. right. split; [exact Hlive|].
    right. auto.
  - destruct (scan_input_order_spec live vertex_count HV fuel input_cursor
                Hc Hfuel) as (r & c' & Hrun & Hc' & Hskip & Hres).
    rewrite Hrun. cbn. exists r, top', c'. split; [reflexivity|].
    split; [lia|]. split; [lia|]. split; [exact Hskip|].
    destruct Hres as [Hend|(-> & Hlt & Hlive)]; [left; exact Hend|].
    right. split; [exact Hlive|]. left. auto.
Qed.

(** * One vertex of the FIFO loop *)

(** The multiplicities of the adjacency that [buildAdjacency] returns. *)
Definition all_listed (indices : list Z) (face_count v t : Z) : nat :=
  if (0 <=? t) && (t <? face_count) then occ v (corners indices t) else O.

Lemma neighbour_entry vertex_count N cap m adj v k :
  adj_ok vertex_count N cap m adj → 0 ≤ v < vertex_count →
  0 ≤ k < rd (triangle_counts adj) v →
  rd (data adj) (rd (offsets adj) v + k) ∈ neighbours adj v.
Proof.
  intros Hok Hv Hk.
  destruct (ao_tiled _ _ _ _ _ Hok v Hv) as (Hoff & _ & _ & _).
  unfold neighbours. rewrite <- (rd_slice _ _ (rd (triangle_counts adj) v))
    by lia.
  unfold rd at 1. apply list_elem_of_lookup_total_2.
  fold (neighbours adj v). rewrite (length_neighbours _ _ _ _ _ _ Hok Hv). lia.
Qed.

Lemma neighbour_listed indices index_count vertex_count cap adj v t :
  adj_ok vertex_count index_count cap
    (all_listed indices (index_count / 3)) adj →
  0 ≤ v < vertex_count →
  t ∈ neighbours adj v ↔
  0 ≤ t < index_count / 3 ∧ (0 < occ v (corners indices t))%nat.
Proof.
  intros Hok Hv. rewrite <- occ_pos_in.
  rewrite (ao_content _ _ _ _ _ Hok) by exact Hv. unfold all_listed.
  destruct (Z.leb_spec 0 t), (Z.ltb_spec t (index_count / 3)); cbn [andb]; lia.
Qed.

Lemma ff_fan_spec indices index_count vertex_count cache_size cap adj v :
  valid_mesh indices index_count vertex_count →
  adj_ok vertex_count index_count cap
    (all_listed indices (index_count / 3)) adj →
  0 ≤ v < vertex_count →
  ∀ n order st,
    Z.of_nat n ≤ rd (triangle_counts adj) v →
    ff_core indices index_count vertex_count order st →
    let st' :=
      for_loop n
        (λ k st, ff_emit indices cache_size
                   (rd (data adj) (rd (offsets adj) v + k)) st) st in
    ∃ order',
      ff_core indices index_count vertex_count order' st' ∧
      (∀ k, 0 ≤ k < Z.of_nat n →
         rd (ff_emitted_flags st')
            (rd (data adj) (rd (offsets adj) v + k)) = true) ∧
      (∀ u, 0 ≤ u → rd (ff_emitted_flags st) u = true →
         rd (ff_emitted_flags st') u = true) ∧
      ff_input_cursor st' = ff_input_cursor st ∧
      ff_current_vertex st' = ff_current_vertex st ∧
      ff_dead_end_top st ≤ ff_dead_end_top st' ∧
      length (ff_destination st') = length (ff_destination st).
Proof.
  intros Hvalid Hok Hv. induction n as [|n IH]; intros order st Hn Hcore.
  - cbn [for_loop]. exists order. split; [exact Hcore|].
    split; [intros; lia|]. repeat split; auto; lia.
  - cbn [for_loop]. cbn zeta.
    destruct (IH order st ltac:(lia) Hcore)
      as (order1 & Hcore1 & Hdone1 & Hmono1 & Hcur1 & Hvert1 & Htop1 & Hlen1).
    set (st1 := for_loop n _ st) in *.
    set (t := rd (data adj) (rd (offsets adj) v + Z.of_nat n)).
    assert (0 ≤ t < index_count / 3) as Ht.
    { eapply neighbour_listed; [exact Hok|exact Hv|].
      apply (neighbour_entry _ _ _ _ _ _ _ Hok Hv). lia. }
    destruct (ff_emit_spec _ _ _ cache_size _ st1 t Hvalid Hcore1 Ht)
      as (order2 & Hcore2 & _ & Hdone2 & Hmono2 & Hcur2 & Hvert2 & Htop2 & Hlen2).
    exists order2. split; [exact Hcore2|]. split; [|split; [|split; [|split; [|split]]]].
    + intros k Hk. destruct (decide (k = Z.of_nat n)) as [->|Hne].
      * exact Hdone2.
      * apply Hmono2; [|apply Hdone1; lia].
        assert (rd (data adj) (rd (offsets adj) v + k) ∈ neighbours adj v)
          as Hin by (apply (neighbour_entry _ _ _ _ _ _ _ Hok Hv); lia).
        apply (neighbour_listed _ _ _ _ _ _ _ Hok Hv) in Hin. lia.
    + intros u Hu Hemu. apply Hmono2; [exact Hu|]. apply Hmono1; assumption.
    + congruence.
    + congruence.
    + lia.
    + congruence.
Qed.

Lemma listing_zero_emitted indices emitted_flags face_count v t :
  rd emitted_flags t = true → listing indices emitted_flags face_count v t = O.
Proof.
  intros Hem. unfold listing, pending. rewrite Hem.
  rewrite andb_false_r. reflexivity.
Qed.

(** Once every neighbour triangle of [v] is emitted, nothing of [v] is live. *)
Lemma live_sum_done indices index_count vertex_count cap adj emitted_flags v :
  adj_ok vertex_count index_count cap
    (all_listed indices (index_count / 3)) adj →
  0 ≤ v < vertex_count →
  (∀ t, t ∈ neighbours adj v → rd emitted_flags t = true) →
  live_sum indices emitted_flags (index_count / 3) v = 0.
Proof.
  intros Hok Hv Hdone. unfold live_sum. apply zsum_upto_zero. intros t Ht.
  unfold listing. destruct (pending _ _ t) eqn:Hpend; [|reflexivity].
  apply pending_spec in Hpend as [Hrange Hem].
  destruct (occ v (corners indices t)) eqn:Hocc; [reflexivity|].
  assert (t ∈ neighbours adj v) as Hin
    by (apply (neighbour_listed _ _ _ _ _ _ _ Hok Hv); lia).
  apply Hdone in Hin. congruence.
Qed.

Lemma live_sum_mono indices emitted emitted' face_count v :
  (∀ t, 0 ≤ t → rd emitted t = true → rd emitted' t = true) →
  live_sum indices emitted' face_count v ≤ live_sum indices emitted face_count v.
Proof.
  intros Hmono. unfold live_sum.
  induction (Z.to_nat face_count) as [|n IH]; cbn [zsum_upto]; [lia|].
  assert (listing indices emitted' face_count v (Z.of_nat n) ≤
          listing indices emitted face_count v (Z.of_nat n))%nat; [|lia].
  unfold listing, pending.
  destruct (rd emitted (Z.of_nat n)) eqn:Hem.
  - rewrite (Hmono (Z.of_nat n) ltac:(lia) Hem). cbn [negb].
    rewrite !andb_false_r. lia.
  - destruct ((0 <=? Z.of_nat n) && (Z.of_nat n <? face_count)),
      (rd emitted' (Z.of_nat n)); cbn; lia.
Qed.

(** A vertex with live triangles has a pending neighbour triangle. *)
Lemma live_sum_pending indices index_count vertex_count cap adj emitted_flags v :
  adj_ok vertex_count index_count cap
    (all_listed indices (index_count / 3)) adj →
  0 ≤ v < vertex_count →
  0 < live_sum indices emitted_flags (index_count / 3) v →
  ∃ t, t ∈ neighbours adj v ∧ 0 ≤ t < index_count / 3 ∧
       rd emitted_flags t = false.
Proof.
  intros Hok Hv Hpos. unfold live_sum in Hpos.
  apply zsum_upto_pos in Hpos as (t & Ht & Hlt); [|intros; lia].
  unfold listing in Hlt. destruct (pending _ _ t) eqn:Hpend; [|cbn in Hlt; lia].
  apply pending_spec in Hpend as [Hrange Hem].
  exists t. split; [|auto].
  apply (neighbour_listed _ _ _ _ _ _ _ Hok Hv). lia.
Qed.

Lemma neighbours_entry_inv vertex_count N cap m adj v t :
  adj_ok vertex_count N cap m adj → 0 ≤ v < vertex_count →
  t ∈ neighbours adj v →
  ∃ k, 0 ≤ k < rd (triangle_counts adj) v ∧
       t = rd (data adj) (rd (offsets adj) v + k).
Proof.
  intros Hok Hv Hin.
  destruct (ao_tiled _ _ _ _ _ Hok v Hv) as (Hoff & _ & _ & _).
  pose proof (ao_counts _ _ _ _ _ Hok v Hv) as Hsize.
  apply list_elem_of_lookup in Hin as [j Hj].
  pose proof (lookup_lt_Some _ _ _ Hj) as Hlt.
  rewrite (length_neighbours _ _ _ _ _ _ Hok Hv) in Hlt.
  exists (Z.of_nat j). split; [lia|].
  apply list_lookup_total_correct in Hj.
  rewrite <- (rd_slice _ _ (rd (triangle_counts adj) v)) by lia.
  unfold rd. rewrite Nat2Z.id. symmetry. exact Hj.
Qed.

Lemma ff_core_order_grows indices index_count vertex_count order order' st st' :
  ff_core indices index_count vertex_count order st →
  ff_core indices index_count vertex_count order' st' →
  (∀ u, 0 ≤ u → rd (ff_emitted_flags st) u = true →
     rd (ff_emitted_flags st') u = true) →
  (length order ≤ length order')%nat ∧
  ∀ t, 0 ≤ t < index_count / 3 → rd (ff_emitted_flags st) t = false →
       rd (ff_emitted_flags st') t = true →
       (length order < length order')%nat.
Proof.
  intros Hcore Hcore' Hmono.
  assert (∀ x, x ∈ order → x ∈ order') as Hsub.
  { intros x Hx. pose proof (fi_order_range _ _ _ _ _ Hcore x Hx) as Hr.
    apply (fi_emitted _ _ _ _ _ Hcore' x Hr). apply Hmono; [lia|].
    apply (fi_emitted _ _ _ _ _ Hcore x Hr), Hx. }
  split.
  - apply submseteq_length, NoDup_submseteq;
      [apply (fi_order_nodup _ _ _ _ _ Hcore)|exact Hsub].
  - intros t Ht Hem Hem'.
    assert (t ∉ order) as Hfresh.
    { intros Hin. apply (fi_emitted _ _ _ _ _ Hcore t Ht) in Hin. congruence. }
    assert (t :: order ⊆+ order') as Hsm.
    { apply NoDup_submseteq.
      - constructor; [exact Hfresh|apply (fi_order_nodup _ _ _ _ _ Hcore)].
      - intros x Hx. apply elem_of_cons in Hx as [->|Hx]; [|apply Hsub, Hx].
        apply (fi_emitted _ _ _ _ _ Hcore' t Ht), Hem'. }
    apply submseteq_length in Hsm. cbn [length] in Hsm. lia.
Qed.

Lemma ff_step_spec indices index_count vertex_count cache_size cap adj order
    st fuel :
  valid_mesh indices index_count vertex_count →
  vertex_count < 4294967296 →
  adj_ok vertex_count index_count cap
    (all_listed indices (index_count / 3)) adj →
  ff_inv indices index_count vertex_count order st →
  ff_current_vertex st ≠ UINT_MAX →
  index_count ≤ Z.of_nat fuel → vertex_count ≤ Z.of_nat fuel →
  ∃ st' order',
    ff_step fuel adj indices vertex_count cache_size st = Some st' ∧
    ff_inv indices index_count vertex_count order' st' ∧
    (length order ≤ length order')%nat ∧
    (0 < rd (ff_live_triangles st) (ff_current_vertex st) →
     (length order < length order')%nat) ∧
    (ff_current_vertex st' = UINT_MAX ∨
     0 < rd (ff_live_triangles st') (ff_current_vertex st')) ∧
    length (ff_destination st') = length (ff_destination st).
Proof.
  intros Hvalid HV Hok [Hcore Hcursor Hskipped Hcurrent] Hlive Hfuel Hfuel'.
  destruct Hcurrent as [[Habs _]|Hcur]; [contradiction|].
  destruct (valid_mesh_faces _ _ _ Hvalid) as [Hic HF].
  pose proof (vm_u32 _ _ _ Hvalid) as Hsmall.
  set (cur := ff_current_vertex st) in *.
  pose proof (ao_counts _ _ _ _ _ Hok cur Hcur) as Hsize.
  destruct (ff_fan_spec _ _ _ cache_size _ _ cur Hvalid Hok Hcur
              (Z.to_nat (rd (triangle_counts adj) cur)) order st
              ltac:(lia) Hcore)
    as (order1 & Hcore1 & Hdone & Hmono & Hcur1 & Hvert1 & Htop1 & Hlen1).
  unfold ff_step. fold cur.
  set (st1 := for_loop _ _ st) in *.
  assert (∀ t, t ∈ neighbours adj cur → rd (ff_emitted_flags st1) t = true)
    as Hall.
  { intros t Hin.
    apply (neighbours_entry_inv _ _ _ _ _ _ _ Hok Hcur) in Hin
      as (k & Hk & Heq). rewrite Heq. apply Hdone. lia. }
  assert (∀ v, 0 ≤ v < vertex_count →
            0 ≤ rd (ff_live_triangles st1) v ≤ rd (ff_live_triangles st) v)
    as Hlive1.
  { intros v Hv. rewrite (fi_live _ _ _ _ _ Hcore1) by exact Hv.
    rewrite (fi_live _ _ _ _ _ Hcore) by exact Hv.
    split; [apply live_sum_bounds; exact HF|].
    apply live_sum_mono. exact Hmono. }
  assert (rd (ff_live_triangles st1) cur = 0) as Hzero.
  { rewrite (fi_live _ _ _ _ _ Hcore1) by exact Hcur.
    eapply live_sum_done; [exact Hok|exact Hcur|exact Hall]. }
  assert (∀ v, 0 ≤ v < ff_input_cursor st → rd (ff_live_triangles st1) v = 0)
    as Hskip1.
  { intros v Hv. destruct (Hskipped v Hv) as [Hz|Heq]; [|rewrite Heq; exact Hzero].
    pose proof (Hlive1 v ltac:(lia)). lia. }
  destruct (ff_core_order_grows _ _ _ _ _ _ _ Hcore Hcore1 Hmono)
    as [Hgrow Hstrict].
  assert (0 < rd (ff_live_triangles st) cur →
          (length order < length order1)%nat) as Hprogress.
  { intros Hpos. rewrite (fi_live _ _ _ _ _ Hcore) in Hpos by exact Hcur.
    destruct (live_sum_pending _ _ _ _ _ _ _ Hok Hcur Hpos)
      as (t & Hin & Ht & Hem).
    apply (Hstrict t Ht Hem). apply Hall, Hin. }
  pose proof (fi_stack_top _ _ _ _ _ Hcore1) as Htopb.
  pose proof (fi_stack_top _ _ _ _ _ Hcore) as Htopa.
  pose proof (nodup_bounded _ _ HF (fi_order_nodup _ _ _ _ _ Hcore1)
                (fi_order_range _ _ _ _ _ Hcore1)) as Hcount1.
  pose proof (getNextVertexNeighbour_spec (ff_dead_end st1)
                (ff_dead_end_top st) (ff_dead_end_top st1)
                (ff_live_triangles st1) (ff_cache_timestamps st1)
                (ff_timestamp st1) cache_size) as Hnb.
  cbn zeta in Hnb.
  set (nb := getNextVertexNeighbour _ _ _ _ _ _ _) in *.
  destruct (Z.eqb_spec nb UINT_MAX) as [Hnone|Hsome].
  - destruct (getNextVertexDeadEnd_spec (ff_dead_end st1)
                (ff_live_triangles st1) vertex_count fuel
                (ff_dead_end_top st1) (ff_input_cursor st1) HV
                ltac:(lia) ltac:(lia) ltac:(lia) ltac:(lia))
      as (r & top' & c' & Hrun & Htop' & Hc' & Hscan & Hres).
    rewrite Hrun. cbn. eexists _, order1. split; [reflexivity|].
    split; [|split; [exact Hgrow|split; [exact Hprogress|split]]].
    + constructor; cbn [ff_live_triangles ff_input_cursor ff_current_vertex].
      * destruct Hcore1. constructor;
          cbn [ff_emitted_flags ff_output_triangle ff_destination
               ff_live_triangles ff_dead_end ff_dead_end_top];
          try assumption; [lia|intros i Hi; apply fi_stack_range0; lia].
      * lia.
      * intros v Hv. left.
        destruct (Z.lt_ge_cases v (ff_input_cursor st)) as [Hlt|Hge].
        -- apply Hskip1. lia.
        -- pose proof (Hscan v ltac:(lia)). pose proof (Hlive1 v ltac:(lia)). lia.
      * destruct Hres as [[-> ->]|[Hpos [[-> Hlt]|(-> & Hlt & _)]]].
        -- left. auto.
        -- right. lia.
        -- right. apply (fi_stack_range _ _ _ _ _ Hcore1). lia.
    + cbn [ff_current_vertex ff_live_triangles].
      destruct Hres as [[-> _]|[Hpos _]]; [left; reflexivity|right; exact Hpos].
    + exact Hlen1.
  - cbn. eexists _, order1. split; [reflexivity|].
    destruct Hnb as [Habs|(k & Hk & Hr & Hpos)]; [contradiction|].
    split; [|split; [exact Hgrow|split; [exact Hprogress|split]]].
    + constructor; cbn [ff_live_triangles ff_input_cursor ff_current_vertex].
      * destruct Hcore1. constructor; assumption.
      * lia.
      * intros v Hv. left. apply Hskip1. lia.
      * right. rewrite Hr. apply (fi_stack_range _ _ _ _ _ Hcore1). lia.
    + right. exact Hpos.
    + exact Hlen1.
Qed.

Lemma uses_sum_corners indices v F :
  Z.of_nat (uses indices v (3 * F)) =
  zsum_upto (λ t, Z.of_nat (occ v (corners indices t))) F.
Proof.
  induction F as [|F IH]; [reflexivity|].
  replace (3 * S F)%nat with (S (S (S (3 * F)))) by lia.
  cbn [uses zsum_upto]. rewrite <- IH. unfold corners. cbn [occ].
  replace (Z.of_nat (S (S (3 * F)))) with (Z.of_nat F * 3 + 2) by lia.
  replace (Z.of_nat (S (3 * F))) with (Z.of_nat F * 3 + 1) by lia.
  replace (Z.of_nat (3 * F)) with (Z.of_nat F * 3 + 0) by lia.
  destruct (rd indices (Z.of_nat F * 3 + 0) =? v),
           (rd indices (Z.of_nat F * 3 + 1) =? v),
           (rd indices (Z.of_nat F * 3 + 2) =? v); lia.
Qed.

Lemma ff_init_inv destination indices index_count vertex_count cache_size :
  valid_mesh indices index_count vertex_count →
  0 < index_count →
  index_count ≤ Z.of_nat (length destination) →
  ff_inv indices index_count vertex_count []
    (ff_init (buildAdjacency (Adjacency_new index_count vertex_count) indices
                index_count vertex_count)
       destination index_count vertex_count cache_size).
Proof.
  intros Hvalid Hpos Hdst.
  destruct (valid_mesh_faces _ _ _ Hvalid) as [Hic HF].
  pose proof (buildAdjacency_spec _ _ _ Hvalid) as Hbuilt.
  pose proof (vm_range _ _ _ Hvalid 0 ltac:(lia)) as Hv0.
  unfold ff_init. constructor; [constructor|..];
    cbn [ff_emitted_flags ff_output_triangle ff_destination ff_live_triangles
         ff_dead_end ff_dead_end_top ff_input_cursor ff_current_vertex].
  - rewrite length_replicate. lia.
  - intros t Ht. apply elem_of_nil in Ht. contradiction.
  - constructor.
  - intros t Ht. rewrite rd_replicate by lia.
    split; [discriminate|]. intros Hin. apply elem_of_nil in Hin. contradiction.
  - reflexivity.
  - reflexivity.
  - exact Hdst.
  - apply (ab_counts_length _ _ _ _ Hbuilt).
  - intros v Hv. rewrite (ab_counts _ _ _ _ Hbuilt) by exact Hv.
    replace (Z.to_nat index_count) with (3 * Z.to_nat (index_count / 3))%nat
      by lia.
    rewrite uses_sum_corners. unfold live_sum. apply zsum_upto_ext.
    intros t Ht. unfold listing, pending.
    destruct (Z.leb_spec 0 t); [|lia].
    destruct (Z.ltb_spec t (index_count / 3)); [|lia].
    rewrite rd_replicate by lia. reflexivity.
  - rewrite length_replicate. lia.
  - cbn. lia.
  - intros i Hi. lia.
  - lia.
  - intros v Hv. right. lia.
  - right. lia.
Qed.

Lemma ff_loop_spec indices index_count vertex_count cache_size cap adj fuel :
  valid_mesh indices index_count vertex_count →
  vertex_count < 4294967296 →
  adj_ok vertex_count index_count cap
    (all_listed indices (index_count / 3)) adj →
  index_count ≤ Z.of_nat fuel → vertex_count ≤ Z.of_nat fuel →
  ∀ n order st,
    ff_inv indices index_count vertex_count order st →
    ff_current_vertex st = UINT_MAX ∨
      0 < rd (ff_live_triangles st) (ff_current_vertex st) →
    index_count / 3 - Z.of_nat (length order) < Z.of_nat n →
    ∃ st' order',
      ff_loop fuel n adj indices vertex_count cache_size st = Some st' ∧
      ff_inv indices index_count vertex_count order' st' ∧
      ff_current_vertex st' = UINT_MAX ∧
      length (ff_destination st') = length (ff_destination st).
Proof.
  intros Hvalid HV Hok Hfuel Hfuel'.
  induction n as [|n IH]; intros order st Hinv Hgo Hn.
  - destruct (valid_mesh_faces _ _ _ Hvalid) as [_ HF].
    pose proof (nodup_bounded _ _ HF
                  (fi_order_nodup _ _ _ _ _ (fi_core _ _ _ _ _ Hinv))
                  (fi_order_range _ _ _ _ _ (fi_core _ _ _ _ _ Hinv))).
    lia.
  - cbn [ff_loop]. destruct (Z.eqb_spec (ff_current_vertex st) UINT_MAX)
      as [Hdone|Hlive].
    + exists st, order. auto.
    + destruct Hgo as [Habs|Hpos]; [contradiction|].
      destruct (ff_step_spec _ _ _ cache_size _ _ _ _ fuel Hvalid HV Hok Hinv
                  Hlive Hfuel Hfuel')
        as (st1 & order1 & Hstep & Hinv1 & _ & Hprog & Hgo1 & Hlen1).
      rewrite Hstep. cbn. specialize (Hprog Hpos).
      destruct (IH _ _ Hinv1 Hgo1 ltac:(lia))
        as (st' & order' & Hloop & Hinv' & Hend & Hlen').
      exists st', order'. rewrite Hlen', Hlen1. auto.
Qed.

(** The FIFO loop runs to its end, with every triangle emitted. *)
Lemma ff_run_spec destination indices index_count vertex_count cache_size
    fuel :
  valid_mesh indices index_count vertex_count →
  vertex_count < 4294967296 →
  0 < index_count →
  index_count ≤ Z.of_nat (length destination) →
  index_count + vertex_count + 2 ≤ Z.of_nat fuel →
  let adj := buildAdjacency (Adjacency_new index_count vertex_count) indices
               index_count vertex_count in
  ∃ st order,
    ff_loop fuel fuel adj indices vertex_count cache_size
      (ff_init adj destination index_count vertex_count cache_size) = Some st ∧
    ff_current_vertex st = UINT_MAX ∧
    ff_output_triangle st = index_count / 3 ∧
    length (ff_destination st) = length destination ∧
    take (Z.to_nat index_count) (ff_destination st) = order ≫= corners indices ∧
    order ≡ₚ zseq (Z.to_nat (index_count / 3)).
Proof.
  intros Hvalid HV Hpos Hdst Hfuel.
  destruct (valid_mesh_faces _ _ _ Hvalid) as [Hic HF].
  pose proof (vm_u32 _ _ _ Hvalid) as Hsmall.
  pose proof (vm_vpos _ _ _ Hvalid) as Hvpos.
  pose proof (ff_init_inv _ _ _ _ cache_size Hvalid Hpos Hdst) as Hinit.
  pose proof (built_adj_ok _ _ _ _ Hvalid (buildAdjacency_spec _ _ _ Hvalid))
    as Hok. fold (all_listed indices (index_count / 3)) in Hok.
  intros adj. fold adj in Hinit, Hok.
  set (st0 := ff_init adj destination index_count vertex_count cache_size) in *.
  destruct fuel as [|n]; [lia|]. cbn [ff_loop].
  change (ff_current_vertex st0) with 0. cbn [Z.eqb].
  destruct (ff_step_spec _ _ _ cache_size _ _ _ _ (S n) Hvalid HV Hok Hinit
              ltac:(discriminate) ltac:(lia) ltac:(lia))
    as (st1 & order1 & Hstep & Hinv1 & _ & _ & Hgo1 & Hlen1).
  rewrite Hstep. cbn [mbind option_bind].
  destruct (ff_loop_spec _ _ _ cache_size _ _ (S n) Hvalid HV Hok
              ltac:(lia) ltac:(lia) n order1 st1 Hinv1 Hgo1 ltac:(lia))
    as (st & order & Hloop & Hinv & Hend & Hlen).
  rewrite Hloop. exists st, order. split; [reflexivity|].
  split; [exact Hend|].
  destruct Hinv as [Hcore Hcursor Hskipped Hcurrent].
  destruct Hcurrent as [[_ Hcur]|Hcur]; [|unfold UINT_MAX in *; lia].
  assert (order ≡ₚ zseq (Z.to_nat (index_count / 3))) as Hperm.
  { apply NoDup_Permutation.
    - apply (fi_order_nodup _ _ _ _ _ Hcore).
    - apply NoDup_zseq.
    - intros t. rewrite elem_of_zseq. split.
      + intros Ht. apply (fi_order_range _ _ _ _ _ Hcore) in Ht. lia.
      + intros Ht. apply (fi_emitted _ _ _ _ _ Hcore); [lia|].
        destruct (rd (ff_emitted_flags st) t) eqn:Hem; [reflexivity|exfalso].
        pose proof (vm_range _ _ _ Hvalid (t * 3 + 0) ltac:(lia)) as Ha.
        assert (0 ≤ rd indices (t * 3 + 0) < ff_input_cursor st) as Hin
          by (rewrite Hcur; exact Ha).
        destruct (Hskipped (rd indices (t * 3 + 0)) Hin) as [Hz|Habs];
          [|rewrite Hend in Habs; unfold UINT_MAX in Habs; lia].
        rewrite (fi_live _ _ _ _ _ Hcore) in Hz by exact Ha.
        assert (Z.of_nat (listing indices (ff_emitted_flags st)
                            (index_count / 3) (rd indices (t * 3 + 0)) t)
                ≤ live_sum indices (ff_emitted_flags st) (index_count / 3)
                    (rd indices (t * 3 + 0))) as Hle.
        { unfold live_sum.
          apply (zsum_upto_term_le
                   (λ u, Z.of_nat (listing indices (ff_emitted_flags st)
                            (index_count / 3) (rd indices (t * 3 + 0)) u)));
            [intros; lia|lia]. }
        unfold listing in Hle.
        assert (pending (ff_emitted_flags st) (index_count / 3) t = true)
          as Hpend by (apply pending_spec; split; [lia|exact Hem]).
        rewrite Hpend in Hle. unfold corners in Hle. cbn [occ] in Hle.
        rewrite Z.eqb_refl in Hle. lia. }
  assert (length order = Z.to_nat (index_count / 3)) as Hlo.
  { apply Permutation_length in Hperm. rewrite length_zseq in Hperm. exact Hperm. }
  split; [rewrite (fi_output _ _ _ _ _ Hcore); lia|].
  split; [rewrite Hlen, Hlen1; reflexivity|].
  split; [|exact Hperm].
  rewrite <- (fi_destination _ _ _ _ _ Hcore). f_equal. lia.
Qed.

Lemma optimizeVertexCacheFifo_run_spec destination indices index_count
    vertex_count cache_size fuel :
  valid_mesh indices index_count vertex_count →
  vertex_count < 4294967296 →
  0 < index_count →
  index_count ≤ Z.of_nat (length destination) →
  index_count + vertex_count + 2 ≤ Z.of_nat fuel →
  ∃ out order,
    optimizeVertexCacheFifo_run fuel destination indices index_count
      vertex_count cache_size = Some out ∧
    length out = length destination ∧
    take (Z.to_nat index_count) out = order ≫= corners indices ∧
    order ≡ₚ zseq (Z.to_nat (index_count / 3)).
Proof.
  intros Hvalid HV Hpos Hdst Hfuel.
  destruct (ff_run_spec destination _ _ _ cache_size fuel Hvalid HV Hpos Hdst
              Hfuel) as (st & order & Hloop & _ & _ & Hlen & Htake & Hperm).
  unfold optimizeVertexCacheFifo_run. rewrite Hloop. cbn.
  exists (ff_destination st), order. auto.
Qed.

(** * The two entry points *)

(** A call the source accepts: a valid mesh in the [indices] buffer and a
    [destination] buffer with room for [index_count] indices. *)
Definition valid_call (m : memory) (destination indices : ptr)
    (index_count vertex_count : Z) : Prop :=
  valid_mesh (buffer m indices) index_count vertex_count ∧
  index_count ≤ Z.of_nat (length (buffer m destination)).

Lemma valid_mesh_take indices index_count vertex_count :
  valid_mesh indices index_count vertex_count →
  valid_mesh (take (Z.to_nat index_count) indices) index_count vertex_count.
Proof.
  intros [H1 H2 H3 H4 H5 H6]. constructor; try assumption.
  - rewrite length_take. lia.
  - intros i Hi. rewrite rd_take by lia. apply H6, Hi.
Qed.

Lemma triangles_take indices index_count :
  0 ≤ index_count → index_count = 3 * (index_count / 3) →
  triangles (take (Z.to_nat index_count) indices) (index_count / 3) =
  triangles indices (index_count / 3).
Proof.
  intros Hpos Hic. unfold triangles. apply fmap_ext_elem. intros t Ht.
  apply elem_of_zseq in Ht. apply corners_take; lia.
Qed.

Lemma buffer_insert (m : memory) (p : ptr) (l : list Z) :
  buffer (<[p:=l]> m) p = l.
Proof. unfold buffer. rewrite lookup_insert_eq. reflexivity. Qed.

(** The buffer the main loop reads: the caller's, or its copy. *)
Definition indices_read (m : memory) (destination indices : ptr)
    (index_count : Z) : list Z :=
  if decide (destination = indices)
  then take (Z.to_nat index_count) (buffer m indices)
  else buffer m indices.

Lemma indices_read_valid m destination indices index_count vertex_count :
  valid_mesh (buffer m indices) index_count vertex_count →
  valid_mesh (indices_read m destination indices index_count)
    index_count vertex_count ∧
  triangles (indices_read m destination indices index_count) (index_count / 3)
  = triangles (buffer m indices) (index_count / 3).
Proof.
  intros Hvalid. unfold indices_read.
  destruct (valid_mesh_faces _ _ _ Hvalid) as [Hic HF].
  destruct (decide (destination = indices)); [|auto].
  split; [apply valid_mesh_take, Hvalid|].
  apply triangles_take; [apply (vm_pos _ _ _ Hvalid)|exact Hic].
Qed.

Lemma triangles_nil l : triangles l 0 = [].
Proof. reflexivity. Qed.

Lemma meshopt_optimizeVertexCache_spec m destination indices index_count
    vertex_count fuel :
  valid_call m destination indices index_count vertex_count →
  index_count / 3 < Z.of_nat fuel →
  ∃ m',
    meshopt_optimizeVertexCache fuel m destination indices index_count
      vertex_count = Some m' ∧
    length (buffer m' destination) = length (buffer m destination) ∧
    triangles (buffer m' destination) (index_count / 3) ≡ₚ
    triangles (buffer m indices) (index_count / 3).
Proof.
  intros [Hvalid Hdst] Hfuel. unfold meshopt_optimizeVertexCache.
  destruct (valid_mesh_faces _ _ _ Hvalid) as [Hic HF].
  pose proof (vm_pos _ _ _ Hvalid) as Hpos.
  destruct (Z.eqb_spec index_count 0) as [Hzero|Hnz]; cbn [orb].
  { exists m. split; [reflexivity|]. split; [reflexivity|].
    rewrite Hzero. reflexivity. }
  destruct (Z.eqb_spec vertex_count 0) as [Hvzero|Hvnz].
  { pose proof (vm_range _ _ _ Hvalid 0 ltac:(lia)). lia. }
  fold (indices_read m destination indices index_count).
  destruct (indices_read_valid m destination indices _ _ Hvalid)
    as [Hvalid' Htri].
  destruct (optimizeVertexCache_run_spec (buffer m destination) _ _ _ fuel
              Hvalid' ltac:(lia) Hdst Hfuel)
    as (out & order & Hrun & Hlen & Htake & Hperm).
  rewrite Hrun. cbn. eexists. split; [reflexivity|].
  rewrite buffer_insert. split; [exact Hlen|].
  rewrite <- Htri. eapply triangles_permuted; eauto.
Qed.

Lemma meshopt_optimizeVertexCacheFifo_spec m destination indices index_count
    vertex_count cache_size fuel :
  valid_call m destination indices index_count vertex_count →
  vertex_count < 4294967296 →
  index_count + vertex_count + 2 ≤ Z.of_nat fuel →
  ∃ m',
    meshopt_optimizeVertexCacheFifo fuel m destination indices index_count
      vertex_count cache_size = Some m' ∧
    length (buffer m' destination) = length (buffer m destination) ∧
    triangles (buffer m' destination) (index_count / 3) ≡ₚ
    triangles (buffer m indices) (index_count / 3).
Proof.
  intros [Hvalid Hdst] HV Hfuel. unfold meshopt_optimizeVertexCacheFifo.
  destruct (valid_mesh_faces _ _ _ Hvalid) as [Hic HF].
  pose proof (vm_pos _ _ _ Hvalid) as Hpos.
  destruct (Z.eqb_spec index_count 0) as [Hzero|Hnz]; cbn [orb].
  { exists m. split; [reflexivity|]. split; [reflexivity|].
    rewrite Hzero. reflexivity. }
  destruct (Z.eqb_spec vertex_count 0) as [Hvzero|Hvnz].
  { pose proof (vm_range _ _ _ Hvalid 0 ltac:(lia)). lia. }
  fold (indices_read m destination indices index_count).
  destruct (indices_read_valid m destination indices _ _ Hvalid)
    as [Hvalid' Htri].
  destruct (optimizeVertexCacheFifo_run_spec (buffer m destination) _ _ _
              cache_size fuel Hvalid' HV ltac:(lia) Hdst Hfuel)
    as (out & order & Hrun & Hlen & Htake & Hperm).
  rewrite Hrun. cbn. eexists. split; [reflexivity|].
  rewrite buffer_insert. split; [exact Hlen|].
  rewrite <- Htri. eapply triangles_permuted; eauto.
Qed.

(** * Order of binary32 numbers *)

(** A key that orders the numbers that are not NaN: class first (negative
    infinity, negative, zero, positive, positive infinity), then exponent
    and mantissa, reversed for negative numbers. *)
Definition fkey (f : float) : Z * Z * Z :=
  match f with
  | S754_zero _ => (0, 0, 0)
  | S754_infinity true => (-2, 0, 0)
  | S754_infinity false => (2, 0, 0)
  | S754_nan => (0, 0, 0)
  | S754_finite true m e => (-1, - e, - Z.pos m)
  | S754_finite false m e => (1, e, Z.pos m)
  end.

Definition is_nan (f : float) : bool :=
  match f with
  | S754_nan => true
  | _ => false
  end.

Definition key_lt (x y : Z * Z * Z) : Prop :=
  x.1.1 < y.1.1 ∨
  (x.1.1 = y.1.1 ∧ (x.1.2 < y.1.2 ∨ (x.1.2 = y.1.2 ∧ x.2 < y.2))).

Lemma flt_spec a b :
  flt a b = true ↔
  is_nan a = false ∧ is_nan b = false ∧ key_lt (fkey a) (fkey b).
Proof.
  unfold flt, SFltb, SFcompare, key_lt.
  destruct a as [sa|sa| |sa ma ea], b as [sb|sb| |sb mb eb];
    try destruct sa; try destruct sb; cbn [is_nan fkey fst snd];
    try (split; [discriminate|intros (? & ? & ?); lia || discriminate]);
    try (split; [intros _; repeat split; lia|reflexivity]);
    change (Pos.compare_cont Eq ma mb) with (Pos.compare ma mb);
    destruct (Z.compare_spec ea eb), (Pos.compare_spec ma mb);
    cbn [CompOpp];
    (split; [try discriminate; intros _; repeat split; lia
            |try reflexivity; intros (? & ? & ?); lia]).
Qed.

Lemma fle_spec a b :
  fle a b = true ↔
  is_nan a = false ∧ is_nan b = false ∧
  (key_lt (fkey a) (fkey b) ∨ fkey a = fkey b).
Proof.
  unfold fle, SFleb, SFcompare, key_lt.
  destruct a as [sa|sa| |sa ma ea], b as [sb|sb| |sb mb eb];
    try destruct sa; try destruct sb; cbn [is_nan fkey fst snd];
    try (split; [discriminate
                |intros (? & ? & [?|?]); lia || discriminate || congruence]);
    try (split; [intros _; repeat split; (left; lia) || (right; reflexivity)
                |reflexivity]);
    change (Pos.compare_cont Eq ma mb) with (Pos.compare ma mb);
    destruct (Z.compare_spec ea eb), (Pos.compare_spec ma mb);
    cbn [CompOpp];
    (split; [try discriminate; intros _; repeat split;
             (left; lia) || (right; congruence)
            |try reflexivity; intros (? & ? & [?|[=]]); lia]).
Qed.

Lemma flt_irrefl a : flt a a = false.
Proof.
  destruct (flt a a) eqn:E; [|reflexivity].
  apply flt_spec in E as (_ & _ & E). unfold key_lt in E. lia.
Qed.

Lemma flt_trans a b c : flt a b = true → flt b c = true → flt a c = true.
Proof.
  rewrite !flt_spec. unfold key_lt. intros (? & ? & ?) (? & ? & ?).
  repeat split; try assumption. lia.
Qed.

Lemma flt_fle_trans a b c : flt a b = true → fle b c = true → flt a c = true.
Proof.
  rewrite !flt_spec, fle_spec. unfold key_lt.
  intros (? & ? & ?) (? & ? & [?|Heq]).
  - repeat split; try assumption. lia.
  - rewrite <- Heq. repeat split; assumption.
Qed.

(** * The running maximum of the sweep *)

Lemma pick_best_max init log e :
  e ∈ log → flt (pick_best init log).2 e.2 = false.
Proof.
  revert e. induction log as [|x log IH] using rev_ind; intros e He.
  - apply elem_of_nil in He. contradiction.
  - rewrite pick_best_snoc. apply elem_of_app in He as [He|He].
    + specialize (IH e He). destruct (flt (pick_best init log).2 x.2) eqn:Hx; [|exact IH].
      destruct (flt x.2 e.2) eqn:Hxe; [|reflexivity].
      rewrite (flt_trans _ _ _ Hx Hxe) in IH. discriminate.
    + apply list_elem_of_singleton in He. subst e.
      destruct (flt (pick_best init log).2 x.2) eqn:Hx; [apply flt_irrefl|exact Hx].
Qed.

(** The pick is the first visit that reaches the maximum: no visit beats
    it, and no earlier visit is even equal to it. *)
Lemma pick_best_first init log :
  (pick_best init log = init ∧ ∀ e, e ∈ log → flt init.2 e.2 = false) ∨
  ∃ k, log !! k = Some (pick_best init log) ∧
       flt init.2 (pick_best init log).2 = true ∧
       ∀ j e, (j < k)%nat → log !! j = Some e →
              fle (pick_best init log).2 e.2 = false.
Proof.
  induction log as [|x log IH] using rev_ind.
  - left. split; [reflexivity|]. intros e He. apply elem_of_nil in He.
    contradiction.
  - rewrite pick_best_snoc. destruct (flt (pick_best init log).2 x.2) eqn:Hx.
    + right. exists (length log). split; [|split].
      * rewrite lookup_app_r by lia. rewrite Nat.sub_diag. reflexivity.
      * destruct IH as [[Hinit _]|(k & _ & Hlt & _)].
        -- rewrite Hinit in Hx. exact Hx.
        -- exact (flt_trans _ _ _ Hlt Hx).
      * intros j e Hj Hje. rewrite lookup_app_l in Hje by lia.
        destruct (fle x.2 e.2) eqn:Hle; [|reflexivity].
        pose proof (flt_fle_trans _ _ _ Hx Hle) as Habs.
        rewrite (pick_best_max init log e) in Habs; [discriminate|].
        apply list_elem_of_lookup. exists j. exact Hje.
    + destruct IH as [[Hinit Hall]|(k & Hk & Hlt & Hfirst)].
      * left. split; [exact Hinit|]. intros e He.
        apply elem_of_app in He as [He|He]; [apply Hall, He|].
        apply list_elem_of_singleton in He. subst e. rewrite Hinit in Hx.
        exact Hx.
      * right. exists k. split; [|split; [exact Hlt|]].
        -- rewrite lookup_app_l by (apply lookup_lt_Some in Hk; lia). exact Hk.
        -- intros j e Hj Hje. apply (Hfirst j e Hj).
           rewrite lookup_app_l in Hje; [exact Hje|].
           apply lookup_lt_Some in Hk. lia.
Qed.

(** * Flat adjacency data *)

Lemma occ_bind_zseq (f : Z → list Z) t n :
  Z.of_nat (occ t (zseq n ≫= f)) = zsum_upto (λ v, Z.of_nat (occ t (f v))) n.
Proof.
  induction n as [|n IH]; [reflexivity|].
  cbn [zseq zsum_upto]. rewrite bind_app, occ_app, <- IH.
  change ([Z.of_nat n] ≫= f) with (f (Z.of_nat n) ++ []).
  rewrite app_nil_r. lia.
Qed.

(** The adjacency lists, one after the other, are the whole data buffer. *)
Lemma data_is_concat indices index_count vertex_count adj :
  0 ≤ vertex_count →
  adjacency_built indices index_count vertex_count adj →
  data adj = zseq (Z.to_nat vertex_count) ≫= neighbours adj.
Proof.
  intros HV [H1 H2 H3 H4 H5 H6 H7].
  assert (∀ n, Z.of_nat n ≤ vertex_count →
            take (Z.to_nat (psum (triangle_counts adj) (Z.of_nat n))) (data adj)
            = zseq n ≫= neighbours adj) as Hn.
  { induction n as [|n IH]; intros Hle; [reflexivity|].
    cbn [zseq]. rewrite bind_app, <- IH by lia.
    change ([Z.of_nat n] ≫= neighbours adj)
      with (neighbours adj (Z.of_nat n) ++ []).
    rewrite app_nil_r. unfold neighbours. rewrite H5 by lia.
    unfold slice. rewrite take_take_drop.
    replace (Z.of_nat (S n)) with (Z.of_nat n + 1) by lia.
    rewrite psum_succ by lia. f_equal.
    assert (0 ≤ psum (triangle_counts adj) (Z.of_nat n)).
    { unfold psum. apply zsum_upto_nonneg. intros v Hv.
      rewrite H4 by lia. lia. }
    rewrite (H4 (Z.of_nat n)) by lia. lia. }
  specialize (Hn (Z.to_nat vertex_count) ltac:(lia)).
  rewrite Z2Nat.id in Hn by lia. rewrite H6 in Hn. rewrite <- Hn.
  symmetry. apply take_ge. lia.
Qed.

Lemma sum_occ_range (l : list Z) n :
  (∀ x, x ∈ l → 0 ≤ x < Z.of_nat n) →
  zsum_upto (λ v, Z.of_nat (occ v l)) n = Z.of_nat (length l).
Proof.
  induction l as [|x l IH]; intros Hrange.
  - cbn [occ length]. apply zsum_upto_zero. reflexivity.
  - cbn [occ length].
    rewrite (zsum_upto_ext _
      (λ v, (if x =? v then 1 else 0) + Z.of_nat (occ v l)))
      by (intros v _; destruct (x =? v); lia).
    rewrite zsum_upto_add, zsum_upto_indicator, IH
      by (intros y Hy; apply Hrange; constructor; exact Hy).
    pose proof (Hrange x ltac:(constructor)).
    destruct (decide _); lia.
Qed.

(** * Checked properties *)

(** Executable form of [valid_mesh]. *)
Definition valid_meshb (indices : list Z) (index_count vertex_count : Z) : bool :=
  (index_count mod 3 =? 0) && (0 <=? index_count) && (0 <=? vertex_count) &&
  (index_count <? 4294967296) &&
  (index_count <=? Z.of_nat (length indices)) &&
  forallb (λ x, (0 <=? x) && (x <? vertex_count))
    (take (Z.to_nat index_count) indices).

Lemma valid_meshb_spec indices index_count vertex_count :
  valid_meshb indices index_count vertex_count = true →
  valid_mesh indices index_count vertex_count.
Proof.
  unfold valid_meshb. rewrite !andb_true_iff.
  rewrite Z.eqb_eq, !Z.leb_le, Z.ltb_lt, forallb_forall.
  intros (((((H1 & H2) & H3) & H4) & H5) & H6).
  constructor; try assumption.
  intros i Hi. specialize (H6 (rd indices i)).
  rewrite andb_true_iff, Z.leb_le, Z.ltb_lt in H6. apply H6.
  apply list_elem_of_In. rewrite <- (rd_take _ (Z.to_nat index_count)) by lia.
  unfold rd. apply list_elem_of_lookup_total_2. rewrite length_take. lia.
Qed.

(** A quad of two triangles that share an edge, and a memory that holds it
    in buffer [0] next to a zeroed buffer [1] of the same length. *)
Definition quad : list Z := [0; 1; 2; 0; 2; 3].

Definition quad_memory : memory := <[0%nat := quad]> (<[1%nat := replicate 6 0]> ∅).

Lemma quad_valid_call destination :
  (destination ≤ 1)%nat → valid_call quad_memory destination 0%nat 6 4.
Proof.
  intros Hd. split; [apply valid_meshb_spec; reflexivity|].
  destruct destination as [|[|d]]; [vm_compute; discriminate..|lia].
Qed.

(** C1.  For every valid call ([index_count] a multiple of 3 that fits
    [unsigned int], every index below [vertex_count], a destination with
    room for [index_count] indices), both [meshopt_optimizeVertexCache] and
    [meshopt_optimizeVertexCacheFifo] return, leave the length of the
    destination buffer as it was, and leave in it a sequence of index
    triples that is a permutation of the triangles of the input, each
    triple with its three indices in their original order. *)
Theorem optimizers_permute_triangles (m : memory) (destination indices : ptr)
    (index_count vertex_count cache_size : Z) (fuel : nat) :
  valid_call m destination indices index_count vertex_count →
  vertex_count < 4294967296 →
  index_count + vertex_count + 2 ≤ Z.of_nat fuel →
  (∃ m',
     meshopt_optimizeVertexCache fuel m destination indices index_count
       vertex_count = Some m' ∧
     length (buffer m' destination) = length (buffer m destination) ∧
     triangles (buffer m' destination) (index_count / 3) ≡ₚ
     triangles (buffer m indices) (index_count / 3)) ∧
  (∃ m',
     meshopt_optimizeVertexCacheFifo fuel m destination indices index_count
       vertex_count cache_size = Some m' ∧
     length (buffer m' destination) = length (buffer m destination) ∧
     triangles (buffer m' destination) (index_count / 3) ≡ₚ
     triangles (buffer m indices) (index_count / 3)).
Proof.
  intros Hcall HV Hfuel. split.
  - apply meshopt_optimizeVertexCache_spec; [exact Hcall|].
    destruct Hcall as [Hvalid _].
    destruct (valid_mesh_faces _ _ _ Hvalid) as [Hic HF].
    pose proof (vm_vpos _ _ _ Hvalid). lia.
  - apply meshopt_optimizeVertexCacheFifo_spec; assumption.
Qed.

Lemma optimizers_permute_triangles_witness :
  (∃ m',
     meshopt_optimizeVertexCache 12 quad_memory 1%nat 0%nat 6 4 = Some m' ∧
     length (buffer m' 1%nat) = length (buffer quad_memory 1%nat) ∧
     triangles (buffer m' 1%nat) (6 / 3) ≡ₚ
     triangles (buffer quad_memory 0%nat) (6 / 3)) ∧
  (∃ m',
     meshopt_optimizeVertexCacheFifo 12 quad_memory 1%nat 0%nat 6 4 16
       = Some m' ∧
     length (buffer m' 1%nat) = length (buffer quad_memory 1%nat) ∧
     triangles (buffer m' 1%nat) (6 / 3) ≡ₚ
     triangles (buffer quad_memory 0%nat) (6 / 3)).
Proof.
  apply (optimizers_permute_triangles quad_memory 1%nat 0%nat 6 4 16 12).
  - apply quad_valid_call. lia.
  - lia.
  - lia.
Defined.

(** C8.  With the smallest legal cache size, 3, the FIFO reorderer still
    terminates on every valid input: its main loop ends with
    [current_vertex == ~0u] and [output_triangle == face_count], and the
    destination holds a permutation of the input triangles. *)
Theorem fifo_cache_size_3_terminates (destination indices : list Z)
    (index_count vertex_count : Z) (fuel : nat) :
  valid_mesh indices index_count vertex_count →
  vertex_count < 4294967296 →
  0 < index_count →
  index_count ≤ Z.of_nat (length destination) →
  index_count + vertex_count + 2 ≤ Z.of_nat fuel →
  let adj := buildAdjacency (Adjacency_new index_count vertex_count) indices
               index_count vertex_count in
  ∃ st,
    ff_loop fuel fuel adj indices vertex_count 3
      (ff_init adj destination index_count vertex_count 3) = Some st ∧
    ff_current_vertex st = UINT_MAX ∧
    ff_output_triangle st = index_count / 3 ∧
    optimizeVertexCacheFifo_run fuel destination indices index_count
      vertex_count 3 = Some (ff_destination st) ∧
    triangles (ff_destination st) (index_count / 3) ≡ₚ
    triangles indices (index_count / 3).
Proof.
  intros Hvalid HV Hpos Hdst Hfuel adj.
  destruct (ff_run_spec destination _ _ _ 3 fuel Hvalid HV Hpos Hdst Hfuel)
    as (st & order & Hloop & Hend & Hout & Hlen & Htake & Hperm).
  fold adj in Hloop. exists st. split; [exact Hloop|].
  split; [exact Hend|]. split; [exact Hout|].
  split; [unfold optimizeVertexCacheFifo_run; fold adj; rewrite Hloop;
          reflexivity|].
  destruct (valid_mesh_faces _ _ _ Hvalid) as [Hic HF].
  eapply triangles_permuted; eauto. lia.
Qed.

Lemma fifo_cache_size_3_terminates_witness :
  ∃ st,
    ff_loop 12 12 (buildAdjacency (Adjacency_new 6 4) quad 6 4) quad 4 3
      (ff_init (buildAdjacency (Adjacency_new 6 4) quad 6 4)
         (replicate 6 0) 6 4 3) = Some st ∧
    ff_current_vertex st = UINT_MAX ∧
    ff_output_triangle st = 6 / 3 ∧
    optimizeVertexCacheFifo_run 12 (replicate 6 0) quad 6 4 3
      = Some (ff_destination st) ∧
    triangles (ff_destination st) (6 / 3) ≡ₚ triangles quad (6 / 3).
Proof.
  apply (fifo_cache_size_3_terminates (replicate 6 0) quad 6 4 12).
  - apply valid_meshb_spec. reflexivity.
  - lia.
  - lia.
  - cbn. lia.
  - lia.
Defined.

(** C9.  When [index_count == 0] or [vertex_count == 0] both optimizers
    return at the guard, before any loop, and the memory (the destination
    buffer in particular) is exactly what it was. *)
Theorem empty_mesh_is_noop (m : memory) (destination indices : ptr)
    (index_count vertex_count cache_size : Z) (fuel : nat) :
  index_count = 0 ∨ vertex_count = 0 →
  meshopt_optimizeVertexCache fuel m destination indices index_count
    vertex_count = Some m ∧
  meshopt_optimizeVertexCacheFifo fuel m destination indices index_count
    vertex_count cache_size = Some m.
Proof.
  intros Hempty. unfold meshopt_optimizeVertexCache,
    meshopt_optimizeVertexCacheFifo.
  assert ((index_count =? 0) || (vertex_count =? 0) = true) as ->.
  { apply orb_true_iff. rewrite !Z.eqb_eq. exact Hempty. }
  split; reflexivity.
Qed.

Lemma empty_mesh_is_noop_witness :
  meshopt_optimizeVertexCache 0 quad_memory 1%nat 0%nat 6 0 = Some quad_memory ∧
  meshopt_optimizeVertexCacheFifo 0 quad_memory 1%nat 0%nat 6 0 16
    = Some quad_memory.
Proof.
  apply (empty_mesh_is_noop quad_memory 1%nat 0%nat 6 0 16 0).
  right. reflexivity.
Defined.

(** C5.  After [buildAdjacency] on a valid mesh of [F] triangles the
    per-vertex triangle counts add up to [3 * F], and every triangle number
    below [F] occurs exactly 3 times in the flat adjacency data: in the
    list of each vertex as often as the triangle references that vertex. *)
Theorem buildAdjacency_lists_every_corner (indices : list Z)
    (index_count vertex_count : Z) :
  valid_mesh indices index_count vertex_count →
  let adj := buildAdjacency (Adjacency_new index_count vertex_count) indices
               index_count vertex_count in
  psum (triangle_counts adj) vertex_count = 3 * (index_count / 3) ∧
  ∀ i, 0 ≤ i < index_count / 3 →
    occ i (data adj) = 3%nat ∧
    ∀ v, 0 ≤ v < vertex_count →
      occ i (neighbours adj v) = occ v (corners indices i).
Proof.
  intros Hvalid adj.
  pose proof (buildAdjacency_spec _ _ _ Hvalid) as Hbuilt. fold adj in Hbuilt.
  pose proof (built_adj_ok _ _ _ _ Hvalid Hbuilt) as Hok.
  destruct (valid_mesh_faces _ _ _ Hvalid) as [Hic HF].
  pose proof (vm_vpos _ _ _ Hvalid) as HV.
  split; [rewrite (ab_total _ _ _ _ Hbuilt); exact Hic|].
  intros i Hi.
  assert (∀ v, 0 ≤ v < vertex_count →
            occ i (neighbours adj v) = occ v (corners indices i)) as Hlists.
  { intros v Hv. rewrite (ao_content _ _ _ _ _ Hok) by exact Hv.
    destruct (Z.leb_spec 0 i); [|lia].
    destruct (Z.ltb_spec i (index_count / 3)); [|lia]. reflexivity. }
  split; [|exact Hlists].
  apply Nat2Z.inj. rewrite (data_is_concat _ _ _ _ HV Hbuilt), occ_bind_zseq.
  rewrite (zsum_upto_ext _ (λ v, Z.of_nat (occ v (corners indices i))))
    by (intros v Hv; rewrite Hlists by lia; reflexivity).
  rewrite sum_occ_range; [reflexivity|].
  intros x Hx. pose proof (corners_range _ _ _ i x Hvalid Hi Hx). lia.
Qed.

Lemma buildAdjacency_lists_every_corner_witness :
  let adj := buildAdjacency (Adjacency_new 6 4) quad 6 4 in
  psum (triangle_counts adj) 4 = 3 * (6 / 3) ∧
  ∀ i, 0 ≤ i < 6 / 3 →
    occ i (data adj) = 3%nat ∧
    ∀ v, 0 ≤ v < 4 → occ i (neighbours adj v) = occ v (corners quad i).
Proof.
  apply (buildAdjacency_lists_every_corner quad 6 4).
  apply valid_meshb_spec. reflexivity.
Defined.

(** The live-valence table read as the source reads it. *)
Definition live_score (live_triangles : Z) : float :=
  rd vertex_score_table_live live_triangles.

(** C6, as stated, fails: the entry for live count 0 is below the entry
    for live count 1 (and the entry for 6 is below the entry for 7). *)
Lemma live_table_not_decreasing :
  ¬ (∀ i j, 0 ≤ i < j ∧ j ≤ 8 → fle (live_score j) (live_score i) = true).
Proof.
  intros Hall. specialize (Hall 0 1 ltac:(lia)). vm_compute in Hall.
  discriminate.
Qed.

(** C6, amended.  Entry 0 of the live-valence table is zero and below all
    other entries; over the live counts 1..8 the table is non-increasing
    except at 7: whenever [1 <= i < j <= 8] the value at [i] is at least
    the value at [j], unless [j = 7] and [i] is 5 or 6. *)
Theorem live_table_decreasing_except_7 (i j : Z) :
  1 ≤ i < j ∧ j ≤ 8 →
  ¬ (j = 7 ∧ 5 ≤ i) →
  fle (live_score j) (live_score i) = true ∧
  live_score 0 = fzero ∧
  flt (live_score 0) (live_score j) = true.
Proof.
  intros Hij Hnot.
  assert (i = 1 ∨ i = 2 ∨ i = 3 ∨ i = 4 ∨ i = 5 ∨ i = 6 ∨ i = 7) as Hi by lia.
  assert (j = 2 ∨ j = 3 ∨ j = 4 ∨ j = 5 ∨ j = 6 ∨ j = 7 ∨ j = 8) as Hj by lia.
  repeat (destruct Hi as [Hi|Hi]); subst i;
    repeat (destruct Hj as [Hj|Hj]); subst j;
    try (exfalso; lia); vm_compute; auto.
Qed.

Lemma live_table_decreasing_except_7_witness :
  fle (live_score 7) (live_score 4) = true ∧
  live_score 0 = fzero ∧
  flt (live_score 0) (live_score 7) = true.
Proof.
  apply (live_table_decreasing_except_7 4 7); lia.
Defined.

(** C3.  In the score sweep of an iteration, [best_triangle] and
    [best_score] are the first visit, in sweep order, whose updated score
    is the maximum of all visits: no visit has a greater score, and no
    earlier visit has a score that is even equal (the update tests
    [best_score < tri_score], strictly).  That triangle becomes the next
    current triangle; when no visit has a positive score the sweep picks
    nothing. *)
Theorem sweep_picks_first_maximum (fuel : nat) (indices : list Z)
    (face_count : Z) (st : vc_state) :
  let st1 := (vc_emit indices st).1 in
  let cache_write := (vc_emit indices st).2 in
  let log :=
    (sweep_log (vc_adjacency st1) (vc_live_triangles st1) (vc_cache st1)
       cache_write (vc_vertex_scores st1) (vc_triangle_scores st1)).2 in
  let found :=
    sweep (vc_adjacency st1) (vc_live_triangles st1) (vc_cache st1)
      cache_write (vc_vertex_scores st1) (vc_triangle_scores st1) in
  let best_triangle := found.1.2 in
  let best_score := found.2 in
  (∀ e, e ∈ log → flt best_score e.2 = false) ∧
  ((best_triangle = UINT_MAX ∧ best_score = fzero ∧
    ∀ e, e ∈ log → flt fzero e.2 = false) ∨
   (∃ k, log !! k = Some (best_triangle, best_score) ∧
         flt fzero best_score = true ∧
         (∀ j e, (j < k)%nat → log !! j = Some e →
                 fle best_score e.2 = false) ∧
         (best_triangle ≠ UINT_MAX →
          vc_current_triangle <$> vc_step fuel indices face_count st
          = Some best_triangle))).
Proof.
  intros st1 cache_write log found best_triangle best_score.
  pose proof (sweep_log_best (vc_adjacency st1) (vc_live_triangles st1)
                (vc_cache st1) cache_write (vc_vertex_scores st1)
                (vc_triangle_scores st1)) as Hbest.
  unfold best_logged in Hbest. rewrite sweep_log_fst in Hbest.
  fold found log in Hbest.
  change (found.1.2, found.2) with (best_triangle, best_score) in Hbest.
  split.
  - intros e He. pose proof (pick_best_max (UINT_MAX, fzero) log e He) as Hmax.
    rewrite <- Hbest in Hmax. exact Hmax.
  - destruct (pick_best_first (UINT_MAX, fzero) log)
      as [[Hinit Hall]|(k & Hk & Hpos & Hfirst)]; rewrite <- Hbest in *.
    + left. injection Hinit as -> ->. auto.
    + right. exists k. cbn [fst snd] in *.
      split; [exact Hk|]. split; [exact Hpos|]. split; [exact Hfirst|].
      intros Hne. unfold vc_step.
      subst best_triangle best_score found cache_write st1.
      destruct (vc_emit indices st) as [st1 cw]. cbn [fst snd] in *.
      destruct (sweep _ _ _ _ _ _) as [[[vs ts] bt] bs]. cbn [fst snd] in *.
      destruct (Z.eqb_spec bt UINT_MAX); [contradiction|]. reflexivity.
Qed.

(** C2.  An iteration of the greedy loop leaves as cache the list that
    starts with the three vertices of the emitted triangle, in their
    order, followed by the entries of the previous cache that are none of
    the three, in their previous order; [cache_count] is its length cut at
    the capacity 16.  The rest of the iteration (the sweep and the choice
    of the next triangle) leaves the cache as the update made it. *)
Theorem cache_is_recent_window (indices : list Z) (st : vc_state) :
  Z.of_nat (length (vc_cache st)) = cache_slots →
  Z.of_nat (length (vc_cache_new st)) = cache_slots →
  0 ≤ vc_cache_count st ≤ cache_size →
  let a := rd indices (vc_current_triangle st * 3 + 0) in
  let b := rd indices (vc_current_triangle st * 3 + 1) in
  let c := rd indices (vc_current_triangle st * 3 + 2) in
  let new :=
    a :: b :: c ::
      survivors a b c (take (Z.to_nat (vc_cache_count st)) (vc_cache st)) in
  let st1 := (vc_emit indices st).1 in
  take (Z.to_nat (vc_cache_count st1)) (vc_cache st1) =
    take (Z.to_nat cache_size) new ∧
  vc_cache_count st1 = Z.min (Z.of_nat (length new)) cache_size ∧
  ∀ fuel face_count st',
    vc_step fuel indices face_count st = Some st' →
    vc_cache st' = vc_cache st1 ∧ vc_cache_count st' = vc_cache_count st1.
Proof.
  intros Hclen Hcnlen Hcount a b c new st1.
  destruct (cache_update_spec (vc_cache st) (vc_cache_new st)
              (vc_cache_count st) a b c Hcount ltac:(unfold cache_slots,
                max_cache_size, cache_size in *; lia) Hcnlen)
    as (cache' & Hupd & Hlen' & Htake).
  fold new in Hupd, Htake.
  set (count' := if Z.of_nat (length new) >? cache_size then cache_size
                 else Z.of_nat (length new)) in Hupd.
  assert (count' = Z.min (Z.of_nat (length new)) cache_size) as Hcount'.
  { subst count'.
    destruct (Z.gtb_spec (Z.of_nat (length new)) cache_size); lia. }
  assert (vc_cache st1 = cache' ∧ vc_cache_count st1 = count') as [Hc1 Hn1].
  { subst st1. unfold vc_emit. fold a b c. rewrite Hupd. cbn. auto. }
  split; [|split].
  - rewrite Hc1, Hn1, Hcount'.
    replace (Z.to_nat (Z.min (Z.of_nat (length new)) cache_size))
      with (Z.to_nat cache_size `min` length new)%nat by lia.
    rewrite <- take_take, Htake. reflexivity.
  - rewrite Hn1. exact Hcount'.
  - intros fuel face_count st' Hstep. unfold vc_step in Hstep.
    fold st1 in Hstep.
    destruct (vc_emit indices st) as [st1' cache_write] eqn:Hemit.
    cbn [fst] in st1. subst st1.
    destruct (sweep _ _ _ _ _ _) as [[[vs ts] bt] bs].
    destruct (if bt =? UINT_MAX then _ else _) as [[cur cursor]|];
      [|discriminate].
    cbn in Hstep. injection Hstep as <-. cbn. auto.
Qed.

(** Ten triangles in a chain, each sharing one vertex with the next one.
    The loop emits them in input order, and after eight iterations the
    cache holds sixteen vertices. *)
Definition chain : list Z :=
  [0; 1; 2; 2; 3; 4; 4; 5; 6; 6; 7; 8; 8; 9; 10; 10; 11; 12; 12; 13; 14;
   14; 15; 16; 16; 17; 18; 18; 19; 20].

(** The state of the loop on [chain] after eight complete iterations: the
    cache is full, [14 15 16 12 13 10 11 8 9 6 7 4 5 2 3 0 1] cut at 16,
    and the triangle to emit is (16, 17, 18).  The update filters 16 out
    of the previous entries, keeps the other fifteen in their order after
    16, 17, 18, and cuts the eighteen entries at 16, which drops 3 and 0. *)
Lemma cache_is_recent_window_witness :
  let st0 := vc_init (replicate 30 0) chain 30 21 in
  let st := default st0 (vc_iterate 10 8 chain (30 / 3) st0) in
  let a := rd chain (vc_current_triangle st * 3 + 0) in
  let b := rd chain (vc_current_triangle st * 3 + 1) in
  let c := rd chain (vc_current_triangle st * 3 + 2) in
  let new :=
    a :: b :: c ::
      survivors a b c (take (Z.to_nat (vc_cache_count st)) (vc_cache st)) in
  let st1 := (vc_emit chain st).1 in
  (vc_iterate 10 8 chain (30 / 3) st0 = Some st ∧
   vc_cache_count st = 16 ∧
   take (Z.to_nat (vc_cache_count st)) (vc_cache st) =
     [14; 15; 16; 12; 13; 10; 11; 8; 9; 6; 7; 4; 5; 2; 3; 0] ∧
   (a, b, c) = (16, 17, 18) ∧
   new = [16; 17; 18; 14; 15; 12; 13; 10; 11; 8; 9; 6; 7; 4; 5; 2; 3; 0] ∧
   take (Z.to_nat (vc_cache_count st1)) (vc_cache st1) =
     [16; 17; 18; 14; 15; 12; 13; 10; 11; 8; 9; 6; 7; 4; 5; 2]) ∧
  (take (Z.to_nat (vc_cache_count st1)) (vc_cache st1) =
     take (Z.to_nat cache_size) new ∧
   vc_cache_count st1 = Z.min (Z.of_nat (length new)) cache_size ∧
   ∀ fuel face_count st',
     vc_step fuel chain face_count st = Some st' →
     vc_cache st' = vc_cache st1 ∧ vc_cache_count st' = vc_cache_count st1).
Proof.
  intros st0 st a b c new st1. split.
  - vm_compute. repeat split; reflexivity.
  - refine (cache_is_recent_window chain st _ _ _).
    + vm_compute. reflexivity.
    + vm_compute. reflexivity.
    + vm_compute. split; discriminate.
Defined.

Lemma sweep_picks_first_maximum_witness :
  let st := vc_init (replicate 6 0) quad 6 4 in
  let st1 := (vc_emit quad st).1 in
  let cache_write := (vc_emit quad st).2 in
  let log :=
    (sweep_log (vc_adjacency st1) (vc_live_triangles st1) (vc_cache st1)
       cache_write (vc_vertex_scores st1) (vc_triangle_scores st1)).2 in
  let found :=
    sweep (vc_adjacency st1) (vc_live_triangles st1) (vc_cache st1)
      cache_write (vc_vertex_scores st1) (vc_triangle_scores st1) in
  (∀ e, e ∈ log → flt found.2 e.2 = false) ∧
  ((found.1.2 = UINT_MAX ∧ found.2 = fzero ∧
    ∀ e, e ∈ log → flt fzero e.2 = false) ∨
   (∃ k, log !! k = Some (found.1.2, found.2) ∧
         flt fzero found.2 = true ∧
         (∀ j e, (j < k)%nat → log !! j = Some e → fle found.2 e.2 = false) ∧
         (found.1.2 ≠ UINT_MAX →
          vc_current_triangle <$> vc_step 8 quad 2 st = Some found.1.2))).
Proof.
  exact (sweep_picks_first_maximum 8 quad 2 (vc_init (replicate 6 0) quad 6 4)).
Defined.

(** * Neighbour selection of the FIFO reorderer *)

(** The candidates [dead_end[next_candidates_begin .. next_candidates_end)]. *)
Definition candidates (dead_end : list Z)
    (next_candidates_begin next_candidates_end : Z) : list Z :=
  (λ k, rd dead_end (next_candidates_begin + k)) <$>
  zseq (Z.to_nat (next_candidates_end - next_candidates_begin)).

(** One round of the loop of [getNextVertexNeighbour]. *)
Definition consider (live_triangles cache_timestamps : list Z)
    (timestamp cache_size : Z) (best : Z * Z) (vertex : Z) : Z * Z :=
  if rd live_triangles vertex >? 0 then
    if neighbour_priority live_triangles cache_timestamps timestamp cache_size
         vertex >? best.2
    then (vertex,
          neighbour_priority live_triangles cache_timestamps timestamp
            cache_size vertex)
    else best
  else best.

Lemma getNextVertexNeighbour_fold dead_end next_begin next_end live cts
    timestamp cache_size :
  getNextVertexNeighbour dead_end next_begin next_end live cts timestamp
    cache_size =
  (foldl (consider live cts timestamp cache_size) (UINT_MAX, -1)
     (candidates dead_end next_begin next_end)).1.
Proof.
  unfold getNextVertexNeighbour, candidates. f_equal.
  induction (Z.to_nat (next_end - next_begin)) as [|n IH]; [reflexivity|].
  cbn [for_loop zseq]. rewrite fmap_app, foldl_app, <- IH. cbn [fmap list_fmap foldl].
  destruct (for_loop n _ _) as [bc bp]. unfold consider. cbn [snd].
  destruct (_ >? 0); [|reflexivity]. destruct (_ >? bp); reflexivity.
Qed.

(** The fold keeps the first live candidate of greatest priority, among
    those whose priority exceeds the initial [-1]. *)
Lemma consider_first_maximum live cts timestamp cache_size cands :
  let prio := neighbour_priority live cts timestamp cache_size in
  let sel := foldl (consider live cts timestamp cache_size) (UINT_MAX, -1) cands in
  (sel = (UINT_MAX, -1) ∧
   ∀ v, v ∈ cands → 0 < rd live v → prio v ≤ -1) ∨
  (∃ k, cands !! k = Some sel.1 ∧ sel.2 = prio sel.1 ∧ 0 < rd live sel.1 ∧
        -1 < sel.2 ∧
        (∀ v, v ∈ cands → 0 < rd live v → prio v ≤ sel.2) ∧
        (∀ j v, (j < k)%nat → cands !! j = Some v → 0 < rd live v →
                prio v < sel.2)).
Proof.
  intros prio. induction cands as [|x cands IH] using rev_ind.
  - left. split; [reflexivity|]. intros v Hv. apply elem_of_nil in Hv.
    contradiction.
  - cbn zeta in *. rewrite foldl_app. cbn [foldl].
    set (sel := foldl _ _ cands) in *. unfold consider. fold prio.
    destruct (Z.gtb_spec (rd live x) 0) as [Hlive|Hdead].
    + destruct (Z.gtb_spec (prio x) sel.2) as [Hgt|Hle].
      * right. exists (length cands). cbn [fst snd].
        split; [rewrite lookup_app_r by lia; rewrite Nat.sub_diag; reflexivity|].
        split; [reflexivity|]. split; [exact Hlive|].
        destruct IH as [[Hinit Hall]|(k & Hk & Hp & Hl & Hpos & Hmax & Hfirst)].
        -- rewrite Hinit in Hgt. cbn [snd] in Hgt. split; [lia|]. split.
           ++ intros v Hv Hlv. apply elem_of_app in Hv as [Hv|Hv].
              ** specialize (Hall v Hv Hlv). lia.
              ** apply list_elem_of_singleton in Hv. subst v. lia.
           ++ intros j v Hj Hjv Hlv. rewrite lookup_app_l in Hjv by lia.
              assert (v ∈ cands) as Hv
                by (apply list_elem_of_lookup; exists j; exact Hjv).
              specialize (Hall v Hv Hlv). lia.
        -- split; [lia|]. split.
           ++ intros v Hv Hlv. apply elem_of_app in Hv as [Hv|Hv].
              ** specialize (Hmax v Hv Hlv). lia.
              ** apply list_elem_of_singleton in Hv. subst v. lia.
           ++ intros j v Hj Hjv Hlv. rewrite lookup_app_l in Hjv by lia.
              assert (v ∈ cands) as Hv
                by (apply list_elem_of_lookup; exists j; exact Hjv).
              specialize (Hmax v Hv Hlv). lia.
      * destruct IH as [[Hinit Hall]|(k & Hk & Hp & Hl & Hpos & Hmax & Hfirst)].
        -- left. split; [exact Hinit|]. intros v Hv Hlv.
           apply elem_of_app in Hv as [Hv|Hv]; [apply Hall; assumption|].
           apply list_elem_of_singleton in Hv. subst v. rewrite Hinit in Hle.
           exact Hle.
        -- right. exists k. pose proof (lookup_lt_Some _ _ _ Hk) as Hklen.
           split; [rewrite lookup_app_l by lia; exact Hk|].
           split; [exact Hp|]. split; [exact Hl|]. split; [exact Hpos|]. split.
           ++ intros v Hv Hlv. apply elem_of_app in Hv as [Hv|Hv];
                [apply Hmax; assumption|].
              apply list_elem_of_singleton in Hv. subst v. exact Hle.
           ++ intros j v Hj Hjv Hlv. rewrite lookup_app_l in Hjv by lia.
              apply (Hfirst j v Hj Hjv Hlv).
    + destruct IH as [[Hinit Hall]|(k & Hk & Hp & Hl & Hpos & Hmax & Hfirst)].
      * left. split; [exact Hinit|]. intros v Hv Hlv.
        apply elem_of_app in Hv as [Hv|Hv]; [apply Hall; assumption|].
        apply list_elem_of_singleton in Hv. subst v. lia.
      * right. exists k. pose proof (lookup_lt_Some _ _ _ Hk) as Hklen.
        split; [rewrite lookup_app_l by lia; exact Hk|].
        split; [exact Hp|]. split; [exact Hl|]. split; [exact Hpos|]. split.
        -- intros v Hv Hlv. apply elem_of_app in Hv as [Hv|Hv];
             [apply Hmax; assumption|].
           apply list_elem_of_singleton in Hv. subst v. lia.
        -- intros j v Hj Hjv Hlv. rewrite lookup_app_l in Hjv by lia.
           apply (Hfirst j v Hj Hjv Hlv).
Qed.

Lemma neighbour_priority_plain live cts timestamp cache_size v :
  0 ≤ cache_size < 2147483648 →
  0 < rd live v → 0 ≤ rd cts v ≤ timestamp →
  2 * rd live v + timestamp - rd cts v < 4294967296 →
  neighbour_priority live cts timestamp cache_size v =
  if 2 * rd live v + timestamp - rd cts v <=? cache_size
  then timestamp - rd cts v else 0.
Proof.
  intros Hcs Hlive Hcts Hfit. unfold neighbour_priority.
  rewrite (u32_small (2 * rd live v + timestamp - rd cts v)) by lia.
  destruct (Z.leb_spec (2 * rd live v + timestamp - rd cts v) cache_size);
    [|reflexivity].
  rewrite u32_small by lia. unfold int_of_u32.
  destruct (Z.ltb_spec (timestamp - rd cts v) 2147483648); lia.
Qed.

(** C4.  [getNextVertexNeighbour] looks only at candidates with a nonzero
    live count.  Such a candidate has priority
    [timestamp - cache_timestamps[v]] when
    [2 * live + timestamp - cache_timestamps[v] <= cache_size] and 0
    otherwise; the result is the first candidate of greatest priority
    among them, and [~0u] when there is none.  (Greatest
    [timestamp - cache_timestamps[v]] is the candidate cached longest ago
    among those that fit.)  Numbers are assumed not to wrap: [cache_size]
    fits [int], time stamps do not exceed [timestamp]. *)
Theorem neighbour_selection (dead_end : list Z)
    (next_candidates_begin next_candidates_end : Z)
    (live_triangles cache_timestamps : list Z) (timestamp cache_size : Z) :
  let cands := candidates dead_end next_candidates_begin next_candidates_end in
  let prio v :=
    if 2 * rd live_triangles v + timestamp - rd cache_timestamps v
         <=? cache_size
    then timestamp - rd cache_timestamps v else 0 in
  let r :=
    getNextVertexNeighbour dead_end next_candidates_begin next_candidates_end
      live_triangles cache_timestamps timestamp cache_size in
  0 ≤ cache_size < 2147483648 →
  (∀ v, v ∈ cands → 0 < rd live_triangles v →
     0 ≤ rd cache_timestamps v ≤ timestamp ∧
     2 * rd live_triangles v + timestamp - rd cache_timestamps v
       < 4294967296) →
  (∀ v, v ∈ cands → 0 < rd live_triangles v →
     neighbour_priority live_triangles cache_timestamps timestamp cache_size v
     = prio v) ∧
  ((∀ v, v ∈ cands → rd live_triangles v ≤ 0) → r = UINT_MAX) ∧
  ((∃ v, v ∈ cands ∧ 0 < rd live_triangles v) →
   ∃ k, cands !! k = Some r ∧ 0 < rd live_triangles r ∧
        (∀ v, v ∈ cands → 0 < rd live_triangles v → prio v ≤ prio r) ∧
        (∀ j v, (j < k)%nat → cands !! j = Some v →
                0 < rd live_triangles v → prio v < prio r)).
Proof.
  intros cands prio r Hcs Hts.
  assert (∀ v, v ∈ cands → 0 < rd live_triangles v →
            neighbour_priority live_triangles cache_timestamps timestamp
              cache_size v = prio v ∧ 0 ≤ prio v) as Hprio.
  { intros v Hv Hlive. destruct (Hts v Hv Hlive) as [Hc Hfit].
    rewrite neighbour_priority_plain by assumption. split; [reflexivity|].
    unfold prio. destruct (_ <=? _); lia. }
  split; [intros v Hv Hlive; apply (Hprio v Hv Hlive)|].
  subst r. rewrite getNextVertexNeighbour_fold. fold cands.
  pose proof (consider_first_maximum live_triangles cache_timestamps timestamp
                cache_size cands) as Hsel. cbn zeta in Hsel.
  set (sel := foldl _ _ cands) in *.
  destruct Hsel as [[Hinit Hall]|(k & Hk & Hp & Hl & Hpos & Hmax & Hfirst)].
  - split; [intros _; rewrite Hinit; reflexivity|].
    intros (v & Hv & Hlive). specialize (Hall v Hv Hlive).
    destruct (Hprio v Hv Hlive) as [Heq Hge]. lia.
  - assert (sel.1 ∈ cands) as Hin
      by (apply list_elem_of_lookup; exists k; exact Hk).
    destruct (Hprio sel.1 Hin Hl) as [Heq _]. rewrite Heq in Hp.
    split; [intros Hnone; specialize (Hnone sel.1 Hin); lia|].
    intros _. exists k. split; [exact Hk|]. split; [exact Hl|]. split.
    + intros v Hv Hlive. destruct (Hprio v Hv Hlive) as [<- _].
      rewrite <- Hp. apply Hmax; assumption.
    + intros j v Hj Hjv Hlive.
      assert (v ∈ cands) as Hv
        by (apply list_elem_of_lookup; exists j; exact Hjv).
      destruct (Hprio v Hv Hlive) as [<- _]. rewrite <- Hp.
      apply (Hfirst j v Hj Hjv Hlive).
Qed.

Lemma neighbour_selection_witness :
  getNextVertexNeighbour [5; 6; 7] 0 3 [0; 0; 0; 0; 0; 1; 2; 0]
    [0; 0; 0; 0; 0; 10; 11; 12] 13 16 = 5 ∧
  ∃ k, candidates [5; 6; 7] 0 3 !! k = Some 5 ∧
       ∀ v, v ∈ candidates [5; 6; 7] 0 3 →
            0 < rd [0; 0; 0; 0; 0; 1; 2; 0] v →
            (if 2 * rd [0; 0; 0; 0; 0; 1; 2; 0] v + 13
                  - rd [0; 0; 0; 0; 0; 10; 11; 12] v <=? 16
             then 13 - rd [0; 0; 0; 0; 0; 10; 11; 12] v else 0) ≤ 3.
Proof.
  split; [reflexivity|].
  destruct (neighbour_selection [5; 6; 7] 0 3 [0; 0; 0; 0; 0; 1; 2; 0]
              [0; 0; 0; 0; 0; 10; 11; 12] 13 16) as (_ & _ & Hsome).
  - lia.
  - intros v Hv Hlive.
    repeat (apply elem_of_cons in Hv as [Hv|Hv]; [subst v; vm_compute;
      repeat split; congruence|]).
    apply elem_of_nil in Hv. contradiction.
  - destruct Hsome as (k & Hk & _ & Hmax & _).
    + exists 5. split; [repeat constructor|reflexivity].
    + exists k. split; [exact Hk|]. exact Hmax.
Defined.

(** * Independence of the destination contents *)

(** Two index buffers with the same first [index_count] entries. *)
Definition same_indices (indices1 indices2 : list Z) (index_count : Z) : Prop :=
  ∀ i, 0 ≤ i < index_count → rd indices1 i = rd indices2 i.

Lemma buildAdjacency_same_indices adjacency indices1 indices2 index_count
    vertex_count :
  0 ≤ index_count → index_count = 3 * (index_count / 3) →
  same_indices indices1 indices2 index_count →
  buildAdjacency adjacency indices1 index_count vertex_count =
  buildAdjacency adjacency indices2 index_count vertex_count.
Proof.
  intros Hpos Hic Hsame. unfold buildAdjacency.
  assert (fill_counts indices1 index_count vertex_count
            (triangle_counts adjacency) =
          fill_counts indices2 index_count vertex_count
            (triangle_counts adjacency)) as ->.
  { unfold fill_counts. apply for_loop_ext. intros i c Hi.
    rewrite Hsame by lia. reflexivity. }
  destruct (fill_offsets _ _ _) as [offs offset].
  assert (fill_data indices1 (index_count / 3) (offs, data adjacency) =
          fill_data indices2 (index_count / 3) (offs, data adjacency)) as ->.
  { unfold fill_data. apply for_loop_ext. intros i od Hi.
    rewrite !Hsame by lia. reflexivity. }
  reflexivity.
Qed.

(** A greedy state with another destination buffer. *)
Definition vc_with_destination (st : vc_state) (destination : list Z) : vc_state :=
  mkVc (vc_adjacency st) (vc_live_triangles st) (vc_emitted_flags st)
    (vc_vertex_scores st) (vc_triangle_scores st) (vc_cache st)
    (vc_cache_new st) (vc_cache_count st) (vc_current_triangle st)
    (vc_input_cursor st) (vc_output_triangle st) destination.

(** Destination [d] agrees with the destination of [st] on the triangles
    written so far. *)
Definition vc_written_alike (index_count : Z) (st : vc_state) (d : list Z) : Prop :=
  index_count ≤ Z.of_nat (length d) ∧
  take (Z.to_nat (3 * vc_output_triangle st)) d =
  take (Z.to_nat (3 * vc_output_triangle st)) (vc_destination st).

Lemma vc_init_same destination1 destination2 indices1 indices2 index_count
    vertex_count :
  0 ≤ index_count → index_count = 3 * (index_count / 3) →
  same_indices indices1 indices2 index_count →
  vc_init destination2 indices2 index_count vertex_count =
  vc_with_destination
    (vc_init destination1 indices1 index_count vertex_count) destination2.
Proof.
  intros Hpos Hic Hsame. unfold vc_init, vc_with_destination.
  cbn [vc_adjacency vc_live_triangles vc_emitted_flags vc_vertex_scores
       vc_triangle_scores vc_cache vc_cache_new vc_cache_count
       vc_current_triangle vc_input_cursor vc_output_triangle].
  rewrite <- (buildAdjacency_same_indices _ indices1 indices2) by assumption.
  f_equal. apply for_loop_ext. intros i ts Hi.
  rewrite <- !Hsame by lia. reflexivity.
Qed.

Lemma vc_step_same fuel indices1 indices2 index_count vertex_count order st d :
  valid_mesh indices1 index_count vertex_count →
  same_indices indices1 indices2 index_count →
  vc_inv indices1 index_count vertex_count order st →
  vc_current_triangle st ≠ UINT_MAX →
  vc_written_alike index_count st d →
  ∀ st', vc_step fuel indices1 (index_count / 3) st = Some st' →
    ∃ d',
      vc_step fuel indices2 (index_count / 3) (vc_with_destination st d)
        = Some (vc_with_destination st' d') ∧
      vc_written_alike index_count st' d'.
Proof.
  intros Hvalid Hsame Hinv Hlive [Hdlen Halike] st' Hstep.
  destruct (valid_mesh_faces _ _ _ Hvalid) as [Hic HF].
  pose proof (vm_u32 _ _ _ Hvalid) as Hsmall.
  destruct (vi_current _ _ _ _ _ Hinv) as [[Habs _]|[Hcur Hpend]];
    [contradiction|].
  pose proof (vi_core _ _ _ _ _ Hinv) as Hcore.
  pose proof (vi_output _ _ _ _ _ Hcore) as Hout.
  assert (Z.of_nat (length order) < index_count / 3) as Hcount.
  { assert (NoDup (vc_current_triangle st :: order)) as Hnd.
    { constructor; [|apply (vi_order_nodup _ _ _ _ _ Hcore)].
      intros Hin. apply (vi_emitted _ _ _ _ _ Hcore) in Hin; [congruence|lia]. }
    pose proof (nodup_bounded _ _ HF Hnd) as Hb. cbn [length] in Hb.
    assert (∀ t, t ∈ vc_current_triangle st :: order →
              0 ≤ t < index_count / 3) as Hr.
    { intros t Ht. apply elem_of_cons in Ht as [->|Ht]; [exact Hcur|].
      apply (vi_order_range _ _ _ _ _ Hcore), Ht. }
    specialize (Hb Hr). lia. }
  set (cur := vc_current_triangle st) in *.
  assert (∀ k, 0 ≤ k < 3 → rd indices2 (cur * 3 + k) = rd indices1 (cur * 3 + k))
    as Hk by (intros k Hk; symmetry; apply Hsame; lia).
  unfold vc_step in *. unfold vc_emit in *. fold cur in Hstep.
  cbn [vc_with_destination vc_adjacency vc_live_triangles vc_emitted_flags
       vc_vertex_scores vc_triangle_scores vc_cache vc_cache_new
       vc_cache_count vc_current_triangle vc_input_cursor vc_output_triangle
       vc_destination]. fold cur.
  rewrite !Hk by lia.
  assert (remove_emitted (vc_adjacency st) indices2 cur =
          remove_emitted (vc_adjacency st) indices1 cur) as ->.
  { unfold remove_emitted. apply for_loop_ext. intros k adj Hk'.
    rewrite Hk by lia. reflexivity. }
  destruct (cache_update _ _ _ _ _ _) as [[[cache cache_new] count] cw].
  cbn [vc_adjacency vc_live_triangles vc_emitted_flags vc_vertex_scores
       vc_triangle_scores vc_cache vc_cache_new vc_cache_count
       vc_current_triangle vc_input_cursor vc_output_triangle vc_destination]
    in *.
  destruct (sweep _ _ _ _ _ _) as [[[vs ts] bt] bs].
  destruct (if bt =? UINT_MAX then _ else _) as [[cur' cursor']|];
    [|discriminate].
  cbn in Hstep. injection Hstep as <-. cbn.
  eexists. split; [reflexivity|].
  unfold vc_written_alike. cbn [vc_output_triangle vc_destination].
  rewrite !length_wr. split; [exact Hdlen|].
  rewrite Hout in *. rewrite u32_small by lia.
  replace (Z.to_nat (3 * (Z.of_nat (length order) + 1)))
    with (3 * S (length order))%nat by lia.
  replace (Z.to_nat (3 * Z.of_nat (length order)))
    with (3 * length order)%nat in Halike by lia.
  pose proof (vi_dst_length _ _ _ _ _ Hcore) as Hdlen1.
  rewrite !take_wr_triangle by lia. rewrite Halike. reflexivity.
Qed.

Lemma vc_final_count indices index_count vertex_count order st :
  valid_mesh indices index_count vertex_count →
  vc_inv indices index_count vertex_count order st →
  vc_current_triangle st = UINT_MAX →
  Z.of_nat (length order) = index_count / 3.
Proof.
  intros Hvalid [Hcore Hcursor Hskipped Hcurrent] Hend.
  destruct (valid_mesh_faces _ _ _ Hvalid) as [Hic HF].
  pose proof (vm_u32 _ _ _ Hvalid) as Hsmall.
  destruct Hcurrent as [[_ Hcur]|[Hcur _]]; [|unfold UINT_MAX in *; lia].
  assert (order ≡ₚ zseq (Z.to_nat (index_count / 3))) as Hperm.
  { apply NoDup_Permutation.
    - apply (vi_order_nodup _ _ _ _ _ Hcore).
    - apply NoDup_zseq.
    - intros t. rewrite elem_of_zseq. split.
      + intros Ht. apply (vi_order_range _ _ _ _ _ Hcore) in Ht. lia.
      + intros Ht. apply (vi_emitted _ _ _ _ _ Hcore); [lia|].
        destruct (Hskipped t ltac:(lia)) as [Hem|Habs]; [exact Hem|].
        rewrite Hend in Habs. unfold UINT_MAX in Habs. lia. }
  apply Permutation_length in Hperm. rewrite length_zseq in Hperm. lia.
Qed.

Lemma vc_loop_same fuel indices1 indices2 index_count vertex_count :
  valid_mesh indices1 index_count vertex_count →
  same_indices indices1 indices2 index_count →
  index_count / 3 ≤ Z.of_nat fuel →
  ∀ n order st d st',
    vc_inv indices1 index_count vertex_count order st →
    vc_written_alike index_count st d →
    vc_loop fuel n indices1 (index_count / 3) st = Some st' →
    ∃ d' order',
      vc_loop fuel n indices2 (index_count / 3) (vc_with_destination st d)
        = Some (vc_with_destination st' d') ∧
      vc_written_alike index_count st' d' ∧
      vc_inv indices1 index_count vertex_count order' st' ∧
      vc_current_triangle st' = UINT_MAX.
Proof.
  intros Hvalid Hsame Hfuel.
  induction n as [|n IH]; intros order st d st' Hinv Halike Hloop.
  - cbn [vc_loop] in *. cbn [vc_with_destination vc_current_triangle].
    destruct (Z.eqb_spec (vc_current_triangle st) UINT_MAX) as [Hend|];
      [|discriminate].
    injection Hloop as <-. exists d, order. auto.
  - cbn [vc_loop] in *. cbn [vc_with_destination vc_current_triangle].
    destruct (Z.eqb_spec (vc_current_triangle st) UINT_MAX) as [Hend|Hlive].
    + injection Hloop as <-. exists d, order. auto.
    + destruct (vc_step_spec _ _ _ _ _ fuel Hvalid Hinv Hlive Hfuel)
        as (st1 & Hstep & Hinv1 & _).
      rewrite Hstep in Hloop. cbn in Hloop.
      destruct (vc_step_same fuel _ indices2 _ _ _ _ d Hvalid Hsame Hinv Hlive
                  Halike st1 Hstep) as (d1 & Hstep2 & Halike1).
      fold (vc_with_destination st d). rewrite Hstep2. cbn.
      apply (IH _ _ _ _ Hinv1 Halike1 Hloop).
Qed.

(** Two greedy runs on index buffers with the same first [index_count]
    entries write the same [index_count] indices, whatever the destination
    buffers held before. *)
Lemma optimizeVertexCache_run_same fuel destination1 destination2 indices1
    indices2 index_count vertex_count :
  valid_mesh indices1 index_count vertex_count →
  same_indices indices1 indices2 index_count →
  0 < index_count →
  index_count ≤ Z.of_nat (length destination1) →
  index_count ≤ Z.of_nat (length destination2) →
  index_count / 3 < Z.of_nat fuel →
  ∃ out1 out2,
    optimizeVertexCache_run fuel destination1 indices1 index_count vertex_count
      = Some out1 ∧
    optimizeVertexCache_run fuel destination2 indices2 index_count vertex_count
      = Some out2 ∧
    take (Z.to_nat index_count) out1 = take (Z.to_nat index_count) out2.
Proof.
  intros Hvalid Hsame Hpos Hd1 Hd2 Hfuel.
  destruct (valid_mesh_faces _ _ _ Hvalid) as [Hic HF].
  pose proof (vc_init_inv _ _ _ _ Hvalid Hpos Hd1) as Hinit.
  destruct (vc_loop_spec _ _ _ fuel Hvalid ltac:(lia) fuel [] _ Hinit)
    as (st & order & Hloop & _ & _ & _); [cbn; lia|].
  destruct (vc_loop_same fuel _ indices2 _ _ Hvalid Hsame ltac:(lia) fuel []
              _ destination2 st Hinit) as (d' & order' & Hloop2 & Halike
                                             & Hinv' & Hend).
  { split; [exact Hd2|]. reflexivity. }
  { exact Hloop. }
  rewrite <- (vc_init_same destination1 destination2 indices1 indices2)
    in Hloop2 by (try assumption; lia).
  unfold optimizeVertexCache_run. rewrite Hloop, Hloop2. cbn.
  exists (vc_destination st), d'. split; [reflexivity|]. split; [reflexivity|].
  destruct Halike as [_ Halike].
  rewrite (vi_output _ _ _ _ _ (vi_core _ _ _ _ _ Hinv')) in Halike.
  rewrite (vc_final_count _ _ _ _ _ Hvalid Hinv' Hend) in Halike.
  rewrite <- Hic in Halike. symmetry. exact Halike.
Qed.

(** A FIFO state with another destination buffer. *)
Definition ff_with_destination (st : ff_state) (destination : list Z) : ff_state :=
  mkFf (ff_live_triangles st) (ff_cache_timestamps st) (ff_dead_end st)
    (ff_dead_end_top st) (ff_emitted_flags st) (ff_current_vertex st)
    (ff_timestamp st) (ff_input_cursor st) (ff_output_triangle st) destination.

Definition ff_written_alike (index_count : Z) (st : ff_state) (d : list Z) : Prop :=
  index_count ≤ Z.of_nat (length d) ∧
  take (Z.to_nat (3 * ff_output_triangle st)) d =
  take (Z.to_nat (3 * ff_output_triangle st)) (ff_destination st).

Lemma ff_emit_same indices1 indices2 index_count vertex_count cache_size
    order st d t :
  valid_mesh indices1 index_count vertex_count →
  same_indices indices1 indices2 index_count →
  ff_core indices1 index_count vertex_count order st →
  0 ≤ t < index_count / 3 →
  ff_written_alike index_count st d →
  ∃ d',
    ff_emit indices2 cache_size t (ff_with_destination st d) =
    ff_with_destination (ff_emit indices1 cache_size t st) d' ∧
    ff_written_alike index_count (ff_emit indices1 cache_size t st) d'.
Proof.
  intros Hvalid Hsame Hcore Ht [Hdlen Halike].
  destruct (valid_mesh_faces _ _ _ Hvalid) as [Hic HF].
  pose proof (vm_u32 _ _ _ Hvalid) as Hsmall.
  unfold ff_emit.
  cbn [ff_with_destination ff_live_triangles ff_cache_timestamps ff_dead_end
       ff_dead_end_top ff_emitted_flags ff_current_vertex ff_timestamp
       ff_input_cursor ff_output_triangle ff_destination].
  destruct (rd (ff_emitted_flags st) t) eqn:Hem; cbn [negb].
  { exists d. split; [reflexivity|]. split; assumption. }
  assert (Z.of_nat (length order) < index_count / 3) as Hcount.
  { assert (NoDup (t :: order)) as Hnd.
    { constructor; [|apply (fi_order_nodup _ _ _ _ _ Hcore)].
      intros Hin. apply (fi_emitted _ _ _ _ _ Hcore) in Hin; [congruence|lia]. }
    pose proof (nodup_bounded _ _ HF Hnd) as Hb. cbn [length] in Hb.
    assert (∀ u, u ∈ t :: order → 0 ≤ u < index_count / 3) as Hr.
    { intros u Hu. apply elem_of_cons in Hu as [->|Hu]; [exact Ht|].
      apply (fi_order_range _ _ _ _ _ Hcore), Hu. }
    specialize (Hb Hr). lia. }
  rewrite <- !(Hsame (t * 3 + _)) by lia.
  destruct (cache_touch _ _ (cache_touch _ _ (cache_touch _ _ _))) as [cts ts].
  eexists. split; [reflexivity|].
  unfold ff_written_alike. cbn [ff_output_triangle ff_destination].
  rewrite !length_wr. split; [exact Hdlen|].
  pose proof (fi_output _ _ _ _ _ Hcore) as Hout.
  pose proof (fi_dst_length _ _ _ _ _ Hcore) as Hdlen1.
  rewrite Hout in *. rewrite u32_small by lia.
  replace (Z.to_nat (3 * (Z.of_nat (length order) + 1)))
    with (3 * S (length order))%nat by lia.
  replace (Z.to_nat (3 * Z.of_nat (length order)))
    with (3 * length order)%nat in Halike by lia.
  rewrite !take_wr_triangle by lia. rewrite Halike. reflexivity.
Qed.

Lemma ff_fan_same indices1 indices2 index_count vertex_count cache_size cap
    adj v :
  valid_mesh indices1 index_count vertex_count →
  same_indices indices1 indices2 index_count →
  adj_ok vertex_count index_count cap
    (all_listed indices1 (index_count / 3)) adj →
  0 ≤ v < vertex_count →
  ∀ n order st d,
    Z.of_nat n ≤ rd (triangle_counts adj) v →
    ff_core indices1 index_count vertex_count order st →
    ff_written_alike index_count st d →
    ∃ d',
      for_loop n
        (λ k st, ff_emit indices2 cache_size
                   (rd (data adj) (rd (offsets adj) v + k)) st)
        (ff_with_destination st d) =
      ff_with_destination
        (for_loop n
           (λ k st, ff_emit indices1 cache_size
                      (rd (data adj) (rd (offsets adj) v + k)) st) st) d' ∧
      ff_written_alike index_count
        (for_loop n
           (λ k st, ff_emit indices1 cache_size
                      (rd (data adj) (rd (offsets adj) v + k)) st) st) d'.
Proof.
  intros Hvalid Hsame Hok Hv.
  induction n as [|n IH]; intros order st d Hn Hcore Halike.
  - exists d. split; [reflexivity|exact Halike].
  - cbn [for_loop].
    destruct (IH order st d ltac:(lia) Hcore Halike) as (d1 & Heq1 & Halike1).
    rewrite Heq1.
    destruct (ff_fan_spec _ _ _ cache_size _ _ v Hvalid Hok Hv n order st
                ltac:(lia) Hcore) as (order1 & Hcore1 & _).
    cbn zeta in Hcore1.
    apply (ff_emit_same _ _ _ vertex_count _ order1); try assumption.
    eapply neighbour_listed; [exact Hok|exact Hv|].
    apply (neighbour_entry _ _ _ _ _ _ _ Hok Hv). lia.
Qed.

Lemma ff_step_same fuel indices1 indices2 index_count vertex_count cache_size
    cap adj order st d :
  valid_mesh indices1 index_count vertex_count →
  same_indices indices1 indices2 index_count →
  adj_ok vertex_count index_count cap
    (all_listed indices1 (index_count / 3)) adj →
  ff_inv indices1 index_count vertex_count order st →
  ff_current_vertex st ≠ UINT_MAX →
  ff_written_alike index_count st d →
  ∀ st', ff_step fuel adj indices1 vertex_count cache_size st = Some st' →
    ∃ d',
      ff_step fuel adj indices2 vertex_count cache_size
        (ff_with_destination st d) = Some (ff_with_destination st' d') ∧
      ff_written_alike index_count st' d'.
Proof.
  intros Hvalid Hsame Hok Hinv Hlive Halike st' Hstep.
  destruct (fi_current _ _ _ _ _ Hinv) as [[Habs _]|Hcur]; [contradiction|].
  pose proof (ao_counts _ _ _ _ _ Hok _ Hcur) as Hsize.
  destruct (ff_fan_same _ indices2 _ _ cache_size _ _ _ Hvalid Hsame Hok Hcur
              (Z.to_nat (rd (triangle_counts adj) (ff_current_vertex st)))
              order st d ltac:(lia) (fi_core _ _ _ _ _ Hinv) Halike)
    as (d1 & Heq1 & Halike1).
  unfold ff_step in *.
  cbn [ff_with_destination ff_current_vertex ff_dead_end_top].
  fold (ff_with_destination st d). rewrite Heq1.
  set (st1 := for_loop _ _ st) in *.
  cbn [ff_with_destination ff_live_triangles ff_cache_timestamps ff_dead_end
       ff_dead_end_top ff_emitted_flags ff_current_vertex ff_timestamp
       ff_input_cursor ff_output_triangle ff_destination].
  destruct (if _ =? UINT_MAX then _ else _) as [[[cur' top'] cursor']|];
    [|discriminate].
  cbn in Hstep. injection Hstep as <-. cbn.
  exists d1. split; [reflexivity|]. exact Halike1.
Qed.

Lemma ff_loop_same fuel indices1 indices2 index_count vertex_count cache_size
    cap adj :
  valid_mesh indices1 index_count vertex_count →
  vertex_count < 4294967296 →
  same_indices indices1 indices2 index_count →
  adj_ok vertex_count index_count cap
    (all_listed indices1 (index_count / 3)) adj →
  index_count ≤ Z.of_nat fuel → vertex_count ≤ Z.of_nat fuel →
  ∀ n order st d st',
    ff_inv indices1 index_count vertex_count order st →
    ff_written_alike index_count st d →
    ff_loop fuel n adj indices1 vertex_count cache_size st = Some st' →
    ∃ d',
      ff_loop fuel n adj indices2 vertex_count cache_size
        (ff_with_destination st d) = Some (ff_with_destination st' d') ∧
      ff_written_alike index_count st' d'.
Proof.
  intros Hvalid HV Hsame Hok Hfuel Hfuel'.
  induction n as [|n IH]; intros order st d st' Hinv Halike Hloop.
  - cbn [ff_loop] in *. cbn [ff_with_destination ff_current_vertex].
    destruct (Z.eqb_spec (ff_current_vertex st) UINT_MAX) as [Hend|];
      [|discriminate].
    injection Hloop as <-. exists d. auto.
  - cbn [ff_loop] in *. cbn [ff_with_destination ff_current_vertex].
    destruct (Z.eqb_spec (ff_current_vertex st) UINT_MAX) as [Hend|Hlive].
    + injection Hloop as <-. exists d. auto.
    + destruct (ff_step_spec _ _ _ cache_size _ _ _ _ fuel Hvalid HV Hok Hinv
                  Hlive Hfuel Hfuel') as (st1 & order1 & Hstep & Hinv1 & _).
      rewrite Hstep in Hloop. cbn in Hloop.
      destruct (ff_step_same fuel _ indices2 _ _ cache_size _ _ _ _ d Hvalid
                  Hsame Hok Hinv Hlive Halike st1 Hstep)
        as (d1 & Hstep2 & Halike1).
      fold (ff_with_destination st d). rewrite Hstep2. cbn.
      apply (IH _ _ _ _ Hinv1 Halike1 Hloop).
Qed.

Lemma optimizeVertexCacheFifo_run_same fuel destination1 destination2
    indices1 indices2 index_count vertex_count cache_size :
  valid_mesh indices1 index_count vertex_count →
  vertex_count < 4294967296 →
  same_indices indices1 indices2 index_count →
  0 < index_count →
  index_count ≤ Z.of_nat (length destination1) →
  index_count ≤ Z.of_nat (length destination2) →
  index_count + vertex_count + 2 ≤ Z.of_nat fuel →
  ∃ out1 out2,
    optimizeVertexCacheFifo_run fuel destination1 indices1 index_count
      vertex_count cache_size = Some out1 ∧
    optimizeVertexCacheFifo_run fuel destination2 indices2 index_count
      vertex_count cache_size = Some out2 ∧
    take (Z.to_nat index_count) out1 = take (Z.to_nat index_count) out2.
Proof.
  intros Hvalid HV Hsame Hpos Hd1 Hd2 Hfuel.
  destruct (valid_mesh_faces _ _ _ Hvalid) as [Hic HF].
  pose proof (vm_vpos _ _ _ Hvalid) as Hvpos.
  destruct (ff_run_spec destination1 _ _ _ cache_size fuel Hvalid HV Hpos Hd1
              Hfuel) as (st & order & Hloop & _ & Hout & _).
  pose proof (built_adj_ok _ _ _ _ Hvalid (buildAdjacency_spec _ _ _ Hvalid))
    as Hok. fold (all_listed indices1 (index_count / 3)) in Hok.
  pose proof (ff_init_inv _ _ _ _ cache_size Hvalid Hpos Hd1) as Hinit.
  destruct (ff_loop_same fuel _ indices2 _ _ cache_size _ _ Hvalid HV Hsame
              Hok ltac:(lia) ltac:(lia) fuel [] _ destination2 st Hinit)
    as (d' & Hloop2 & Halike).
  { split; [exact Hd2|]. reflexivity. }
  { exact Hloop. }
  unfold optimizeVertexCacheFifo_run.
  rewrite <- (buildAdjacency_same_indices _ indices1 indices2)
    by (try assumption; lia).
  rewrite Hloop.
  change (ff_init ?adj destination2 index_count vertex_count cache_size)
    with (ff_with_destination
            (ff_init adj destination1 index_count vertex_count cache_size)
            destination2).
  rewrite Hloop2. cbn.
  exists (ff_destination st), d'. split; [reflexivity|]. split; [reflexivity|].
  destruct Halike as [_ Halike]. rewrite Hout, <- Hic in Halike.
  symmetry. exact Halike.
Qed.

Lemma same_indices_take indices index_count :
  same_indices indices (take (Z.to_nat index_count) indices) index_count.
Proof. intros i Hi. rewrite rd_take by lia. reflexivity. Qed.

(** C7.  Calling either optimizer with the destination equal to the index
    buffer writes the same [index_count] indices as calling it, from the
    same memory, with any other destination buffer that has room for
    them. *)
Theorem in_place_matches_separate (m : memory) (indices destination : ptr)
    (index_count vertex_count cache_size : Z) (fuel : nat) :
  valid_mesh (buffer m indices) index_count vertex_count →
  index_count ≤ Z.of_nat (length (buffer m destination)) →
  vertex_count < 4294967296 →
  index_count + vertex_count + 2 ≤ Z.of_nat fuel →
  (∃ m1 m2,
     meshopt_optimizeVertexCache fuel m indices indices index_count
       vertex_count = Some m1 ∧
     meshopt_optimizeVertexCache fuel m destination indices index_count
       vertex_count = Some m2 ∧
     take (Z.to_nat index_count) (buffer m1 indices) =
     take (Z.to_nat index_count) (buffer m2 destination)) ∧
  (∃ m1 m2,
     meshopt_optimizeVertexCacheFifo fuel m indices indices index_count
       vertex_count cache_size = Some m1 ∧
     meshopt_optimizeVertexCacheFifo fuel m destination indices index_count
       vertex_count cache_size = Some m2 ∧
     take (Z.to_nat index_count) (buffer m1 indices) =
     take (Z.to_nat index_count) (buffer m2 destination)).
Proof.
  intros Hvalid Hdst HV Hfuel.
  destruct (valid_mesh_faces _ _ _ Hvalid) as [Hic HF].
  pose proof (vm_pos _ _ _ Hvalid) as Hpos.
  pose proof (vm_vpos _ _ _ Hvalid) as Hvpos.
  pose proof (vm_length _ _ _ Hvalid) as Hlen.
  unfold meshopt_optimizeVertexCache, meshopt_optimizeVertexCacheFifo.
  destruct (Z.eqb_spec index_count 0) as [Hzero|Hnz]; cbn [orb].
  { split; exists m, m; rewrite Hzero; auto. }
  destruct (Z.eqb_spec vertex_count 0) as [Hvzero|Hvnz].
  { pose proof (vm_range _ _ _ Hvalid 0 ltac:(lia)). lia. }
  destruct (decide (indices = indices)) as [_|Hne]; [|contradiction].
  destruct (decide (destination = indices)) as [->|Hsep].
  - split.
    + destruct (optimizeVertexCache_run_spec (buffer m indices)
                  (take (Z.to_nat index_count) (buffer m indices))
                  index_count vertex_count fuel
                  (valid_mesh_take _ _ _ Hvalid) ltac:(lia) Hlen ltac:(lia))
        as (out & order & Hrun & _).
      rewrite Hrun. cbn. eexists _, _. auto.
    + destruct (optimizeVertexCacheFifo_run_spec (buffer m indices)
                  (take (Z.to_nat index_count) (buffer m indices))
                  index_count vertex_count cache_size fuel
                  (valid_mesh_take _ _ _ Hvalid) HV ltac:(lia) Hlen Hfuel)
        as (out & order & Hrun & _).
      rewrite Hrun. cbn. eexists _, _. auto.
  - split.
    + destruct (optimizeVertexCache_run_same fuel (buffer m destination)
                  (buffer m indices) (buffer m indices)
                  (take (Z.to_nat index_count) (buffer m indices))
                  index_count vertex_count Hvalid
                  (same_indices_take _ _) ltac:(lia) Hdst Hlen ltac:(lia))
        as (out1 & out2 & Hrun1 & Hrun2 & Hsame).
      rewrite Hrun1, Hrun2. cbn. eexists _, _.
      split; [reflexivity|]. split; [reflexivity|].
      rewrite !buffer_insert. symmetry. exact Hsame.
    + destruct (optimizeVertexCacheFifo_run_same fuel (buffer m destination)
                  (buffer m indices) (buffer m indices)
                  (take (Z.to_nat index_count) (buffer m indices))
                  index_count vertex_count cache_size Hvalid HV
                  (same_indices_take _ _) ltac:(lia) Hdst Hlen Hfuel)
        as (out1 & out2 & Hrun1 & Hrun2 & Hsame).
      rewrite Hrun1, Hrun2. cbn. eexists _, _.
      split; [reflexivity|]. split; [reflexivity|].
      rewrite !buffer_insert. symmetry. exact Hsame.
Qed.

Lemma in_place_matches_separate_witness :
  (∃ m1 m2,
     meshopt_optimizeVertexCache 12 quad_memory 0%nat 0%nat 6 4 = Some m1 ∧
     meshopt_optimizeVertexCache 12 quad_memory 1%nat 0%nat 6 4 = Some m2 ∧
     take (Z.to_nat 6) (buffer m1 0%nat) = take (Z.to_nat 6) (buffer m2 1%nat)) ∧
  (∃ m1 m2,
     meshopt_optimizeVertexCacheFifo 12 quad_memory 0%nat 0%nat 6 4 3
       = Some m1 ∧
     meshopt_optimizeVertexCacheFifo 12 quad_memory 1%nat 0%nat 6 4 3
       = Some m2 ∧
     take (Z.to_nat 6) (buffer m1 0%nat) = take (Z.to_nat 6) (buffer m2 1%nat)).
Proof.
  apply (in_place_matches_separate quad_memory 0%nat 1%nat 6 4 3 12).
  - apply valid_meshb_spec. reflexivity.
  - vm_compute. discriminate.
  - lia.
  - lia.
Defined.

(** * The assertions of the score sweep *)

#[global] Instance float_eq_dec : EqDecision float.
Proof. solve_decision. Defined.










(** * Further properties of the adjacency builder *)

Lemma fan_sorted indices v n (i j : nat) x y :
  (i ≤ j)%nat → fan indices v n !! i = Some x → fan indices v n !! j = Some y →
  x ≤ y.
Proof.
  revert i j x y. induction n as [|n IH]; intros i j x y Hij Hi Hj;
    cbn [fan] in *; [rewrite lookup_nil in Hi; discriminate|].
  destruct (decide (j < length (fan indices v n))%nat) as [Hlt|Hge].
  - rewrite lookup_app_l in Hi, Hj by lia. exact (IH i j x y Hij Hi Hj).
  - rewrite (lookup_app_r _ _ j) in Hj by lia.
    destruct (rd indices (Z.of_nat n) =? v);
      [|rewrite lookup_nil in Hj; discriminate].
    apply list_lookup_singleton_Some in Hj as [_ <-].
    destruct (decide (i < length (fan indices v n))%nat) as [Hlt'|Hge'].
    + rewrite lookup_app_l in Hi by lia.
      apply list_elem_of_lookup_2, fan_range in Hi.
      apply Z.div_le_lower_bound; lia.
    + rewrite lookup_app_r in Hi by lia.
      apply list_lookup_singleton_Some in Hi as [_ <-]. lia.
Qed.

(** X1.  The layout [buildAdjacency] leaves behind on a valid mesh: the
    three buffers keep their allocated lengths; [triangle_counts[v]] is
    the number of indices equal to [v]; [offsets[v]] is the sum of the
    counts of the vertices before [v] (the scatter pass advanced the
    offsets and the last pass restored them); and the list of [v],
    [data[offsets[v] .. offsets[v] + triangle_counts[v])], holds the
    triangle [j / 3] of every position [j] with [indices[j] == v], in
    increasing order of [j], hence in ascending triangle order. *)
Theorem buildAdjacency_layout (indices : list Z)
    (index_count vertex_count : Z) :
  valid_mesh indices index_count vertex_count →
  let adj := buildAdjacency (Adjacency_new index_count vertex_count) indices
               index_count vertex_count in
  Z.of_nat (length (triangle_counts adj)) = vertex_count ∧
  Z.of_nat (length (offsets adj)) = vertex_count ∧
  Z.of_nat (length (data adj)) = index_count ∧
  ∀ v, 0 ≤ v < vertex_count →
    rd (triangle_counts adj) v
      = Z.of_nat (uses indices v (Z.to_nat index_count)) ∧
    rd (offsets adj) v = psum (triangle_counts adj) v ∧
    rd (offsets adj) v + rd (triangle_counts adj) v ≤ index_count ∧
    neighbours adj v = fan indices v (Z.to_nat index_count) ∧
    ∀ i j, 0 ≤ i → i ≤ j → j < rd (triangle_counts adj) v →
      rd (data adj) (rd (offsets adj) v + i) ≤
      rd (data adj) (rd (offsets adj) v + j).
Proof.
  intros Hvalid adj.
  pose proof (buildAdjacency_spec _ _ _ Hvalid) as Hbuilt. fold adj in Hbuilt.
  pose proof (built_adj_ok _ _ _ _ Hvalid Hbuilt) as Hok.
  destruct Hbuilt as [Hcl Hol Hdl Hcounts Hoffs Htotal Hnb].
  split; [exact Hcl|]. split; [exact Hol|]. split; [exact Hdl|].
  intros v Hv.
  destruct (ao_tiled _ _ _ _ _ Hok v Hv) as (Hoff0 & _ & HoffN & _).
  pose proof (ao_counts _ _ _ _ _ Hok v Hv) as Hsize.
  split; [apply Hcounts, Hv|]. split; [apply Hoffs, Hv|].
  split; [lia|]. split; [apply Hnb, Hv|].
  intros i j Hi Hij Hj.
  rewrite <- !(rd_slice _ _ (rd (triangle_counts adj) v)) by lia.
  fold (neighbours adj v). rewrite (Hnb v Hv).
  assert (length (fan indices v (Z.to_nat index_count)) =
          Z.to_nat (rd (triangle_counts adj) v)) as Hlen.
  { rewrite <- (Hnb v Hv). apply (length_neighbours _ _ _ _ _ _ Hok Hv). }
  unfold rd.
  eapply (fan_sorted indices v (Z.to_nat index_count)
            (Z.to_nat i) (Z.to_nat j)); [lia| |];
    apply list_lookup_lookup_total_lt; lia.
Qed.

Lemma buildAdjacency_layout_witness :
  let adj := buildAdjacency (Adjacency_new 6 4) quad 6 4 in
  Z.of_nat (length (triangle_counts adj)) = 4 ∧
  Z.of_nat (length (offsets adj)) = 4 ∧
  Z.of_nat (length (data adj)) = 6 ∧
  ∀ v, 0 ≤ v < 4 →
    rd (triangle_counts adj) v = Z.of_nat (uses quad v (Z.to_nat 6)) ∧
    rd (offsets adj) v = psum (triangle_counts adj) v ∧
    rd (offsets adj) v + rd (triangle_counts adj) v ≤ 6 ∧
    neighbours adj v = fan quad v (Z.to_nat 6) ∧
    ∀ i j, 0 ≤ i → i ≤ j → j < rd (triangle_counts adj) v →
      rd (data adj) (rd (offsets adj) v + i) ≤
      rd (data adj) (rd (offsets adj) v + j).
Proof.
  apply (buildAdjacency_layout quad 6 4).
  apply valid_meshb_spec. reflexivity.
Defined.

(** * Further properties of the fallback scans *)

(** X2.  [getNextTriangleDeadEnd] returns once it has enough fuel for the
    triangles left.  It steps the cursor over emitted triangles only and
    stops at the first triangle at or after the cursor that is not
    emitted, which it returns; when there is none the cursor ends at
    [face_count] and the result is [~0u]. *)
Theorem getNextTriangleDeadEnd_first_pending (fuel : nat)
    (input_cursor face_count : Z) (emitted_flags : list bool) :
  face_count < 4294967296 →
  0 ≤ input_cursor ≤ face_count →
  face_count - input_cursor ≤ Z.of_nat fuel →
  ∃ r cursor',
    getNextTriangleDeadEnd fuel input_cursor emitted_flags face_count
      = Some (r, cursor') ∧
    input_cursor ≤ cursor' ≤ face_count ∧
    (∀ t, input_cursor ≤ t < cursor' → rd emitted_flags t = true) ∧
    ((r = UINT_MAX ∧ cursor' = face_count ∧
      ∀ t, input_cursor ≤ t < face_count → rd emitted_flags t = true) ∨
     (r = cursor' ∧ cursor' < face_count ∧ rd emitted_flags r = false)).
Proof.
  intros HF Hc Hfuel.
  destruct (getNextTriangleDeadEnd_spec emitted_flags face_count HF fuel
              input_cursor Hc Hfuel)
    as (r & cursor' & Hrun & Hbounds & Hskipped & Hres).
  exists r, cursor'. split; [exact Hrun|]. split; [exact Hbounds|].
  split; [exact Hskipped|].
  destruct Hres as [[-> ->]|(-> & Hlt & Hpending)].
  - left. auto.
  - right. auto.
Qed.

Lemma getNextTriangleDeadEnd_first_pending_witness :
  ∃ r cursor',
    getNextTriangleDeadEnd 3 1 [true; true; false; false] 4
      = Some (r, cursor') ∧
    1 ≤ cursor' ≤ 4 ∧
    (∀ t, 1 ≤ t < cursor' → rd [true; true; false; false] t = true) ∧
    ((r = UINT_MAX ∧ cursor' = 4 ∧
      ∀ t, 1 ≤ t < 4 → rd [true; true; false; false] t = true) ∨
     (r = cursor' ∧ cursor' < 4 ∧ rd [true; true; false; false] r = false)).
Proof.
  apply (getNextTriangleDeadEnd_first_pending 3 1 4 [true; true; false; false]);
    lia.
Defined.

(** The stack loop of [getNextVertexDeadEnd] pops entries until one has a
    live triangle; every entry popped before it has none. *)
Lemma pop_dead_end_skips dead_end live :
  ∀ fuel dead_end_top,
    0 ≤ dead_end_top ≤ Z.of_nat fuel → dead_end_top < 4294967296 →
    ∃ found top',
      pop_dead_end fuel dead_end dead_end_top live = Some (found, top') ∧
      0 ≤ top' ≤ dead_end_top ∧
      match found with
      | Some v =>
          top' < dead_end_top ∧ v = rd dead_end top' ∧ 0 < rd live v ∧
          ∀ i, top' < i < dead_end_top → rd live (rd dead_end i) ≤ 0
      | None =>
          top' = 0 ∧ ∀ i, 0 ≤ i < dead_end_top → rd live (rd dead_end i) ≤ 0
      end.
Proof.
  induction fuel as [|fuel IH]; intros top Htop Hsmall.
  - cbn [pop_dead_end]. destruct (Z.eqb_spec top 0); [|lia].
    exists None, top. split; [reflexivity|]. split; [lia|].
    split; [assumption|]. intros; lia.
  - cbn [pop_dead_end]. destruct (Z.eqb_spec top 0) as [->|Hne].
    + exists None, 0. split; [reflexivity|]. split; [lia|].
      split; [reflexivity|]. intros; lia.
    + rewrite u32_small by lia.
      destruct (Z.gtb_spec (rd live (rd dead_end (top - 1))) 0) as [Hlive|Hdead].
      * exists (Some (rd dead_end (top - 1))), (top - 1).
        split; [reflexivity|]. split; [lia|].
        split; [lia|]. split; [reflexivity|]. split; [lia|]. intros; lia.
      * destruct (IH (top - 1) ltac:(lia) ltac:(lia))
          as (found & top' & Hrun & Htop' & Hfound).
        exists found, top'. split; [exact Hrun|]. split; [lia|].
        destruct found as [v|].
        -- destruct Hfound as (Hlt & Hv & Hlive & Hskip).
           split; [lia|]. split; [exact Hv|]. split; [exact Hlive|].
           intros i Hi. destruct (decide (i = top - 1)) as [->|Hne'];
             [exact Hdead|apply Hskip; lia].
        -- destruct Hfound as (Hzero & Hskip). split; [exact Hzero|].
           intros i Hi. destruct (decide (i = top - 1)) as [->|Hne'];
             [exact Hdead|apply Hskip; lia].
Qed.

(** X3.  [getNextVertexDeadEnd] returns once it has fuel for the stack and
    for the vertices left.  It answers with the topmost entry of the
    dead-end stack that still has a live triangle, leaving the stack top
    at that entry (the entries above it, all without live triangles, are
    gone) and the cursor where it was.  When the whole stack is dead it
    empties it and answers with the first vertex at or after the cursor
    that has a live triangle, leaving the cursor on that vertex; when
    there is no such vertex either, the result is [~0u] and the cursor
    ends at [vertex_count]. *)
Theorem getNextVertexDeadEnd_order (fuel : nat) (dead_end live : list Z)
    (dead_end_top input_cursor vertex_count : Z) :
  vertex_count < 4294967296 →
  0 ≤ dead_end_top ≤ Z.of_nat fuel → dead_end_top < 4294967296 →
  0 ≤ input_cursor ≤ vertex_count →
  vertex_count - input_cursor ≤ Z.of_nat fuel →
  ∃ r top' cursor',
    getNextVertexDeadEnd fuel dead_end dead_end_top input_cursor live
      vertex_count = Some (r, top', cursor') ∧
    ((top' < dead_end_top ∧ cursor' = input_cursor ∧
      r = rd dead_end top' ∧ 0 < rd live r ∧
      ∀ i, top' < i < dead_end_top → rd live (rd dead_end i) ≤ 0) ∨
     (top' = 0 ∧
      (∀ i, 0 ≤ i < dead_end_top → rd live (rd dead_end i) ≤ 0) ∧
      input_cursor ≤ cursor' ≤ vertex_count ∧
      (∀ v, input_cursor ≤ v < cursor' → rd live v ≤ 0) ∧
      ((r = UINT_MAX ∧ cursor' = vertex_count) ∨
       (r = cursor' ∧ cursor' < vertex_count ∧ 0 < rd live r)))).
Proof.
  intros HV Htop Hsmall Hc Hfuel. unfold getNextVertexDeadEnd.
  destruct (pop_dead_end_skips dead_end live fuel dead_end_top Htop Hsmall)
    as (found & top' & Hpop & Htop' & Hfound).
  rewrite Hpop. cbn. destruct found as [v|].
  - destruct Hfound as (Hlt & Hv & Hlive & Hskip).
    exists v, top', input_cursor. split; [reflexivity|]. left.
    split; [exact Hlt|]. split; [reflexivity|]. split; [exact Hv|].
    split; [exact Hlive|exact Hskip].
  - destruct Hfound as (-> & Hskip).
    destruct (scan_input_order_spec live vertex_count HV fuel input_cursor
                Hc Hfuel) as (r & c' & Hrun & Hc' & Hdead & Hres).
    rewrite Hrun. cbn. exists r, 0, c'. split; [reflexivity|]. right.
    split; [reflexivity|]. split; [exact Hskip|]. split; [exact Hc'|].
    split; [exact Hdead|].
    destruct Hres as [[-> ->]|(-> & Hlt & Hlive)]; [left|right]; auto.
Qed.

Lemma getNextVertexDeadEnd_order_witness :
  ∃ r top' cursor',
    getNextVertexDeadEnd 4 [2; 1; 0] 3 1 [0; 1; 0; 2] 4
      = Some (r, top', cursor') ∧
    ((top' < 3 ∧ cursor' = 1 ∧
      r = rd [2; 1; 0] top' ∧ 0 < rd [0; 1; 0; 2] r ∧
      ∀ i, top' < i < 3 → rd [0; 1; 0; 2] (rd [2; 1; 0] i) ≤ 0) ∨
     (top' = 0 ∧
      (∀ i, 0 ≤ i < 3 → rd [0; 1; 0; 2] (rd [2; 1; 0] i) ≤ 0) ∧
      1 ≤ cursor' ≤ 4 ∧
      (∀ v, 1 ≤ v < cursor' → rd [0; 1; 0; 2] v ≤ 0) ∧
      ((r = UINT_MAX ∧ cursor' = 4) ∨
       (r = cursor' ∧ cursor' < 4 ∧ 0 < rd [0; 1; 0; 2] r)))).
Proof.
  apply (getNextVertexDeadEnd_order 4 [2; 1; 0] [0; 1; 0; 2] 3 1 4); lia.
Defined.

(** * Further properties of the vertex score *)

(** The facts about the score at one cache position and one clamped live
    count, as a test. *)
Definition score_facts (cache_position live_triangles : Z) : bool :=
  bool_decide (vertexScore (-1) live_triangles
               = rd vertex_score_table_live live_triangles) &&
  (if live_triangles =? 0
   then bool_decide (vertexScore (-1) live_triangles = fzero)
   else flt fzero (vertexScore cache_position live_triangles)) &&
  (if cache_position =? -1 then true
   else flt (vertexScore (-1) live_triangles)
            (vertexScore cache_position live_triangles)) &&
  flt (vertexScore cache_position live_triangles) (float_of_Z 2).

Lemma score_facts_spec cache_position live_triangles :
  -1 ≤ cache_position < max_cache_size → 0 ≤ live_triangles ≤ max_valence →
  score_facts cache_position live_triangles = true.
Proof.
  unfold max_cache_size, max_valence. intros Hp Hl.
  assert (cache_position = -1 ∨ cache_position = 0 ∨ cache_position = 1 ∨
          cache_position = 2 ∨ cache_position = 3 ∨ cache_position = 4 ∨
          cache_position = 5 ∨ cache_position = 6 ∨ cache_position = 7 ∨
          cache_position = 8 ∨ cache_position = 9 ∨ cache_position = 10 ∨
          cache_position = 11 ∨ cache_position = 12 ∨ cache_position = 13 ∨
          cache_position = 14 ∨ cache_position = 15) as Hpos by lia.
  assert (live_triangles = 0 ∨ live_triangles = 1 ∨ live_triangles = 2 ∨
          live_triangles = 3 ∨ live_triangles = 4 ∨ live_triangles = 5 ∨
          live_triangles = 6 ∨ live_triangles = 7 ∨ live_triangles = 8)
    as Hlive by lia.
  clear Hp Hl.
  repeat (destruct Hpos as [Hpos|Hpos]); subst cache_position;
    repeat (destruct Hlive as [Hlive|Hlive]); subst live_triangles;
    vm_compute; reflexivity.
Qed.

Lemma vertexScore_clamped cache_position live_triangles :
  vertexScore cache_position live_triangles =
  vertexScore cache_position (Z.min live_triangles max_valence).
Proof.
  unfold vertexScore, max_valence.
  destruct (Z.ltb_spec live_triangles 8) as [Hlt|Hge].
  - rewrite Z.min_l by lia.
    destruct (Z.ltb_spec live_triangles 8); [reflexivity|lia].
  - rewrite Z.min_r by lia. reflexivity.
Qed.

(** X4.  For a cache position the source allows ([-1] for "not in the
    cache", or [0 .. 15]) and any live count: [vertexScore] depends on
    the live count only through its clamp at 8; out of the cache the
    score is the live-table entry alone, so a vertex out of the cache with
    no triangle left scores exactly zero; a vertex with a triangle left
    scores strictly above zero; every cache position scores strictly above
    "not in the cache" at the same live count; and every score is below
    2. *)
Theorem vertexScore_range (cache_position live_triangles : Z) :
  -1 ≤ cache_position < max_cache_size → 0 ≤ live_triangles →
  vertexScore cache_position live_triangles =
    vertexScore cache_position (Z.min live_triangles max_valence) ∧
  vertexScore (-1) live_triangles =
    rd vertex_score_table_live (Z.min live_triangles max_valence) ∧
  (live_triangles = 0 → vertexScore (-1) live_triangles = fzero) ∧
  (1 ≤ live_triangles →
   flt fzero (vertexScore cache_position live_triangles) = true) ∧
  (0 ≤ cache_position →
   flt (vertexScore (-1) live_triangles)
       (vertexScore cache_position live_triangles) = true) ∧
  flt (vertexScore cache_position live_triangles) (float_of_Z 2) = true.
Proof.
  intros Hp Hl.
  pose proof (score_facts_spec cache_position
                (Z.min live_triangles max_valence) Hp
                ltac:(unfold max_valence; lia)) as Hfacts.
  unfold score_facts in Hfacts.
  rewrite <- !vertexScore_clamped in Hfacts.
  apply andb_prop in Hfacts as [Hfacts Hbelow].
  apply andb_prop in Hfacts as [Hfacts Hcached].
  apply andb_prop in Hfacts as [Hlive Hpositive].
  apply bool_decide_eq_true_1 in Hlive.
  split; [apply vertexScore_clamped|]. split; [exact Hlive|].
  split; [|split; [|split; [|exact Hbelow]]].
  - intros ->. change (Z.min 0 max_valence) with 0 in Hpositive.
    cbn in Hpositive. apply bool_decide_eq_true_1 in Hpositive.
    exact Hpositive.
  - intros Hone.
    destruct (Z.eqb_spec (Z.min live_triangles max_valence) 0) as [Hz|_];
      [unfold max_valence in Hz; lia|exact Hpositive].
  - intros Hin.
    destruct (Z.eqb_spec cache_position (-1)); [lia|exact Hcached].
Qed.

Lemma vertexScore_range_witness :
  vertexScore 3 11 = vertexScore 3 (Z.min 11 max_valence) ∧
  vertexScore (-1) 11 = rd vertex_score_table_live (Z.min 11 max_valence) ∧
  (11 = 0 → vertexScore (-1) 11 = fzero) ∧
  (1 ≤ 11 → flt fzero (vertexScore 3 11) = true) ∧
  (0 ≤ 3 → flt (vertexScore (-1) 11) (vertexScore 3 11) = true) ∧
  flt (vertexScore 3 11) (float_of_Z 2) = true.
Proof.
  apply (vertexScore_range 3 11); unfold max_cache_size; lia.
Defined.

(** * Further properties of the greedy loop *)

Lemma vc_iterate_order fuel n destination indices index_count vertex_count st :
  valid_mesh indices index_count vertex_count →
  0 < index_count →
  index_count ≤ Z.of_nat (length destination) →
  index_count / 3 ≤ Z.of_nat fuel →
  vc_iterate fuel n indices (index_count / 3)
    (vc_init destination indices index_count vertex_count) = Some st →
  ∃ order, vc_inv indices index_count vertex_count order st ∧
           length order = n ∧
           length (vc_destination st) = length destination.
Proof.
  intros Hvalid Hpos Hdst Hfuel. revert st.
  induction n as [|n IH]; intros st Hit; cbn [vc_iterate] in Hit.
  - injection Hit as <-. exists []. split; [|split; reflexivity].
    apply vc_init_inv; assumption.
  - destruct (vc_iterate fuel n indices (index_count / 3) _) as [st'|] eqn:Hst';
      [|discriminate].
    cbn in Hit. destruct (Z.eqb_spec (vc_current_triangle st') UINT_MAX)
      as [|Hlive]; [discriminate|].
    destruct (IH st' eq_refl) as (order & Hinv & Hlen & Hdlen).
    destruct (vc_step_spec _ _ _ _ _ fuel Hvalid Hinv Hlive Hfuel)
      as (st'' & Hstep & Hinv' & Hdlen').
    rewrite Hstep in Hit. injection Hit as <-.
    exists (order ++ [vc_current_triangle st']). split; [exact Hinv'|].
    split; [rewrite length_app; cbn; lia|congruence].
Qed.

(** While a triangle is current, fewer than [face_count] are out. *)
Lemma vc_current_pending indices index_count vertex_count order st :
  valid_mesh indices index_count vertex_count →
  vc_inv indices index_count vertex_count order st →
  vc_current_triangle st ≠ UINT_MAX →
  0 ≤ vc_current_triangle st < index_count / 3 ∧
  rd (vc_emitted_flags st) (vc_current_triangle st) = false ∧
  Z.of_nat (length order) < index_count / 3.
Proof.
  intros Hvalid [Hcore _ _ Hcurrent] Hlive.
  destruct (valid_mesh_faces _ _ _ Hvalid) as [_ HF].
  destruct Hcurrent as [[Habs _]|[Hcur Hpend]]; [contradiction|].
  split; [exact Hcur|]. split; [exact Hpend|].
  assert (vc_current_triangle st ∉ order) as Hnew.
  { intros Hin. apply (vi_emitted _ _ _ _ _ Hcore) in Hin; [|exact Hcur].
    congruence. }
  pose proof (nodup_bounded (vc_current_triangle st :: order)
                (index_count / 3) HF) as Hbound.
  cbn [length] in Hbound. enough (Z.of_nat (S (length order)) ≤ index_count / 3)
    by lia.
  apply Hbound.
  - constructor; [exact Hnew|apply (vi_order_nodup _ _ _ _ _ Hcore)].
  - intros t Ht. apply elem_of_cons in Ht as [->|Ht]; [exact Hcur|].
    apply (vi_order_range _ _ _ _ _ Hcore), Ht.
Qed.

Lemma vc_iterate_runs fuel n destination indices index_count vertex_count :
  valid_mesh indices index_count vertex_count →
  0 < index_count →
  index_count ≤ Z.of_nat (length destination) →
  index_count / 3 ≤ Z.of_nat fuel →
  Z.of_nat n ≤ index_count / 3 →
  ∃ st, vc_iterate fuel n indices (index_count / 3)
          (vc_init destination indices index_count vertex_count) = Some st.
Proof.
  intros Hvalid Hpos Hdst Hfuel. induction n as [|n IH]; intros Hn.
  - eexists. reflexivity.
  - destruct (IH ltac:(lia)) as [st' Hst'].
    destruct (vc_iterate_order _ _ _ _ _ _ _ Hvalid Hpos Hdst Hfuel Hst')
      as (order & Hinv & Hlen & _).
    assert (vc_current_triangle st' ≠ UINT_MAX) as Hlive.
    { intros Hend. pose proof (vc_final_count _ _ _ _ _ Hvalid Hinv Hend). lia. }
    destruct (vc_step_spec _ _ _ _ _ fuel Hvalid Hinv Hlive Hfuel)
      as (st'' & Hstep & _).
    exists st''. cbn [vc_iterate]. rewrite Hst'. cbn.
    destruct (Z.eqb_spec (vc_current_triangle st') UINT_MAX); [contradiction|].
    exact Hstep.
Qed.

(** Iterating [S k] times is one iteration followed by [k] more. *)
Lemma vc_iterate_shift fuel k indices face_count st :
  vc_iterate fuel (S k) indices face_count st =
  if vc_current_triangle st =? UINT_MAX then None
  else st1 ← vc_step fuel indices face_count st;
       vc_iterate fuel k indices face_count st1.
Proof.
  induction k as [|k IH].
  - cbn. destruct (_ =? _); [reflexivity|].
    destruct (vc_step fuel indices face_count st); reflexivity.
  - change (vc_iterate fuel (S (S k)) indices face_count st) with
      (st' ← vc_iterate fuel (S k) indices face_count st;
       if vc_current_triangle st' =? UINT_MAX then None
       else vc_step fuel indices face_count st').
    rewrite IH. destruct (vc_current_triangle st =? UINT_MAX); [reflexivity|].
    destruct (vc_step fuel indices face_count st) as [st1|]; reflexivity.
Qed.

(** The loop returns the state in which the iteration first finds no
    current triangle. *)
Lemma vc_loop_iterate fuel indices face_count :
  ∀ k st0 st,
    vc_iterate fuel k indices face_count st0 = Some st →
    vc_current_triangle st = UINT_MAX →
    ∀ n, (k ≤ n)%nat → vc_loop fuel n indices face_count st0 = Some st.
Proof.
  induction k as [|k IH]; intros st0 st Hit Hend n Hn.
  - cbn in Hit. injection Hit as <-. destruct n; cbn [vc_loop];
      rewrite Hend; reflexivity.
  - rewrite vc_iterate_shift in Hit.
    destruct n as [|n]; [lia|]. cbn [vc_loop].
    destruct (vc_current_triangle st0 =? UINT_MAX); [discriminate|].
    destruct (vc_step fuel indices face_count st0) as [st1|]; [|discriminate].
    cbn in *. apply (IH st1 st Hit Hend). lia.
Qed.

(** X5.  On a valid, non-empty mesh the main loop of
    [meshopt_optimizeVertexCache] makes exactly [face_count] iterations.
    At the head of each of them the current triangle is a triangle of the
    mesh that is not emitted yet and [output_triangle] is the number of
    iterations made, below [face_count] (the assertion at the loop head).
    The loop ends with no current triangle, every triangle flagged as
    emitted, and [input_cursor == face_count] and
    [output_triangle == face_count] (the two closing assertions). *)
Theorem greedy_loop_emits_one_triangle_per_iteration (fuel : nat)
    (destination indices : list Z) (index_count vertex_count : Z) :
  valid_mesh indices index_count vertex_count →
  0 < index_count →
  index_count ≤ Z.of_nat (length destination) →
  index_count / 3 ≤ Z.of_nat fuel →
  let face_count := index_count / 3 in
  let st0 := vc_init destination indices index_count vertex_count in
  ∃ st,
    vc_loop fuel fuel indices face_count st0 = Some st ∧
    vc_iterate fuel (Z.to_nat face_count) indices face_count st0 = Some st ∧
    vc_current_triangle st = UINT_MAX ∧
    vc_input_cursor st = face_count ∧
    vc_output_triangle st = face_count ∧
    (∀ t, 0 ≤ t < face_count → rd (vc_emitted_flags st) t = true) ∧
    ∀ n, Z.of_nat n < face_count →
      ∃ st', vc_iterate fuel n indices face_count st0 = Some st' ∧
             0 ≤ vc_current_triangle st' < face_count ∧
             rd (vc_emitted_flags st') (vc_current_triangle st') = false ∧
             vc_output_triangle st' = Z.of_nat n.
Proof.
  intros Hvalid Hpos Hdst Hfuel face_count st0.
  destruct (valid_mesh_faces _ _ _ Hvalid) as [Hic HF].
  pose proof (vm_u32 _ _ _ Hvalid) as Hsmall.
  destruct (vc_iterate_runs fuel (Z.to_nat face_count) destination indices
              index_count vertex_count Hvalid Hpos Hdst Hfuel
              ltac:(subst face_count; lia)) as [st Hst].
  destruct (vc_iterate_order _ _ _ _ _ _ _ Hvalid Hpos Hdst Hfuel Hst)
    as (order & Hinv & Hlen & _).
  assert (vc_current_triangle st = UINT_MAX) as Hend.
  { destruct (Z.eq_dec (vc_current_triangle st) UINT_MAX) as [|Hlive];
      [assumption|].
    destruct (vc_current_pending _ _ _ _ _ Hvalid Hinv Hlive) as (_ & _ & Hlt).
    subst face_count. lia. }
  exists st. split.
  { apply (vc_loop_iterate fuel indices face_count (Z.to_nat face_count));
      [exact Hst|exact Hend|subst face_count; lia]. }
  split; [exact Hst|]. split; [exact Hend|].
  pose proof (vi_core _ _ _ _ _ Hinv) as Hcore.
  split.
  { destruct (vi_current _ _ _ _ _ Hinv) as [[_ Hcur]|[Hcur _]];
      [exact Hcur|unfold UINT_MAX in *; subst face_count; lia]. }
  split; [rewrite (vi_output _ _ _ _ _ Hcore), Hlen; subst face_count; lia|].
  split.
  { intros t Ht.
    destruct (vi_current _ _ _ _ _ Hinv) as [[_ Hcur]|[Hcur _]];
      [|unfold UINT_MAX in *; subst face_count; lia].
    destruct (vi_skipped _ _ _ _ _ Hinv t ltac:(subst face_count; lia))
      as [Hem|Habs]; [exact Hem|].
    rewrite Hend in Habs. unfold UINT_MAX in Habs. subst face_count. lia. }
  intros n Hn.
  destruct (vc_iterate_runs fuel n destination indices index_count
              vertex_count Hvalid Hpos Hdst Hfuel
              ltac:(subst face_count; lia)) as [st' Hst'].
  destruct (vc_iterate_order _ _ _ _ _ _ _ Hvalid Hpos Hdst Hfuel Hst')
    as (order' & Hinv' & Hlen' & _).
  assert (vc_current_triangle st' ≠ UINT_MAX) as Hlive.
  { intros Hend'.
    pose proof (vc_final_count _ _ _ _ _ Hvalid Hinv' Hend').
    subst face_count. lia. }
  destruct (vc_current_pending _ _ _ _ _ Hvalid Hinv' Hlive)
    as (Hcur & Hpend & _).
  exists st'. split; [exact Hst'|]. split; [exact Hcur|].
  split; [exact Hpend|].
  rewrite (vi_output _ _ _ _ _ (vi_core _ _ _ _ _ Hinv')), Hlen'. reflexivity.
Qed.

Lemma greedy_loop_emits_one_triangle_per_iteration_witness :
  let st0 := vc_init (replicate 6 0) quad 6 4 in
  ∃ st,
    vc_loop 2 2 quad (6 / 3) st0 = Some st ∧
    vc_iterate 2 (Z.to_nat (6 / 3)) quad (6 / 3) st0 = Some st ∧
    vc_current_triangle st = UINT_MAX ∧
    vc_input_cursor st = 6 / 3 ∧
    vc_output_triangle st = 6 / 3 ∧
    (∀ t, 0 ≤ t < 6 / 3 → rd (vc_emitted_flags st) t = true) ∧
    ∀ n, Z.of_nat n < 6 / 3 →
      ∃ st', vc_iterate 2 n quad (6 / 3) st0 = Some st' ∧
             0 ≤ vc_current_triangle st' < 6 / 3 ∧
             rd (vc_emitted_flags st') (vc_current_triangle st') = false ∧
             vc_output_triangle st' = Z.of_nat n.
Proof.
  apply (greedy_loop_emits_one_triangle_per_iteration 2 (replicate 6 0)
           quad 6 4).
  - apply valid_meshb_spec. reflexivity.
  - lia.
  - cbn. lia.
  - vm_compute. discriminate.
Defined.

(** ** Where the greedy loop writes *)

Lemma vc_emit_destination indices st :
  vc_destination (vc_emit indices st).1 =
  wr (wr (wr (vc_destination st)
            (vc_output_triangle st * 3 + 0)
            (rd indices (vc_current_triangle st * 3 + 0)))
         (vc_output_triangle st * 3 + 1)
         (rd indices (vc_current_triangle st * 3 + 1)))
     (vc_output_triangle st * 3 + 2)
     (rd indices (vc_current_triangle st * 3 + 2)).
Proof.
  unfold vc_emit. destruct (cache_update _ _ _ _ _ _) as [[[? ?] ?] ?].
  reflexivity.
Qed.

Lemma vc_step_destination fuel indices face_count st st' :
  vc_step fuel indices face_count st = Some st' →
  vc_destination st' = vc_destination (vc_emit indices st).1.
Proof.
  unfold vc_step. destruct (vc_emit indices st) as [st1 cache_write].
  destruct (sweep _ _ _ _ _ _) as [[[vs ts] bt] bs].
  destruct (if bt =? UINT_MAX then _ else _) as [[cur cursor]|];
    [|discriminate].
  cbn. intros [= <-]. reflexivity.
Qed.

(** An iteration writes the three entries of output triangle
    [output_triangle] and nothing else. *)
Lemma vc_step_writes fuel indices face_count st st' i :
  vc_step fuel indices face_count st = Some st' →
  0 ≤ vc_output_triangle st → 0 ≤ i →
  i < 3 * vc_output_triangle st ∨ 3 * vc_output_triangle st + 3 ≤ i →
  rd (vc_destination st') i = rd (vc_destination st) i.
Proof.
  intros Hstep Hout Hi Hfar.
  rewrite (vc_step_destination _ _ _ _ _ Hstep), vc_emit_destination.
  rewrite !rd_wr_ne by lia. reflexivity.
Qed.

Lemma vc_loop_writes indices index_count vertex_count fuel :
  valid_mesh indices index_count vertex_count →
  index_count / 3 ≤ Z.of_nat fuel →
  ∀ n order st st',
    vc_inv indices index_count vertex_count order st →
    vc_loop fuel n indices (index_count / 3) st = Some st' →
    ∀ i, 0 ≤ i → i < 3 * Z.of_nat (length order) ∨ index_count ≤ i →
      rd (vc_destination st') i = rd (vc_destination st) i.
Proof.
  intros Hvalid Hfuel.
  destruct (valid_mesh_faces _ _ _ Hvalid) as [Hic HF].
  induction n as [|n IH]; intros order st st' Hinv Hloop i Hi Hfar;
    cbn [vc_loop] in Hloop;
    destruct (Z.eqb_spec (vc_current_triangle st) UINT_MAX) as [Hdone|Hlive];
    try (injection Hloop as <-; reflexivity); [discriminate|].
  destruct (vc_step_spec _ _ _ _ _ fuel Hvalid Hinv Hlive Hfuel)
    as (st1 & Hstep & Hinv1 & _).
  rewrite Hstep in Hloop. cbn in Hloop.
  destruct (vc_current_pending _ _ _ _ _ Hvalid Hinv Hlive) as (_ & _ & Hlt).
  pose proof (vi_output _ _ _ _ _ (vi_core _ _ _ _ _ Hinv)) as Hout.
  rewrite (IH _ _ _ Hinv1 Hloop i Hi)
    by (rewrite length_app; cbn [length]; lia).
  apply (vc_step_writes _ _ _ _ _ _ Hstep); lia.
Qed.

(** The output when the loop is entered with triangle 0 current: the
    first triple written is triangle 0 and stays. *)
Lemma optimizeVertexCache_run_writes destination indices index_count
    vertex_count fuel out :
  valid_mesh indices index_count vertex_count →
  0 < index_count →
  index_count ≤ Z.of_nat (length destination) →
  index_count / 3 < Z.of_nat fuel →
  optimizeVertexCache_run fuel destination indices index_count vertex_count
    = Some out →
  length out = length destination ∧
  (∀ i, index_count ≤ i → rd out i = rd destination i) ∧
  ∀ k, 0 ≤ k < 3 → rd out k = rd indices k.
Proof.
  intros Hvalid Hpos Hdst Hfuel Hrun.
  destruct (valid_mesh_faces _ _ _ Hvalid) as [Hic HF].
  destruct (optimizeVertexCache_run_spec destination indices index_count
              vertex_count fuel Hvalid Hpos Hdst Hfuel)
    as (out' & _ & Hrun' & Hlen & _).
  rewrite Hrun in Hrun'. injection Hrun' as <-.
  split; [exact Hlen|].
  unfold optimizeVertexCache_run in Hrun.
  destruct (vc_loop fuel fuel indices (index_count / 3) _) as [st|] eqn:Hloop;
    [|discriminate].
  cbn in Hrun. injection Hrun as <-.
  pose proof (vc_init_inv _ _ _ _ Hvalid Hpos Hdst) as Hinit.
  split.
  - intros i Hi.
    rewrite (vc_loop_writes _ _ _ fuel Hvalid ltac:(lia) _ _ _ _ Hinit Hloop)
      by lia.
    reflexivity.
  - intros k Hk.
    set (st0 := vc_init destination indices index_count vertex_count) in *.
    assert (vc_current_triangle st0 = 0) as Hcur0 by reflexivity.
    assert (vc_current_triangle st0 ≠ UINT_MAX) as Hlive
      by (rewrite Hcur0; discriminate).
    destruct fuel as [|fuel']; [lia|].
    cbn [vc_loop] in Hloop.
    destruct (Z.eqb_spec (vc_current_triangle st0) UINT_MAX); [contradiction|].
    destruct (vc_step_spec _ _ _ _ _ (S fuel') Hvalid Hinit Hlive ltac:(lia))
      as (st1 & Hstep & Hinv1 & _).
    rewrite Hstep in Hloop. cbn in Hloop.
    rewrite (vc_loop_writes _ _ _ (S fuel') Hvalid ltac:(lia) _ _ _ _
               Hinv1 Hloop) by (cbn; lia).
    pose proof (vi_destination _ _ _ _ _ (vi_core _ _ _ _ _ Hinv1)) as Htake.
    rewrite Hcur0 in Htake. cbn in Htake.
    rewrite <- (rd_take _ 3) by lia.
    change 3%nat with (Pos.to_nat 3) in Htake |- *.
    rewrite Htake.
    assert (k = 0 ∨ k = 1 ∨ k = 2) as [-> | [-> | ->]] by lia; reflexivity.
Qed.

(** ** Where the FIFO loop writes *)

Lemma ff_emit_writes indices index_count vertex_count cache_size order st t i :
  valid_mesh indices index_count vertex_count →
  ff_core indices index_count vertex_count order st →
  0 ≤ t < index_count / 3 → 0 ≤ i →
  i < 3 * Z.of_nat (length order) ∨ index_count ≤ i →
  rd (ff_destination (ff_emit indices cache_size t st)) i =
  rd (ff_destination st) i.
Proof.
  intros Hvalid Hcore Ht Hi Hfar.
  destruct (valid_mesh_faces _ _ _ Hvalid) as [Hic HF].
  unfold ff_emit. destruct (rd (ff_emitted_flags st) t) eqn:Hem;
    cbn [negb]; [reflexivity|].
  destruct (cache_touch _ _ _) as [cts ts]. cbn [ff_destination].
  pose proof (fi_output _ _ _ _ _ Hcore) as Hout.
  assert (t ∉ order) as Hnew.
  { intros Hin. apply (fi_emitted _ _ _ _ _ Hcore) in Hin; [|exact Ht].
    congruence. }
  pose proof (nodup_bounded (t :: order) (index_count / 3) HF) as Hbound.
  cbn [length] in Hbound.
  assert (Z.of_nat (S (length order)) ≤ index_count / 3) as Hlt.
  { apply Hbound.
    - constructor; [exact Hnew|apply (fi_order_nodup _ _ _ _ _ Hcore)].
    - intros u Hu. apply elem_of_cons in Hu as [->|Hu]; [exact Ht|].
      apply (fi_order_range _ _ _ _ _ Hcore), Hu. }
  rewrite !rd_wr_ne by lia. reflexivity.
Qed.

Lemma ff_fan_writes indices index_count vertex_count cache_size cap adj v :
  valid_mesh indices index_count vertex_count →
  adj_ok vertex_count index_count cap
    (all_listed indices (index_count / 3)) adj →
  0 ≤ v < vertex_count →
  ∀ n order st,
    Z.of_nat n ≤ rd (triangle_counts adj) v →
    ff_core indices index_count vertex_count order st →
    let st' :=
      for_loop n
        (λ k st, ff_emit indices cache_size
                   (rd (data adj) (rd (offsets adj) v + k)) st) st in
    ∃ order',
      ff_core indices index_count vertex_count order' st' ∧
      (length order ≤ length order')%nat ∧
      ∀ i, 0 ≤ i → i < 3 * Z.of_nat (length order) ∨ index_count ≤ i →
        rd (ff_destination st') i = rd (ff_destination st) i.
Proof.
  intros Hvalid Hok Hv. induction n as [|n IH]; intros order st Hn Hcore.
  - cbn [for_loop]. exists order. split; [exact Hcore|]. split; [lia|].
    reflexivity.
  - cbn [for_loop]. cbn zeta.
    destruct (IH order st ltac:(lia) Hcore) as (order1 & Hcore1 & Hlen1 & Hw1).
    set (st1 := for_loop n _ st) in *.
    set (t := rd (data adj) (rd (offsets adj) v + Z.of_nat n)).
    assert (0 ≤ t < index_count / 3) as Ht.
    { eapply neighbour_listed; [exact Hok|exact Hv|].
      apply (neighbour_entry _ _ _ _ _ _ _ Hok Hv). lia. }
    destruct (ff_emit_spec _ _ _ cache_size _ st1 t Hvalid Hcore1 Ht)
      as (order2 & Hcore2 & Horder2 & _).
    exists order2. split; [exact Hcore2|]. split.
    + destruct Horder2 as [[_ ->]|(_ & _ & ->)];
        [rewrite length_app; cbn [length]; lia|exact Hlen1].
    + intros i Hi Hfar.
      rewrite (ff_emit_writes _ _ _ cache_size _ _ _ _ Hvalid Hcore1 Ht Hi)
        by lia.
      apply Hw1; assumption.
Qed.

Lemma ff_step_destination fuel adj indices vertex_count cache_size st st' :
  ff_step fuel adj indices vertex_count cache_size st = Some st' →
  ff_destination st' =
  ff_destination
    (for_loop (Z.to_nat (rd (triangle_counts adj) (ff_current_vertex st)))
       (λ k s, ff_emit indices cache_size
                 (rd (data adj)
                    (rd (offsets adj) (ff_current_vertex st) + k)) s)
       st).
Proof.
  unfold ff_step. set (st1 := for_loop _ _ st).
  destruct (if _ =? UINT_MAX then _ else _) as [[[cur top] cursor]|];
    [|discriminate].
  cbn. intros [= <-]. reflexivity.
Qed.

Lemma ff_loop_writes indices index_count vertex_count cache_size cap adj fuel :
  valid_mesh indices index_count vertex_count →
  vertex_count < 4294967296 →
  adj_ok vertex_count index_count cap
    (all_listed indices (index_count / 3)) adj →
  index_count ≤ Z.of_nat fuel → vertex_count ≤ Z.of_nat fuel →
  ∀ n order st st',
    ff_inv indices index_count vertex_count order st →
    ff_loop fuel n adj indices vertex_count cache_size st = Some st' →
    ∀ i, 0 ≤ i → i < 3 * Z.of_nat (length order) ∨ index_count ≤ i →
      rd (ff_destination st') i = rd (ff_destination st) i.
Proof.
  intros Hvalid HV Hok Hfuel Hfuel'.
  induction n as [|n IH]; intros order st st' Hinv Hloop i Hi Hfar;
    cbn [ff_loop] in Hloop;
    destruct (Z.eqb_spec (ff_current_vertex st) UINT_MAX) as [Hdone|Hlive];
    try (injection Hloop as <-; reflexivity); [discriminate|].
  destruct (ff_step_spec _ _ _ cache_size _ _ _ _ fuel Hvalid HV Hok Hinv
              Hlive Hfuel Hfuel')
    as (st1 & order1 & Hstep & Hinv1 & Hgrow & _).
  rewrite Hstep in Hloop. cbn in Hloop.
  rewrite (IH _ _ _ Hinv1 Hloop i Hi) by lia.
  rewrite (ff_step_destination _ _ _ _ _ _ _ Hstep).
  destruct (fi_current _ _ _ _ _ Hinv) as [[Habs _]|Hcur]; [contradiction|].
  pose proof (ao_counts _ _ _ _ _ Hok _ Hcur) as Hsize.
  destruct (ff_fan_writes _ _ _ cache_size _ _ _ Hvalid Hok Hcur
              (Z.to_nat (rd (triangle_counts adj) (ff_current_vertex st)))
              order st ltac:(lia) (fi_core _ _ _ _ _ Hinv))
    as (order2 & _ & _ & Hw).
  apply Hw; assumption.
Qed.

Lemma optimizeVertexCacheFifo_run_writes destination indices index_count
    vertex_count cache_size fuel out :
  valid_mesh indices index_count vertex_count →
  vertex_count < 4294967296 →
  0 < index_count →
  index_count ≤ Z.of_nat (length destination) →
  index_count + vertex_count + 2 ≤ Z.of_nat fuel →
  optimizeVertexCacheFifo_run fuel destination indices index_count
    vertex_count cache_size = Some out →
  length out = length destination ∧
  ∀ i, index_count ≤ i → rd out i = rd destination i.
Proof.
  intros Hvalid HV Hpos Hdst Hfuel Hrun.
  destruct (optimizeVertexCacheFifo_run_spec destination indices index_count
              vertex_count cache_size fuel Hvalid HV Hpos Hdst Hfuel)
    as (out' & _ & Hrun' & Hlen & _).
  rewrite Hrun in Hrun'. injection Hrun' as <-.
  split; [exact Hlen|].
  unfold optimizeVertexCacheFifo_run in Hrun.
  destruct (ff_loop _ _ _ _ _ _ _) as [st|] eqn:Hloop; [|discriminate].
  cbn in Hrun. injection Hrun as <-.
  pose proof (ff_init_inv _ _ _ _ cache_size Hvalid Hpos Hdst) as Hinit.
  pose proof (built_adj_ok _ _ _ _ Hvalid (buildAdjacency_spec _ _ _ Hvalid))
    as Hok. fold (all_listed indices (index_count / 3)) in Hok.
  pose proof (vm_vpos _ _ _ Hvalid) as Hvpos.
  intros i Hi.
  rewrite (ff_loop_writes _ _ _ cache_size _ _ fuel Hvalid HV Hok
             ltac:(lia) ltac:(lia) _ _ _ _ Hinit Hloop) by lia.
  reflexivity.
Qed.

(** ** What a call leaves in memory besides the reordered triangles *)

Lemma drop_rd_eq (l1 l2 : list Z) (n : Z) :
  0 ≤ n → length l1 = length l2 →
  (∀ i, n ≤ i → rd l1 i = rd l2 i) →
  drop (Z.to_nat n) l1 = drop (Z.to_nat n) l2.
Proof.
  intros Hn Hlen Hrd. apply list_eq. intros j. rewrite !lookup_drop.
  destruct (decide (Z.to_nat n + j < length l1)%nat) as [Hlt|Hge].
  - rewrite !list_lookup_lookup_total_lt by lia. f_equal.
    specialize (Hrd (Z.of_nat (Z.to_nat n + j)) ltac:(lia)).
    unfold rd in Hrd. rewrite Nat2Z.id in Hrd. exact Hrd.
  - rewrite !lookup_ge_None_2 by lia. reflexivity.
Qed.

Lemma take_rd_eq (l1 l2 : list Z) (n : nat) :
  (n ≤ length l1)%nat → (n ≤ length l2)%nat →
  (∀ i, 0 ≤ i < Z.of_nat n → rd l1 i = rd l2 i) →
  take n l1 = take n l2.
Proof.
  intros H1 H2 Hrd. apply list_eq. intros j.
  destruct (decide (j < n)%nat) as [Hlt|Hge].
  - rewrite !lookup_take_lt by lia.
    rewrite !list_lookup_lookup_total_lt by lia. f_equal.
    specialize (Hrd (Z.of_nat j) ltac:(lia)).
    unfold rd in Hrd. rewrite Nat2Z.id in Hrd. exact Hrd.
  - rewrite !lookup_take_ge by lia. reflexivity.
Qed.

(** X6.  A valid call of either optimizer changes nothing but the first
    [index_count] entries of the destination buffer: every other buffer
    of the memory is as it was (the index buffer too, unless it is the
    destination), and so are the entries of the destination from
    [index_count] on. *)
Theorem optimizers_write_only_the_output (m : memory)
    (destination indices : ptr) (index_count vertex_count cache_size : Z)
    (fuel : nat) :
  valid_call m destination indices index_count vertex_count →
  vertex_count < 4294967296 →
  index_count + vertex_count + 2 ≤ Z.of_nat fuel →
  (∃ m',
     meshopt_optimizeVertexCache fuel m destination indices index_count
       vertex_count = Some m' ∧
     (∀ p, p ≠ destination → m' !! p = m !! p) ∧
     drop (Z.to_nat index_count) (buffer m' destination) =
     drop (Z.to_nat index_count) (buffer m destination)) ∧
  (∃ m',
     meshopt_optimizeVertexCacheFifo fuel m destination indices index_count
       vertex_count cache_size = Some m' ∧
     (∀ p, p ≠ destination → m' !! p = m !! p) ∧
     drop (Z.to_nat index_count) (buffer m' destination) =
     drop (Z.to_nat index_count) (buffer m destination)).
Proof.
  intros [Hvalid Hdst] HV Hfuel.
  destruct (valid_mesh_faces _ _ _ Hvalid) as [Hic HF].
  pose proof (vm_pos _ _ _ Hvalid) as Hpos.
  pose proof (vm_vpos _ _ _ Hvalid) as Hvpos.
  unfold meshopt_optimizeVertexCache, meshopt_optimizeVertexCacheFifo.
  destruct (Z.eqb_spec index_count 0) as [Hzero|Hnz]; cbn [orb].
  { split; exists m; auto. }
  destruct (Z.eqb_spec vertex_count 0) as [Hvzero|Hvnz].
  { pose proof (vm_range _ _ _ Hvalid 0 ltac:(lia)). lia. }
  fold (indices_read m destination indices index_count).
  destruct (indices_read_valid m destination indices _ _ Hvalid)
    as [Hvalid' _].
  split.
  - destruct (optimizeVertexCache_run_spec (buffer m destination) _ _ _ fuel
                Hvalid' ltac:(lia) Hdst ltac:(lia))
      as (out & order & Hrun & _).
    destruct (optimizeVertexCache_run_writes _ _ _ _ fuel out Hvalid'
                ltac:(lia) Hdst ltac:(lia) Hrun) as (Hlen & Hrest & _).
    rewrite Hrun. cbn. eexists. split; [reflexivity|].
    split; [intros p Hp; apply lookup_insert_ne; congruence|].
    rewrite buffer_insert. apply drop_rd_eq; [lia|exact Hlen|exact Hrest].
  - destruct (optimizeVertexCacheFifo_run_spec (buffer m destination) _ _ _
                cache_size fuel Hvalid' HV ltac:(lia) Hdst Hfuel)
      as (out & order & Hrun & _).
    destruct (optimizeVertexCacheFifo_run_writes _ _ _ _ cache_size fuel out
                Hvalid' HV ltac:(lia) Hdst Hfuel Hrun) as (Hlen & Hrest).
    rewrite Hrun. cbn. eexists. split; [reflexivity|].
    split; [intros p Hp; apply lookup_insert_ne; congruence|].
    rewrite buffer_insert. apply drop_rd_eq; [lia|exact Hlen|exact Hrest].
Qed.

(** A memory whose destination has two entries more than the mesh. *)
Definition quad_memory_long : memory :=
  <[0%nat := quad]> (<[1%nat := [9; 9; 9; 9; 9; 9; 7; 8]]> ∅).

Lemma optimizers_write_only_the_output_witness :
  (∃ m',
     meshopt_optimizeVertexCache 12 quad_memory_long 1%nat 0%nat 6 4
       = Some m' ∧
     (∀ p, p ≠ 1%nat → m' !! p = quad_memory_long !! p) ∧
     drop (Z.to_nat 6) (buffer m' 1%nat) =
     drop (Z.to_nat 6) (buffer quad_memory_long 1%nat)) ∧
  (∃ m',
     meshopt_optimizeVertexCacheFifo 12 quad_memory_long 1%nat 0%nat 6 4 16
       = Some m' ∧
     (∀ p, p ≠ 1%nat → m' !! p = quad_memory_long !! p) ∧
     drop (Z.to_nat 6) (buffer m' 1%nat) =
     drop (Z.to_nat 6) (buffer quad_memory_long 1%nat)).
Proof.
  apply (optimizers_write_only_the_output quad_memory_long 1%nat 0%nat 6 4 16
           12).
  - split; [apply valid_meshb_spec; reflexivity|vm_compute; discriminate].
  - lia.
  - lia.
Defined.

(** X7.  The greedy reorderer always starts with triangle 0: on a valid,
    non-empty mesh the first three indices of its output are the first
    three indices of its input, in place or not. *)
Theorem greedy_output_starts_with_first_triangle (m : memory)
    (destination indices : ptr) (index_count vertex_count : Z) (fuel : nat) :
  valid_call m destination indices index_count vertex_count →
  0 < index_count →
  index_count / 3 < Z.of_nat fuel →
  ∃ m',
    meshopt_optimizeVertexCache fuel m destination indices index_count
      vertex_count = Some m' ∧
    take 3 (buffer m' destination) = take 3 (buffer m indices).
Proof.
  intros [Hvalid Hdst] Hpos Hfuel.
  destruct (valid_mesh_faces _ _ _ Hvalid) as [Hic HF].
  pose proof (vm_length _ _ _ Hvalid) as Hlen.
  unfold meshopt_optimizeVertexCache.
  destruct (Z.eqb_spec index_count 0) as [Hzero|Hnz]; [lia|]. cbn [orb].
  destruct (Z.eqb_spec vertex_count 0) as [Hvzero|Hvnz].
  { pose proof (vm_range _ _ _ Hvalid 0 ltac:(lia)). lia. }
  fold (indices_read m destination indices index_count).
  destruct (indices_read_valid m destination indices _ _ Hvalid)
    as [Hvalid' _].
  destruct (optimizeVertexCache_run_spec (buffer m destination) _ _ _ fuel
              Hvalid' Hpos Hdst Hfuel) as (out & order & Hrun & _).
  destruct (optimizeVertexCache_run_writes _ _ _ _ fuel out Hvalid'
              Hpos Hdst Hfuel Hrun) as (Hlen' & _ & Hfirst).
  rewrite Hrun. cbn. eexists. split; [reflexivity|].
  rewrite buffer_insert. apply take_rd_eq; [lia|lia|].
  intros k Hk. rewrite (Hfirst k) by lia. unfold indices_read.
  destruct (decide (destination = indices)); [|reflexivity].
  apply rd_take. lia.
Qed.

Lemma greedy_output_starts_with_first_triangle_witness :
  ∃ m',
    meshopt_optimizeVertexCache 12 quad_memory 0%nat 0%nat 6 4 = Some m' ∧
    take 3 (buffer m' 0%nat) = take 3 (buffer quad_memory 0%nat).
Proof.
  apply (greedy_output_starts_with_first_triangle quad_memory 0%nat 0%nat 6 4
           12).
  - apply quad_valid_call. lia.
  - lia.
  - vm_compute. reflexivity.
Defined.

(** ** The cache list of the greedy loop *)

(** The simulated cache at a loop head: the first [cache_count] entries
    of [cache]. *)
Definition cached (st : vc_state) : list Z :=
  take (Z.to_nat (vc_cache_count st)) (vc_cache st).

(** The cache list after an iteration, from the one before it. *)
Lemma vc_step_cached fuel indices face_count st st' :
  Z.of_nat (length (vc_cache st)) = cache_slots →
  Z.of_nat (length (vc_cache_new st)) = cache_slots →
  0 ≤ vc_cache_count st ≤ cache_size →
  vc_step fuel indices face_count st = Some st' →
  let a := rd indices (vc_current_triangle st * 3 + 0) in
  let b := rd indices (vc_current_triangle st * 3 + 1) in
  let c := rd indices (vc_current_triangle st * 3 + 2) in
  let new := a :: b :: c :: survivors a b c (cached st) in
  cached st' = take (Z.to_nat cache_size) new ∧
  vc_cache_count st' = Z.min (Z.of_nat (length new)) cache_size.
Proof.
  intros Hclen Hcnlen Hcount Hstep a b c new. unfold cached in *.
  destruct (cache_update_spec (vc_cache st) (vc_cache_new st)
              (vc_cache_count st) a b c Hcount ltac:(unfold cache_slots,
                max_cache_size, cache_size in *; lia) Hcnlen)
    as (cache' & Hupd & Hlen' & Htake).
  fold new in Hupd, Htake.
  set (count' := if Z.of_nat (length new) >? cache_size then cache_size
                 else Z.of_nat (length new)) in Hupd.
  assert (count' = Z.min (Z.of_nat (length new)) cache_size) as Hcount'.
  { subst count'.
    destruct (Z.gtb_spec (Z.of_nat (length new)) cache_size); lia. }
  unfold vc_step, vc_emit in Hstep. fold a b c in Hstep.
  rewrite Hupd in Hstep. cbn [vc_adjacency vc_live_triangles vc_cache
    vc_vertex_scores vc_triangle_scores vc_input_cursor vc_emitted_flags
    vc_cache_new vc_cache_count vc_output_triangle vc_destination] in Hstep.
  destruct (sweep _ _ _ _ _ _) as [[[vs ts] bt] bs].
  destruct (if bt =? UINT_MAX then _ else _) as [[cur cursor]|];
    [|discriminate].
  cbn in Hstep. injection Hstep as <-.
  cbn [vc_cache vc_cache_count]. split; [|exact Hcount'].
  rewrite Hcount'.
  replace (Z.to_nat (Z.min (Z.of_nat (length new)) cache_size))
    with (Z.to_nat cache_size `min` length new)%nat by lia.
  rewrite <- take_take, Htake. reflexivity.
Qed.

Lemma NoDup_take {A} (l : list A) (n : nat) : NoDup l → NoDup (take n l).
Proof.
  intros Hl. rewrite <- (take_drop n l) in Hl.
  apply NoDup_app in Hl as [Hl _]. exact Hl.
Qed.

Lemma NoDup_new_cache a b c old :
  NoDup [a; b; c] → NoDup old → NoDup (a :: b :: c :: survivors a b c old).
Proof.
  intros Habc Hold.
  change (NoDup ([a; b; c] ++ survivors a b c old)).
  apply NoDup_app. split; [exact Habc|]. split.
  - intros x Hx Hs. unfold survivors in Hs.
    apply list_elem_of_filter in Hs as [(Ha & Hb & Hc) _].
    repeat (apply elem_of_cons in Hx as [->|Hx]; [congruence|]).
    apply elem_of_nil in Hx. exact Hx.
  - apply NoDup_filter, Hold.
Qed.

(** X8.  When no triangle of the mesh repeats a vertex, the simulated
    cache of the greedy reorderer never holds a vertex twice: at every
    loop head the first [cache_count] entries of [cache] are pairwise
    different.  [cache_count] is at most 16, and at least 3 once a
    triangle has been emitted. *)
Theorem greedy_cache_has_no_duplicates (fuel n : nat)
    (destination indices : list Z) (index_count vertex_count : Z)
    (st : vc_state) :
  valid_mesh indices index_count vertex_count →
  0 < index_count →
  index_count ≤ Z.of_nat (length destination) →
  index_count / 3 ≤ Z.of_nat fuel →
  (∀ t, 0 ≤ t < index_count / 3 → NoDup (corners indices t)) →
  vc_iterate fuel n indices (index_count / 3)
    (vc_init destination indices index_count vertex_count) = Some st →
  NoDup (cached st) ∧
  Z.of_nat (length (cached st)) = vc_cache_count st ∧
  vc_cache_count st ≤ cache_size ∧
  ((0 < n)%nat → 3 ≤ vc_cache_count st).
Proof.
  intros Hvalid Hpos Hdst Hfuel Hsimple. revert st.
  induction n as [|n IH]; intros st Hit.
  - cbn [vc_iterate] in Hit. injection Hit as <-. cbn.
    split; [constructor|]. split; [reflexivity|].
    split; [discriminate|lia].
  - pose proof Hit as Hit'. cbn [vc_iterate] in Hit.
    destruct (vc_iterate fuel n indices (index_count / 3) _) as [st'|] eqn:Hst';
      [|discriminate].
    cbn in Hit. destruct (Z.eqb_spec (vc_current_triangle st') UINT_MAX)
      as [|Hlive]; [discriminate|].
    destruct (IH st' eq_refl) as (Hnodup & Hlen & Hle & _).
    destruct (vc_iterate_order _ _ _ _ _ _ _ Hvalid Hpos Hdst Hfuel Hst')
      as (order & Hinv & _).
    pose proof (vi_core _ _ _ _ _ Hinv) as Hcore.
    destruct (vc_current_pending _ _ _ _ _ Hvalid Hinv Hlive) as (Hcur & _ & _).
    destruct (vc_step_cached _ _ _ _ _ (vi_cache_length _ _ _ _ _ Hcore)
                (vi_cache_new_length _ _ _ _ _ Hcore)
                (vi_cache_count _ _ _ _ _ Hcore) Hit) as [Hcached Hcount].
    cbn zeta in Hcached, Hcount.
    set (new := _ :: _ :: _ :: survivors _ _ _ (cached st')) in *.
    assert (NoDup new) as Hnew
      by (apply NoDup_new_cache; [apply (Hsimple _ Hcur)|exact Hnodup]).
    split; [rewrite Hcached; apply NoDup_take, Hnew|].
    split; [rewrite Hcached, length_take, Hcount; lia|].
    split; [lia|]. intros _. rewrite Hcount. subst new. cbn [length].
    unfold cache_size. lia.
Qed.

Lemma greedy_cache_has_no_duplicates_witness :
  let st := default (vc_init (replicate 6 0) quad 6 4)
              (vc_iterate 2 1 quad (6 / 3) (vc_init (replicate 6 0) quad 6 4)) in
  NoDup (cached st) ∧
  Z.of_nat (length (cached st)) = vc_cache_count st ∧
  vc_cache_count st ≤ cache_size ∧
  ((0 < 1)%nat → 3 ≤ vc_cache_count st).
Proof.
  apply (greedy_cache_has_no_duplicates 2 1 (replicate 6 0) quad 6 4).
  - apply valid_meshb_spec. reflexivity.
  - lia.
  - cbn. lia.
  - vm_compute. discriminate.
  - intros t Ht. assert (t = 0 ∨ t = 1) as [-> | ->]
      by (change (6 / 3) with 2 in Ht; lia);
      apply (bool_decide_unpack _); vm_compute; exact I.
  - vm_compute. reflexivity.
Defined.

(** ** The vertex scores of the greedy loop *)

Lemma sweep_triangle_scores tri score_diff acc :
  (sweep_triangle tri score_diff acc).1.1.1 = acc.1.1.1.
Proof.
  destruct acc as [[[vs ts] bt] bs]. unfold sweep_triangle.
  destruct (flt _ _); reflexivity.
Qed.

(** One round of the sweep stores the score of one cache entry. *)
Lemma sweep_vertex_scores adj live cache i acc :
  (sweep_vertex adj live cache i acc).1.1.1 =
  wr acc.1.1.1 (rd cache i)
    (vertexScore (if i >=? cache_size then -1 else i) (rd live (rd cache i))).
Proof.
  destruct acc as [[[vs ts] bt] bs]. unfold sweep_vertex. cbn [fst].
  apply (for_loop_ind (λ _ acc', acc'.1.1.1 = wr vs _ _)); [reflexivity|].
  intros k acc' _ Hacc'. rewrite sweep_triangle_scores. exact Hacc'.
Qed.

(** The scores after the sweep over a list of [cache_write] different
    vertices: each of them has the score of its position, the others keep
    theirs. *)
Lemma sweep_scores adj live cache cache_write vs ts vertex_count :
  Z.of_nat (length vs) = vertex_count →
  (∀ i, 0 ≤ i < cache_write → 0 ≤ rd cache i < vertex_count) →
  (∀ i j, 0 ≤ i < j → j < cache_write → rd cache i ≠ rd cache j) →
  let vs' := (sweep adj live cache cache_write vs ts).1.1.1 in
  Z.of_nat (length vs') = vertex_count ∧
  (∀ i, 0 ≤ i < cache_write →
     rd vs' (rd cache i) =
     vertexScore (if i >=? cache_size then -1 else i) (rd live (rd cache i))) ∧
  (∀ v, 0 ≤ v → (∀ i, 0 ≤ i < cache_write → rd cache i ≠ v) →
     rd vs' v = rd vs v).
Proof.
  intros Hlen Hrange Hdiff. unfold sweep.
  enough (Z.of_nat (length (for_loop (Z.to_nat cache_write)
                      (sweep_vertex adj live cache)
                      (vs, ts, UINT_MAX, fzero)).1.1.1) = vertex_count ∧
          (∀ i, 0 ≤ i < Z.of_nat (Z.to_nat cache_write) →
             rd (for_loop (Z.to_nat cache_write) (sweep_vertex adj live cache)
                   (vs, ts, UINT_MAX, fzero)).1.1.1 (rd cache i) =
             vertexScore (if i >=? cache_size then -1 else i)
               (rd live (rd cache i))) ∧
          (∀ v, 0 ≤ v →
             (∀ i, 0 ≤ i < Z.of_nat (Z.to_nat cache_write) → rd cache i ≠ v) →
             rd (for_loop (Z.to_nat cache_write) (sweep_vertex adj live cache)
                   (vs, ts, UINT_MAX, fzero)).1.1.1 v = rd vs v))
    as (Hl & Hin & Hout).
  { split; [exact Hl|]. split.
    - intros i Hi. apply Hin. lia.
    - intros v Hv Hnot. apply Hout; [exact Hv|]. intros i Hi. apply Hnot. lia. }
  apply (for_loop_ind (λ n acc,
           Z.of_nat (length acc.1.1.1) = vertex_count ∧
           (∀ i, 0 ≤ i < Z.of_nat n →
              rd acc.1.1.1 (rd cache i) =
              vertexScore (if i >=? cache_size then -1 else i)
                (rd live (rd cache i))) ∧
           (∀ v, 0 ≤ v → (∀ i, 0 ≤ i < Z.of_nat n → rd cache i ≠ v) →
              rd acc.1.1.1 v = rd vs v))).
  - cbn [fst]. split; [exact Hlen|]. split; [intros; lia|].
    reflexivity.
  - intros n acc Hn (Hl & Hin & Hout).
    rewrite sweep_vertex_scores.
    pose proof (Hrange (Z.of_nat n) ltac:(lia)) as Hn'.
    split; [rewrite length_wr; exact Hl|]. split.
    + intros i Hi. destruct (decide (i = Z.of_nat n)) as [->|Hne].
      * rewrite rd_wr_eq by lia. reflexivity.
      * pose proof (Hrange i ltac:(lia)).
        rewrite rd_wr_ne; [apply Hin; lia|lia|lia|].
        intros Heq. apply (Hdiff i (Z.of_nat n)); [lia|lia|congruence].
    + intros v Hv Hnot.
      rewrite rd_wr_ne; [apply Hout; [exact Hv|]|lia|lia|].
      * intros i Hi. apply Hnot. lia.
      * apply Hnot. lia.
Qed.

Lemma vc_init_scores destination indices index_count vertex_count :
  let st := vc_init destination indices index_count vertex_count in
  Z.of_nat (length (vc_vertex_scores st)) = Z.of_nat (Z.to_nat vertex_count) ∧
  ∀ v, 0 ≤ v < vertex_count →
    rd (vc_vertex_scores st) v = vertexScore (-1) (rd (vc_live_triangles st) v).
Proof.
  cbn [vc_init vc_vertex_scores vc_live_triangles].
  set (live := triangle_counts _).
  enough (Z.of_nat (length (for_loop (Z.to_nat vertex_count)
                      (λ i vs, wr vs i (vertexScore (-1) (rd live i)))
                      (replicate (Z.to_nat vertex_count) fzero)))
          = Z.of_nat (Z.to_nat vertex_count) ∧
          ∀ v, 0 ≤ v < Z.of_nat (Z.to_nat vertex_count) →
            rd (for_loop (Z.to_nat vertex_count)
                  (λ i vs, wr vs i (vertexScore (-1) (rd live i)))
                  (replicate (Z.to_nat vertex_count) fzero)) v
            = vertexScore (-1) (rd live v)) as [Hl Hrd].
  { split; [exact Hl|]. intros v Hv. apply Hrd. lia. }
  apply (for_loop_ind (λ n vs,
           Z.of_nat (length vs) = Z.of_nat (Z.to_nat vertex_count) ∧
           ∀ v, 0 ≤ v < Z.of_nat n →
             rd vs v = vertexScore (-1) (rd live v))).
  - split; [rewrite length_replicate; reflexivity|intros; lia].
  - intros n vs Hn [Hl Hrd]. split; [rewrite length_wr; exact Hl|].
    intros v Hv. destruct (decide (v = Z.of_nat n)) as [->|Hne].
    + rewrite rd_wr_eq by lia. reflexivity.
    + rewrite rd_wr_ne by lia. apply Hrd. lia.
Qed.

(** The fields an iteration leaves, from the result of its cache update. *)
Lemma vc_step_fields fuel indices face_count st st' cache' cache_new'
    count' cache_write :
  let cur := vc_current_triangle st in
  let a := rd indices (cur * 3 + 0) in
  let b := rd indices (cur * 3 + 1) in
  let c := rd indices (cur * 3 + 2) in
  cache_update (vc_cache st) (vc_cache_new st) (vc_cache_count st) a b c
    = (cache', cache_new', count', cache_write) →
  vc_step fuel indices face_count st = Some st' →
  vc_cache st' = cache' ∧ vc_cache_count st' = count' ∧
  vc_live_triangles st' = decr (decr (decr (vc_live_triangles st) a) b) c ∧
  vc_vertex_scores st' =
    (sweep (remove_emitted (vc_adjacency st) indices cur)
       (decr (decr (decr (vc_live_triangles st) a) b) c) cache' cache_write
       (vc_vertex_scores st) (wr (vc_triangle_scores st) cur fzero)).1.1.1.
Proof.
  intros cur a b c Hupd Hstep. unfold vc_step, vc_emit in Hstep.
  fold cur a b c in Hstep. rewrite Hupd in Hstep.
  cbn [vc_adjacency vc_live_triangles vc_cache vc_vertex_scores
       vc_triangle_scores vc_input_cursor vc_emitted_flags vc_cache_new
       vc_cache_count vc_output_triangle vc_destination] in Hstep.
  destruct (sweep _ _ _ _ _ _) as [[[vs ts] bt] bs].
  destruct (if bt =? UINT_MAX then _ else _) as [[cur' cursor]|];
    [|discriminate].
  cbn in Hstep. injection Hstep as <-. cbn. auto.
Qed.

Lemma decr3_other l a b c v :
  0 ≤ a → 0 ≤ b → 0 ≤ c → 0 ≤ v → v ≠ a → v ≠ b → v ≠ c →
  rd (decr (decr (decr l a) b) c) v = rd l v.
Proof.
  intros Ha Hb Hc Hv Hna Hnb Hnc. unfold decr.
  rewrite !rd_wr_ne by lia. reflexivity.
Qed.

(** X9.  When no triangle of the mesh repeats a vertex, the vertex scores
    of the greedy reorderer are current at every loop head: the vertex at
    position [i] of the cache list has the score
    [vertexScore(i, live_triangles[v])], and every vertex that is not in
    the cache list, whether it never was or has been pushed out of its 16
    entries, has the score [vertexScore(-1, live_triangles[v])].  (The
    proof carries along that the cache list has no duplicates.) *)
Theorem greedy_vertex_scores_are_current (fuel n : nat)
    (destination indices : list Z) (index_count vertex_count : Z)
    (st : vc_state) :
  valid_mesh indices index_count vertex_count →
  0 < index_count →
  index_count ≤ Z.of_nat (length destination) →
  index_count / 3 ≤ Z.of_nat fuel →
  (∀ t, 0 ≤ t < index_count / 3 → NoDup (corners indices t)) →
  vc_iterate fuel n indices (index_count / 3)
    (vc_init destination indices index_count vertex_count) = Some st →
  Z.of_nat (length (vc_vertex_scores st)) = vertex_count ∧
  NoDup (cached st) ∧
  (∀ i, 0 ≤ i < vc_cache_count st →
     rd (vc_vertex_scores st) (rd (vc_cache st) i) =
     vertexScore i (rd (vc_live_triangles st) (rd (vc_cache st) i))) ∧
  (∀ v, 0 ≤ v < vertex_count → v ∉ cached st →
     rd (vc_vertex_scores st) v =
     vertexScore (-1) (rd (vc_live_triangles st) v)).
Proof.
  intros Hvalid Hpos Hdst Hfuel Hsimple. revert st.
  pose proof (vm_vpos _ _ _ Hvalid) as Hvpos.
  induction n as [|n IH]; intros st Hit.
  - cbn [vc_iterate] in Hit. injection Hit as <-.
    destruct (vc_init_scores destination indices index_count vertex_count)
      as [Hl Hrd].
    split; [lia|]. split; [constructor|].
    split; [cbn; intros; lia|]. intros v Hv _. apply Hrd, Hv.
  - cbn [vc_iterate] in Hit.
    destruct (vc_iterate fuel n indices (index_count / 3) _) as [st'|] eqn:Hst';
      [|discriminate].
    cbn in Hit. destruct (Z.eqb_spec (vc_current_triangle st') UINT_MAX)
      as [|Hlive]; [discriminate|].
    destruct (IH st' eq_refl) as (Hlen & Hnodup & Hin & Hout).
    destruct (vc_iterate_order _ _ _ _ _ _ _ Hvalid Hpos Hdst Hfuel Hst')
      as (order & Hinv & _).
    pose proof (vi_core _ _ _ _ _ Hinv) as Hcore.
    destruct (vc_current_pending _ _ _ _ _ Hvalid Hinv Hlive) as (Hcur & _ & _).
    pose proof (vi_cache_count _ _ _ _ _ Hcore) as Hcount.
    pose proof (vi_cache_length _ _ _ _ _ Hcore) as Hclen.
    set (cur := vc_current_triangle st') in *.
    set (a := rd indices (cur * 3 + 0)).
    set (b := rd indices (cur * 3 + 1)).
    set (c := rd indices (cur * 3 + 2)).
    assert (0 ≤ a < vertex_count ∧ 0 ≤ b < vertex_count ∧
            0 ≤ c < vertex_count) as (Ha & Hb & Hc).
    { repeat split;
        apply (corners_range _ _ _ cur _ Hvalid Hcur); unfold corners;
        fold a b c; repeat constructor. }
    destruct (cache_update_spec (vc_cache st') (vc_cache_new st')
                (vc_cache_count st') a b c Hcount
                ltac:(unfold cache_slots, max_cache_size, cache_size in *; lia)
                (vi_cache_new_length _ _ _ _ _ Hcore))
      as (cache' & Hupd & Hlen' & Htake).
    fold (cached st') in Hupd, Htake.
    set (new := a :: b :: c :: survivors a b c (cached st')) in *.
    destruct (vc_step_fields _ _ _ _ _ _ _ _ _ Hupd Hit)
      as (Hcache & Hcnt & Hlive' & Hscores).
    fold cur a b c in Hlive', Hscores.
    assert (NoDup new) as Hnew.
    { apply NoDup_new_cache; [|exact Hnodup].
      apply (Hsimple _ Hcur). }
    assert (∀ i, 0 ≤ i < Z.of_nat (length new) →
              new !! Z.to_nat i = Some (rd cache' i)) as Hentry.
    { intros i Hi. rewrite <- Htake. rewrite lookup_take_lt by lia.
      apply list_lookup_lookup_total_lt.
      apply (f_equal length) in Htake. rewrite length_take in Htake. lia. }
    assert (∀ v, v ∈ new → 0 ≤ v < vertex_count) as Hnewrange.
    { intros v Hv. subst new.
      repeat (apply elem_of_cons in Hv as [->|Hv]; [assumption|]).
      apply list_elem_of_filter in Hv as [_ Hv].
      apply elem_of_take_rd in Hv as (j & Hj & <-).
      apply (vi_cache_range _ _ _ _ _ Hcore). lia. }
    destruct (sweep_scores
                (remove_emitted (vc_adjacency st') indices cur)
                (decr (decr (decr (vc_live_triangles st') a) b) c)
                cache' (Z.of_nat (length new)) (vc_vertex_scores st')
                (wr (vc_triangle_scores st') cur fzero) vertex_count Hlen)
      as (Hl2 & Hin2 & Hout2).
    { intros i Hi. apply Hnewrange.
      apply list_elem_of_lookup_2 with (Z.to_nat i), Hentry, Hi. }
    { intros i j Hij Hj Heq.
      pose proof (Hentry i ltac:(lia)) as Hi'.
      pose proof (Hentry j ltac:(lia)) as Hj'.
      rewrite Heq in Hi'.
      pose proof (NoDup_lookup _ _ _ _ Hnew Hi' Hj'). lia. }
    rewrite <- Hscores in Hl2, Hin2, Hout2.
    rewrite <- Hlive' in Hin2.
    assert (cached st = take (Z.to_nat cache_size) new) as Hcached.
    { unfold cached. rewrite Hcache, Hcnt.
      destruct (Z.gtb_spec (Z.of_nat (length new)) cache_size).
      - rewrite <- Htake, take_take. f_equal. lia.
      - rewrite Nat2Z.id, Htake. rewrite take_ge by lia. reflexivity. }
    assert (vc_cache_count st ≤ Z.of_nat (length new) ∧
            vc_cache_count st ≤ cache_size) as [Hcl Hcs].
    { rewrite Hcnt.
      destruct (Z.gtb_spec (Z.of_nat (length new)) cache_size); lia. }
    split; [exact Hl2|].
    split; [rewrite Hcached; apply NoDup_take, Hnew|]. split.
    + intros i Hi. rewrite Hcache.
      rewrite (Hin2 i ltac:(lia)).
      destruct (Z.geb_spec i cache_size); [lia|reflexivity].
    + intros v Hv Hnot.
      destruct (decide (v ∈ new)) as [Hvin|Hvout].
      * apply list_elem_of_lookup in Hvin as [j Hj].
        pose proof (lookup_lt_Some _ _ _ Hj) as Hjlt.
        pose proof (Hentry (Z.of_nat j) ltac:(lia)) as Hj'.
        rewrite Nat2Z.id, Hj in Hj'. injection Hj' as Hv'.
        assert (cache_size ≤ Z.of_nat j) as Hfar.
        { destruct (Z.lt_ge_cases (Z.of_nat j) cache_size) as [Hlt|]; [|lia].
          exfalso. apply Hnot. rewrite Hcached.
          apply list_elem_of_lookup. exists j.
          rewrite lookup_take_lt by lia. exact Hj. }
        rewrite Hv'. rewrite (Hin2 (Z.of_nat j) ltac:(lia)).
        destruct (Z.geb_spec (Z.of_nat j) cache_size); [reflexivity|lia].
      * assert (v ≠ a ∧ v ≠ b ∧ v ≠ c ∧ v ∉ cached st')
          as (Hna & Hnb & Hnc & Hnold).
        { subst new. rewrite !not_elem_of_cons in Hvout.
          destruct Hvout as (Hna & Hnb & Hnc & Hns).
          repeat (split; [assumption|]).
          intros Hold. apply Hns. apply list_elem_of_filter. auto. }
        rewrite Hout2.
        -- rewrite (Hout v Hv Hnold), Hlive'.
           rewrite decr3_other by lia. reflexivity.
        -- lia.
        -- intros i Hi Heq. apply Hvout. rewrite <- Heq.
           apply list_elem_of_lookup_2 with (Z.to_nat i), Hentry, Hi.
Qed.

Lemma greedy_vertex_scores_are_current_witness :
  let st := default (vc_init (replicate 6 0) quad 6 4)
              (vc_iterate 2 1 quad (6 / 3) (vc_init (replicate 6 0) quad 6 4)) in
  Z.of_nat (length (vc_vertex_scores st)) = 4 ∧
  NoDup (cached st) ∧
  (∀ i, 0 ≤ i < vc_cache_count st →
     rd (vc_vertex_scores st) (rd (vc_cache st) i) =
     vertexScore i (rd (vc_live_triangles st) (rd (vc_cache st) i))) ∧
  (∀ v, 0 ≤ v < 4 → v ∉ cached st →
     rd (vc_vertex_scores st) v =
     vertexScore (-1) (rd (vc_live_triangles st) v)).
Proof.
  apply (greedy_vertex_scores_are_current 2 1 (replicate 6 0) quad 6 4).
  - apply valid_meshb_spec. reflexivity.
  - lia.
  - cbn. lia.
  - vm_compute. discriminate.
  - intros t Ht. assert (t = 0 ∨ t = 1) as [-> | ->]
      by (change (6 / 3) with 2 in Ht; lia);
      apply (bool_decide_unpack _); vm_compute; exact I.
  - vm_compute. reflexivity.
Defined.

(** ** The live counts of the greedy loop *)

Lemma vc_step_flags fuel indices face_count st st' :
  vc_step fuel indices face_count st = Some st' →
  vc_emitted_flags st' = wr (vc_emitted_flags st) (vc_current_triangle st) true ∧
  vc_live_triangles st' =
    decr (decr (decr (vc_live_triangles st)
                  (rd indices (vc_current_triangle st * 3 + 0)))
            (rd indices (vc_current_triangle st * 3 + 1)))
      (rd indices (vc_current_triangle st * 3 + 2)).
Proof.
  intros Hstep. unfold vc_step, vc_emit in Hstep.
  destruct (cache_update _ _ _ _ _ _) as [[[cache' cache_new'] count'] cw].
  cbn [vc_adjacency vc_live_triangles vc_cache vc_vertex_scores
       vc_triangle_scores vc_input_cursor vc_emitted_flags vc_cache_new
       vc_cache_count vc_output_triangle vc_destination] in Hstep.
  destruct (sweep _ _ _ _ _ _) as [[[vs ts] bt] bs].
  destruct (if bt =? UINT_MAX then _ else _) as [[cur' cursor]|];
    [|discriminate].
  cbn in Hstep. injection Hstep as <-. cbn. auto.
Qed.

(** The live counts at a loop head count the corners of the triangles
    that are not emitted yet. *)
Lemma vc_iterate_live fuel n destination indices index_count vertex_count st :
  valid_mesh indices index_count vertex_count →
  0 < index_count →
  index_count ≤ Z.of_nat (length destination) →
  index_count / 3 ≤ Z.of_nat fuel →
  vc_iterate fuel n indices (index_count / 3)
    (vc_init destination indices index_count vertex_count) = Some st →
  Z.of_nat (length (vc_live_triangles st)) = vertex_count ∧
  ∀ v, 0 ≤ v < vertex_count →
    rd (vc_live_triangles st) v =
    live_sum indices (vc_emitted_flags st) (index_count / 3) v.
Proof.
  intros Hvalid Hpos Hdst Hfuel.
  destruct (valid_mesh_faces _ _ _ Hvalid) as [Hic HF].
  pose proof (vm_u32 _ _ _ Hvalid) as Hsmall.
  revert st. induction n as [|n IH]; intros st Hit; cbn [vc_iterate] in Hit.
  - injection Hit as <-.
    pose proof (buildAdjacency_spec _ _ _ Hvalid) as Hbuilt.
    cbn [vc_init vc_live_triangles vc_emitted_flags].
    split; [apply (ab_counts_length _ _ _ _ Hbuilt)|].
    intros v Hv. rewrite (ab_counts _ _ _ _ Hbuilt) by exact Hv.
    replace (Z.to_nat index_count) with (3 * Z.to_nat (index_count / 3))%nat
      by lia.
    rewrite uses_sum_corners. unfold live_sum. apply zsum_upto_ext.
    intros t Ht. unfold listing, pending.
    destruct (Z.leb_spec 0 t); [|lia].
    destruct (Z.ltb_spec t (index_count / 3)); [|lia].
    rewrite rd_replicate by lia. reflexivity.
  - destruct (vc_iterate fuel n indices (index_count / 3) _) as [st'|] eqn:Hst';
      [|discriminate].
    cbn in Hit. destruct (Z.eqb_spec (vc_current_triangle st') UINT_MAX)
      as [|Hlive]; [discriminate|].
    destruct (IH st' eq_refl) as [Hlen Hsum].
    destruct (vc_iterate_order _ _ _ _ _ _ _ Hvalid Hpos Hdst Hfuel Hst')
      as (order & Hinv & _).
    pose proof (vi_core _ _ _ _ _ Hinv) as Hcore.
    destruct (vc_current_pending _ _ _ _ _ Hvalid Hinv Hlive)
      as (Hcur & Hnew & _).
    destruct (vc_step_flags _ _ _ _ _ Hit) as [-> ->].
    set (cur := vc_current_triangle st') in *.
    pose proof (λ v, corners_range _ _ _ cur v Hvalid Hcur) as Hcorners.
    unfold corners in Hcorners.
    set (a := rd indices (cur * 3 + 0)) in *.
    set (b := rd indices (cur * 3 + 1)) in *.
    set (c := rd indices (cur * 3 + 2)) in *.
    assert (0 ≤ a < vertex_count) as Ha by (apply Hcorners; repeat constructor).
    assert (0 ≤ b < vertex_count) as Hb by (apply Hcorners; repeat constructor).
    assert (0 ≤ c < vertex_count) as Hc by (apply Hcorners; repeat constructor).
    assert (pending (vc_emitted_flags st') (index_count / 3) cur = true)
      as Hpend by (apply pending_spec; auto).
    pose proof (vi_emitted_length _ _ _ _ _ Hcore) as Helen.
    split; [rewrite !length_decr; exact Hlen|].
    intros v Hv. rewrite live_sum_emit by lia.
    unfold listing at 1. rewrite Hpend. rewrite <- Hsum by exact Hv.
    apply decr3_spec; try lia.
    intros w Hw. rewrite Hsum by (apply Hcorners, Hw).
    pose proof (live_sum_bounds indices (vc_emitted_flags st')
                  (index_count / 3) w HF).
    split; [|lia].
    change (occ w [a; b; c]) with (occ w (corners indices cur)).
    replace (occ w (corners indices cur))
      with (listing indices (vc_emitted_flags st') (index_count / 3) w cur)
      by (unfold listing; rewrite Hpend; reflexivity).
    unfold live_sum.
    apply (zsum_upto_term_le
             (λ u, Z.of_nat (listing indices (vc_emitted_flags st')
                               (index_count / 3) w u))); [intros; lia|lia].
Qed.

(** X10.  At every loop head of the greedy reorderer [live_triangles[v]]
    is the number of corners of not yet emitted triangles that are [v];
    in particular it never wraps below zero, and when the loop ends every
    live count is zero. *)
Theorem greedy_live_counts_pending_corners (fuel n : nat)
    (destination indices : list Z) (index_count vertex_count : Z)
    (st : vc_state) :
  valid_mesh indices index_count vertex_count →
  0 < index_count →
  index_count ≤ Z.of_nat (length destination) →
  index_count / 3 ≤ Z.of_nat fuel →
  vc_iterate fuel n indices (index_count / 3)
    (vc_init destination indices index_count vertex_count) = Some st →
  Z.of_nat (length (vc_live_triangles st)) = vertex_count ∧
  (∀ v, 0 ≤ v < vertex_count →
     rd (vc_live_triangles st) v =
     live_sum indices (vc_emitted_flags st) (index_count / 3) v) ∧
  (vc_current_triangle st = UINT_MAX →
   ∀ v, 0 ≤ v < vertex_count → rd (vc_live_triangles st) v = 0).
Proof.
  intros Hvalid Hpos Hdst Hfuel Hit.
  destruct (valid_mesh_faces _ _ _ Hvalid) as [Hic HF].
  pose proof (vm_u32 _ _ _ Hvalid) as Hsmall.
  destruct (vc_iterate_live _ _ _ _ _ _ _ Hvalid Hpos Hdst Hfuel Hit)
    as [Hlen Hsum].
  split; [exact Hlen|]. split; [exact Hsum|].
  intros Hend v Hv. rewrite Hsum by exact Hv.
  destruct (vc_iterate_order _ _ _ _ _ _ _ Hvalid Hpos Hdst Hfuel Hit)
    as (order & Hinv & _).
  unfold live_sum. apply zsum_upto_zero. intros t Ht.
  rewrite listing_zero_emitted; [reflexivity|].
  destruct (vi_current _ _ _ _ _ Hinv) as [[_ Hcur]|[Hcur _]];
    [|unfold UINT_MAX in *; lia].
  destruct (vi_skipped _ _ _ _ _ Hinv t ltac:(lia)) as [Hem|Habs];
    [exact Hem|].
  rewrite Hend in Habs. unfold UINT_MAX in Habs. lia.
Qed.

Lemma greedy_live_counts_pending_corners_witness :
  let st := default (vc_init (replicate 6 0) quad 6 4)
              (vc_iterate 2 2 quad (6 / 3) (vc_init (replicate 6 0) quad 6 4)) in
  Z.of_nat (length (vc_live_triangles st)) = 4 ∧
  (∀ v, 0 ≤ v < 4 →
     rd (vc_live_triangles st) v =
     live_sum quad (vc_emitted_flags st) (6 / 3) v) ∧
  (vc_current_triangle st = UINT_MAX →
   ∀ v, 0 ≤ v < 4 → rd (vc_live_triangles st) v = 0).
Proof.
  apply (greedy_live_counts_pending_corners 2 2 (replicate 6 0) quad 6 4).
  - apply valid_meshb_spec. reflexivity.
  - lia.
  - cbn. lia.
  - vm_compute. discriminate.
  - vm_compute. reflexivity.
Defined.

(** * Further properties of the FIFO loop *)

(** The state at the head of the FIFO main loop after [n] complete
    iterations, when the loop runs that long. *)
Fixpoint ff_iterate (fuel n : nat) (adjacency : Adjacency) (indices : list Z)
    (vertex_count cache_size : Z) (st : ff_state) : option ff_state :=
  match n with
  | O => Some st
  | S n' =>
      st' ← ff_iterate fuel n' adjacency indices vertex_count cache_size st;
      if ff_current_vertex st' =? UINT_MAX then None
      else ff_step fuel adjacency indices vertex_count cache_size st'
  end.

Lemma ff_iterate_shift fuel k adj indices vertex_count cache_size st :
  ff_iterate fuel (S k) adj indices vertex_count cache_size st =
  if ff_current_vertex st =? UINT_MAX then None
  else st1 ← ff_step fuel adj indices vertex_count cache_size st;
       ff_iterate fuel k adj indices vertex_count cache_size st1.
Proof.
  induction k as [|k IH].
  - cbn. destruct (_ =? _); [reflexivity|].
    destruct (ff_step fuel adj indices vertex_count cache_size st); reflexivity.
  - change (ff_iterate fuel (S (S k)) adj indices vertex_count cache_size st)
      with
      (st' ← ff_iterate fuel (S k) adj indices vertex_count cache_size st;
       if ff_current_vertex st' =? UINT_MAX then None
       else ff_step fuel adj indices vertex_count cache_size st').
    rewrite IH. destruct (ff_current_vertex st =? UINT_MAX); [reflexivity|].
    destruct (ff_step fuel adj indices vertex_count cache_size st) as [st1|];
      reflexivity.
Qed.

(** The loop returns the state of the first loop head without a current
    vertex. *)
Lemma ff_loop_iterate fuel adj indices vertex_count cache_size :
  ∀ n st0 st,
    ff_loop fuel n adj indices vertex_count cache_size st0 = Some st →
    ∃ k, (k ≤ n)%nat ∧
         ff_iterate fuel k adj indices vertex_count cache_size st0 = Some st ∧
         ff_current_vertex st = UINT_MAX.
Proof.
  induction n as [|n IH]; intros st0 st Hloop; cbn [ff_loop] in Hloop;
    destruct (Z.eqb_spec (ff_current_vertex st0) UINT_MAX) as [Hend|Hlive];
    try (injection Hloop as <-; exists O; split; [lia|split; [reflexivity|
           exact Hend]]); [discriminate|].
  destruct (ff_step fuel adj indices vertex_count cache_size st0) as [st1|]
    eqn:Hstep; [|discriminate].
  cbn in Hloop. destruct (IH st1 st Hloop) as (k & Hk & Hit & Hend).
  exists (S k). split; [lia|]. split; [|exact Hend].
  rewrite ff_iterate_shift.
  destruct (Z.eqb_spec (ff_current_vertex st0) UINT_MAX); [contradiction|].
  rewrite Hstep. exact Hit.
Qed.

(** The invariant at every loop head; from the second loop head on the
    current vertex has a live triangle, so that each iteration but the
    first emits at least one triangle. *)
Lemma ff_iterate_inv fuel n destination indices index_count vertex_count
    cache_size st :
  valid_mesh indices index_count vertex_count →
  vertex_count < 4294967296 →
  0 < index_count →
  index_count ≤ Z.of_nat (length destination) →
  index_count ≤ Z.of_nat fuel → vertex_count ≤ Z.of_nat fuel →
  let adj := buildAdjacency (Adjacency_new index_count vertex_count) indices
               index_count vertex_count in
  ff_iterate fuel n adj indices vertex_count cache_size
    (ff_init adj destination index_count vertex_count cache_size) = Some st →
  ∃ order,
    ff_inv indices index_count vertex_count order st ∧
    (n ≤ S (length order))%nat ∧
    ((0 < n)%nat →
     ff_current_vertex st = UINT_MAX ∨
     0 < rd (ff_live_triangles st) (ff_current_vertex st)).
Proof.
  intros Hvalid HV Hpos Hdst Hfuel Hfuel' adj.
  pose proof (built_adj_ok _ _ _ _ Hvalid (buildAdjacency_spec _ _ _ Hvalid))
    as Hok. fold (all_listed indices (index_count / 3)) in Hok. fold adj in Hok.
  revert st. induction n as [|n IH]; intros st Hit; cbn [ff_iterate] in Hit.
  - injection Hit as <-. exists []. split; [|split; [cbn; lia|lia]].
    apply ff_init_inv; assumption.
  - destruct (ff_iterate fuel n adj indices vertex_count cache_size _)
      as [st'|] eqn:Hst'; [|discriminate].
    cbn in Hit. destruct (Z.eqb_spec (ff_current_vertex st') UINT_MAX)
      as [|Hlive]; [discriminate|].
    destruct (IH st' eq_refl) as (order & Hinv & Hn & Hgo).
    destruct (ff_step_spec _ _ _ cache_size _ _ _ _ fuel Hvalid HV Hok Hinv
                Hlive Hfuel Hfuel')
      as (st1 & order1 & Hstep & Hinv1 & Hgrow & Hprog & Hgo1 & _).
    rewrite Hstep in Hit. injection Hit as <-.
    exists order1. split; [exact Hinv1|]. split; [|intros _; exact Hgo1].
    destruct n as [|n]; [lia|].
    destruct (Hgo ltac:(lia)) as [Habs|Hposl]; [contradiction|].
    specialize (Hprog Hposl). lia.
Qed.

(** X11.  On a valid, non-empty mesh the main loop of
    [meshopt_optimizeVertexCacheFifo] ends after at most [face_count + 1]
    iterations (every iteration after the first emits a triangle), for
    every cache size.  It ends with no current vertex, with
    [output_triangle == face_count] (the closing assertion), with
    [input_cursor == vertex_count], every triangle flagged as emitted and
    every live count at zero. *)
Theorem fifo_loop_ends_within_face_count_plus_one (fuel : nat)
    (destination indices : list Z)
    (index_count vertex_count cache_size : Z) :
  valid_mesh indices index_count vertex_count →
  vertex_count < 4294967296 →
  0 < index_count →
  index_count ≤ Z.of_nat (length destination) →
  index_count + vertex_count + 2 ≤ Z.of_nat fuel →
  let adj := buildAdjacency (Adjacency_new index_count vertex_count) indices
               index_count vertex_count in
  let st0 := ff_init adj destination index_count vertex_count cache_size in
  ∃ k st,
    Z.of_nat k ≤ index_count / 3 + 1 ∧
    ff_iterate fuel k adj indices vertex_count cache_size st0 = Some st ∧
    ff_loop fuel fuel adj indices vertex_count cache_size st0 = Some st ∧
    ff_current_vertex st = UINT_MAX ∧
    ff_output_triangle st = index_count / 3 ∧
    ff_input_cursor st = vertex_count ∧
    (∀ t, 0 ≤ t < index_count / 3 → rd (ff_emitted_flags st) t = true) ∧
    (∀ v, 0 ≤ v < vertex_count → rd (ff_live_triangles st) v = 0).
Proof.
  intros Hvalid HV Hpos Hdst Hfuel adj st0.
  destruct (valid_mesh_faces _ _ _ Hvalid) as [Hic HF].
  pose proof (vm_vpos _ _ _ Hvalid) as Hvpos.
  destruct (ff_run_spec destination indices index_count vertex_count
              cache_size fuel Hvalid HV Hpos Hdst Hfuel)
    as (st & _ & Hloop & Hend & Hout & _).
  fold adj st0 in Hloop.
  destruct (ff_loop_iterate _ _ _ _ _ _ _ _ Hloop) as (k & _ & Hit & _).
  destruct (ff_iterate_inv fuel k destination indices index_count
              vertex_count cache_size st Hvalid HV Hpos Hdst
              ltac:(lia) ltac:(lia) Hit) as (order & Hinv & Hk & _).
  destruct Hinv as [Hcore Hcursor Hskipped Hcurrent].
  pose proof (nodup_bounded _ _ HF (fi_order_nodup _ _ _ _ _ Hcore)
                (fi_order_range _ _ _ _ _ Hcore)) as Hbound.
  destruct Hcurrent as [[_ Hcur]|Hcur]; [|unfold UINT_MAX in *; lia].
  assert (∀ v, 0 ≤ v < vertex_count → rd (ff_live_triangles st) v = 0)
    as Hzero.
  { intros v Hv. destruct (Hskipped v ltac:(lia)) as [Hz|Habs]; [exact Hz|].
    rewrite Hend in Habs. unfold UINT_MAX in Habs. lia. }
  exists k, st. split; [lia|]. split; [exact Hit|]. split; [exact Hloop|].
  split; [exact Hend|]. split; [exact Hout|]. split; [exact Hcur|].
  split; [|exact Hzero].
  intros t Ht.
  destruct (rd (ff_emitted_flags st) t) eqn:Hem; [reflexivity|exfalso].
  pose proof (vm_range _ _ _ Hvalid (t * 3 + 0) ltac:(lia)) as Ha.
  pose proof (Hzero _ Ha) as Hz.
  rewrite (fi_live _ _ _ _ _ Hcore) in Hz by exact Ha.
  assert (Z.of_nat (listing indices (ff_emitted_flags st)
                      (index_count / 3) (rd indices (t * 3 + 0)) t)
          ≤ live_sum indices (ff_emitted_flags st) (index_count / 3)
              (rd indices (t * 3 + 0))) as Hle.
  { unfold live_sum.
    apply (zsum_upto_term_le
             (λ u, Z.of_nat (listing indices (ff_emitted_flags st)
                      (index_count / 3) (rd indices (t * 3 + 0)) u)));
      [intros; lia|lia]. }
  unfold listing in Hle.
  assert (pending (ff_emitted_flags st) (index_count / 3) t = true)
    as Hpend by (apply pending_spec; split; [lia|exact Hem]).
  rewrite Hpend in Hle. unfold corners in Hle. cbn [occ] in Hle.
  rewrite Z.eqb_refl in Hle. lia.
Qed.

Lemma fifo_loop_ends_within_face_count_plus_one_witness :
  let adj := buildAdjacency (Adjacency_new 6 4) quad 6 4 in
  let st0 := ff_init adj (replicate 6 0) 6 4 3 in
  ∃ k st,
    Z.of_nat k ≤ 6 / 3 + 1 ∧
    ff_iterate 12 k adj quad 4 3 st0 = Some st ∧
    ff_loop 12 12 adj quad 4 3 st0 = Some st ∧
    ff_current_vertex st = UINT_MAX ∧
    ff_output_triangle st = 6 / 3 ∧
    ff_input_cursor st = 4 ∧
    (∀ t, 0 ≤ t < 6 / 3 → rd (ff_emitted_flags st) t = true) ∧
    (∀ v, 0 ≤ v < 4 → rd (ff_live_triangles st) v = 0).
Proof.
  apply (fifo_loop_ends_within_face_count_plus_one 12 (replicate 6 0) quad
           6 4 3).
  - apply valid_meshb_spec. reflexivity.
  - lia.
  - lia.
  - cbn. lia.
  - lia.
Defined.

(** X12.  At every loop head of the FIFO reorderer: [live_triangles[v]]
    is the number of corners of not yet emitted triangles that are [v];
    the dead-end stack holds at most three entries per emitted triangle,
    so it stays inside its [index_count] entries, and its entries are
    vertices of the mesh; [output_triangle] is at most [face_count]; and
    every vertex below [input_cursor], the current one apart, has no live
    triangle left. *)
Theorem fifo_loop_head_invariant (fuel n : nat)
    (destination indices : list Z)
    (index_count vertex_count cache_size : Z) (st : ff_state) :
  valid_mesh indices index_count vertex_count →
  vertex_count < 4294967296 →
  0 < index_count →
  index_count ≤ Z.of_nat (length destination) →
  index_count ≤ Z.of_nat fuel → vertex_count ≤ Z.of_nat fuel →
  let adj := buildAdjacency (Adjacency_new index_count vertex_count) indices
               index_count vertex_count in
  ff_iterate fuel n adj indices vertex_count cache_size
    (ff_init adj destination index_count vertex_count cache_size) = Some st →
  (∀ v, 0 ≤ v < vertex_count →
     rd (ff_live_triangles st) v =
     live_sum indices (ff_emitted_flags st) (index_count / 3) v) ∧
  0 ≤ ff_dead_end_top st ≤ 3 * ff_output_triangle st ∧
  3 * ff_output_triangle st ≤ index_count ∧
  Z.of_nat (length (ff_dead_end st)) = index_count ∧
  (∀ i, 0 ≤ i < ff_dead_end_top st →
     0 ≤ rd (ff_dead_end st) i < vertex_count) ∧
  1 ≤ ff_input_cursor st ≤ vertex_count ∧
  (∀ v, 0 ≤ v < ff_input_cursor st →
     rd (ff_live_triangles st) v = 0 ∨ v = ff_current_vertex st).
Proof.
  intros Hvalid HV Hpos Hdst Hfuel Hfuel' adj Hit.
  destruct (valid_mesh_faces _ _ _ Hvalid) as [Hic HF].
  destruct (ff_iterate_inv fuel n destination indices index_count
              vertex_count cache_size st Hvalid HV Hpos Hdst Hfuel Hfuel' Hit)
    as (order & [Hcore Hcursor Hskipped Hcurrent] & _).
  pose proof (nodup_bounded _ _ HF (fi_order_nodup _ _ _ _ _ Hcore)
                (fi_order_range _ _ _ _ _ Hcore)) as Hbound.
  pose proof (fi_output _ _ _ _ _ Hcore) as Hout.
  pose proof (fi_stack_top _ _ _ _ _ Hcore) as Htop.
  split; [apply (fi_live _ _ _ _ _ Hcore)|].
  split; [lia|]. split; [lia|].
  split; [apply (fi_stack_length _ _ _ _ _ Hcore)|].
  split; [apply (fi_stack_range _ _ _ _ _ Hcore)|].
  split; [exact Hcursor|exact Hskipped].
Qed.

Lemma fifo_loop_head_invariant_witness :
  let adj := buildAdjacency (Adjacency_new 6 4) quad 6 4 in
  let st := default (ff_init adj (replicate 6 0) 6 4 3)
              (ff_iterate 12 1 adj quad 4 3
                 (ff_init adj (replicate 6 0) 6 4 3)) in
  (∀ v, 0 ≤ v < 4 →
     rd (ff_live_triangles st) v =
     live_sum quad (ff_emitted_flags st) (6 / 3) v) ∧
  0 ≤ ff_dead_end_top st ≤ 3 * ff_output_triangle st ∧
  3 * ff_output_triangle st ≤ 6 ∧
  Z.of_nat (length (ff_dead_end st)) = 6 ∧
  (∀ i, 0 ≤ i < ff_dead_end_top st → 0 ≤ rd (ff_dead_end st) i < 4) ∧
  1 ≤ ff_input_cursor st ≤ 4 ∧
  (∀ v, 0 ≤ v < ff_input_cursor st →
     rd (ff_live_triangles st) v = 0 ∨ v = ff_current_vertex st).
Proof.
  apply (fifo_loop_head_invariant 12 1 (replicate 6 0) quad 6 4 3).
  - apply valid_meshb_spec. reflexivity.
  - lia.
  - lia.
  - cbn. lia.
  - lia.
  - lia.
  - vm_compute. reflexivity.
Defined.

(** ** The adjacency lists of the greedy loop *)

Lemma remove_scan_offsets n i adj index cur :
  offsets (remove_scan n i adj index cur) = offsets adj.
Proof.
  revert i. induction n as [|n IH]; intros i; cbn [remove_scan];
    [reflexivity|].
  destruct (_ =? _); [reflexivity|apply IH].
Qed.

Lemma remove_emitted_offsets adj indices cur :
  offsets (remove_emitted adj indices cur) = offsets adj.
Proof.
  unfold remove_emitted, remove_triangle. cbn [for_loop].
  rewrite !remove_scan_offsets. reflexivity.
Qed.

Lemma vc_step_adjacency fuel indices face_count st st' :
  vc_step fuel indices face_count st = Some st' →
  vc_adjacency st' =
  remove_emitted (vc_adjacency st) indices (vc_current_triangle st).
Proof.
  intros Hstep. unfold vc_step, vc_emit in Hstep.
  destruct (cache_update _ _ _ _ _ _) as [[[cache' cache_new'] count'] cw].
  cbn [vc_adjacency vc_live_triangles vc_cache vc_vertex_scores
       vc_triangle_scores vc_input_cursor vc_emitted_flags vc_cache_new
       vc_cache_count vc_output_triangle vc_destination] in Hstep.
  destruct (sweep _ _ _ _ _ _) as [[[vs ts] bt] bs].
  destruct (if bt =? UINT_MAX then _ else _) as [[cur' cursor]|];
    [|discriminate].
  cbn in Hstep. injection Hstep as <-. reflexivity.
Qed.

(** X13.  At every loop head of the greedy reorderer the adjacency
    structure describes the triangles that are left: the offsets are
    those [buildAdjacency] computed, removals never move a list; the list
    of a vertex [v] holds exactly the triangles not emitted yet that
    have [v] as a corner, each as often as it has; and its length
    [triangle_counts[v]] equals [live_triangles[v]]. *)
Theorem greedy_adjacency_lists_pending_triangles (fuel n : nat)
    (destination indices : list Z) (index_count vertex_count : Z)
    (st : vc_state) :
  valid_mesh indices index_count vertex_count →
  0 < index_count →
  index_count ≤ Z.of_nat (length destination) →
  index_count / 3 ≤ Z.of_nat fuel →
  vc_iterate fuel n indices (index_count / 3)
    (vc_init destination indices index_count vertex_count) = Some st →
  offsets (vc_adjacency st) =
    offsets (buildAdjacency (Adjacency_new index_count vertex_count) indices
               index_count vertex_count) ∧
  ∀ v, 0 ≤ v < vertex_count →
    (∀ t, occ t (neighbours (vc_adjacency st) v) =
          if pending (vc_emitted_flags st) (index_count / 3) t
          then occ v (corners indices t) else O) ∧
    rd (triangle_counts (vc_adjacency st)) v = rd (vc_live_triangles st) v.
Proof.
  intros Hvalid Hpos Hdst Hfuel Hit.
  destruct (valid_mesh_faces _ _ _ Hvalid) as [Hic HF].
  split.
  { clear -Hit. revert st Hit.
    induction n as [|n IH]; intros st Hit; cbn [vc_iterate] in Hit.
    - injection Hit as <-. reflexivity.
    - destruct (vc_iterate fuel n indices (index_count / 3) _) as [st'|];
        [|discriminate].
      cbn in Hit. destruct (vc_current_triangle st' =? UINT_MAX);
        [discriminate|].
      rewrite (vc_step_adjacency _ _ _ _ _ Hit), remove_emitted_offsets.
      apply IH. reflexivity. }
  destruct (vc_iterate_order _ _ _ _ _ _ _ Hvalid Hpos Hdst Hfuel Hit)
    as (order & Hinv & _).
  destruct (vc_iterate_live _ _ _ _ _ _ _ Hvalid Hpos Hdst Hfuel Hit)
    as [_ Hlive].
  pose proof (vi_adj _ _ _ _ _ (vi_core _ _ _ _ _ Hinv)) as Hok.
  intros v Hv.
  assert (∀ t, occ t (neighbours (vc_adjacency st) v) =
               listing indices (vc_emitted_flags st) (index_count / 3) v t)
    as Hcontent by (intros t; apply (ao_content _ _ _ _ _ Hok), Hv).
  split; [exact Hcontent|].
  rewrite (Hlive v Hv). unfold live_sum.
  rewrite <- (zsum_upto_ext
                (λ t, Z.of_nat (occ t (neighbours (vc_adjacency st) v))))
    by (intros t _; rewrite Hcontent; reflexivity).
  rewrite sum_occ_range.
  - rewrite (length_neighbours _ _ _ _ _ _ Hok Hv).
    pose proof (ao_counts _ _ _ _ _ Hok v Hv). lia.
  - intros t Ht. apply occ_pos_in in Ht. rewrite Hcontent in Ht.
    unfold listing in Ht.
    destruct (pending (vc_emitted_flags st) (index_count / 3) t) eqn:Hp;
      [|lia].
    apply pending_spec in Hp. lia.
Qed.

Lemma greedy_adjacency_lists_pending_triangles_witness :
  let st := default (vc_init (replicate 6 0) quad 6 4)
              (vc_iterate 2 1 quad (6 / 3) (vc_init (replicate 6 0) quad 6 4)) in
  offsets (vc_adjacency st) =
    offsets (buildAdjacency (Adjacency_new 6 4) quad 6 4) ∧
  ∀ v, 0 ≤ v < 4 →
    (∀ t, occ t (neighbours (vc_adjacency st) v) =
          if pending (vc_emitted_flags st) (6 / 3) t
          then occ v (corners quad t) else O) ∧
    rd (triangle_counts (vc_adjacency st)) v = rd (vc_live_triangles st) v.
Proof.
  apply (greedy_adjacency_lists_pending_triangles 2 1 (replicate 6 0) quad
           6 4).
  - apply valid_meshb_spec. reflexivity.
  - lia.
  - cbn. lia.
  - vm_compute. discriminate.
  - vm_compute. reflexivity.
Defined.

(** ** Removing a triangle from an adjacency list *)

Lemma remove_scan_absent n i adj index cur :
  (∀ k, i ≤ k < i + Z.of_nat n →
     rd (data adj) (rd (offsets adj) index + k) ≠ cur) →
  remove_scan n i adj index cur = adj.
Proof.
  revert i. induction n as [|n IH]; intros i Habsent; cbn [remove_scan];
    [reflexivity|].
  destruct (Z.eqb_spec (rd (data adj) (rd (offsets adj) index + i)) cur)
    as [Heq|_]; [exfalso; apply (Habsent i); [lia|exact Heq]|].
  apply IH. intros k Hk. apply Habsent. lia.
Qed.

Lemma remove_scan_first n i adj index cur k0 :
  i ≤ k0 < i + Z.of_nat n →
  rd (data adj) (rd (offsets adj) index + k0) = cur →
  (∀ k, i ≤ k < k0 → rd (data adj) (rd (offsets adj) index + k) ≠ cur) →
  remove_scan n i adj index cur =
  mkAdjacency
    (wr (triangle_counts adj) index (u32 (rd (triangle_counts adj) index - 1)))
    (offsets adj)
    (wr (data adj) (rd (offsets adj) index + k0)
        (rd (data adj)
            (rd (offsets adj) index + (rd (triangle_counts adj) index - 1)))).
Proof.
  revert i. induction n as [|n IH]; intros i Hk0 Hhit Hbefore;
    cbn [remove_scan]; [lia|].
  destruct (Z.eqb_spec (rd (data adj) (rd (offsets adj) index + i)) cur)
    as [Heq|Hne].
  - destruct (decide (k0 = i)) as [->|Hne]; [reflexivity|].
    exfalso. apply (Hbefore i); [lia|exact Heq].
  - apply IH; [|exact Hhit|intros k Hk; apply Hbefore; lia].
    destruct (decide (k0 = i)) as [->|]; [contradiction|lia].
Qed.

(** X14.  The removal of lines 285-295, for one vertex [index].  When
    the triangle is not in the list of [index] the adjacency structure is
    returned unchanged.  When it is, only its first occurrence, at place
    [k0] of the list, goes: the last entry of the list is copied over it
    and [triangle_counts[index]] drops by one; the offsets, every other
    count and every other entry of [data] stay (so the order of the list
    is not kept, and a second occurrence of the triangle remains). *)
Theorem remove_triangle_swaps_in_the_last (adj : Adjacency)
    (index current_triangle : Z) :
  let size := rd (triangle_counts adj) index in
  let off := rd (offsets adj) index in
  ((∀ k, 0 ≤ k < size → rd (data adj) (off + k) ≠ current_triangle) →
   remove_triangle adj index current_triangle = adj) ∧
  (∀ k0, 0 ≤ k0 < size →
     rd (data adj) (off + k0) = current_triangle →
     (∀ k, 0 ≤ k < k0 → rd (data adj) (off + k) ≠ current_triangle) →
     remove_triangle adj index current_triangle =
     mkAdjacency
       (wr (triangle_counts adj) index (u32 (size - 1)))
       (offsets adj)
       (wr (data adj) (off + k0) (rd (data adj) (off + (size - 1))))).
Proof.
  intros size off. unfold remove_triangle. fold size. split.
  - intros Habsent. apply remove_scan_absent. intros k Hk.
    apply Habsent. lia.
  - intros k0 Hk0 Hhit Hbefore.
    apply remove_scan_first; [lia|exact Hhit|exact Hbefore].
Qed.

Lemma remove_triangle_swaps_in_the_last_witness :
  let adj := mkAdjacency [3; 1] [0; 3] [7; 5; 9; 4] in
  ((∀ k, 0 ≤ k < 3 → rd (data adj) (0 + k) ≠ 5) →
   remove_triangle adj 0 5 = adj) ∧
  (∀ k0, 0 ≤ k0 < 3 →
     rd (data adj) (0 + k0) = 5 →
     (∀ k, 0 ≤ k < k0 → rd (data adj) (0 + k) ≠ 5) →
     remove_triangle adj 0 5 =
     mkAdjacency
       (wr (triangle_counts adj) 0 (u32 (3 - 1)))
       (offsets adj)
       (wr (data adj) (0 + k0) (rd (data adj) (0 + (3 - 1))))).
Proof.
  exact (remove_triangle_swaps_in_the_last
           (mkAdjacency [3; 1] [0; 3] [7; 5; 9; 4]) 0 5).
Defined.

(** ** Where the FIFO output starts *)

(** Fanning a vertex from a state in which nothing is emitted emits the
    first triangle of its list first. *)
Lemma ff_fan_first indices index_count vertex_count cache_size cap adj v :
  valid_mesh indices index_count vertex_count →
  adj_ok vertex_count index_count cap
    (all_listed indices (index_count / 3)) adj →
  0 ≤ v < vertex_count →
  ∀ n st,
    Z.of_nat (S n) ≤ rd (triangle_counts adj) v →
    ff_core indices index_count vertex_count [] st →
    ∃ rest,
      ff_core indices index_count vertex_count
        (rd (data adj) (rd (offsets adj) v + 0) :: rest)
        (for_loop (S n)
           (λ k s, ff_emit indices cache_size
                     (rd (data adj) (rd (offsets adj) v + k)) s) st).
Proof.
  intros Hvalid Hok Hv.
  assert (∀ k, 0 ≤ k < rd (triangle_counts adj) v →
            0 ≤ rd (data adj) (rd (offsets adj) v + k) < index_count / 3)
    as Hrange.
  { intros k Hk. eapply neighbour_listed; [exact Hok|exact Hv|].
    apply (neighbour_entry _ _ _ _ _ _ _ Hok Hv). lia. }
  induction n as [|n IH]; intros st Hn Hcore.
  - cbn [for_loop]. change (Z.of_nat 0) with 0.
    set (t0 := rd (data adj) (rd (offsets adj) v + 0)).
    destruct (ff_emit_spec _ _ _ cache_size _ st t0 Hvalid Hcore
                (Hrange 0 ltac:(lia)))
      as (order' & Hcore' & [[_ ->]|(Hem & _ & _)] & _).
    + exists []. exact Hcore'.
    + apply (fi_emitted _ _ _ _ _ Hcore) in Hem; [|apply Hrange; lia].
      apply elem_of_nil in Hem. contradiction.
  - destruct (IH st ltac:(lia) Hcore) as (rest & Hcore1).
    change (for_loop (S (S n)) ?f st) with
      (f (Z.of_nat (S n)) (for_loop (S n) f st)). cbn beta.
    set (st1 := for_loop (S n) _ st) in *.
    destruct (ff_emit_spec _ _ _ cache_size _ st1
                (rd (data adj) (rd (offsets adj) v + Z.of_nat (S n)))
                Hvalid Hcore1 (Hrange (Z.of_nat (S n)) ltac:(lia)))
      as (order' & Hcore' & [[_ ->]|(_ & _ & ->)] & _).
    + exists (rest ++ [rd (data adj) (rd (offsets adj) v + Z.of_nat (S n))]).
      exact Hcore'.
    + eexists. exact Hcore'.
Qed.

(** A loop entered with nothing emitted and a current vertex that has a
    triangle puts the first triangle of that vertex first. *)
Lemma ff_loop_first indices index_count vertex_count cache_size cap adj fuel :
  valid_mesh indices index_count vertex_count →
  vertex_count < 4294967296 →
  0 < index_count →
  adj_ok vertex_count index_count cap
    (all_listed indices (index_count / 3)) adj →
  index_count ≤ Z.of_nat fuel → vertex_count ≤ Z.of_nat fuel →
  ∀ n st st',
    ff_inv indices index_count vertex_count [] st →
    0 ≤ ff_current_vertex st < vertex_count →
    0 < rd (triangle_counts adj) (ff_current_vertex st) →
    ff_loop fuel n adj indices vertex_count cache_size st = Some st' →
    take 3 (ff_destination st') =
    corners indices
      (rd (data adj) (rd (offsets adj) (ff_current_vertex st) + 0)).
Proof.
  intros Hvalid HV Hpos Hok Hfuel Hfuel' n st st' Hinv Hcur Hsize Hloop.
  destruct (valid_mesh_faces _ _ _ Hvalid) as [Hic HF].
  assert (ff_current_vertex st ≠ UINT_MAX) as Hlive
    by (unfold UINT_MAX; lia).
  destruct n as [|n]; cbn [ff_loop] in Hloop;
    destruct (Z.eqb_spec (ff_current_vertex st) UINT_MAX);
    try contradiction; [discriminate|].
  destruct (ff_step_spec _ _ _ cache_size _ _ _ _ fuel Hvalid HV Hok Hinv
              Hlive Hfuel Hfuel')
    as (st1 & order1 & Hstep & Hinv1 & _ & _ & _ & Hlen1).
  rewrite Hstep in Hloop. cbn in Hloop.
  set (v := ff_current_vertex st) in *.
  set (t0 := rd (data adj) (rd (offsets adj) v + 0)).
  destruct (ff_fan_first _ _ _ cache_size _ _ v Hvalid Hok Hcur
              (Z.to_nat (rd (triangle_counts adj) v - 1)) st
              ltac:(lia) (fi_core _ _ _ _ _ Hinv)) as (rest & Hfan).
  replace (S (Z.to_nat (rd (triangle_counts adj) v - 1)))
    with (Z.to_nat (rd (triangle_counts adj) v)) in Hfan by lia.
  pose proof (ff_step_destination _ _ _ _ _ _ _ Hstep) as Hdst1.
  fold v in Hdst1.
  pose proof (fi_destination _ _ _ _ _ Hfan) as Htake.
  pose proof (fi_dst_length _ _ _ _ _ Hfan) as Hdlen.
  rewrite <- Hdst1 in Htake, Hdlen.
  assert (take 3 (ff_destination st1) = corners indices t0) as Hfirst.
  { apply (f_equal (take 3)) in Htake. rewrite take_take in Htake.
    cbn [length] in Htake.
    replace (3 `min` (3 * S (length rest)))%nat with 3%nat in Htake by lia.
    rewrite Htake. reflexivity. }
  assert (1 ≤ length order1)%nat as Hone.
  { destruct order1 as [|t order1]; [|cbn; lia]. exfalso.
    pose proof (fi_emitted _ _ _ _ _ (fi_core _ _ _ _ _ Hinv1) t0) as Hem.
    pose proof (fi_emitted _ _ _ _ _ Hfan t0) as Hem'.
    assert (0 ≤ t0 < index_count / 3) as Ht0.
    { apply (fi_order_range _ _ _ _ _ Hfan). constructor. }
    assert (ff_emitted_flags st1 =
            ff_emitted_flags
              (for_loop (Z.to_nat (rd (triangle_counts adj) v))
                 (λ k s, ff_emit indices cache_size
                           (rd (data adj) (rd (offsets adj) v + k)) s) st))
      as Hflags.
    { clear -Hstep. unfold ff_step in Hstep. fold v in Hstep.
      destruct (if _ =? UINT_MAX then _ else _) as [[[cur top] cursor]|];
        [|discriminate].
      cbn in Hstep. injection Hstep as <-. reflexivity. }
    rewrite Hflags in Hem.
    apply Hem in Ht0 as Hiff. apply Hem' in Ht0 as Hiff'.
    assert (t0 ∈ ([] : list Z)) as Habs
      by (apply Hiff, Hiff'; constructor).
    apply elem_of_nil in Habs. exact Habs. }
  rewrite <- Hfirst.
  assert (length (ff_destination st') = length (ff_destination st1)) as Hsame.
  { clear -Hloop Hvalid HV Hok Hfuel Hfuel' Hinv1.
    revert order1 st1 Hinv1 Hloop. induction n as [|n IH];
      intros order1 st1 Hinv1 Hloop; cbn [ff_loop] in Hloop;
      destruct (Z.eqb_spec (ff_current_vertex st1) UINT_MAX) as [|Hlive];
      try (injection Hloop as <-; reflexivity); [discriminate|].
    destruct (ff_step_spec _ _ _ cache_size _ _ _ _ fuel Hvalid HV Hok Hinv1
                Hlive Hfuel Hfuel')
      as (st2 & order2 & Hstep & Hinv2 & _ & _ & _ & Hlen2).
    rewrite Hstep in Hloop. cbn in Hloop.
    rewrite (IH _ _ Hinv2 Hloop). exact Hlen2. }
  apply take_rd_eq; [lia|lia|].
  intros i Hi.
  apply (ff_loop_writes _ _ _ cache_size _ _ fuel Hvalid HV Hok Hfuel Hfuel'
           _ _ _ _ Hinv1 Hloop); lia.
Qed.

(** The first entry of the list of a used vertex is the lowest triangle
    that has the vertex as a corner. *)
Lemma first_neighbour_lowest indices index_count vertex_count v :
  valid_mesh indices index_count vertex_count →
  0 ≤ v < vertex_count →
  let adj := buildAdjacency (Adjacency_new index_count vertex_count) indices
               index_count vertex_count in
  0 < rd (triangle_counts adj) v →
  let t0 := rd (data adj) (rd (offsets adj) v + 0) in
  0 ≤ t0 < index_count / 3 ∧ v ∈ corners indices t0 ∧
  ∀ t, 0 ≤ t < index_count / 3 → v ∈ corners indices t → t0 ≤ t.
Proof.
  intros Hvalid Hv adj Hsize t0.
  pose proof (buildAdjacency_spec _ _ _ Hvalid) as Hbuilt. fold adj in Hbuilt.
  pose proof (built_adj_ok _ _ _ _ Hvalid Hbuilt) as Hok.
  fold (all_listed indices (index_count / 3)) in Hok.
  destruct (ao_tiled _ _ _ _ _ Hok v Hv) as (Hoff0 & _ & HoffN & _).
  pose proof (ao_counts _ _ _ _ _ Hok v Hv) as Hcap.
  assert (t0 ∈ neighbours adj v) as Hin
    by (apply (neighbour_entry _ _ _ _ _ _ _ Hok Hv); lia).
  apply (neighbour_listed _ _ _ _ _ _ _ Hok Hv) in Hin as [Hrange Hocc].
  split; [exact Hrange|]. split; [apply occ_pos_in, Hocc|].
  intros t Ht Hcorner.
  assert (t ∈ neighbours adj v) as Hint.
  { apply (neighbour_listed _ _ _ _ _ _ _ Hok Hv). split; [exact Ht|].
    apply occ_pos_in, Hcorner. }
  apply (neighbours_entry_inv _ _ _ _ _ _ _ Hok Hv) in Hint
    as (k & Hk & ->).
  subst t0.
  rewrite <- !(rd_slice _ _ (rd (triangle_counts adj) v)) by lia.
  fold (neighbours adj v). rewrite (ab_neighbours _ _ _ _ Hbuilt v Hv).
  assert (length (fan indices v (Z.to_nat index_count)) =
          Z.to_nat (rd (triangle_counts adj) v)) as Hlen.
  { rewrite <- (ab_neighbours _ _ _ _ Hbuilt v Hv).
    apply (length_neighbours _ _ _ _ _ _ Hok Hv). }
  unfold rd.
  eapply (fan_sorted indices v (Z.to_nat index_count)
            (Z.to_nat 0) (Z.to_nat k)); [lia| |];
    apply list_lookup_lookup_total_lt; lia.
Qed.

Lemma used_vertex_counted indices index_count vertex_count t u :
  valid_mesh indices index_count vertex_count →
  0 ≤ t < index_count / 3 → u ∈ corners indices t →
  0 < rd (triangle_counts
            (buildAdjacency (Adjacency_new index_count vertex_count) indices
               index_count vertex_count)) u.
Proof.
  intros Hvalid Ht Hu.
  pose proof (corners_range _ _ _ t u Hvalid Ht Hu) as Hrange.
  pose proof (buildAdjacency_spec _ _ _ Hvalid) as Hbuilt.
  pose proof (built_adj_ok _ _ _ _ Hvalid Hbuilt) as Hok.
  fold (all_listed indices (index_count / 3)) in Hok.
  set (adj := buildAdjacency _ _ _ _) in *.
  assert (t ∈ neighbours adj u) as Hin.
  { apply (neighbour_listed _ _ _ _ _ _ _ Hok Hrange). split; [exact Ht|].
    apply occ_pos_in, Hu. }
  pose proof (length_neighbours _ _ _ _ _ _ Hok Hrange) as Hlen.
  destruct (neighbours adj u) as [|x l]; [apply elem_of_nil in Hin; contradiction|].
  cbn [length] in Hlen. lia.
Qed.

(** X15.  The FIFO reorderer starts at the lowest vertex that the mesh
    uses (vertex 0 when it is used; otherwise the first loop iteration
    emits nothing and the input-order scan finds it): the first triangle
    of its output is the lowest-numbered triangle that has that vertex as
    a corner. *)
Theorem fifo_output_starts_at_lowest_used_vertex (fuel : nat)
    (destination indices : list Z)
    (index_count vertex_count cache_size : Z) :
  valid_mesh indices index_count vertex_count →
  vertex_count < 4294967296 →
  0 < index_count →
  index_count ≤ Z.of_nat (length destination) →
  index_count + vertex_count + 2 ≤ Z.of_nat fuel →
  ∃ out v0 t0,
    optimizeVertexCacheFifo_run fuel destination indices index_count
      vertex_count cache_size = Some out ∧
    0 ≤ t0 < index_count / 3 ∧ v0 ∈ corners indices t0 ∧
    (∀ t u, 0 ≤ t < index_count / 3 → u ∈ corners indices t → v0 ≤ u) ∧
    (∀ t, 0 ≤ t < index_count / 3 → v0 ∈ corners indices t → t0 ≤ t) ∧
    take 3 out = corners indices t0.
Proof.
  intros Hvalid HV Hpos Hdst Hfuel.
  destruct (valid_mesh_faces _ _ _ Hvalid) as [Hic HF].
  pose proof (vm_vpos _ _ _ Hvalid) as Hvpos.
  destruct (optimizeVertexCacheFifo_run_spec destination indices index_count
              vertex_count cache_size fuel Hvalid HV Hpos Hdst Hfuel)
    as (out & _ & Hrun & _).
  exists out. pose proof Hrun as Hrun'.
  unfold optimizeVertexCacheFifo_run in Hrun'.
  pose proof (buildAdjacency_spec _ _ _ Hvalid) as Hbuilt.
  pose proof (built_adj_ok _ _ _ _ Hvalid Hbuilt) as Hok.
  fold (all_listed indices (index_count / 3)) in Hok.
  pose proof (ff_init_inv _ _ _ _ cache_size Hvalid Hpos Hdst) as Hinit.
  pose proof (first_neighbour_lowest indices index_count vertex_count)
    as Hfirst.
  pose proof (λ t u, used_vertex_counted indices index_count vertex_count t u
                       Hvalid) as Hused.
  cbn zeta in Hfirst.
  set (adj := buildAdjacency _ _ _ _) in *. clearbody adj.
  destruct (ff_loop fuel fuel adj indices vertex_count cache_size _)
    as [st|] eqn:Hloop; [|discriminate].
  cbn in Hrun'. injection Hrun' as <-.
  pose proof (vm_range _ _ _ Hvalid 0 ltac:(lia)) as Hv0.
  assert (0 ≤ 0 < vertex_count) as Hzero by lia.
  pose proof (ao_counts _ _ _ _ _ Hok 0 Hzero) as Hcap0.
  destruct (Z.lt_ge_cases 0 (rd (triangle_counts adj) 0)) as [Hsome|Hnone].
  - (* vertex 0 is used *)
    exists 0, (rd (data adj) (rd (offsets adj) 0 + 0)).
    split; [exact Hrun|].
    destruct (Hfirst 0 Hvalid Hzero Hsome) as (Ht0 & Hin0 & Hlow).
    split; [exact Ht0|]. split; [exact Hin0|]. split.
    { intros t u Ht Hu. pose proof (corners_range _ _ _ t u Hvalid Ht Hu). lia. }
    split; [exact Hlow|].
    apply (ff_loop_first _ _ _ cache_size _ _ fuel Hvalid HV Hpos Hok
             ltac:(lia) ltac:(lia) fuel _ st Hinit);
      [exact Hzero|exact Hsome|exact Hloop].
  - (* vertex 0 is not used: the first iteration only picks a vertex *)
    assert (rd (triangle_counts adj) 0 = 0) as Hcount0 by lia.
    destruct (scan_input_order_spec (triangle_counts adj) vertex_count HV
                fuel 1 ltac:(lia) ltac:(lia))
      as (r & c' & Hscan & Hc' & Hdead & Hres).
    assert (∀ u, 0 ≤ u < c' → rd (triangle_counts adj) u = 0) as Hdead'.
    { intros u Hu. destruct (decide (u = 0)) as [->|Hne]; [exact Hcount0|].
      pose proof (Hdead u ltac:(lia)).
      pose proof (ao_counts _ _ _ _ _ Hok u ltac:(lia)). lia. }
    destruct Hres as [[_ Hall]|(-> & Hlt & Hlive)].
    { exfalso.
      pose proof (Hused 0 (rd indices (0 * 3 + 0)) ltac:(lia)
                    ltac:(unfold corners; constructor)) as Hpos0.
      rewrite Hdead' in Hpos0; [lia|].
      pose proof (vm_range _ _ _ Hvalid (0 * 3 + 0) ltac:(lia)). lia. }
    set (st0 := ff_init adj destination index_count vertex_count cache_size)
      in *.
    set (st1 := mkFf (ff_live_triangles st0) (ff_cache_timestamps st0)
                  (ff_dead_end st0) 0 (ff_emitted_flags st0) c'
                  (ff_timestamp st0) c' (ff_output_triangle st0)
                  (ff_destination st0)).
    assert (ff_step fuel adj indices vertex_count cache_size st0 = Some st1)
      as Hstep.
    { unfold ff_step.
      change (ff_current_vertex st0) with 0.
      rewrite Hcount0. change (Z.to_nat 0) with O. cbn [for_loop].
      change (ff_dead_end_top st0) with 0.
      unfold getNextVertexNeighbour.
      change (Z.to_nat (0 - 0)) with O. cbn [for_loop fst].
      rewrite Z.eqb_refl.
      unfold getNextVertexDeadEnd.
      assert (pop_dead_end fuel (ff_dead_end st0) 0 (ff_live_triangles st0)
              = Some (None, 0)) as -> by (destruct fuel; reflexivity).
      cbn [mbind option_bind].
      change (ff_input_cursor st0) with 1.
      change (ff_live_triangles st0) with (triangle_counts adj).
      rewrite Hscan. reflexivity. }
    assert (ff_inv indices index_count vertex_count [] st1) as Hinv1.
    { destruct Hinit as [Hcore Hcursor Hskipped Hcurrent].
      constructor.
      - destruct Hcore. constructor; assumption.
      - change (ff_input_cursor st1) with c'. lia.
      - intros u Hu. change (ff_input_cursor st1) with c' in Hu.
        left. change (ff_live_triangles st1) with (triangle_counts adj).
        apply Hdead'. lia.
      - right. change (ff_current_vertex st1) with c'. lia. }
    destruct fuel as [|n]; [lia|]. cbn [ff_loop] in Hloop.
    change (ff_current_vertex st0) with 0 in Hloop. cbn [Z.eqb] in Hloop.
    rewrite Hstep in Hloop. cbn [mbind option_bind] in Hloop.
    exists c', (rd (data adj) (rd (offsets adj) c' + 0)).
    split; [exact Hrun|].
    destruct (Hfirst c' Hvalid ltac:(lia) Hlive) as (Ht0 & Hin0 & Hlow).
    split; [exact Ht0|]. split; [exact Hin0|]. split.
    { intros t u Ht Hu.
      pose proof (corners_range _ _ _ t u Hvalid Ht Hu).
      pose proof (Hused t u Ht Hu) as Hposu.
      destruct (Z.lt_ge_cases u c') as [Hlow'|]; [|lia].
      rewrite Hdead' in Hposu by lia. lia. }
    split; [exact Hlow|].
    apply (ff_loop_first _ _ _ cache_size _ _ (S n) Hvalid HV Hpos Hok
             ltac:(lia) ltac:(lia) n st1 st Hinv1);
      [change (ff_current_vertex st1) with c'; lia|exact Hlive|exact Hloop].
Qed.

(** A mesh that does not use vertex 0. *)
Definition offset_quad : list Z := [1; 2; 3; 1; 3; 4].

Lemma fifo_output_starts_at_lowest_used_vertex_witness :
  ∃ out v0 t0,
    optimizeVertexCacheFifo_run 13 (replicate 6 0) offset_quad 6 5 16
      = Some out ∧
    0 ≤ t0 < 6 / 3 ∧ v0 ∈ corners offset_quad t0 ∧
    (∀ t u, 0 ≤ t < 6 / 3 → u ∈ corners offset_quad t → v0 ≤ u) ∧
    (∀ t, 0 ≤ t < 6 / 3 → v0 ∈ corners offset_quad t → t0 ≤ t) ∧
    take 3 out = corners offset_quad t0.
Proof.
  apply (fifo_output_starts_at_lowest_used_vertex 13 (replicate 6 0)
           offset_quad 6 5 16).
  - apply valid_meshb_spec. reflexivity.
  - lia.
  - lia.
  - cbn. lia.
  - lia.
Defined.

(** ** The adjacency builder on buffers with arbitrary contents *)

Lemma buildAdjacency_spec_any adj0 indices index_count vertex_count :
  valid_mesh indices index_count vertex_count →
  Z.of_nat (length (triangle_counts adj0)) = vertex_count →
  Z.of_nat (length (offsets adj0)) = vertex_count →
  Z.of_nat (length (data adj0)) = index_count →
  adjacency_built indices index_count vertex_count
    (buildAdjacency adj0 indices index_count vertex_count).
Proof.
  intros Hvalid Hcl0 Hol0 Hdl0. unfold buildAdjacency.
  pose proof (vm_pos _ _ _ Hvalid) as Hpos.
  pose proof (vm_vpos _ _ _ Hvalid) as Hvpos.
  pose proof (vm_u32 _ _ _ Hvalid) as Hsmall.
  set (c := fill_counts _ _ _ _).
  destruct (fill_counts_spec indices index_count vertex_count
              (triangle_counts adj0) Hvalid Hcl0) as [Hclen Hc].
  fold c in Hclen, Hc.
  assert (∀ w, 0 ≤ w < vertex_count → 0 ≤ rd c w) as Hnonneg.
  { intros w Hw. rewrite Hc by assumption. lia. }
  assert (psum c vertex_count = index_count) as Htotal.
  { unfold psum.
    rewrite (zsum_upto_ext _
      (λ v, Z.of_nat (uses indices v (Z.to_nat index_count)))).
    - rewrite uses_total; [lia|]. intros p Hp.
      pose proof (vm_range _ _ _ Hvalid p ltac:(lia)). lia.
    - intros v Hv. apply Hc. lia. }
  pose proof (psum_tiled c vertex_count index_count Hnonneg Htotal) as Htiled.
  destruct (fill_offsets_spec vertex_count c (offsets adj0))
    as (Holen & _ & Ho); [exact Hol0|assumption|lia|].
  destruct (fill_offsets _ _ _) as [o1 offset]. cbn [fst snd] in Holen, Ho.
  assert (scatter_inv indices (psum c) vertex_count index_count
            (Z.to_nat index_count)
            (fill_data indices (index_count / 3) (o1, data adj0))) as Hscat.
  { apply fill_data_spec; [assumption| |].
    - eapply tiled_ext; [|exact Htiled]. intros v Hv. apply Hc, Hv.
    - split; [cbn; lia|]. split; [cbn; lia|].
      intros v Hv. cbn [fst snd uses fan]. rewrite Ho by assumption.
      split; [lia|reflexivity]. }
  destruct (fill_data _ _ _) as [o2 d2].
  destruct Hscat as (Ho2len & Hd2len & Hscat). cbn [fst snd] in *.
  destruct (fix_offsets_spec vertex_count c o2 (psum c)) as [Hflen Hf].
  { assumption. }
  { intros v Hv. rewrite Hc by assumption. apply (Hscat v Hv). }
  { intros v Hv. destruct (Htiled v Hv) as (? & ? & ? & _). lia. }
  constructor; cbn [triangle_counts offsets data].
  - lia.
  - lia.
  - assumption.
  - assumption.
  - assumption.
  - assumption.
  - intros v Hv. unfold neighbours. cbn [triangle_counts offsets data].
    rewrite Hf, Hc by assumption. apply (Hscat v Hv).
Qed.

Lemma bind_ext_elem {A B} (f g : A → list B) (l : list A) :
  (∀ x, x ∈ l → f x = g x) → l ≫= f = l ≫= g.
Proof.
  induction l as [|x l IH]; intros Hfg; [reflexivity|].
  cbn. rewrite (Hfg x) by constructor.
  rewrite IH by (intros y Hy; apply Hfg; constructor; exact Hy).
  reflexivity.
Qed.

Lemma list_eq_rd (l1 l2 : list Z) :
  length l1 = length l2 →
  (∀ i, 0 ≤ i < Z.of_nat (length l1) → rd l1 i = rd l2 i) → l1 = l2.
Proof.
  intros Hlen Hrd.
  rewrite <- (take_ge l1 (length l1)), <- (take_ge l2 (length l1)) by lia.
  apply take_rd_eq; [lia|lia|exact Hrd].
Qed.

(** X16.  [buildAdjacency] overwrites everything it is given: whatever
    the three buffers of the [Adjacency] hold when it is called (the
    constructor only allocates them), the result on a valid mesh is the
    same as from zero-filled buffers. *)
Theorem buildAdjacency_ignores_previous_contents (adj0 : Adjacency)
    (indices : list Z) (index_count vertex_count : Z) :
  valid_mesh indices index_count vertex_count →
  Z.of_nat (length (triangle_counts adj0)) = vertex_count →
  Z.of_nat (length (offsets adj0)) = vertex_count →
  Z.of_nat (length (data adj0)) = index_count →
  buildAdjacency adj0 indices index_count vertex_count =
  buildAdjacency (Adjacency_new index_count vertex_count) indices
    index_count vertex_count.
Proof.
  intros Hvalid Hcl Hol Hdl.
  pose proof (vm_vpos _ _ _ Hvalid) as Hvpos.
  pose proof (buildAdjacency_spec_any adj0 _ _ _ Hvalid Hcl Hol Hdl) as Hany.
  pose proof (buildAdjacency_spec _ _ _ Hvalid) as Hnew.
  set (adj1 := buildAdjacency adj0 _ _ _) in *.
  set (adj2 := buildAdjacency (Adjacency_new _ _) _ _ _) in *.
  assert (triangle_counts adj1 = triangle_counts adj2) as Hcounts.
  { apply list_eq_rd.
    - pose proof (ab_counts_length _ _ _ _ Hany).
      pose proof (ab_counts_length _ _ _ _ Hnew). lia.
    - intros v Hv. rewrite (ab_counts_length _ _ _ _ Hany) in Hv.
      rewrite (ab_counts _ _ _ _ Hany), (ab_counts _ _ _ _ Hnew) by exact Hv.
      reflexivity. }
  assert (offsets adj1 = offsets adj2) as Hoffsets.
  { apply list_eq_rd.
    - pose proof (ab_offsets_length _ _ _ _ Hany).
      pose proof (ab_offsets_length _ _ _ _ Hnew). lia.
    - intros v Hv. rewrite (ab_offsets_length _ _ _ _ Hany) in Hv.
      rewrite (ab_offsets _ _ _ _ Hany), (ab_offsets _ _ _ _ Hnew) by exact Hv.
      rewrite Hcounts. reflexivity. }
  assert (data adj1 = data adj2) as Hdata.
  { rewrite (data_is_concat _ _ _ _ Hvpos Hany),
            (data_is_concat _ _ _ _ Hvpos Hnew).
    apply bind_ext_elem. intros v Hv. apply elem_of_zseq in Hv.
    rewrite (ab_neighbours _ _ _ _ Hany v ltac:(lia)),
            (ab_neighbours _ _ _ _ Hnew v ltac:(lia)). reflexivity. }
  destruct adj1, adj2. cbn in *. congruence.
Qed.

Lemma buildAdjacency_ignores_previous_contents_witness :
  buildAdjacency (mkAdjacency [7; 7; 7; 7] [1; 2; 3; 4] [9; 9; 9; 9; 9; 9])
    quad 6 4 =
  buildAdjacency (Adjacency_new 6 4) quad 6 4.
Proof.
  apply (buildAdjacency_ignores_previous_contents
           (mkAdjacency [7; 7; 7; 7] [1; 2; 3; 4] [9; 9; 9; 9; 9; 9]) quad 6 4).
  - apply valid_meshb_spec. reflexivity.
  - reflexivity.
  - reflexivity.
  - reflexivity.
Defined.

(** ** The output as a function of the mesh *)

Lemma indices_read_same m1 m2 d1 d2 p1 p2 index_count :
  take (Z.to_nat index_count) (buffer m1 p1) =
  take (Z.to_nat index_count) (buffer m2 p2) →
  same_indices (indices_read m1 d1 p1 index_count)
    (indices_read m2 d2 p2 index_count) index_count.
Proof.
  intros Htake i Hi.
  assert (∀ (m : memory) (d p : ptr),
            rd (indices_read m d p index_count) i =
            rd (take (Z.to_nat index_count) (buffer m p)) i) as Hread.
  { intros m d p. unfold indices_read.
    destruct (decide (d = p)); [reflexivity|].
    rewrite rd_take by lia. reflexivity. }
  rewrite !Hread, Htake. reflexivity.
Qed.

(** X17.  The triangles either optimizer writes are determined by the
    first [index_count] entries of the index buffer alone: two calls on
    index buffers that agree on these entries write the same
    [index_count] indices, whatever the two destinations held before,
    whatever follows in the index buffers, and whether or not a call is
    in place. *)
Theorem optimizers_depend_on_the_mesh_only (m1 m2 : memory)
    (destination1 destination2 indices1 indices2 : ptr)
    (index_count vertex_count cache_size : Z) (fuel : nat) :
  valid_call m1 destination1 indices1 index_count vertex_count →
  index_count ≤ Z.of_nat (length (buffer m2 destination2)) →
  take (Z.to_nat index_count) (buffer m1 indices1) =
  take (Z.to_nat index_count) (buffer m2 indices2) →
  vertex_count < 4294967296 →
  index_count + vertex_count + 2 ≤ Z.of_nat fuel →
  (∃ m1' m2',
     meshopt_optimizeVertexCache fuel m1 destination1 indices1 index_count
       vertex_count = Some m1' ∧
     meshopt_optimizeVertexCache fuel m2 destination2 indices2 index_count
       vertex_count = Some m2' ∧
     take (Z.to_nat index_count) (buffer m1' destination1) =
     take (Z.to_nat index_count) (buffer m2' destination2)) ∧
  (∃ m1' m2',
     meshopt_optimizeVertexCacheFifo fuel m1 destination1 indices1 index_count
       vertex_count cache_size = Some m1' ∧
     meshopt_optimizeVertexCacheFifo fuel m2 destination2 indices2 index_count
       vertex_count cache_size = Some m2' ∧
     take (Z.to_nat index_count) (buffer m1' destination1) =
     take (Z.to_nat index_count) (buffer m2' destination2)).
Proof.
  intros [Hvalid Hd1] Hd2 Htake HV Hfuel.
  destruct (valid_mesh_faces _ _ _ Hvalid) as [Hic HF].
  pose proof (vm_pos _ _ _ Hvalid) as Hpos.
  pose proof (vm_vpos _ _ _ Hvalid) as Hvpos.
  unfold meshopt_optimizeVertexCache, meshopt_optimizeVertexCacheFifo.
  destruct (Z.eqb_spec index_count 0) as [Hzero|Hnz]; cbn [orb].
  { split; exists m1, m2; rewrite Hzero; auto. }
  destruct (Z.eqb_spec vertex_count 0) as [Hvzero|Hvnz].
  { pose proof (vm_range _ _ _ Hvalid 0 ltac:(lia)). lia. }
  fold (indices_read m1 destination1 indices1 index_count).
  fold (indices_read m2 destination2 indices2 index_count).
  destruct (indices_read_valid m1 destination1 indices1 _ _ Hvalid)
    as [Hvalid' _].
  pose proof (indices_read_same m1 m2 destination1 destination2 indices1
                indices2 index_count Htake) as Hsame.
  split.
  - destruct (optimizeVertexCache_run_same fuel (buffer m1 destination1)
                (buffer m2 destination2) _ _ index_count vertex_count
                Hvalid' Hsame ltac:(lia) Hd1 Hd2 ltac:(lia))
      as (out1 & out2 & Hrun1 & Hrun2 & Hout).
    rewrite Hrun1, Hrun2. cbn. eexists _, _.
    split; [reflexivity|]. split; [reflexivity|].
    rewrite !buffer_insert. exact Hout.
  - destruct (optimizeVertexCacheFifo_run_same fuel (buffer m1 destination1)
                (buffer m2 destination2) _ _ index_count vertex_count
                cache_size Hvalid' HV Hsame ltac:(lia) Hd1 Hd2 Hfuel)
      as (out1 & out2 & Hrun1 & Hrun2 & Hout).
    rewrite Hrun1, Hrun2. cbn. eexists _, _.
    split; [reflexivity|]. split; [reflexivity|].
    rewrite !buffer_insert. exact Hout.
Qed.

Lemma optimizers_depend_on_the_mesh_only_witness :
  (∃ m1' m2',
     meshopt_optimizeVertexCache 12 quad_memory 1%nat 0%nat 6 4 = Some m1' ∧
     meshopt_optimizeVertexCache 12 quad_memory_long 1%nat 0%nat 6 4
       = Some m2' ∧
     take (Z.to_nat 6) (buffer m1' 1%nat) =
     take (Z.to_nat 6) (buffer m2' 1%nat)) ∧
  (∃ m1' m2',
     meshopt_optimizeVertexCacheFifo 12 quad_memory 1%nat 0%nat 6 4 16
       = Some m1' ∧
     meshopt_optimizeVertexCacheFifo 12 quad_memory_long 1%nat 0%nat 6 4 16
       = Some m2' ∧
     take (Z.to_nat 6) (buffer m1' 1%nat) =
     take (Z.to_nat 6) (buffer m2' 1%nat)).
Proof.
  apply (optimizers_depend_on_the_mesh_only quad_memory quad_memory_long
           1%nat 1%nat 0%nat 0%nat 6 4 16 12).
  - split; [apply valid_meshb_spec; reflexivity|vm_compute; discriminate].
  - vm_compute. discriminate.
  - reflexivity.
  - lia.
  - lia.
Defined.

(** ** The time stamps of the FIFO loop *)

(** The time stamps never run ahead of the clock, and the clock advances
    at most three ticks per emitted triangle. *)
Definition stamps_ok (vertex_count cache_size : Z) (st : ff_state) : Prop :=
  Z.of_nat (length (ff_cache_timestamps st)) = vertex_count ∧
  cache_size + 1 ≤ ff_timestamp st ∧
  ff_timestamp st ≤ cache_size + 1 + 3 * ff_output_triangle st ∧
  ∀ v, 0 ≤ v < vertex_count →
    0 ≤ rd (ff_cache_timestamps st) v < ff_timestamp st.

Lemma cache_touch_ok vertex_count cache_size v cts ts :
  0 ≤ ts → ts + 1 < 4294967296 →
  Z.of_nat (length cts) = vertex_count → 0 ≤ v < vertex_count →
  (∀ u, 0 ≤ u < vertex_count → 0 ≤ rd cts u < ts) →
  Z.of_nat (length (cache_touch cache_size v (cts, ts)).1) = vertex_count ∧
  ts ≤ (cache_touch cache_size v (cts, ts)).2 ≤ ts + 1 ∧
  ∀ u, 0 ≤ u < vertex_count →
    0 ≤ rd (cache_touch cache_size v (cts, ts)).1 u
      < (cache_touch cache_size v (cts, ts)).2.
Proof.
  intros Hts Hsmall Hlen Hv Hok. unfold cache_touch.
  destruct (_ >? _); cbn [fst snd].
  - rewrite length_wr, u32_small by lia. split; [exact Hlen|].
    split; [lia|]. intros u Hu.
    destruct (decide (u = v)) as [->|Hne].
    + rewrite rd_wr_eq by lia. lia.
    + rewrite rd_wr_ne by lia. specialize (Hok u Hu). lia.
  - split; [exact Hlen|]. split; [lia|exact Hok].
Qed.

Lemma ff_emit_stamps indices index_count vertex_count cache_size order st t :
  valid_mesh indices index_count vertex_count →
  0 ≤ cache_size → cache_size + 1 + index_count < 4294967296 →
  ff_core indices index_count vertex_count order st →
  0 ≤ t < index_count / 3 →
  stamps_ok vertex_count cache_size st →
  stamps_ok vertex_count cache_size (ff_emit indices cache_size t st).
Proof.
  intros Hvalid Hcs Hsmall Hcore Ht (Hlen & Hlow & Hhigh & Hok).
  destruct (valid_mesh_faces _ _ _ Hvalid) as [Hic HF].
  unfold ff_emit. destruct (rd (ff_emitted_flags st) t) eqn:Hem;
    cbn [negb]; [repeat split; auto; apply Hok; assumption|].
  pose proof (fi_output _ _ _ _ _ Hcore) as Hout.
  assert (t ∉ order) as Hnew.
  { intros Hin. apply (fi_emitted _ _ _ _ _ Hcore) in Hin; [|exact Ht].
    congruence. }
  pose proof (nodup_bounded (t :: order) (index_count / 3) HF) as Hbound.
  cbn [length] in Hbound.
  assert (Z.of_nat (S (length order)) ≤ index_count / 3) as Hlt.
  { apply Hbound.
    - constructor; [exact Hnew|apply (fi_order_nodup _ _ _ _ _ Hcore)].
    - intros u Hu. apply elem_of_cons in Hu as [->|Hu]; [exact Ht|].
      apply (fi_order_range _ _ _ _ _ Hcore), Hu. }
  pose proof (λ v, corners_range _ _ _ t v Hvalid Ht) as Hcorners.
  unfold corners in Hcorners.
  set (a := rd indices (t * 3 + 0)) in *.
  set (b := rd indices (t * 3 + 1)) in *.
  set (c := rd indices (t * 3 + 2)) in *.
  assert (0 ≤ a < vertex_count) as Ha by (apply Hcorners; repeat constructor).
  assert (0 ≤ b < vertex_count) as Hb by (apply Hcorners; repeat constructor).
  assert (0 ≤ c < vertex_count) as Hc by (apply Hcorners; repeat constructor).
  destruct (cache_touch_ok vertex_count cache_size a
              (ff_cache_timestamps st) (ff_timestamp st)
              ltac:(lia) ltac:(lia) Hlen Ha Hok) as (Hl1 & Ht1 & Hok1).
  destruct (cache_touch cache_size a _) as [cts1 ts1]. cbn [fst snd] in *.
  destruct (cache_touch_ok vertex_count cache_size b cts1 ts1
              ltac:(lia) ltac:(lia) Hl1 Hb Hok1) as (Hl2 & Ht2 & Hok2).
  destruct (cache_touch cache_size b _) as [cts2 ts2]. cbn [fst snd] in *.
  destruct (cache_touch_ok vertex_count cache_size c cts2 ts2
              ltac:(lia) ltac:(lia) Hl2 Hc Hok2) as (Hl3 & Ht3 & Hok3).
  destruct (cache_touch cache_size c _) as [cts3 ts3]. cbn [fst snd] in *.
  unfold stamps_ok.
  cbn [ff_cache_timestamps ff_timestamp ff_output_triangle].
  rewrite u32_small by lia.
  split; [exact Hl3|]. split; [lia|]. split; [lia|exact Hok3].
Qed.

Lemma ff_fan_stamps indices index_count vertex_count cache_size cap adj v :
  valid_mesh indices index_count vertex_count →
  0 ≤ cache_size → cache_size + 1 + index_count < 4294967296 →
  adj_ok vertex_count index_count cap
    (all_listed indices (index_count / 3)) adj →
  0 ≤ v < vertex_count →
  ∀ n order st,
    Z.of_nat n ≤ rd (triangle_counts adj) v →
    ff_core indices index_count vertex_count order st →
    stamps_ok vertex_count cache_size st →
    stamps_ok vertex_count cache_size
      (for_loop n
         (λ k s, ff_emit indices cache_size
                   (rd (data adj) (rd (offsets adj) v + k)) s) st).
Proof.
  intros Hvalid Hcs Hsmall Hok Hv.
  induction n as [|n IH]; intros order st Hn Hcore Hstamps;
    [exact Hstamps|].
  cbn [for_loop].
  destruct (ff_fan_spec _ _ _ cache_size _ _ v Hvalid Hok Hv n order st
              ltac:(lia) Hcore) as (order1 & Hcore1 & _).
  cbn zeta in Hcore1.
  apply (ff_emit_stamps _ _ _ _ order1 _ _ Hvalid Hcs Hsmall Hcore1).
  - eapply neighbour_listed; [exact Hok|exact Hv|].
    apply (neighbour_entry _ _ _ _ _ _ _ Hok Hv). lia.
  - apply (IH order st); [lia|exact Hcore|exact Hstamps].
Qed.

Lemma ff_step_stamps fuel adj indices vertex_count cache_size st st' :
  ff_step fuel adj indices vertex_count cache_size st = Some st' →
  let fanned :=
    for_loop (Z.to_nat (rd (triangle_counts adj) (ff_current_vertex st)))
      (λ k s, ff_emit indices cache_size
                (rd (data adj)
                   (rd (offsets adj) (ff_current_vertex st) + k)) s)
      st in
  ff_cache_timestamps st' = ff_cache_timestamps fanned ∧
  ff_timestamp st' = ff_timestamp fanned ∧
  ff_output_triangle st' = ff_output_triangle fanned ∧
  ff_live_triangles st' = ff_live_triangles fanned.
Proof.
  unfold ff_step. set (st1 := for_loop _ _ st).
  destruct (if _ =? UINT_MAX then _ else _) as [[[cur top] cursor]|];
    [|discriminate].
  cbn. intros [= <-]. auto.
Qed.

(** X18.  With a cache size and a mesh small enough for the clock
    ([0 <= cache_size] and [cache_size + 1 + 3 * index_count < 2^32]),
    the unsigned time-stamp arithmetic of the FIFO reorderer never wraps.
    At every loop head the clock [timestamp] lies between
    [cache_size + 1] and [cache_size + 1 + 3 * output_triangle]; every
    vertex has [cache_timestamps[v] < timestamp], so that
    [timestamp - cache_timestamps[v]] is its true age; and the fit test
    [2 * live_triangles[v] + timestamp - cache_timestamps[v]] stays below
    [2^32]. *)
Theorem fifo_time_stamps_never_wrap (fuel n : nat)
    (destination indices : list Z)
    (index_count vertex_count cache_size : Z) (st : ff_state) :
  valid_mesh indices index_count vertex_count →
  vertex_count < 4294967296 →
  0 < index_count →
  index_count ≤ Z.of_nat (length destination) →
  index_count ≤ Z.of_nat fuel → vertex_count ≤ Z.of_nat fuel →
  0 ≤ cache_size → cache_size + 1 + 3 * index_count < 4294967296 →
  let adj := buildAdjacency (Adjacency_new index_count vertex_count) indices
               index_count vertex_count in
  ff_iterate fuel n adj indices vertex_count cache_size
    (ff_init adj destination index_count vertex_count cache_size) = Some st →
  cache_size + 1 ≤ ff_timestamp st ∧
  ff_timestamp st ≤ cache_size + 1 + 3 * ff_output_triangle st ∧
  ∀ v, 0 ≤ v < vertex_count →
    0 ≤ rd (ff_cache_timestamps st) v < ff_timestamp st ∧
    0 ≤ 2 * rd (ff_live_triangles st) v + ff_timestamp st
          - rd (ff_cache_timestamps st) v < 4294967296.
Proof.
  intros Hvalid HV Hpos Hdst Hfuel Hfuel' Hcs Hsmall adj Hit.
  destruct (valid_mesh_faces _ _ _ Hvalid) as [Hic HF].
  pose proof (vm_vpos _ _ _ Hvalid) as Hvpos.
  pose proof (built_adj_ok _ _ _ _ Hvalid (buildAdjacency_spec _ _ _ Hvalid))
    as Hok. fold (all_listed indices (index_count / 3)) in Hok. fold adj in Hok.
  assert (stamps_ok vertex_count cache_size st) as (Hlen & Hlow & Hhigh & Hstamps).
  { revert st Hit. induction n as [|n IH]; intros st Hit;
      cbn [ff_iterate] in Hit.
    - injection Hit as <-. unfold stamps_ok, ff_init.
      cbn [ff_cache_timestamps ff_timestamp ff_output_triangle].
      rewrite u32_small by lia. rewrite length_replicate.
      split; [lia|]. split; [lia|]. split; [lia|].
      intros v Hv. rewrite rd_replicate by lia. lia.
    - destruct (ff_iterate fuel n adj indices vertex_count cache_size _)
        as [st'|] eqn:Hst'; [|discriminate].
      cbn in Hit. destruct (Z.eqb_spec (ff_current_vertex st') UINT_MAX)
        as [|Hlive]; [discriminate|].
      specialize (IH st' eq_refl).
      destruct (ff_iterate_inv fuel n destination indices index_count
                  vertex_count cache_size st' Hvalid HV Hpos Hdst Hfuel Hfuel'
                  Hst') as (order & Hinv & _).
      destruct (fi_current _ _ _ _ _ Hinv) as [[Habs _]|Hcur];
        [contradiction|].
      pose proof (ao_counts _ _ _ _ _ Hok _ Hcur) as Hsize.
      pose proof (ff_fan_stamps _ _ _ cache_size _ _ _ Hvalid Hcs
                    ltac:(lia) Hok Hcur
                    (Z.to_nat (rd (triangle_counts adj) (ff_current_vertex st')))
                    order st' ltac:(lia) (fi_core _ _ _ _ _ Hinv) IH)
        as Hfan.
      destruct (ff_step_stamps _ _ _ _ _ _ _ Hit) as (Hc & Ht & Ho & _).
      unfold stamps_ok. rewrite Hc, Ht, Ho. exact Hfan. }
  destruct (ff_iterate_inv fuel n destination indices index_count
              vertex_count cache_size st Hvalid HV Hpos Hdst Hfuel Hfuel' Hit)
    as (order & Hinv & _).
  pose proof (fi_core _ _ _ _ _ Hinv) as Hcore.
  pose proof (nodup_bounded _ _ HF (fi_order_nodup _ _ _ _ _ Hcore)
                (fi_order_range _ _ _ _ _ Hcore)) as Hbound.
  pose proof (fi_output _ _ _ _ _ Hcore) as Hout.
  split; [exact Hlow|]. split; [exact Hhigh|].
  intros v Hv. split; [apply Hstamps, Hv|].
  pose proof (Hstamps v Hv).
  rewrite (fi_live _ _ _ _ _ Hcore) by exact Hv.
  pose proof (live_sum_bounds indices (ff_emitted_flags st)
                (index_count / 3) v HF). lia.
Qed.

Lemma fifo_time_stamps_never_wrap_witness :
  let adj := buildAdjacency (Adjacency_new 6 4) quad 6 4 in
  let st := default (ff_init adj (replicate 6 0) 6 4 3)
              (ff_iterate 12 1 adj quad 4 3
                 (ff_init adj (replicate 6 0) 6 4 3)) in
  3 + 1 ≤ ff_timestamp st ∧
  ff_timestamp st ≤ 3 + 1 + 3 * ff_output_triangle st ∧
  ∀ v, 0 ≤ v < 4 →
    0 ≤ rd (ff_cache_timestamps st) v < ff_timestamp st ∧
    0 ≤ 2 * rd (ff_live_triangles st) v + ff_timestamp st
          - rd (ff_cache_timestamps st) v < 4294967296.
Proof.
  apply (fifo_time_stamps_never_wrap 12 1 (replicate 6 0) quad 6 4 3).
  - apply valid_meshb_spec. reflexivity.
  - lia.
  - lia.
  - cbn. lia.
  - lia.
  - lia.
  - lia.
  - lia.
  - vm_compute. reflexivity.
Defined.

(** ** The bounds of the cache update *)

(** X19.  The cache update of lines 250-269 stays inside the 16 + 3 slots
    of [cache_new]: from a cache of at most 16 entries it writes
    [cache_write] entries with [3 <= cache_write <= cache_count + 3 <= 19],
    namely the three vertices of the triangle and the old entries that
    are none of them; the array it wrote keeps its length and becomes
    [cache], the old [cache] array becomes [cache_new], and the new
    [cache_count] is [cache_write] cut at 16. *)
Theorem cache_update_stays_in_bounds (cache cache_new : list Z)
    (cache_count a b c : Z) :
  0 ≤ cache_count ≤ cache_size →
  Z.of_nat (length cache) = cache_slots →
  Z.of_nat (length cache_new) = cache_slots →
  ∃ cache' cache_write,
    cache_update cache cache_new cache_count a b c =
      (cache', cache, Z.min cache_write cache_size, cache_write) ∧
    3 ≤ cache_write ∧ cache_write ≤ cache_count + 3 ∧
    cache_write ≤ cache_slots ∧
    Z.of_nat (length cache') = cache_slots ∧
    take (Z.to_nat cache_write) cache' =
      a :: b :: c ::
        survivors a b c (take (Z.to_nat cache_count) cache).
Proof.
  intros Hcount Hlen Hnew.
  unfold cache_slots, max_cache_size, cache_size in *.
  destruct (cache_update_spec cache cache_new cache_count a b c
              ltac:(unfold cache_size; lia) ltac:(lia)
              ltac:(unfold cache_slots, max_cache_size; lia))
    as (cache' & Hupd & Hlen' & Htake).
  cbn zeta in Hupd, Htake.
  set (new := a :: b :: c ::
                survivors a b c (take (Z.to_nat cache_count) cache)) in *.
  pose proof (length_survivors a b c (take (Z.to_nat cache_count) cache))
    as Hsurv.
  rewrite length_take in Hsurv.
  assert (3 ≤ Z.of_nat (length new) ≤ cache_count + 3) as Hbounds
    by (subst new; cbn [length]; lia).
  exists cache', (Z.of_nat (length new)).
  split.
  { rewrite Hupd. unfold cache_size. f_equal. f_equal.
    destruct (Z.gtb_spec (Z.of_nat (length new)) 16); lia. }
  split; [lia|]. split; [lia|]. split; [lia|]. split; [lia|].
  rewrite Nat2Z.id. exact Htake.
Qed.

Lemma cache_update_stays_in_bounds_witness :
  ∃ cache' cache_write,
    cache_update (replicate 19 5) (replicate 19 0) 2 5 6 7 =
      (cache', replicate 19 5, Z.min cache_write cache_size, cache_write) ∧
    3 ≤ cache_write ∧ cache_write ≤ 2 + 3 ∧
    cache_write ≤ cache_slots ∧
    Z.of_nat (length cache') = cache_slots ∧
    take (Z.to_nat cache_write) cache' =
      5 :: 6 :: 7 :: survivors 5 6 7 (take (Z.to_nat 2) (replicate 19 5)).
Proof.
  apply (cache_update_stays_in_bounds (replicate 19 5) (replicate 19 0)
           2 5 6 7).
  - unfold cache_size. lia.
  - reflexivity.
  - reflexivity.
Defined.

(** ** The assertions inside the adjacency builder *)

(** X20.  On a valid mesh the assertions of [buildAdjacency] hold and no
    unsigned value wraps: the running offset after the prefix-sum pass is
    [index_count] ([assert(offset == index_count)]); the scatter pass
    advances the offset of every vertex by exactly its triangle count, so
    in the last pass [offsets[i] >= triangle_counts[i]] and the
    subtraction gives back the offset of the prefix-sum pass.  (The first
    conjunct names the intermediate values of the four passes.) *)
Theorem buildAdjacency_assertions_hold (indices : list Z)
    (index_count vertex_count : Z) :
  valid_mesh indices index_count vertex_count →
  let adj0 := Adjacency_new index_count vertex_count in
  let counts :=
    fill_counts indices index_count vertex_count (triangle_counts adj0) in
  let summed := fill_offsets vertex_count counts (offsets adj0) in
  let scattered :=
    fill_data indices (index_count / 3) (summed.1, data adj0) in
  let restored := fix_offsets vertex_count counts scattered.1 in
  buildAdjacency adj0 indices index_count vertex_count =
    mkAdjacency counts restored scattered.2 ∧
  summed.2 = index_count ∧
  ∀ v, 0 ≤ v < vertex_count →
    rd scattered.1 v = rd summed.1 v + rd counts v ∧
    rd counts v ≤ rd scattered.1 v < 4294967296 ∧
    rd restored v = rd summed.1 v.
Proof.
  intros Hvalid adj0 counts summed scattered restored.
  split.
  { subst restored scattered summed counts. unfold buildAdjacency.
    destruct (fill_offsets _ _ _) as [o off]. cbn [fst].
    destruct (fill_data _ _ _) as [o2 d2]. reflexivity. }
  pose proof (vm_pos _ _ _ Hvalid) as Hpos.
  pose proof (vm_vpos _ _ _ Hvalid) as Hvpos.
  pose proof (vm_u32 _ _ _ Hvalid) as Hsmall.
  destruct (fill_counts_spec indices index_count vertex_count
              (triangle_counts adj0) Hvalid) as [Hclen Hc].
  { cbn. rewrite length_replicate. lia. }
  fold counts in Hclen, Hc.
  assert (∀ w, 0 ≤ w < vertex_count → 0 ≤ rd counts w) as Hnonneg.
  { intros w Hw. rewrite Hc by assumption. lia. }
  assert (psum counts vertex_count = index_count) as Htotal.
  { unfold psum.
    rewrite (zsum_upto_ext _
      (λ v, Z.of_nat (uses indices v (Z.to_nat index_count)))).
    - rewrite uses_total; [lia|]. intros p Hp.
      pose proof (vm_range _ _ _ Hvalid p ltac:(lia)). lia.
    - intros v Hv. apply Hc. lia. }
  pose proof (psum_tiled counts vertex_count index_count Hnonneg Htotal)
    as Htiled.
  destruct (fill_offsets_spec vertex_count counts (offsets adj0))
    as (Holen & Hoff & Ho);
    [cbn; rewrite length_replicate; lia|assumption|lia|].
  fold summed in Holen, Hoff, Ho.
  assert (scatter_inv indices (psum counts) vertex_count index_count
            (Z.to_nat index_count) scattered) as (Hslen & _ & Hscat).
  { apply fill_data_spec; [assumption| |].
    - eapply tiled_ext; [|exact Htiled]. intros v Hv. apply Hc, Hv.
    - split; [cbn [fst]; rewrite Holen; cbn; rewrite length_replicate; lia|].
      split; [cbn; rewrite length_replicate; lia|].
      intros v Hv. cbn [fst snd uses fan]. rewrite Ho by assumption.
      split; [lia|reflexivity]. }
  destruct (fix_offsets_spec vertex_count counts scattered.1 (psum counts))
    as [_ Hf].
  { assumption. }
  { intros v Hv. rewrite Hc by assumption. apply (Hscat v Hv). }
  { intros v Hv. destruct (Htiled v Hv) as (? & ? & ? & _). lia. }
  fold restored in Hf.
  split; [rewrite Hoff; exact Htotal|].
  intros v Hv. destruct (Hscat v Hv) as [Hsv _].
  destruct (Htiled v Hv) as (Hb0 & Hc0 & HbN & _).
  rewrite Ho, Hf by exact Hv. rewrite Hsv, Hc by exact Hv.
  rewrite Hc in HbN by exact Hv. lia.
Qed.

Lemma buildAdjacency_assertions_hold_witness :
  let adj0 := Adjacency_new 6 4 in
  let counts := fill_counts quad 6 4 (triangle_counts adj0) in
  let summed := fill_offsets 4 counts (offsets adj0) in
  let scattered := fill_data quad (6 / 3) (summed.1, data adj0) in
  let restored := fix_offsets 4 counts scattered.1 in
  buildAdjacency adj0 quad 6 4 = mkAdjacency counts restored scattered.2 ∧
  summed.2 = 6 ∧
  ∀ v, 0 ≤ v < 4 →
    rd scattered.1 v = rd summed.1 v + rd counts v ∧
    rd counts v ≤ rd scattered.1 v < 4294967296 ∧
    rd restored v = rd summed.1 v.
Proof.
  apply (buildAdjacency_assertions_hold quad 6 4).
  apply valid_meshb_spec. reflexivity.
Defined.
